(** * DVIDSparkServices.reconutils.morpho: split-body relabeling and stitching

    A shallow embedding of [DVIDSparkServices/reconutils/morpho.py] and the
    properties its specification states about it.

    Conventions of the embedding.
    - Label identifiers, voxel counts and offsets are naturals ([N]).  Where
      the source names a fixed width ([numpy.uint64] for the offset
      accumulator and the relabelled volume, the [int32] view taken by
      [contingency_table]) the wrap-around is written out.
    - Python dicts whose iteration order cannot influence a result are
      [gmap]s; the dict of dicts that the pairwise stage iterates to emit
      its merge list is an association list in insertion order.
    - A Python exception is the [Raise] branch of [result].
    - A numpy array is a record of a shape and its C-order data.
    - Spark RDD operations are list operations on the driver: [map] is a
      monadic map whose first exception fails the job, [groupByKey] groups
      in order of first appearance, [collect] is the identity. *)

From Stdlib Require Import NArith ZArith List Lia Strings.String Strings.Ascii.
From stdpp Require Import base option numbers list gmap sets fin_maps fin_sets relations strings sorting pretty.

Local Open Scope N_scope.

(** ** Exceptions *)

Inductive exn : Type :=
  | AssertionError (msg : string)
  | KeyError
  | ValueError (msg : string)
  | IndexError
  | Exception (msg : string).

Inductive result (A : Type) : Type :=
  | Ok (a : A)
  | Raise (e : exn).
Arguments Ok {A} a.
Arguments Raise {A} e.

#[global] Instance result_ret : MRet result := λ A a, Ok a.
#[global] Instance result_bind : MBind result := λ A B k r,
  match r with
  | Ok a => k a
  | Raise e => Raise e
  end.

Definition assert (b : bool) (msg : string) : result unit :=
  if b then Ok tt else Raise (AssertionError msg).

Definition of_option {A} (o : option A) (e : exn) : result A :=
  match o with
  | Some a => Ok a
  | None => Raise e
  end.

Definition is_raise {A} (r : result A) : Prop :=
  match r with
  | Ok _ => False
  | Raise _ => True
  end.

(** ** Global reconciliation ([stitch], the loop over [merge_list]) *)

Module Reconcile.

(** One iteration of [for merger in merge_list].  The two dicts
    [body1body2] and [body2body1] are threaded through. *)
Definition add_member (body2 tbody : N) (b21 : gmap N (gset N)) : gmap N (gset N) :=
  alter (λ s, {[tbody]} ∪ s) body2 b21.

Definition redirect (body2 : N) (st : gmap N N * gmap N (gset N)) (tbody : N)
    : gmap N N * gmap N (gset N) :=
  (<[tbody := body2]> st.1, add_member body2 tbody st.2).

Definition step (st : gmap N N * gmap N (gset N)) (merger : N * N)
    : gmap N N * gmap N (gset N) :=
  let body1body2 := st.1 in
  let body2body1 := st.2 in
  let body1 := default merger.1 (body1body2 !! merger.1) in
  let body2 := default merger.2 (body1body2 !! merger.2) in
  let body2body1 :=
    match body2body1 !! body2 with
    | None => <[body2 := ∅]> body2body1
    | Some _ => body2body1
    end in
  let body2body1 := add_member body2 body1 body2body1 in
  let body1body2 := <[body1 := body2]> body1body2 in
  match body2body1 !! body1 with
  | Some tbodies => foldl (redirect body2) (body1body2, body2body1) (elements tbodies)
  | None => (body1body2, body2body1)
  end.

Definition run (merge_list : list (N * N)) : gmap N N * gmap N (gset N) :=
  foldl step (∅, ∅) merge_list.

(** [body2body = zip(body1body2.keys(), body1body2.values())] *)
Definition body2body (merge_list : list (N * N)) : list (N * N) :=
  map_to_list (run merge_list).1.

(** The label a global id ends up with once the broadcast list is applied
    (the [label_mappings] of [relabel]: identity, overwritten by every
    pair of the list whose key is present). *)
Definition apply_map (m : gmap N N) (x : N) : N := default x (m !! x).

Definition root (m : gmap N N) (r : N) : Prop := m !! r = None ∨ m !! r = Some r.

(** Representation invariant of the two dicts. *)
Record inv (st : gmap N N * gmap N (gset N)) : Prop := {
  inv_root : ∀ k r, st.1 !! k = Some r → root st.1 r;
  inv_member : ∀ k r, st.1 !! k = Some r → ∃ s, st.2 !! r = Some s ∧ k ∈ s;
  inv_live : ∀ r s x, st.2 !! r = Some s → x ∈ s → root st.1 r → st.1 !! x = Some r
}.

(** Two labels are connected when a chain of merge edges joins them. *)
Definition edge (merge_list : list (N * N)) (a b : N) : Prop := (a, b) ∈ merge_list.
Definition connected (merge_list : list (N * N)) : relation N := rtsc (edge merge_list).

End Reconcile.

(** ** numpy arrays of labels *)

(** A 3D array: its shape (z, y, x) and its elements in C order. *)
Record ndarray : Type := {
  shape : nat * nat * nat;
  data : list N
}.

Definition array_size (a : ndarray) : nat :=
  let '(nz, ny, nx) := shape a in (nz * ny * nx)%nat.

Definition well_shaped (a : ndarray) : bool :=
  bool_decide (length (data a) = array_size a).

(** Element-wise operation on an array. *)
Definition array_map (f : N → N) (a : ndarray) : ndarray :=
  {| shape := shape a; data := f <$> data a |}.

(** [numpy.unique]: the sorted distinct elements. *)
Definition unique (l : list N) : list N := merge_sort N.le (remove_dups l).

(** Bound of a Python slice on an axis of length [n]: a negative index
    counts from the end, and the result is clipped to [0, n]. *)
Definition slice_bound (n : nat) (i : Z) : nat :=
  Z.to_nat (Z.min (Z.of_nat n) (Z.max 0 (if (i <? 0)%Z then (i + Z.of_nat n)%Z else i))).

Definition slice_range (n : nat) (start stop : Z) : list nat :=
  seq (slice_bound n start) (slice_bound n stop - slice_bound n start).

(** [a[z1:z2, y1:y2, x1:x2]] *)
Definition slice3 (a : ndarray) (zr yr xr : Z * Z) : ndarray :=
  let '(nz, ny, nx) := shape a in
  let zs := slice_range nz zr.1 zr.2 in
  let ys := slice_range ny yr.1 yr.2 in
  let xs := slice_range nx xr.1 xr.2 in
  {| shape := (length zs, length ys, length xs);
     data := z ← zs; y ← ys; x ← xs; [nth ((z * ny + y) * nx + x)%nat (data a) 0] |}.

(** ** Subvolume descriptors *)

Record box : Type := {
  x1 : Z; x2 : Z;
  y1 : Z; y2 : Z;
  z1 : Z; z2 : Z
}.

Record Subvolume : Type := {
  sv_index : N;
  sv_box : box;
  border : Z;
  local_regions : list (N * box)
}.

(** ** Spark primitives, on the driver *)

Fixpoint group_insert {K V} `{EqDecision K} (k : K) (v : V) (g : list (K * list V))
    : list (K * list V) :=
  match g with
  | [] => [(k, [v])]
  | (k', vs) :: g' =>
      if decide (k = k') then (k', vs ++ [v]) :: g' else (k', vs) :: group_insert k v g'
  end.

Definition groupByKey {K V} `{EqDecision K} (l : list (K * V)) : list (K * list V) :=
  foldl (λ g kv, group_insert kv.1 kv.2 g) [] l.

(** [reduceByKey(reduce_mappings)] with [reduce_mappings b1 b2 = b1.extend(b2)] *)
Definition reduceByKey_extend {K V} `{EqDecision K} (l : list (K * list V)) : list (K * list V) :=
  (λ kv : K * list (list V), (kv.1, mjoin kv.2)) <$> groupByKey l.

(** ** The stitching pipeline ([stitch]) *)

Definition uint64 (n : N) : N := n mod 2 ^ 64.

Definition sum_N (l : list N) : N := foldr N.add 0 l.

(** The loop that fills [offsets]: it returns the dict and the running
    [numpy.uint64] total. *)
Definition assign_offsets (chunks : list (Subvolume * N)) : gmap N N * N :=
  foldl (λ st chunk, (<[sv_index chunk.1 := st.2]> st.1, uint64 (st.2 + chunk.2)))
        (∅, uint64 0) chunks.

Definition intersects (pt1 pt2 pt1_2 pt2_2 : Z) : result (Z * Z * Z * Z) :=
  _ ← assert (bool_decide (pt1 ≤ pt2)%Z) "point 1 greater than point 2";
  _ ← assert (bool_decide (pt1_2 ≤ pt2_2)%Z) "point 1_2 greater than point 2_2";
  let val1 := Z.max pt1 pt1_2 in
  let val2 := Z.min pt2 pt2_2 in
  let size := (val2 - val1)%Z in
  let npt1 := (val1 - pt1)%Z in
  let npt1_2 := (val1 - pt1_2)%Z in
  Ok (npt1, (npt1 + size)%Z, npt1_2, (npt1_2 + size)%Z).

Definition extract_boundaries (key_labels : Subvolume * ndarray)
    : result (list ((N * N) * (Subvolume * ndarray))) :=
  let '(subvolume, labels) := key_labels in
  mapM (λ partner : N * box,
    let key1 := sv_index subvolume in
    let key2 := partner.1 in
    let box2 := partner.2 in
    let '(key1, key2) := if bool_decide (key2 < key1) then (key2, key1) else (key1, key2) in
    '(offx1, offx2, _, _) ←
      intersects (x1 (sv_box subvolume) - border subvolume) (x2 (sv_box subvolume) + border subvolume)
                 (x1 box2 - border subvolume) (x2 box2 + border subvolume);
    '(offy1, offy2, _, _) ←
      intersects (y1 (sv_box subvolume) - border subvolume) (y2 (sv_box subvolume) + border subvolume)
                 (y1 box2 - border subvolume) (y2 box2 + border subvolume);
    '(offz1, offz2, _, _) ←
      intersects (z1 (sv_box subvolume) - border subvolume) (z2 (sv_box subvolume) + border subvolume)
                 (z1 box2 - border subvolume) (z2 box2 + border subvolume);
    let labels_cropped := slice3 labels (offz1, offz2) (offy1, offy2) (offx1, offx2) in
    Ok ((key1, key2), (subvolume, labels_cropped)))
  (local_regions subvolume).

(** Insertion-ordered dicts of the pairwise stage. *)
Fixpoint assoc_get {V} (k : N) (d : list (N * V)) : option V :=
  match d with
  | [] => None
  | (k', v) :: d' => if decide (k = k') then Some v else assoc_get k d'
  end.

Fixpoint assoc_set {V} (k : N) (v : V) (d : list (N * V)) : list (N * V) :=
  match d with
  | [] => [(k, v)]
  | (k', v') :: d' => if decide (k = k') then (k', v) :: d' else (k', v') :: assoc_set k v d'
  end.

(** The body of [for (z, y, x), body1 in numpy.ndenumerate(boundary1)]. *)
Definition count_overlap (body2body : list (N * list (N * N))) (bodies : N * N)
    : result (list (N * list (N * N))) :=
  let '(body1, body2) := bodies in
  if bool_decide (body2 = 0 ∨ body1 = 0) then Ok body2body
  else
    bodydict ← of_option (assoc_get body2 body2body) KeyError;
    let bodydict :=
      match assoc_get body1 bodydict with
      | None => assoc_set body1 0 bodydict
      | Some _ => bodydict
      end in
    count ← of_option (assoc_get body1 bodydict) KeyError;
    Ok (assoc_set body2 (assoc_set body1 (count + 1) bodydict) body2body).

Fixpoint foldM {A B} (f : B → A → result B) (b : B) (l : list A) : result B :=
  match l with
  | [] => Ok b
  | a :: l' => b' ← f b a; foldM f b' l'
  end.

(** [vigra.analysis.applyMapping(labels, mapping, allow_incomplete_mapping, out)]:
    a label missing from the mapping passes through when the mapping may
    be incomplete and is a [KeyError] otherwise; [out] must have the shape
    of [labels]. *)
Definition applyMapping (labels : ndarray) (mapping : gmap N N)
    (allow_incomplete_mapping : bool) (out_shape : nat * nat * nat) : result ndarray :=
  if bool_decide (shape labels ≠ out_shape)
  then Raise (ValueError "applyMapping(): Output array has wrong shape.")
  else
    new_data ← mapM (λ l, match mapping !! l with
                          | Some l' => Ok l'
                          | None => if allow_incomplete_mapping then Ok l else Raise KeyError
                          end) (data labels);
    Ok {| shape := shape labels; data := new_data |}.

(** [stitcher] once the interface slab [boundary2[z1:z2, y1:y2, x1:x2]] is
    chosen: the overlap counts, the merge list and its offsets. *)
Definition stitcher_merge_list (subvolume_offsets : gmap N N)
    (subvolume1 subvolume2 : Subvolume) (boundary1 boundary2 : ndarray)
    (zr yr xr : nat * nat) : result (N * list (N * N)) :=
  let eligible_bodies : gset N :=
    list_to_set (unique (data (slice3 boundary2
      (Z.of_nat zr.1, Z.of_nat zr.2) (Z.of_nat yr.1, Z.of_nat yr.2)
      (Z.of_nat xr.1, Z.of_nat xr.2)))) in
  let label2_bodies := unique (data boundary2) in
  let body2body : list (N * list (N * N)) :=
    foldl (λ d body, if bool_decide (body = 0) then d else assoc_set body [] d)
          [] label2_bodies in
  body2body ← foldM count_overlap body2body (zip (data boundary1) (data boundary2));
  let merge_list :=
    '(body2, bodydict) ← body2body;
    if bool_decide (body2 ∈ eligible_bodies)
    then '(body1, val) ← bodydict;
         if bool_decide (0 < val) then [(body1, body2)] else []
    else [] in
  offset1 ← of_option (subvolume_offsets !! sv_index subvolume1) KeyError;
  offset2 ← of_option (subvolume_offsets !! sv_index subvolume2) KeyError;
  let merge_list := (λ merger : N * N, (merger.1 + offset1, merger.2 + offset2)) <$> merge_list in
  Ok (sv_index subvolume1, merge_list).

Section stitch.
(** [Subvolume.touches] is defined outside this module: a parameter. *)
Variable touches : Z → Z → Z → Z → bool.

(** The slab of an axis of length [n]: its middle plane when the two
    boxes touch along the axis, the whole axis otherwise. *)
Definition interface (n : nat) (p1 p2 p1_2 p2_2 : Z) : nat * nat :=
  if touches p1 p2 p1_2 p2_2 then ((n / 2)%nat, (n / 2 + 1)%nat) else (0%nat, n).

Definition stitcher (subvolume_offsets : gmap N N)
    (key_boundary : (N * N) * list (Subvolume * ndarray)) : result (N * list (N * N)) :=
  let '(key, boundary_list) := key_boundary in
  match boundary_list with
  | [(subvolume1, boundary1); (subvolume2, boundary2)] =>
      let '(subvolume1, subvolume2, boundary1, boundary2) :=
        if bool_decide (sv_index subvolume2 < sv_index subvolume1)
        then (subvolume2, subvolume1, boundary2, boundary1)
        else (subvolume1, subvolume2, boundary1, boundary2) in
      if bool_decide (shape boundary1 ≠ shape boundary2)
      then Raise (Exception "Extracted boundaries are different shapes")
      else
        let '(sz2, sy2, sx2) := shape boundary1 in
        let box1 := sv_box subvolume1 in
        let box2 := sv_box subvolume2 in
        let xr := interface sx2 (x1 box1) (x2 box1) (x1 box2) (x2 box2) in
        let yr := interface sy2 (y1 box1) (y2 box1) (y1 box2) (y2 box2) in
        let zr := interface sz2 (z1 box1) (z2 box1) (z1 box2) (z2 box2) in
        stitcher_merge_list subvolume_offsets subvolume1 subvolume2 boundary1 boundary2
                            zr yr xr
  | _ => Raise (Exception "Expects exactly two subvolumes per boundary")
  end.

Definition relabel (subvolume_offsets : gmap N N) (master_merge_list : list (N * N))
    (key_label_mapping : Subvolume * ndarray) : result (Subvolume * ndarray) :=
  let '(subvolume, labels) := key_label_mapping in
  offset ← of_option (subvolume_offsets !! sv_index subvolume) KeyError;
  let offset := uint64 offset in
  let labels := array_map (λ l, uint64 (l + offset)) labels in
  let labels := array_map (λ l, if bool_decide (l = offset) then 0 else l) labels in
  let mapping_col := unique (data labels) in
  let label_mappings : gmap N N := list_to_map (zip mapping_col mapping_col) in
  let label_mappings :=
    foldl (λ lm (mapping : N * N),
             if bool_decide (is_Some (lm !! mapping.1))
             then <[mapping.1 := mapping.2]> lm else lm)
          label_mappings master_merge_list in
  new_labels ← applyMapping labels label_mappings true (shape labels);
  Ok (subvolume, new_labels).

(** [label_chunks] is the list of [(subvol, (seg_vol, max_id))]. *)
Definition merge_edges (label_chunks : list (Subvolume * (ndarray * N)))
    : result (list (N * N)) :=
  let subvolume_offsets := (assign_offsets ((λ c, (c.1, c.2.2)) <$> label_chunks)).1 in
  mapped_boundaries ← mapM extract_boundaries ((λ c, (c.1, c.2.1)) <$> label_chunks);
  let grouped_boundaries := groupByKey (mjoin mapped_boundaries) in
  mappings ← mapM (stitcher subvolume_offsets) grouped_boundaries;
  let all_mappings := reduceByKey_extend mappings in
  Ok (mjoin (snd <$> all_mappings)).

Definition stitch (label_chunks : list (Subvolume * (ndarray * N)))
    : result (list (Subvolume * ndarray)) :=
  let subvolume_offsets := (assign_offsets ((λ c, (c.1, c.2.2)) <$> label_chunks)).1 in
  merge_list ← merge_edges label_chunks;
  let master_merge_list := Reconcile.body2body merge_list in
  mapM (relabel subvolume_offsets master_merge_list) ((λ c, (c.1, c.2.1)) <$> label_chunks).

End stitch.

(** ** Finite mappings ([reverse_dict], [compose_mappings]) *)

(** [dict(pairs)]: a later pair overwrites an earlier one with the same key. *)
Definition dict (pairs : list (N * N)) : gmap N N :=
  foldl (λ d kv, <[kv.1 := kv.2]> d) ∅ pairs.

Definition reverse_dict (d : gmap N N) : result (gmap N N) :=
  let rev := dict (prod_swap <$> map_to_list d) in
  _ ← assert (bool_decide (size rev = size d)) "dict is not reversable";
  Ok rev.

(** One link of the chain: [{k: BtoC[v] for k, v in AtoB.items()}]. *)
Definition compose2 (AtoB BtoC : gmap N N) : result (gmap N N) :=
  if bool_decide (map_Forall (λ _ v, is_Some (BtoC !! v)) AtoB)
  then Ok (omap (λ v, BtoC !! v) AtoB)
  else Raise KeyError.

Definition compose_mappings (mappings : list (gmap N N)) : result (gmap N N) :=
  match mappings with
  | [] => Raise IndexError
  | AtoB :: rest => foldM compose2 AtoB rest
  end.

(** ** Overlap tables ([contingency_table], [row_argmax]) *)

(** A [scipy.sparse.coo_matrix]: its shape and its stored entries
    (row, column, data) in storage order. *)
Record coo_matrix : Type := {
  coo_shape : nat * nat;
  coo_entries : list (N * N * N)
}.

Inductive table : Type :=
  | Dense (rows : list (list N))
  | Sparse (m : coo_matrix).

(** [.view(numpy.int32)] of a [uint32] value. *)
Definition view_int32 (n : N) : Z :=
  let z := Z.of_N (n mod 2 ^ 32) in
  if (z <? 2 ^ 31)%Z then z else (z - 2 ^ 32)%Z.

Definition lex_lt (a b : N * N) : bool :=
  (a.1 <? b.1) || ((a.1 =? b.1) && (a.2 <? b.2)).

(** Insertion of one (row, column, data) triple into a list kept sorted by
    [key], adding the data of a duplicate. *)
Fixpoint sorted_insert (key : N * N → N * N) (e : N * N * N) (es : list (N * N * N))
    : list (N * N * N) :=
  match es with
  | [] => [e]
  | e' :: es' =>
      if bool_decide (key e.1 = key e'.1) then (e'.1, e'.2 + e.2) :: es'
      else if lex_lt (key e.1) (key e'.1) then e :: e' :: es'
      else e' :: sorted_insert key e es'
  end.

(** [coo_matrix.sum_duplicates]: entries ordered by [numpy.lexsort((row, col))],
    that is by column and then by row, duplicates summed. *)
Definition sum_duplicates (m : coo_matrix) : coo_matrix :=
  {| coo_shape := coo_shape m;
     coo_entries := foldr (sorted_insert prod_swap) [] (coo_entries m) |}.

(** [coo_matrix.tocsr]: entries ordered by row and then by column. *)
Definition tocsr (m : coo_matrix) : coo_matrix :=
  {| coo_shape := coo_shape m;
     coo_entries := foldr (sorted_insert id) [] (coo_entries m) |}.

(** [scipy.sparse.coo_matrix((ones, (rows, cols)))]: the shape is inferred
    from the largest indices; a negative index is refused. *)
Definition coo_of_indices (rows cols : list Z) : result coo_matrix :=
  if bool_decide (rows = [] ∨ cols = [])
  then Raise (ValueError "cannot infer dimensions from zero sized index arrays")
  else if bool_decide (Exists (λ i, i < 0)%Z rows)
  then Raise (ValueError "negative row index found")
  else if bool_decide (Exists (λ i, i < 0)%Z cols)
  then Raise (ValueError "negative column index found")
  else Ok {| coo_shape := (S (max_list_with Z.to_nat rows),
                           S (max_list_with Z.to_nat cols));
             coo_entries := (λ rc : Z * Z, (Z.to_N rc.1, Z.to_N rc.2, 1)) <$> zip rows cols |}.

(** An index into a dense axis of length [dim]: a negative index counts
    from the end. *)
Definition dense_index (dim : nat) (i : Z) : result nat :=
  if bool_decide (0 ≤ i < Z.of_nat dim)%Z then Ok (Z.to_nat i)
  else if bool_decide (- Z.of_nat dim ≤ i < 0)%Z then Ok (Z.to_nat (i + Z.of_nat dim))
  else Raise IndexError.

Definition max_Z (l : list Z) : Z := foldr Z.max (hd 0%Z l) l.

(** [numpy.add.at(table, [vol1, vol2], 1)] for one pair of indices. *)
Definition add_at (nrows ncols : nat) (t : list (list N)) (rc : Z * Z)
    : result (list (list N)) :=
  r ← dense_index nrows rc.1;
  c ← dense_index ncols rc.2;
  Ok (alter (alter (λ n, n + 1) c) r t).

(** [numpy.zeros((max1 + 1, max2 + 1))] followed by
    [numpy.add.at(table, [vol1, vol2], 1)]. *)
Definition dense_of_indices (rows cols : list Z) : result (list (list N)) :=
  if bool_decide (rows = [] ∨ cols = [])
  then Raise (ValueError "zero-size array to reduction operation maximum which has no identity")
  else if bool_decide (max_Z rows + 1 < 0 ∨ max_Z cols + 1 < 0)%Z
  then Raise (ValueError "negative dimensions are not allowed")
  else
    let nrows := Z.to_nat (max_Z rows + 1) in
    let ncols := Z.to_nat (max_Z cols + 1) in
    foldM (add_at nrows ncols) (replicate nrows (replicate ncols 0)) (zip rows cols).

Definition contingency_table (vol1 vol2 : ndarray) (sparse : bool) : result table :=
  let vol1 := view_int32 <$> data vol1 in
  let vol2 := view_int32 <$> data vol2 in
  _ ← assert (bool_decide (length vol1 = length vol2)) EmptyString;
  if sparse
  then table ← coo_of_indices vol1 vol2; Ok (Sparse (sum_duplicates table))
  else table ← dense_of_indices vol1 vol2; Ok (Dense table).

(** [numpy.argmax] of one row: the first index holding the maximum. *)
Definition argmax (row : list N) : result N :=
  match row with
  | [] => Raise (ValueError "attempt to get argmax of an empty sequence")
  | x :: xs =>
      Ok (foldl (λ (st : N * N * N) v,
                   let '(best, best_val, i) := st in
                   if bool_decide (best_val < v) then (i, v, i + 1) else (best, best_val, i + 1))
                (0, x, 1) xs).1.1
  end.

(** The loop body of [_sparse_row_argmax]; [row_maxcols] holds, per row,
    the largest element seen and its column. *)
Definition sparse_argmax_step (row_maxcols : list (N * N)) (e : N * N * N)
    : result (list (N * N)) :=
  let '(row, col, element) := e in
  prev ← of_option (row_maxcols !! N.to_nat row) IndexError;
  if bool_decide (prev.1 < element)
  then Ok (<[N.to_nat row := (element, col)]> row_maxcols)
  else Ok row_maxcols.

Definition _sparse_row_argmax (entries : list (N * N * N)) (num_dense_rows : nat)
    : result (list N) :=
  row_maxcols ← foldM sparse_argmax_step (replicate num_dense_rows (0, 0)) entries;
  Ok (row_maxcols.*2).

Definition row_argmax (t : table) : result (list N) :=
  match t with
  | Dense rows => mapM argmax rows
  | Sparse m => _sparse_row_argmax (coo_entries m) (coo_shape m).1
  end.

Fixpoint transpose_rows (ncols : nat) (rows : list (list N)) : list (list N) :=
  match ncols with
  | O => []
  | S n => transpose_rows n rows ++ [(λ row, nth n row 0) <$> rows]
  end.

Definition transpose (t : table) : table :=
  match t with
  | Dense rows => Dense (transpose_rows (length (hd [] rows)) rows)
  | Sparse m =>
      Sparse {| coo_shape := ((coo_shape m).2, (coo_shape m).1);
                coo_entries := (λ e : N * N * N, (e.1.2, e.1.1, e.2)) <$> coo_entries m |}
  end.

Inductive axis : Type := Axis0 | Axis1.

Definition matrix_argmax (m : table) (ax : axis) : result (list N) :=
  match ax with
  | Axis0 => row_argmax (transpose m)
  | Axis1 => row_argmax m
  end.

(** ** vigra's labelling functions *)

(** [vigra.analysis.relabelConsecutive(labels, start_label=1)] (zeros are
    kept): labels are numbered 1, 2, ... in order of first appearance.
    Returns the relabelled array, the largest new label and the dict from
    old to new labels. *)
Definition relabelConsecutive (labels : ndarray) : ndarray * N * gmap N N :=
  let labelmap : gmap N N :=
    foldl (λ m old, match m !! old with
                    | Some _ => m
                    | None => <[old := N.of_nat (size m)]> m
                    end) {[0 := 0]} (data labels) in
  (array_map (λ old, default 0 (labelmap !! old)) labels,
   N.of_nat (size labelmap) - 1, labelmap).

(** The direct (6-) neighbours of element [i] of an array of shape [sh]. *)
Definition neighbours (sh : nat * nat * nat) (i : nat) : list nat :=
  let '(nz, ny, nx) := sh in
  let x := (i mod nx)%nat in
  let y := ((i / nx) mod ny)%nat in
  let z := (i / (nx * ny))%nat in
  (if (0 <? x)%nat then [(i - 1)%nat] else []) ++
  (if (S x <? nx)%nat then [(i + 1)%nat] else []) ++
  (if (0 <? y)%nat then [(i - nx)%nat] else []) ++
  (if (S y <? ny)%nat then [(i + nx)%nat] else []) ++
  (if (0 <? z)%nat then [(i - nx * ny)%nat] else []) ++
  (if (S z <? nz)%nat then [(i + nx * ny)%nat] else []).

(** One round of propagation: every foreground element takes the smallest
    provisional id among itself and its neighbours of the same label. *)
Definition propagate (sh : nat * nat * nat) (labels ids : list N) : list N :=
  imap (λ i id,
          match labels !! i with
          | Some l =>
              if bool_decide (l = 0) then 0
              else foldr (λ j acc, if bool_decide (labels !! j = Some l)
                                   then N.min acc (default acc (ids !! j)) else acc)
                         id (neighbours sh i)
          | None => id
          end) ids.

(** A model of [vigra.analysis.labelMultiArrayWithBackground] (direct
    neighbourhood, background 0): connected components numbered from 1 in
    scan order. *)
Definition connected_components (labels : ndarray) : ndarray :=
  let init := imap (λ i l, if bool_decide (l = 0) then 0 else N.of_nat (S i)) (data labels) in
  let ids := Nat.iter (length (data labels)) (propagate (shape labels) (data labels)) init in
  (relabelConsecutive {| shape := shape labels; data := ids |}).1.1.

(** ** Split-body relabeling *)

(** [m.astype(bool)] *)
Definition astype_bool (m : coo_matrix) : coo_matrix :=
  {| coo_shape := coo_shape m;
     coo_entries := (λ e : N * N * N, (e.1, if bool_decide (e.2 = 0) then 0 else 1)) <$> coo_entries m |}.

(** [m[i, s] = False] on a stored entry (an absent entry would be stored
    as an explicit [False], which [nonzero] skips). *)
Definition set_false (i s : N) (m : coo_matrix) : coo_matrix :=
  {| coo_shape := coo_shape m;
     coo_entries := (λ e : N * N * N, if bool_decide (e.1 = (i, s)) then (e.1, 0) else e) <$> coo_entries m |}.

(** [m.nonzero()]: the (row, column) of the stored entries that are not 0. *)
Definition nonzero (m : coo_matrix) : list (N * N) :=
  fst <$> filter (λ e : N * N * N, e.2 ≠ 0) (coo_entries m).

Definition max_N (l : list N) : N := foldr N.max 0 l.

Definition range (start : N) (len : nat) : list N := N.of_nat <$> seq (N.to_nat start) len.

Definition _split_body_mappings (labels_orig labels_split : ndarray)
    : result (gmap N N * gmap N N) :=
  t ← contingency_table labels_orig labels_split true;
  match t with
  | Dense _ => Raise (Exception "unreachable")
  | Sparse overlap_table_px =>
      let num_orig_segments := ((coo_shape overlap_table_px).1 - 1)%nat in
      let num_split_segments := ((coo_shape overlap_table_px).2 - 1)%nat in
      main_split_segments ← matrix_argmax (Sparse overlap_table_px) Axis1;
      let overlap_table_px := tocsr overlap_table_px in
      let split_to_orig := dict (prod_swap <$> nonzero overlap_table_px) in
      let split_to_orig := <[0 := 0]> split_to_orig in
      let overlap_table_bool :=
        foldl (λ m (rc : N * N), set_false rc.1 rc.2 m) (astype_bool overlap_table_px)
              (imap (λ i s, (N.of_nat i, s)) main_split_segments) in
      main_pairs ← mapM (λ orig, s ← of_option (main_split_segments !! orig) IndexError;
                                 Ok (s, N.of_nat orig))
                        (seq 0 (1 + num_orig_segments));
      let main_split_ids_to_nonconflicting := dict main_pairs in
      let nonmain_split_ids := unique ((nonzero overlap_table_bool).*2) in
      let nonmain_split_ids_to_nonconflicting :=
        dict (zip nonmain_split_ids
                  (range (N.of_nat (1 + num_orig_segments)) (num_split_segments - num_orig_segments))) in
      let split_to_nonconflicting :=
        nonmain_split_ids_to_nonconflicting ∪ main_split_ids_to_nonconflicting in
      _ ← assert (bool_decide (size split_to_nonconflicting = size split_to_orig)) EmptyString;
      nonconflicting_to_split ← reverse_dict split_to_nonconflicting;
      nonconflicting_to_orig ← compose_mappings [nonconflicting_to_split; split_to_orig];
      _ ← assert (bool_decide (size split_to_nonconflicting = size nonconflicting_to_orig)) EmptyString;
      Ok (split_to_nonconflicting, nonconflicting_to_orig)
  end.

Section split.
(** [vigra.analysis.labelMultiArrayWithBackground], a library function. *)
Variable labelMultiArrayWithBackground : ndarray → ndarray.

Definition split_disconnected_bodies (labels_orig : ndarray) : result (ndarray * gmap N N) :=
  let '(labels_consecutive, max_consecutive_label, orig_to_consecutive) :=
    relabelConsecutive labels_orig in
  let max_orig := max_N (elements (dom orig_to_consecutive)) in
  cons_to_orig ← reverse_dict orig_to_consecutive;
  let labels_split := labelMultiArrayWithBackground labels_consecutive in
  '(split_to_cons_with_splits, cons_with_splits_to_cons) ←
    _split_body_mappings labels_consecutive labels_split;
  let num_main_segments := N.to_nat max_consecutive_label in
  let num_splits := (size split_to_cons_with_splits - num_main_segments - 1)%nat in
  cons_with_splits_to_orig_with_splits ← reverse_dict orig_to_consecutive;
  let cons_with_splits_to_orig_with_splits :=
    dict (zip (range (1 + max_consecutive_label) num_splits)
              (range (1 + max_orig) num_splits))
    ∪ cons_with_splits_to_orig_with_splits in
  split_to_orig_with_splits ←
    compose_mappings [split_to_cons_with_splits; cons_with_splits_to_orig_with_splits];
  labels_new ← applyMapping labels_split split_to_orig_with_splits false (shape labels_orig);
  orig_with_splits_to_cons_with_splits ← reverse_dict cons_with_splits_to_orig_with_splits;
  orig_with_splits_to_orig ←
    compose_mappings [orig_with_splits_to_cons_with_splits; cons_with_splits_to_cons; cons_to_orig];
  let minimal_orig_with_splits_to_orig :=
    filter (λ kv : N * N, max_orig < kv.1) orig_with_splits_to_orig in
  let split_labels : gset N := list_to_set (map_to_list minimal_orig_with_splits_to_orig).*2 in
  let new_to_orig :=
    filter (λ kv : N * N, kv.2 ∈ split_labels) orig_with_splits_to_orig
    ∪ minimal_orig_with_splits_to_orig in
  Ok (labels_new, new_to_orig).

End split.

(** Relabelling a volume back through [new_to_orig]; a label absent from
    the mapping is kept. *)
Definition relabel_back (new_to_orig : gmap N N) (labels : ndarray) : ndarray :=
  array_map (λ l, default l (new_to_orig !! l)) labels.


(** ** Vocabulary of the specification *)

(** The labels one iteration of the reconciliation loop redirects: the
    resolved [body1] and the members recorded for it. *)
Definition moved (b12 : gmap N N) (b21 : gmap N (gset N)) (a b : N) : gset N :=
  let body1 := Reconcile.apply_map b12 a in
  let body2 := Reconcile.apply_map b12 b in
  if decide (body1 = body2) then {[body1]} ∪ default ∅ (b21 !! body2)
  else {[body1]} ∪ default ∅ (b21 !! body1).

(** The dict of dicts of [stitcher] only ever mentions foreground labels
    of the two boundaries. *)
Definition foreground_dict (D1 D2 : list N) (d : list (N * list (N * N))) : Prop :=
  ∀ body2 bodydict, (body2, bodydict) ∈ d →
    body2 ≠ 0 ∧ body2 ∈ D2 ∧
    ∀ body1 val, (body1, val) ∈ bodydict → body1 ≠ 0 ∧ body1 ∈ D1.

(** The global id [relabel] gives a local label before the merge map is
    applied: the label plus the block offset, background back to 0. *)
Definition global_label (offset l : N) : N :=
  let g := uint64 (l + uint64 offset) in
  if bool_decide (g = uint64 offset) then 0 else g.

(** ** The two-block scenario

    Two 4x4x4 boxes adjacent along x, each read with a border of one voxel.
    Block A carries label 1 and, towards the shared face, label 2; block B
    carries label 1 throughout.  The max ids 3 and 1 give the offsets 0
    and 3. *)
Definition boxA : box := {| x1 := 0; x2 := 4; y1 := 0; y2 := 4; z1 := 0; z2 := 4 |}.
Definition boxB : box := {| x1 := 4; x2 := 8; y1 := 0; y2 := 4; z1 := 0; z2 := 4 |}.
Definition svA : Subvolume :=
  {| sv_index := 0; sv_box := boxA; border := 1; local_regions := [(1, boxB)] |}.
Definition svB : Subvolume :=
  {| sv_index := 1; sv_box := boxB; border := 1; local_regions := [(0, boxA)] |}.
Definition volA : ndarray :=
  {| shape := (6, 6, 6)%nat;
     data := _ ← seq 0 6; _ ← seq 0 6; x ← seq 0 6; [if (x <? 3)%nat then 1 else 2] |}.
Definition volB : ndarray := {| shape := (6, 6, 6)%nat; data := replicate 216 1 |}.
Definition two_blocks : list (Subvolume * (ndarray * N)) :=
  [(svA, (volA, 3)); (svB, (volB, 1))].

(** Modelled from the spec: [Subvolume.touches], which the stitcher calls
    to find the axis along which its two subvolumes meet (the spec speaks of
    testing which axis ranges touch): two ranges touch when one ends where
    the other begins. *)
Definition touches_faces (p1 p2 p1_2 p2_2 : Z) : bool :=
  bool_decide (p1 = p2_2 ∨ p2 = p1_2).

(** What the scenario's blocks become: A keeps label 1 and its label 2
    becomes 4; B, with offset 3, is 4 throughout. *)
Definition volA_stitched : ndarray := array_map (λ l, if bool_decide (l = 2) then 4 else l) volA.
Definition volB_stitched : ndarray := array_map (λ _, 4) volB.

(** The boundary regions the two blocks contribute under key (0, 1). *)
Definition cropA : ndarray := slice3 volA (0, 6)%Z (0, 6)%Z (4, 6)%Z.
Definition cropB : ndarray := slice3 volB (0, 6)%Z (0, 6)%Z (0, 2)%Z.

(** A malformed variant of the scenario: block A lists its neighbour twice,
    so that the boundary key (0, 1) collects three contributions. *)
Definition svA_twice : Subvolume :=
  {| sv_index := 0; sv_box := boxA; border := 1; local_regions := [(1, boxB); (1, boxB)] |}.
Definition three_contributors : list (Subvolume * (ndarray * N)) :=
  [(svA_twice, (volA, 3)); (svB, (volB, 1))].

(** ** Overlap tables as arrays of counts *)

(** The entry [(r, c)] of the array a sparse matrix stands for
    ([toarray()]): the sum of the data stored at that position. *)
Definition coo_get (entries : list (N * N * N)) (r c : N) : N :=
  sum_N ((filter (λ e : N * N * N, e.1 = (r, c)) entries).*2).

Definition table_get (t : table) (r c : N) : N :=
  match t with
  | Dense rows => default 0 (row ← rows !! N.to_nat r; row !! N.to_nat c)
  | Sparse m => coo_get (coo_entries m) r c
  end.

Definition table_rows (t : table) : nat :=
  match t with
  | Dense rows => length rows
  | Sparse m => (coo_shape m).1
  end.

(** The number of positions at which the two flattened volumes show the
    pair of labels [(r, c)]. *)
Definition count_pairs (l1 l2 : list N) (r c : N) : N :=
  N.of_nat (length (filter (λ p : N * N, p = (r, c)) (zip l1 l2))).

(** Entries in strictly increasing order of [key]: every position is
    stored once. *)
Definition key_lt (key : N * N → N * N) (e1 e2 : N * N * N) : Prop :=
  lex_lt (key e1.1) (key e2.1) = true.

(** The storage order [sum_duplicates] leaves: by column, then by row. *)
Definition canonical (m : coo_matrix) : Prop :=
  StronglySorted (key_lt prod_swap) (coo_entries m) ∧
  Forall (λ e : N * N * N, (N.to_nat e.1.1 < (coo_shape m).1)%nat) (coo_entries m).

(** Tables [row_argmax] is meant for: a dense array with at least one
    column, or a sparse matrix in canonical form. *)
Definition table_wf (t : table) : Prop :=
  match t with
  | Dense rows => Forall (λ row, row ≠ []) rows
  | Sparse m => canonical m
  end.

(** [c] is the lowest column holding the maximum of row [r]. *)
Definition lowest_argmax (t : table) (r c : N) : Prop :=
  (∀ c', table_get t r c' ≤ table_get t r c) ∧
  (∀ c', c' < c → table_get t r c' < table_get t r c).

(** Invariant of the loop of [_sparse_row_argmax] once the entries [seen]
    are processed: a row's slot holds the largest element seen in the row
    and the column of the first entry that reached it. *)
Definition argmax_inv (seen : list (N * N * N)) (row_maxcols : list (N * N)) : Prop :=
  ∀ r mx col, row_maxcols !! r = Some (mx, col) →
    (∀ c' d', (N.of_nat r, c', d') ∈ seen → d' ≤ mx) ∧
    ((mx = 0 ∧ col = 0) ∨
     (0 < mx ∧ ∃ pre post, seen = pre ++ (N.of_nat r, col, mx) :: post ∧
        ∀ c' d', (N.of_nat r, c', d') ∈ pre → d' < mx)).


(** Two volumes whose overlap table has a tie in row 1: label 1 of the
    first overlaps labels 1 and 2 of the second in two voxels each. *)
Definition tie_volume1 : ndarray := {| shape := (1, 1, 4)%nat; data := [1; 1; 1; 1] |}.
Definition tie_volume2 : ndarray := {| shape := (1, 1, 4)%nat; data := [2; 1; 2; 1] |}.

(** ** Vocabulary for split-body relabeling *)

(** The dict [relabelConsecutive] builds: the loop body, and the
    invariant it keeps once the labels [seen] are scanned: 0 is mapped to
    0, the map is a bijection from the labels seen (and 0) onto an initial
    segment of the naturals. *)
Definition labelmap_step (m : gmap N N) (old : N) : gmap N N :=
  match m !! old with
  | Some _ => m
  | None => <[old := N.of_nat (size m)]> m
  end.

Record labelmap_inv (seen : list N) (m : gmap N N) : Prop := {
  lm_zero : m !! 0 = Some 0;
  lm_bound : ∀ x c, m !! x = Some c → (N.to_nat c < size m)%nat;
  lm_inj : ∀ x y c, m !! x = Some c → m !! y = Some c → x = y;
  lm_dom : ∀ x, is_Some (m !! x) ↔ x = 0 ∨ x ∈ seen;
  lm_onto : ∀ c, (N.to_nat c < size m)%nat → ∃ x, m !! x = Some c
}.

(** What is assumed of the two label arrays vigra hands to
    [_split_body_mappings]: both are [uint32] arrays of one length, the
    component labelling is 0 exactly on the background, and a component
    lies within one segment. *)
Definition uint32_array (a : ndarray) : Prop := Forall (λ n, n < 2 ^ 32) (data a).

Definition component_labelling (labels_consecutive labels_split : ndarray) : Prop :=
  length (data labels_consecutive) = length (data labels_split) ∧
  Forall (λ p : N * N, p.1 = 0 ↔ p.2 = 0)
         (zip (data labels_consecutive) (data labels_split)) ∧
  Forall (λ p : N * N,
            Forall (λ q : N * N, p.2 = q.2 → p.1 = q.1)
                   (zip (data labels_consecutive) (data labels_split)))
         (zip (data labels_consecutive) (data labels_split)).

(** ** Split scenarios *)

(** A 7x5x5 volume with prior maximum label 9.  Label 5 fills the four
    slabs z = 0..3 (100 voxels) and, beyond a slab of label 9, the slab
    z = 5 and one row of the slab z = 6 (30 voxels); the rest of the last
    slab is background and label 7. *)
Definition split_scenario : ndarray :=
  {| shape := (7, 5, 5)%nat;
     data := z ← seq 0 7; y ← seq 0 5; _ ← seq 0 5;
             [if (z <? 4)%nat then 5 else if (z =? 4)%nat then 9
              else if (z =? 5)%nat then 5 else if (y =? 0)%nat then 5
              else if (y =? 1)%nat then 0 else 7] |}.

(** The same volume with the 30-voxel piece renumbered 10. *)
Definition split_scenario_result : ndarray :=
  {| shape := (7, 5, 5)%nat;
     data := z ← seq 0 7; y ← seq 0 5; _ ← seq 0 5;
             [if (z <? 4)%nat then 5 else if (z =? 4)%nat then 9
              else if (z =? 5)%nat then 10 else if (y =? 0)%nat then 10
              else if (y =? 1)%nat then 0 else 7] |}.

(** A row of seven voxels in which label 3 comes in three pieces. *)
Definition three_pieces : ndarray :=
  {| shape := (1, 1, 7)%nat; data := [3; 3; 0; 3; 8; 8; 3] |}.
Definition three_pieces_result : ndarray :=
  {| shape := (1, 1, 7)%nat; data := [3; 3; 0; 9; 8; 8; 10] |}.

(** The number of voxels carrying label [x]. *)
Definition voxel_count (x : N) (a : ndarray) : nat :=
  length (filter (λ l, l = x) (data a)).

(** Invariant of the provisional ids of [connected_components]: a
    background voxel has id 0, and a foreground voxel has the id [j + 1] of
    a voxel [j] of its own segment. *)
Definition ids_inv (labels ids : list N) : Prop :=
  length ids = length labels ∧
  ∀ i x id, labels !! i = Some x → ids !! i = Some id →
    (x = 0 → id = 0) ∧ (x ≠ 0 → ∃ j, id = N.of_nat (S j) ∧ labels !! j = Some x).


(** ** Further vocabulary *)

(** Following a label through a chain of mappings, as the docstring of
    [compose_mappings] describes the composed dict. *)
Fixpoint chain (mappings : list (gmap N N)) (v : N) : option N :=
  match mappings with
  | [] => Some v
  | m :: rest => m !! v ≫= chain rest
  end.

(** No two keys of a dict share a value. *)
Definition injective_dict (d : gmap N N) : Prop :=
  ∀ k1 k2 v, d !! k1 = Some v → d !! k2 = Some v → k1 = k2.


(** The number of columns of a table. *)
Definition table_cols (t : table) : nat :=
  match t with
  | Dense rows => length (hd [] rows)
  | Sparse m => (coo_shape m).2
  end.

(** [r] is the lowest row holding the maximum of column [c]. *)
Definition lowest_argmax_row (t : table) (c r : N) : Prop :=
  (∀ r', table_get t r' c ≤ table_get t r c) ∧
  (∀ r', r' < r → table_get t r' c < table_get t r c).

(** The number of times the pair [p] occurs among the voxel pairs [seen]. *)
Definition occurrences (p : N * N) (seen : list (N * N)) : N :=
  N.of_nat (length (filter (λ q, q = p) seen)).

(** Invariant of the traversal of [stitcher] once the voxel pairs [seen]
    are counted: the outer dict has one entry per foreground label of
    [boundary2], and the inner dict of a label holds, for every foreground
    label of [boundary1] met with it, the number of voxels met. *)
Definition overlap_inv (labels2 : list N) (seen : list (N * N))
    (d : list (N * list (N * N))) : Prop :=
  NoDup d.*1 ∧
  (∀ k, is_Some (assoc_get k d) ↔ k ≠ 0 ∧ k ∈ labels2) ∧
  (∀ body2 bodydict, assoc_get body2 d = Some bodydict →
     NoDup bodydict.*1 ∧
     ∀ body1, assoc_get body1 bodydict
              = if decide (body1 ≠ 0 ∧ 0 < occurrences (body1, body2) seen)
                then Some (occurrences (body1, body2) seen) else None).


(** The shape of the label volume read for a subvolume: its box grown by
    the border on every side. *)
Definition full_shape (sv : Subvolume) : nat * nat * nat :=
  (Z.to_nat (z2 (sv_box sv) - z1 (sv_box sv) + 2 * border sv),
   Z.to_nat (y2 (sv_box sv) - y1 (sv_box sv) + 2 * border sv),
   Z.to_nat (x2 (sv_box sv) - x1 (sv_box sv) + 2 * border sv)).

(** The extent, along one axis, of the region two boxes share once both
    are grown by the border [b]. *)
Definition overlap_length (b lo1 hi1 lo2 hi2 : Z) : nat :=
  Z.to_nat ((Z.min hi1 hi2 + b) - (Z.max lo1 lo2 - b)).

Definition overlap_shape (b : Z) (box1 box2 : box) : nat * nat * nat :=
  (overlap_length b (z1 box1) (z2 box1) (z1 box2) (z2 box2),
   overlap_length b (y1 box1) (y2 box1) (y1 box2) (y2 box2),
   overlap_length b (x1 box1) (x2 box1) (x1 box2) (x2 box2)).

(** Two ranges that, grown by [b], share at least a point. *)
Definition ranges_meet (b lo1 hi1 lo2 hi2 : Z) : Prop :=
  (lo1 ≤ hi1 ∧ lo2 ≤ hi2 ∧ Z.max lo1 lo2 - b ≤ Z.min hi1 hi2 + b)%Z.

Definition boxes_meet (b : Z) (box1 box2 : box) : Prop :=
  ranges_meet b (z1 box1) (z2 box1) (z1 box2) (z2 box2) ∧
  ranges_meet b (y1 box1) (y2 box1) (y1 box2) (y2 box2) ∧
  ranges_meet b (x1 box1) (x2 box1) (x1 box2) (x2 box2).

(** Among the components into which [labels_split] cuts the segment [x]
    of [labels_orig], [s] is the largest, and the lowest-numbered of the
    largest. *)
Definition largest_piece (labels_orig labels_split : ndarray) (x s : N) : Prop :=
  (∀ s', count_pairs (data labels_orig) (data labels_split) x s'
         ≤ count_pairs (data labels_orig) (data labels_split) x s) ∧
  (∀ s', s' < s → count_pairs (data labels_orig) (data labels_split) x s'
                  < count_pairs (data labels_orig) (data labels_split) x s).

(** What [_split_body_mappings] establishes for a volume with largest
    label [n] and a component labelling of it: [main] lists the component
    kept per segment, [s2nc] is [split_to_nonconflicting], [nc2o] is
    [nonconflicting_to_orig] and [k] is the number of components that get
    a new id.  The ids in use are [0..n+k]; a kept component has the id of
    its segment and the others have an id above [n]. *)
Record split_mappings_inv (labels_orig labels_split : ndarray) (main : list N)
    (s2nc nc2o : gmap N N) (k : nat) : Prop := {
  smi_main_length : length main = S (max_list_with N.to_nat (data labels_orig));
  smi_main_largest : ∀ r s, main !! r = Some s →
    largest_piece labels_orig labels_split (N.of_nat r) s;
  smi_main_stored : ∀ r s, main !! r = Some s →
    (N.of_nat r, s) ∈ zip (data labels_orig) (data labels_split) ∨ (r = 0%nat ∧ s = 0);
  smi_size : size s2nc = (S (max_list_with N.to_nat (data labels_orig)) + k)%nat;
  smi_injective : injective_dict s2nc;
  smi_values : ∀ s y, s2nc !! s = Some y →
    (N.to_nat y ≤ max_list_with N.to_nat (data labels_orig) + k)%nat;
  smi_dom : ∀ y, (N.to_nat y ≤ max_list_with N.to_nat (data labels_orig) + k)%nat →
    is_Some (nc2o !! y);
  smi_back : ∀ y c, nc2o !! y = Some c →
    (∃ s, s2nc !! s = Some y ∧
          ((c, s) ∈ zip (data labels_orig) (data labels_split) ∨ (s = 0 ∧ c = 0))) ∧
    ((N.to_nat y ≤ max_list_with N.to_nat (data labels_orig))%nat → y = c);
  smi_voxel : ∀ c s, (c, s) ∈ zip (data labels_orig) (data labels_split) →
    ∃ y, s2nc !! s = Some y ∧ nc2o !! y = Some c ∧
         (main !! N.to_nat c = Some s → y = c) ∧
         (main !! N.to_nat c ≠ Some s →
          (max_list_with N.to_nat (data labels_orig) < N.to_nat y)%nat);
  smi_zero : s2nc !! 0 = Some 0
}.

(** What is assumed of [vigra.analysis.labelMultiArrayWithBackground] on
    the consecutive volume of [labels_orig]: it returns an array of the
    same shape with labels below 2^31 that is 0 exactly on the background
    and whose components lie within one segment each. *)
Definition labelling_contract (labelMultiArrayWithBackground : ndarray → ndarray)
    (labels_orig : ndarray) : Prop :=
  let labels_consecutive := (relabelConsecutive labels_orig).1.1 in
  shape (labelMultiArrayWithBackground labels_consecutive) = shape labels_consecutive ∧
  Forall (λ n, n < 2 ^ 31) (data (labelMultiArrayWithBackground labels_consecutive)) ∧
  component_labelling labels_consecutive (labelMultiArrayWithBackground labels_consecutive).


(** * The rest of the program *)

(** ** Seeds for the watershed ([seeded_watershed]) *)

(** [numpy.bincount]: how often each value from 0 to the largest one
    occurs; empty for an empty array. *)
Definition bincount (l : list N) : list nat :=
  match l with
  | [] => []
  | _ => (λ v, length (filter (λ x, x = N.of_nat v) l)) <$> seq 0 (S (N.to_nat (max_N l)))
  end.

(** The block under [if seed_size > 0]: seeds of fewer than [seed_size]
    voxels are set to 0. *)
Definition remove_small_seeds (seed_size : Z) (seeds : ndarray) : ndarray :=
  if bool_decide (0 < seed_size)%Z then
    let component_sizes := bincount (data seeds) in
    let small_components :=
      (λ size, bool_decide (Z.of_nat size < seed_size)%Z) <$> component_sizes in
    let small_locations :=
      (λ s, default false (small_components !! N.to_nat s)) <$> data seeds in
    {| shape := shape seeds;
       data := zip_with (λ s (small : bool), if small then 0 else s)
                        (data seeds) small_locations |}
  else seeds.

Section seeded_watershed.
(** The boundary predictions and the optional mask are only handed on to
    library functions: the thresholding [boundary <= seed_threshold]
    followed by [scipy.ndimage.label], and [skimage.morphology.watershed]. *)
Variables boundary_array mask_array : Type.
Variable label2_below : boundary_array → Z → ndarray.
Variable watershed : boundary_array → ndarray → option mask_array → ndarray.

Definition seeded_watershed (boundary : boundary_array) (seed_threshold seed_size : Z)
    (mask : option mask_array) : ndarray :=
  let seeds := label2_below boundary seed_threshold in
  let seeds := remove_small_seeds seed_size seeds in
  watershed boundary seeds mask.

End seeded_watershed.

(** ** Regions of interest ([sparkdvid.get_roi], [sparkdvid.get_roi_partition]) *)

(** [get_roi], on the block runs (z, y, x_first, x_last) that the server
    sent for the ROI: every run is expanded into its blocks. *)
Definition get_roi (roi_blockruns : list (Z * Z * Z * Z)) : list (Z * Z * Z) :=
  '(z, y, x_first, x_last) ← roi_blockruns;
  (λ x, (z, y, x)) <$> seqZ x_first (x_last + 1 - x_first).

Definition BLK_SIZE : Z := 32.

(** [libdvid.SubstackZYX(size, z, y, x)] *)
Record SubstackZYX : Type := {
  ss_size : Z;
  ss_z : Z;
  ss_y : Z;
  ss_x : Z
}.

Inductive partition_method : Type := ask_dvid | grid_aligned.

(** Arithmetic on [numpy.int64] values wraps around. *)
Definition int64 (z : Z) : Z := ((z + 2 ^ 63) `mod` 2 ^ 64 - 2 ^ 63)%Z.

Definition min_Z (l : list Z) : Z := foldr Z.min (hd 0%Z l) l.

(** [numpy.ndindex(nz, ny, nx)]: all indices in C order. *)
Definition ndindex (n : Z * Z * Z) : list (Z * Z * Z) :=
  i ← seqZ 0 n.1.1; j ← seqZ 0 n.1.2; k ← seqZ 0 n.2; [(i, j, k)].

Definition map3 (f : Z → Z) (v : Z * Z * Z) : Z * Z * Z := (f v.1.1, f v.1.2, f v.2).
Definition zip3 (f : Z → Z → Z) (v w : Z * Z * Z) : Z * Z * Z :=
  (f v.1.1 w.1.1, f v.1.2 w.1.2, f v.2 w.2).

Section get_roi_partition.
(** [DVIDNodeService.get_roi_partition(roi_name, size_in_blocks)], the
    partition computed by the server. *)
Variable node_service_get_roi_partition : Z → list SubstackZYX.

Definition get_roi_partition (roi_blockruns : list (Z * Z * Z * Z)) (subvol_size : Z)
    (method : partition_method) : result (list SubstackZYX) :=
  _ ← assert (bool_decide (subvol_size `mod` BLK_SIZE = 0)%Z)
             "This function assumes chunk size is a multiple of block size";
  match method with
  | ask_dvid => Ok (node_service_get_roi_partition (subvol_size `div` BLK_SIZE))
  | grid_aligned =>
      let roi_blocks := get_roi roi_blockruns in
      if bool_decide (roi_blocks = [])
      then Raise (ValueError
             "zero-size array to reduction operation minimum which has no identity")
      else
        let zs := (λ b : Z * Z * Z, b.1.1) <$> roi_blocks in
        let ys := (λ b : Z * Z * Z, b.1.2) <$> roi_blocks in
        let xs := (λ b : Z * Z * Z, b.2) <$> roi_blocks in
        let roi_blocks_start := (min_Z zs, min_Z ys, min_Z xs) in
        let roi_blocks_stop := map3 (λ m, int64 (1 + m)) (max_Z zs, max_Z ys, max_Z xs) in
        let roi_blocks_shape := zip3 (λ a b, int64 (a - b)) roi_blocks_stop roi_blocks_start in
        let sv_size_in_blocks := (subvol_size `div` BLK_SIZE)%Z in
        let roi_shape_in_subvols :=
          map3 (λ s, int64 (int64 (int64 (s + sv_size_in_blocks) - 1) `div` sv_size_in_blocks))
               roi_blocks_shape in
        if bool_decide (roi_shape_in_subvols.1.1 < 0 ∨ roi_shape_in_subvols.1.2 < 0
                        ∨ roi_shape_in_subvols.2 < 0)%Z
        then Raise (ValueError "negative dimensions are not allowed")
        else
          Ok ((λ subvol_index : Z * Z * Z,
                 let subvol_start :=
                   zip3 (λ i s, int64 (int64 (subvol_size * i) + int64 (s * BLK_SIZE)))
                        subvol_index roi_blocks_start in
                 {| ss_size := subvol_size; ss_z := subvol_start.1.1;
                    ss_y := subvol_start.1.2; ss_x := subvol_start.2 |})
              <$> ndindex roi_shape_in_subvols)
  end.

End get_roi_partition.

(** The block (z, y, x), of [BLK_SIZE] voxels a side, lies within the
    substack. *)
Definition block_inside (t : SubstackZYX) (b : Z * Z * Z) : Prop :=
  (ss_z t ≤ BLK_SIZE * b.1.1 ∧ BLK_SIZE * b.1.1 + BLK_SIZE ≤ ss_z t + ss_size t ∧
   ss_y t ≤ BLK_SIZE * b.1.2 ∧ BLK_SIZE * b.1.2 + BLK_SIZE ≤ ss_y t + ss_size t ∧
   ss_x t ≤ BLK_SIZE * b.2 ∧ BLK_SIZE * b.2 + BLK_SIZE ≤ ss_x t + ss_size t)%Z.

(** Block coordinates as DVID has them: 32-bit integers. *)
Definition int32_block (b : Z * Z * Z) : Prop :=
  (- 2 ^ 31 ≤ b.1.1 < 2 ^ 31 ∧ - 2 ^ 31 ≤ b.1.2 < 2 ^ 31 ∧ - 2 ^ 31 ≤ b.2 < 2 ^ 31)%Z.

(** The grid [get_roi_partition] lays over one axis: the number of
    substacks needed to span the blocks, and the origin of substack [i]. *)
Definition grid_count (coords : list Z) (subvol_size : Z) : Z :=
  ((max_Z coords - min_Z coords + subvol_size `div` BLK_SIZE)
   `div` (subvol_size `div` BLK_SIZE))%Z.

Definition grid_origin (coords : list Z) (subvol_size i : Z) : Z :=
  (subvol_size * i + min_Z coords * BLK_SIZE)%Z.

(** ** Reading and writing label volumes
       ([sparkdvid.map_labels64], [sparkdvid.foreach_write_labels3d]) *)

(** The voxel (z, y, x) of an array. *)
Definition voxel (a : ndarray) (z y x : nat) : option N :=
  let '(nz, ny, nx) := shape a in
  if bool_decide (z < nz ∧ y < ny ∧ x < nx)%nat
  then data a !! ((z * ny + y) * nx + x)%nat else None.

(** What [node_service.put_labels3D] is called with. *)
Record put_labels3D_call : Type := {
  put_name : string;
  put_volume : ndarray;
  put_offset : Z * Z * Z;
  put_roi : option string;
  put_throttle : bool;
  put_mutate : bool
}.

(** [mutate] as [foreach_write_labels3d] settles it: [success] tells
    whether the labelblk instance was newly created. *)
Definition mutate_flag (success : bool) (mutateseg : string) : bool :=
  (negb success && bool_decide (mutateseg = "auto")) || bool_decide (mutateseg = "yes").

Section dvid_volumes.
(** [DVIDNodeService.get_labels3D(name, shape_zyx, offset_zyx)] and
    [DVIDSparkServices.util.mask_roi] are defined outside these files. *)
Variable get_labels3D : string → Z * Z * Z → Z * Z * Z → ndarray.
Variable mask_roi : ndarray → Subvolume → Z → ndarray.

(** The function [mapper] of [map_labels64]. *)
Definition map_labels64_mapper (label_name : string) (border_arg : Z) (roiname : string)
    (subvolume : Subvolume) : ndarray :=
  let size_x := (x2 (sv_box subvolume) + 2 * border subvolume - x1 (sv_box subvolume))%Z in
  let size_y := (y2 (sv_box subvolume) + 2 * border subvolume - y1 (sv_box subvolume))%Z in
  let size_z := (z2 (sv_box subvolume) + 2 * border subvolume - z1 (sv_box subvolume))%Z in
  let data :=
    get_labels3D label_name (size_z, size_y, size_x)
      ((z1 (sv_box subvolume) - border subvolume)%Z,
       (y1 (sv_box subvolume) - border subvolume)%Z,
       (x1 (sv_box subvolume) - border subvolume)%Z) in
  if bool_decide (roiname ≠ EmptyString) then mask_roi data subvolume border_arg else data.

End dvid_volumes.

(** The function [writer] of [foreach_write_labels3d]: the call it makes. *)
Definition foreach_write_labels3d_writer (label_name : string) (roi_name : option string)
    (mutate : bool) (resource_server : string)
    (subvolume_seg : N * (Subvolume * ndarray)) : put_labels3D_call :=
  let '(key, (subvolume, seg)) := subvolume_seg in
  let size1 := (x2 (sv_box subvolume) - x1 (sv_box subvolume))%Z in
  let size2 := (y2 (sv_box subvolume) - y1 (sv_box subvolume))%Z in
  let size3 := (z2 (sv_box subvolume) - z1 (sv_box subvolume))%Z in
  let border := border subvolume in
  let seg := slice3 seg (border, (size3 + border)%Z) (border, (size2 + border)%Z)
                        (border, (size1 + border)%Z) in
  {| put_name := label_name;
     put_volume := seg;
     put_offset := (z1 (sv_box subvolume), y1 (sv_box subvolume), x1 (sv_box subvolume));
     put_roi := roi_name;
     put_throttle := bool_decide (resource_server = EmptyString);
     put_mutate := mutate |}.

(** A box given with its corners in order. *)
Definition box_ordered (b : box) : Prop :=
  (x1 b ≤ x2 b ∧ y1 b ≤ y2 b ∧ z1 b ≤ z2 b)%Z.

(** A server whose label volumes hold one label throughout. *)
Definition uniform_labels3D (l : N) (name : string) (shp off : Z * Z * Z) : ndarray :=
  {| shape := (Z.to_nat shp.1.1, Z.to_nat shp.1.2, Z.to_nat shp.2);
     data := replicate (Z.to_nat shp.1.1 * Z.to_nat shp.1.2 * Z.to_nat shp.2) l |}.

(** ** Writing graph elements ([sparkdvid.foreachPartition_graph_elements]) *)

(** The calls the function [writer] makes on the node service; [W] is the
    type of the weights. *)
Inductive graph_call (W : Type) : Type :=
  | update_vertices (graph_name : string) (vertices : list (Z * W))
  | update_edges (graph_name : string) (edges : list (Z * Z * W)).
Arguments update_vertices {W} graph_name vertices.
Arguments update_edges {W} graph_name edges.

Definition foreachPartition_graph_elements_writer {W} (graph_name : string)
    (element_pairs : option (list ((Z * Z) * W))) : list (graph_call W) :=
  match element_pairs with
  | None => []
  | Some element_pairs =>
      let '(vertices, edges) :=
        foldl (λ (st : list (Z * W) * list (Z * Z * W)) (element_pair : (Z * Z) * W),
                 let '(edge, weight) := element_pair in
                 let '(v1, v2) := edge in
                 if bool_decide (v2 = -1)%Z
                 then (st.1 ++ [(v1, weight)], st.2)
                 else (st.1, st.2 ++ [(v1, v2, weight)]))
              ([], []) element_pairs in
      (if bool_decide (0 < length vertices)%nat
       then [update_vertices graph_name vertices] else []) ++
      (if bool_decide (0 < length edges)%nat
       then [update_edges graph_name edges] else [])
  end.

(** The number of graph elements a call carries. *)
Definition call_size {W} (c : graph_call W) : nat :=
  match c with
  | update_vertices _ vertices => length vertices
  | update_edges _ edges => length edges
  end.

(** ** The integration test driver ([launch_tests.run_test], [launch_tests.run_tests]) *)

(** [string.find(line, sub)]: the position of the first occurrence, -1
    when there is none. *)
Definition string_find (line sub : string) : Z :=
  match String.index 0 sub line with
  | Some n => Z.of_nat n
  | None => -1
  end.

(** The verdict of [run_test].  [job] holds the lines the job printed,
    or nothing when it exited with a bad return code; [correct_lines] are
    the lines of the expected output; [checkoutput] is the outcome of the
    test's [checkoutput.py], when the test has one. *)
Definition run_test (job : option (list string)) (correct_lines : list string)
    (checkoutput : option bool) : bool :=
  match job with
  | None => false
  | Some result_lines =>
      let debug1 := filter (λ line, string_find line "DEBUG:" ≠ (-1)%Z) result_lines in
      let debug2 := filter (λ line, string_find line "DEBUG:" ≠ (-1)%Z) correct_lines in
      let correct :=
        if bool_decide (length debug1 ≠ length debug2) then false
        else
          (* the loop leaves at the first difference *)
          foldr (λ iter1 rest,
                   if bool_decide (debug1 !! iter1 ≠ debug2 !! iter1) then false else rest)
                true (seq 0 (length debug1)) in
      match checkoutput with
      | Some false => false
      | _ => correct
      end
  end.

(** The tests of [run_tests], in the order of its [OrderedDict]. *)
Definition tests : list (string * string) :=
  [("test_stitch_grid", "CreateSegmentation");
   ("test_stitch_grid_diagonal", "CreateSegmentation");
   ("test_seg", "CreateSegmentation");
   ("test_Segmentor", "CreateSegmentation");
   ("test_seg_iteration", "CreateSegmentation");
   ("test_seg_rollback", "CreateSegmentation");
   ("test_seg_with_roi", "CreateSegmentation");
   ("test_cc", "ConnectedComponents");
   ("test_comp", "EvaluateSeg");
   ("test_graph", "ComputeGraph");
   ("test_ingest", "IngestGrayscale");
   ("test_seg_ilastik", "CreateSegmentation");
   ("test_seg_simple_predict", "CreateSegmentation");
   ("test_seg_ilastik_two_stage", "CreateSegmentation");
   ("test_seg_wsdt", "CreateSegmentation");
   ("test_seg_multicut", "CreateSegmentation");
   ("test_seg_neuroproof", "CreateSegmentation");
   ("test_computeprobs", "ComputeEdgeProbs");
   ("test_seg_replace", "CreateSegmentation")].

Section run_tests.
(** Running one test is an effect of its own: its outcome is a parameter. *)
Variable run_one : string → string → bool.

(** The loop over [tests.items()]; the second component tells whether the
    loop was left by [break]. *)
Definition run_tests_loop (selected : gset string) (stop_after_fail : bool)
    (tests : list (string * string)) : list (string * option bool) * bool :=
  foldl (λ (st : list (string * option bool) * bool) (test : string * string),
           if st.2 then st
           else
             let '(test_name, workflow_name) := test in
             if bool_decide (test_name ∈ selected)
             then
               let r := run_one test_name workflow_name in
               (st.1 ++ [(test_name, Some r)], negb r && stop_after_fail)
             else (st.1 ++ [(test_name, None)], false))
        ([], false) tests.

Definition run_tests (selected : list string) (stop_after_fail : bool)
    : result (list (string * option bool)) :=
  let selected : gset string :=
    if bool_decide (list_to_set selected = (∅ : gset string))
    then list_to_set tests.*1 ∖ {["test_seg_multicut"]}
    else list_to_set selected in
  _ ← assert (bool_decide (selected ⊆ list_to_set tests.*1)) "Invalid test selection.";
  Ok (run_tests_loop selected stop_after_fail tests).1.

End run_tests.

(** ** Reading precomputed segmentations ([precomputedpipeline.read_subvolume]) *)

(** [os.path.join(a, b)] on POSIX paths. *)
Definition os_path_join (a b : string) : string :=
  if String.prefix "/" b then b
  else if bool_decide (a = EmptyString) || String.prefix "/" (String.rev a) then a +:+ b
  else a +:+ "/" +:+ b.

(** ["%d_%d_%d.h5" % (z1, y1, x1)] *)
Definition filename (subvolume : Subvolume) : string :=
  pretty (z1 (sv_box subvolume)) +:+ "_" +:+ pretty (y1 (sv_box subvolume)) +:+ "_"
  +:+ pretty (x1 (sv_box subvolume)) +:+ ".h5".

Definition filepath (segmentation_path : string) (subvolume : Subvolume) : string :=
  os_path_join segmentation_path (filename subvolume).

Definition zeros (shp : nat * nat * nat) : ndarray :=
  {| shape := shp; data := replicate (shp.1.1 * shp.1.2 * shp.2) 0 |}.

Section read_subvolume.
(** [h5py.File(filepath, 'r')]: [None] stands for the [IOError] of a file
    that cannot be opened; an open file gives its datasets by name, which
    hold unsigned labels. *)
Variable h5py_File : string → option (string → option ndarray).

Definition read_subvolume (segmentation_path h5_dataset_key : string)
    (default_shape : nat * nat * nat) (subvolume : Subvolume) : result ndarray :=
  match h5py_File (filepath segmentation_path subvolume) with
  | Some h5_f =>
      seg ← of_option (h5_f h5_dataset_key) KeyError;
      if bool_decide (data seg = [])
      then Raise (ValueError
             "zero-size array to reduction operation maximum which has no identity")
      else
        _ ← assert (bool_decide (max_N (data seg) ≤ 2 ^ 32 - 1))
                   "Source segmentation has label values that overflow the dtype used to store them :(";
        Ok (array_map (λ l, l `mod` 2 ^ 32) seg)
  | None => Ok (zeros default_shape)
  end.

End read_subvolume.


(** ** Global reconciliation: the invariant of the two dicts *)

Section reconcile_facts.
Import Reconcile.
Implicit Types (st : gmap N N * gmap N (gset N)).

Lemma foldl_redirect body2 l : ∀ (b12 : gmap N N) (b21 : gmap N (gset N)) s,
  b21 !! body2 = Some s →
  (∀ k, (foldl (redirect body2) (b12, b21) l).1 !! k
        = if decide (k ∈ l) then Some body2 else b12 !! k) ∧
  (foldl (redirect body2) (b12, b21) l).2 = <[body2 := list_to_set l ∪ s]> b21.
Proof.
  induction l as [|t l IH]; intros b12 b21 s Hs; cbn [foldl].
  - split; [intros k; destruct (decide (k ∈ [])) as [H|H]; [by apply elem_of_nil in H | done] |].
    cbn [snd list_to_set]. rewrite union_empty_l_L. by rewrite insert_id.
  - change (redirect body2 (b12, b21) t)
      with (<[t := body2]> b12, add_member body2 t b21).
    destruct (IH (<[t := body2]> b12) (add_member body2 t b21) ({[t]} ∪ s)) as [IH1 IH2].
    { unfold add_member. rewrite lookup_alter_eq, Hs. done. }
    split.
    + intros k. rewrite IH1.
      destruct (decide (k ∈ l)) as [Hin|Hin].
      * rewrite decide_True; [done | set_solver].
      * destruct (decide (k = t)) as [->|Hne].
        -- rewrite lookup_insert_eq. rewrite decide_True; [done | set_solver].
        -- rewrite lookup_insert_ne by done. rewrite decide_False; [done | set_solver].
    + rewrite IH2. unfold add_member.
      apply map_eq; intros r. destruct (decide (r = body2)) as [->|Hne].
      * rewrite !lookup_insert_eq. f_equal. set_solver.
      * rewrite !lookup_insert_ne by done. by rewrite lookup_alter_ne.
Qed.

Lemma step_spec (b12 : gmap N N) (b21 : gmap N (gset N)) a b :
  let body2 := apply_map b12 b in
  (∀ k, (step (b12, b21) (a, b)).1 !! k
        = if decide (k ∈ moved b12 b21 a b) then Some body2 else b12 !! k) ∧
  (step (b12, b21) (a, b)).2
    = <[body2 := moved b12 b21 a b ∪ default ∅ (b21 !! body2)]> b21.
Proof.
  intros body2. unfold step, moved. simpl.
  fold (apply_map b12 a). fold (apply_map b12 b). fold body2.
  set (body1 := apply_map b12 a).
  set (S2 := default ∅ (b21 !! body2)).
  set (M0 := match b21 !! body2 with None => <[body2:=∅]> b21 | Some _ => b21 end).
  assert (HM0 : M0 !! body2 = Some S2).
  { unfold M0, S2. destruct (b21 !! body2) eqn:E; simpl; [done | by rewrite lookup_insert_eq]. }
  assert (HM0' : ∀ r, r ≠ body2 → M0 !! r = b21 !! r).
  { intros r Hr. unfold M0. destruct (b21 !! body2); [done | by rewrite lookup_insert_ne]. }
  assert (HM1 : add_member body2 body1 M0 !! body2 = Some ({[body1]} ∪ S2)).
  { unfold add_member. by rewrite lookup_alter_eq, HM0. }
  assert (HM1g : ∀ r, r = body2 →
            add_member body2 body1 M0 !! r = Some ({[body1]} ∪ S2)).
  { by intros r ->. }
  assert (HM1' : ∀ r, r ≠ body2 → add_member body2 body1 M0 !! r = b21 !! r).
  { intros r Hr. unfold add_member. rewrite lookup_alter_ne by done. by apply HM0'. }
  assert (Hbase : add_member body2 body1 M0 = <[body2 := {[body1]} ∪ S2]> b21).
  { apply map_eq; intros r. destruct (decide (r = body2)) as [->|Hne].
    - by rewrite HM1, lookup_insert_eq.
    - rewrite HM1' by done. by rewrite lookup_insert_ne. }
  destruct (add_member body2 body1 M0 !! body1) as [T|] eqn:ET.
  - destruct (foldl_redirect body2 (elements T) (<[body1:=body2]> b12)
                (add_member body2 body1 M0) _ HM1) as [F1 F2].
    assert (HT : T = if decide (body1 = body2) then {[body1]} ∪ S2
                     else default ∅ (b21 !! body1)).
    { case_decide as Hd.
      - rewrite (HM1g body1 Hd) in ET. by inversion ET.
      - rewrite HM1' in ET by done. by rewrite ET. }
    split.
    + intros k. rewrite F1.
      destruct (decide (k ∈ elements T)) as [Hin|Hin].
      * rewrite decide_True; [done|]. apply elem_of_elements in Hin.
        rewrite HT in Hin. case_decide; set_solver.
      * rewrite elem_of_elements in Hin. rewrite HT in Hin.
        destruct (decide (k = body1)) as [->|Hne].
        -- rewrite lookup_insert_eq. rewrite decide_True; [done|]. case_decide; set_solver.
        -- rewrite lookup_insert_ne by done. rewrite decide_False; [done|].
           case_decide; set_solver.
    + rewrite F2, Hbase. rewrite insert_insert_eq. f_equal.
      rewrite list_to_set_elements_L, HT. case_decide; set_solver.
  - assert (Hne : body1 ≠ body2).
    { intros Hd. by rewrite (HM1g body1 Hd) in ET. }
    rewrite HM1' in ET by done. rewrite decide_False by done. rewrite ET. simpl.
    split.
    + intros k. destruct (decide (k = body1)) as [->|Hk].
      * rewrite lookup_insert_eq. rewrite decide_True; [done | set_solver].
      * rewrite lookup_insert_ne by done. rewrite decide_False; [done | set_solver].
    + rewrite Hbase. f_equal. set_solver.
Qed.

Lemma apply_map_root (b12 : gmap N N) x : (∀ k r, b12 !! k = Some r → root b12 r) → root b12 (apply_map b12 x).
Proof.
  intros H. unfold apply_map. destruct (b12 !! x) as [r|] eqn:E; simpl.
  - eauto.
  - by left.
Qed.

Lemma root_apply (b12 : gmap N N) r : root b12 r → apply_map b12 r = r.
Proof. unfold apply_map. by intros [-> | ->]. Qed.

(** Under the invariant, the labels an iteration moves are exactly those
    whose current representative is the resolved [body1]. *)
Lemma moved_spec st a b k :
  inv st →
  k ∈ moved st.1 st.2 a b ↔ apply_map st.1 k = apply_map st.1 a.
Proof.
  destruct st as [b12 b21]. intros [I1 I2 I3]; simpl in *.
  pose proof (apply_map_root b12 a I1) as R1.
  pose proof (apply_map_root b12 b I1) as R2.
  unfold moved. set (body1 := apply_map b12 a) in *. set (body2 := apply_map b12 b) in *.
  assert (Hmem : ∀ r, root b12 r → k ∈ {[r]} ∪ default ∅ (b21 !! r) ↔ apply_map b12 k = r).
  { intros r Hr. split.
    - intros [->%elem_of_singleton | Hin]%elem_of_union; [by apply root_apply|].
      destruct (b21 !! r) as [s|] eqn:Es; simpl in Hin; [|set_solver].
      unfold apply_map. by rewrite (I3 r s k Es Hin Hr).
    - intros Hk. unfold apply_map in Hk. destruct (b12 !! k) as [r'|] eqn:Ek; simpl in Hk.
      + subst r'. destruct (I2 _ _ Ek) as (s & Hs & Hks). rewrite Hs. set_solver.
      + set_solver. }
  case_decide as Hd.
  - rewrite <- Hd. by rewrite Hmem.
  - by rewrite Hmem.
Qed.

Lemma step_lookup st a b k :
  inv st →
  (step st (a, b)).1 !! k
    = if decide (apply_map st.1 k = apply_map st.1 a) then Some (apply_map st.1 b)
      else st.1 !! k.
Proof.
  intros Hinv. destruct st as [b12 b21].
  destruct (step_spec b12 b21 a b) as [-> _].
  pose proof (moved_spec (b12, b21) a b k Hinv) as Hm. simpl in *.
  destruct (decide (k ∈ moved b12 b21 a b)); case_decide; tauto.
Qed.

Lemma step_apply st a b x :
  inv st →
  apply_map (step st (a, b)).1 x
    = if decide (apply_map st.1 x = apply_map st.1 a) then apply_map st.1 b
      else apply_map st.1 x.
Proof.
  intros Hinv. unfold apply_map at 1. rewrite step_lookup by done.
  case_decide; done.
Qed.

Lemma step_inv st mg : inv st → inv (step st mg).
Proof.
  intros Hinv. destruct mg as [a b].
  pose proof Hinv as [I1 I2 I3]. destruct st as [b12 b21]; simpl in *.
  pose proof (apply_map_root b12 a I1) as R1.
  pose proof (apply_map_root b12 b I1) as R2.
  destruct (step_spec b12 b21 a b) as [_ HM].
  pose proof (λ k, step_lookup (b12, b21) a b k Hinv) as Hm. simpl in Hm, HM.
  pose proof (λ k, moved_spec (b12, b21) a b k Hinv) as Hmv. simpl in Hmv.
  set (body1 := apply_map b12 a) in *. set (body2 := apply_map b12 b) in *.
  assert (Hroot2 : root (step (b12, b21) (a, b)).1 body2).
  { unfold root. rewrite Hm. case_decide; [by right | done]. }
  assert (Hkeep : ∀ r, root (step (b12, b21) (a, b)).1 r → r ≠ body2 →
            root b12 r ∧ apply_map b12 r ≠ body1).
  { intros r Hr Hne. unfold root in Hr. rewrite Hm in Hr.
    case_decide as Hd; [destruct Hr as [?|[=]]; done|]. done. }
  split; simpl.
  - intros k r. rewrite Hm. case_decide as Hd.
    + intros [= <-]. done.
    + intros Hk. pose proof (I1 _ _ Hk) as Hr.
      unfold root. rewrite Hm. rewrite (root_apply _ _ Hr).
      case_decide as Hd'; [|done].
      exfalso. apply Hd. unfold apply_map at 1. rewrite Hk. simpl. done.
  - intros k r. rewrite Hm, HM. case_decide as Hd.
    + intros [= <-]. rewrite lookup_insert_eq. eexists; split; [done|].
      apply elem_of_union_l. by apply Hmv.
    + intros Hk. destruct (I2 _ _ Hk) as (s & Hs & Hks).
      destruct (decide (r = body2)) as [->|Hne].
      * rewrite lookup_insert_eq. eexists; split; [done|]. rewrite Hs. set_solver.
      * rewrite lookup_insert_ne by done. eauto.
  - intros r s x. rewrite HM. destruct (decide (r = body2)) as [->|Hne].
    + rewrite lookup_insert_eq. intros [= <-] Hx _. rewrite Hm.
      apply elem_of_union in Hx as [Hx|Hx].
      * apply Hmv in Hx. by rewrite decide_True.
      * case_decide; [done|].
        destruct (b21 !! body2) as [s2|] eqn:E2; simpl in Hx; [|set_solver].
        by apply (I3 _ _ _ E2).
    + rewrite lookup_insert_ne by done. intros Hs Hx Hr.
      destruct (Hkeep r Hr Hne) as [Hr0 Hnb].
      pose proof (I3 _ _ _ Hs Hx Hr0) as Hxr.
      rewrite Hm. rewrite decide_False; [done|].
      unfold apply_map at 1. rewrite Hxr. simpl.
      rewrite (root_apply _ _ Hr0) in Hnb. done.
Qed.

Lemma inv_empty : inv (∅, ∅).
Proof. split; simpl; intros *; by rewrite lookup_empty. Qed.

Lemma foldl_step_inv l : ∀ st, inv st → inv (foldl step st l).
Proof. induction l as [|mg l IH]; intros st H; simpl; [done|]. apply IH. by apply step_inv. Qed.

Lemma run_inv merge_list : inv (run merge_list).
Proof. apply foldl_step_inv, inv_empty. Qed.

(** Soundness: a label and its representative are joined by merge edges. *)
Lemma foldl_step_sound (E : list (N * N)) l : ∀ st,
  inv st →
  (∀ x, connected E x (apply_map st.1 x)) →
  (∀ mg, mg ∈ l → mg ∈ E) →
  ∀ x, connected E x (apply_map (foldl step st l).1 x).
Proof.
  induction l as [|[a b] l IH]; intros st Hinv Hst Hsub x; cbn [foldl]; [done|].
  apply IH; [by apply step_inv | | intros mg Hmg; apply Hsub; by right].
  intros y. rewrite step_apply by done. case_decide as Hd; [|done].
  transitivity (apply_map st.1 y); [done|]. rewrite Hd.
  transitivity a; [symmetry; done|].
  transitivity b; [|done].
  apply rtsc_lr. apply Hsub. by left.
Qed.

(** Completeness: labels that share a representative keep sharing one,
    and the two ends of a processed edge share one. *)
Lemma foldl_step_mono l : ∀ st x y,
  inv st →
  apply_map st.1 x = apply_map st.1 y →
  apply_map (foldl step st l).1 x = apply_map (foldl step st l).1 y.
Proof.
  induction l as [|[a b] l IH]; intros st x y Hinv Hxy; cbn [foldl]; [done|].
  apply IH; [by apply step_inv|]. rewrite !step_apply by done. by rewrite Hxy.
Qed.

Lemma step_joins st a b :
  inv st → apply_map (step st (a, b)).1 a = apply_map (step st (a, b)).1 b.
Proof.
  intros Hinv. rewrite !step_apply by done.
  rewrite decide_True by done. by case_decide.
Qed.

Lemma foldl_step_edges l : ∀ st a b,
  inv st → (a, b) ∈ l →
  apply_map (foldl step st l).1 a = apply_map (foldl step st l).1 b.
Proof.
  induction l as [|mg l IH]; intros st a b Hinv Hin; [by apply elem_of_nil in Hin|].
  cbn [foldl]. apply elem_of_cons in Hin as [<-|Hin].
  - apply foldl_step_mono; [by apply step_inv|]. by apply step_joins.
  - apply IH; [by apply step_inv | done].
Qed.

Lemma run_connected merge_list x y :
  apply_map (run merge_list).1 x = apply_map (run merge_list).1 y
  ↔ connected merge_list x y.
Proof.
  split.
  - intros Hxy.
    assert (Hs : ∀ z, connected merge_list z (apply_map (run merge_list).1 z)).
    { apply foldl_step_sound; [apply inv_empty | | done].
      intros z. unfold apply_map. simpl. by rewrite lookup_empty. }
    transitivity (apply_map (run merge_list).1 x); [done|].
    rewrite Hxy. symmetry. done.
  - intros Hc. induction Hc as [x | x y z Hxy _ IH].
    + done.
    + rewrite <- IH. destruct Hxy as [Hxy|Hxy].
      * apply foldl_step_edges; [apply inv_empty | done].
      * symmetry. apply foldl_step_edges; [apply inv_empty | done].
Qed.

Lemma connected_perm (l1 l2 : list (N * N)) x y :
  l1 ≡ₚ l2 → connected l1 x y → connected l2 x y.
Proof.
  intros Hp. apply rtsc_congruence with (f := id). clear x y.
  intros x y. unfold edge. by rewrite Hp.
Qed.

End reconcile_facts.


(** ** Global reconciliation: idempotence and dependence on the edge order *)

(** C7.  The map built by the reconciliation loop is idempotent: the value
    of every entry is either not a key or a key mapped to itself, so
    applying the map twice gives the same label as applying it once. *)
Theorem reconcile_idempotent (merge_list : list (N * N)) :
  (∀ k r, (k, r) ∈ Reconcile.body2body merge_list →
     r ∉ (Reconcile.body2body merge_list).*1
     ∨ (r, r) ∈ Reconcile.body2body merge_list) ∧
  (∀ x, Reconcile.apply_map (Reconcile.run merge_list).1
          (Reconcile.apply_map (Reconcile.run merge_list).1 x)
        = Reconcile.apply_map (Reconcile.run merge_list).1 x).
Proof.
  pose proof (run_inv merge_list) as [I1 _ _].
  split.
  - intros k r Hkr. unfold Reconcile.body2body in *.
    apply elem_of_map_to_list in Hkr.
    destruct (I1 _ _ Hkr) as [Hr|Hr].
    + left. intros ((r1 & r2) & -> & Hin)%list_elem_of_fmap.
      apply elem_of_map_to_list in Hin. simpl in Hr. congruence.
    + right. by apply elem_of_map_to_list.
  - intros x. apply root_apply, apply_map_root, I1.
Qed.

(** C3, as the code has it.  The loop consumes the merge list in arrival
    order and no sort precedes it.  Two arrival orders of the same edges
    induce the same grouping of labels: two labels receive one common
    final label under the first order exactly when they do under the
    second. *)
Theorem reconcile_grouping_order_independent (l1 l2 : list (N * N)) :
  l1 ≡ₚ l2 →
  ∀ x y,
    Reconcile.apply_map (Reconcile.run l1).1 x = Reconcile.apply_map (Reconcile.run l1).1 y
    ↔ Reconcile.apply_map (Reconcile.run l2).1 x = Reconcile.apply_map (Reconcile.run l2).1 y.
Proof.
  intros Hp x y. rewrite !run_connected.
  split; apply connected_perm; [done | by symmetry].
Qed.

Lemma reconcile_grouping_order_independent_witness :
  [(1, 2); (1, 3)] ≡ₚ [(1, 3); (1, 2)] ∧
  (Reconcile.apply_map (Reconcile.run [(1, 2); (1, 3)]).1 2
     = Reconcile.apply_map (Reconcile.run [(1, 2); (1, 3)]).1 3
   ↔ Reconcile.apply_map (Reconcile.run [(1, 3); (1, 2)]).1 2
     = Reconcile.apply_map (Reconcile.run [(1, 3); (1, 2)]).1 3).
Proof.
  split; [apply Permutation_swap|].
  apply (reconcile_grouping_order_independent [(1, 2); (1, 3)] [(1, 3); (1, 2)]).
  apply Permutation_swap.
Defined.

(** C3, as stated, fails: the two arrival orders of the edges (1,2) and
    (1,3) give different maps, with representative 3 in one and 2 in the
    other. *)
Lemma reconcile_order_dependent :
  [(1, 2); (1, 3)] ≡ₚ [(1, 3); (1, 2)] ∧
  Reconcile.body2body [(1, 2); (1, 3)] ≠ Reconcile.body2body [(1, 3); (1, 2)] ∧
  (Reconcile.run [(1, 2); (1, 3)]).1 = {[1 := 3; 2 := 3]} ∧
  (Reconcile.run [(1, 3); (1, 2)]).1 = {[1 := 2; 3 := 2]}.
Proof.
  split; [apply Permutation_swap|].
  split; [vm_compute; discriminate|].
  split; vm_compute; reflexivity.
Qed.


(** ** The error monad and small list facts *)

Lemma bind_Ok {A B} (r : result A) (k : A → result B) b :
  r ≫= k = Ok b ↔ ∃ a, r = Ok a ∧ k a = Ok b.
Proof.
  destruct r as [a|e]; simpl; split.
  - intros H. by exists a.
  - by intros (a' & [= <-] & H).
  - done.
  - by intros (a' & [=] & _).
Qed.

Lemma bind_Raise {A B} (r : result A) (k : A → result B) :
  is_raise r → is_raise (r ≫= k).
Proof. by destruct r. Qed.

Lemma mapM_Ok_fmap {A B} (f : A → result B) (g : A → B) (l : list A) :
  (∀ x, x ∈ l → f x = Ok (g x)) → mapM f l = Ok (g <$> l).
Proof.
  induction l as [|x l IH]; intros H; [done|].
  cbn [mapM]. rewrite (H x) by (by left). cbn.
  rewrite IH by (intros y Hy; apply H; by right). done.
Qed.

Lemma mapM_Raise {A B} (f : A → result B) (l : list A) x :
  x ∈ l → is_raise (f x) → is_raise (mapM f l).
Proof.
  induction l as [|y l IH]; intros Hin Hx; [by apply elem_of_nil in Hin|].
  cbn [mapM]. apply elem_of_cons in Hin as [<-|Hin].
  - by apply bind_Raise.
  - destruct (f y); [|done]. cbn. apply bind_Raise. by apply IH.
Qed.

Lemma mapM_Ok_inv {A B} (f : A → result B) (l : list A) (l' : list B) :
  mapM f l = Ok l' → Forall2 (λ x y, f x = Ok y) l l'.
Proof.
  revert l'. induction l as [|x l IH]; intros l'; cbn [mapM].
  - intros [= <-]. constructor.
  - intros (y & Hy & (ys & Hys & [= <-])%bind_Ok)%bind_Ok.
    constructor; [done | by apply IH].
Qed.

Lemma elem_of_unique (l : list N) x : x ∈ unique l ↔ x ∈ l.
Proof. unfold unique. rewrite merge_sort_Permutation. apply elem_of_remove_dups. Qed.

Lemma NoDup_unique (l : list N) : NoDup (unique l).
Proof. unfold unique. rewrite merge_sort_Permutation. apply NoDup_remove_dups. Qed.

(** ** Offset assignment *)









(** ** Relabel application *)

Lemma list_to_map_zip_id (l : list N) k :
  (list_to_map (zip l l) : gmap N N) !! k = if decide (k ∈ l) then Some k else None.
Proof.
  induction l as [|x l IH]; cbn.
  - rewrite lookup_empty. by rewrite decide_False by (apply not_elem_of_nil).
  - destruct (decide (k = x)) as [->|Hne].
    + rewrite lookup_insert_eq. rewrite decide_True; [done | by left].
    + rewrite lookup_insert_ne by done. rewrite IH.
      destruct (decide (k ∈ l)) as [Hin|Hin].
      * rewrite decide_True; [done | by right].
      * rewrite decide_False; [done|]. intros [?|?]%elem_of_cons; done.
Qed.

Lemma foldl_overwrite (l : list (N * N)) : ∀ (lm : gmap N N) k,
  NoDup l.*1 →
  foldl (λ lm (mapping : N * N),
           if bool_decide (is_Some (lm !! mapping.1))
           then <[mapping.1 := mapping.2]> lm else lm) lm l !! k
  = (λ v0, default v0 ((list_to_map l : gmap N N) !! k)) <$> lm !! k.
Proof.
  induction l as [|[k1 v1] l IH]; intros lm k Hnd; cbn [foldl].
  - cbn. rewrite lookup_empty. by destruct (lm !! k).
  - apply NoDup_cons in Hnd as [Hk1 Hnd]. rewrite IH by done. cbn [fst snd].
    cbn [list_to_map foldr]. cbn.
    destruct (decide (k = k1)) as [->|Hne].
    + rewrite lookup_insert_eq.
      rewrite (not_elem_of_list_to_map_1 l k1) by done.
      case_bool_decide as Hs.
      * rewrite lookup_insert_eq. destruct Hs as [v0 ->]. done.
      * apply eq_None_not_Some in Hs. by rewrite Hs.
    + rewrite (lookup_insert_ne _ k1 k) by done.
      case_bool_decide; [by rewrite lookup_insert_ne|done].
Qed.

Lemma relabel_spec (offsets m : gmap N N) sv labels offset :
  offsets !! sv_index sv = Some offset →
  relabel offsets (map_to_list m) (sv, labels)
  = Ok (sv, array_map (λ l, Reconcile.apply_map m (global_label offset l)) labels).
Proof.
  intros Hoff. unfold relabel. rewrite Hoff. cbn [of_option mbind result_bind].
  unfold applyMapping. rewrite bool_decide_false by (intros H; by apply H).
  set (labels' := array_map _ (array_map _ labels)).
  erewrite (mapM_Ok_fmap _ (Reconcile.apply_map m)).
  - cbn. do 2 f_equal. unfold labels', array_map. cbn. f_equal.
    rewrite <- !list_fmap_compose. apply list_fmap_ext. intros _ l _. done.
  - intros x Hx. rewrite foldl_overwrite by apply NoDup_fst_map_to_list.
    rewrite list_to_map_zip_id. rewrite decide_True by (by apply elem_of_unique).
    cbn. rewrite list_to_map_to_list. unfold Reconcile.apply_map. done.
Qed.


Lemma global_label_background offset : global_label offset 0 = 0.
Proof.
  unfold global_label. rewrite N.add_0_l.
  rewrite bool_decide_true; [done|]. unfold uint64. by rewrite N.Div0.mod_mod.
Qed.





(** ** Pairwise merge computation *)

Section stitcher_facts.
Variable touches : Z → Z → Z → Z → bool.

(** [stitcher] on two contributions already in index order and of one shape. *)
Lemma stitcher_ordered offsets key sv1 b1 sv2 b2 sz sy sx :
  ¬ sv_index sv2 < sv_index sv1 →
  shape b1 = (sz, sy, sx) → shape b2 = (sz, sy, sx) →
  stitcher touches offsets (key, [(sv1, b1); (sv2, b2)])
  = stitcher_merge_list offsets sv1 sv2 b1 b2
      (interface touches sz (z1 (sv_box sv1)) (z2 (sv_box sv1)) (z1 (sv_box sv2)) (z2 (sv_box sv2)))
      (interface touches sy (y1 (sv_box sv1)) (y2 (sv_box sv1)) (y1 (sv_box sv2)) (y2 (sv_box sv2)))
      (interface touches sx (x1 (sv_box sv1)) (x2 (sv_box sv1)) (x1 (sv_box sv2)) (x2 (sv_box sv2))).
Proof.
  intros Hord Hs1 Hs2. unfold stitcher.
  rewrite bool_decide_false by done.
  rewrite bool_decide_false by (rewrite Hs1, Hs2; intros H; by apply H).
  by rewrite Hs1.
Qed.

Lemma interface_cases n p1 p2 p1_2 p2_2 :
  interface touches n p1 p2 p1_2 p2_2 = ((n / 2)%nat, (n / 2 + 1)%nat)
  ∨ interface touches n p1 p2 p1_2 p2_2 = (0%nat, n).
Proof. unfold interface. destruct touches; auto. Qed.

(** A boundary group that is not a pair, or a pair of different shapes,
    makes [stitcher] raise. *)
Lemma stitcher_malformed offsets key group :
  length group ≠ 2%nat
  ∨ (∃ sv1 b1 sv2 b2, group = [(sv1, b1); (sv2, b2)] ∧ shape b1 ≠ shape b2) →
  ∃ msg, stitcher touches offsets (key, group) = Raise (Exception msg).
Proof.
  intros [Hlen | (sv1 & b1 & sv2 & b2 & -> & Hshape)].
  - unfold stitcher.
    destruct group as [|[sv1 b1] [|[sv2 b2] [|c group]]]; cbn in Hlen; try done; eauto.
  - unfold stitcher. case_bool_decide.
    + rewrite bool_decide_true by done. eauto.
    + rewrite bool_decide_true by done. eauto.
Qed.

End stitcher_facts.

(** ** The two-block scenario, end to end *)

Lemma two_blocks_boundaries :
  mapM extract_boundaries ((λ c, (c.1, c.2.1)) <$> two_blocks)
  = Ok [[((0, 1), (svA, cropA))]; [((0, 1), (svB, cropB))]].
Proof. vm_compute. reflexivity. Qed.

Lemma two_blocks_offsets :
  (assign_offsets ((λ c, (c.1, c.2.2)) <$> two_blocks)).1 = {[0 := 0; 1 := 3]}.
Proof. vm_compute. reflexivity. Qed.

Lemma two_blocks_stitcher touches :
  stitcher touches {[0 := 0; 1 := 3]} ((0, 1), [(svA, cropA); (svB, cropB)]) = Ok (0, [(2, 4)]).
Proof.
  rewrite (stitcher_ordered touches _ _ _ _ _ _ 6 6 2); [| by vm_compute | by vm_compute.. ].
  destruct (interface_cases touches 6 (z1 (sv_box svA)) (z2 (sv_box svA))
              (z1 (sv_box svB)) (z2 (sv_box svB))) as [-> | ->];
  destruct (interface_cases touches 6 (y1 (sv_box svA)) (y2 (sv_box svA))
              (y1 (sv_box svB)) (y2 (sv_box svB))) as [-> | ->];
  destruct (interface_cases touches 2 (x1 (sv_box svA)) (x2 (sv_box svA))
              (x1 (sv_box svB)) (x2 (sv_box svB))) as [-> | ->];
  vm_compute; reflexivity.
Qed.

Lemma two_blocks_merge_edges touches : merge_edges touches two_blocks = Ok [(2, 4)].
Proof.
  unfold merge_edges. rewrite two_blocks_boundaries, two_blocks_offsets.
  cbn [mbind result_bind].
  change (groupByKey _) with [((0, 1), [(svA, cropA); (svB, cropB)])].
  cbn [mapM]. rewrite two_blocks_stitcher. reflexivity.
Qed.

(** C4, as the code has it.  In the two-block scenario the offsets are 0
    and 3 and the pairwise stage emits the single merge edge (2, 4).  The
    second (higher-index) block keeps its label: block A's label 2 becomes
    4 while its label 1 stays 1, and block B's label 1 is 4 = 1 + 3 in the
    output.  This holds whichever axes [touches] reports. *)
Theorem two_block_scenario (touches : Z → Z → Z → Z → bool) :
  (assign_offsets ((λ c, (c.1, c.2.2)) <$> two_blocks)).1 = {[0 := 0; 1 := 3]} ∧
  merge_edges touches two_blocks = Ok [(2, 4)] ∧
  stitch touches two_blocks = Ok [(svA, volA_stitched); (svB, volB_stitched)].
Proof.
  split; [apply two_blocks_offsets|].
  split; [apply two_blocks_merge_edges|].
  unfold stitch. rewrite two_blocks_merge_edges. cbn [mbind result_bind].
  vm_compute. reflexivity.
Qed.

(** C4, as stated, fails: block B's label is not relabelled to 2, and
    block A does not come out unchanged. *)
Lemma two_block_scenario_not_as_stated :
  merge_edges touches_faces two_blocks = Ok [(2, 4)] ∧
  stitch touches_faces two_blocks ≠ Ok [(svA, volA); (svB, array_map (λ _, 2) volB)].
Proof. split; [apply two_blocks_merge_edges|]. vm_compute. discriminate. Qed.


(** ** Malformed boundary groups *)

(** C9.  When a boundary key collects a number of contributions other than
    two, or two contributions of different shapes, [stitcher] raises on
    that group and the exception ends the whole stitch: neither the merge
    edges nor any relabelled block is produced. *)
Theorem malformed_boundary_group_aborts (touches : Z → Z → Z → Z → bool)
    (label_chunks : list (Subvolume * (ndarray * N))) mapped key group :
  mapM extract_boundaries ((λ c, (c.1, c.2.1)) <$> label_chunks) = Ok mapped →
  (key, group) ∈ groupByKey (mjoin mapped) →
  length group ≠ 2%nat
  ∨ (∃ sv1 b1 sv2 b2, group = [(sv1, b1); (sv2, b2)] ∧ shape b1 ≠ shape b2) →
  (∃ msg, stitcher touches
            (assign_offsets ((λ c, (c.1, c.2.2)) <$> label_chunks)).1 (key, group)
          = Raise (Exception msg)) ∧
  (∃ e, merge_edges touches label_chunks = Raise e) ∧
  (∃ e, stitch touches label_chunks = Raise e).
Proof.
  intros Hmapped Hgroup Hbad.
  destruct (stitcher_malformed touches
              (assign_offsets ((λ c, (c.1, c.2.2)) <$> label_chunks)).1 key group Hbad)
    as [msg Hmsg].
  split; [by exists msg|].
  assert (Hedges : is_raise (merge_edges touches label_chunks)).
  { unfold merge_edges. rewrite Hmapped. cbn [mbind result_bind].
    apply bind_Raise. eapply mapM_Raise; [exact Hgroup|]. by rewrite Hmsg. }
  split.
  - destruct (merge_edges touches label_chunks) as [|e]; [done | by exists e].
  - unfold stitch. destruct (merge_edges touches label_chunks) as [|e]; [done | by exists e].
Qed.

Lemma malformed_boundary_group_aborts_witness :
  ∃ e, stitch touches_faces three_contributors = Raise e.
Proof.
  refine (proj2 (proj2 (malformed_boundary_group_aborts touches_faces three_contributors
    [[((0, 1), (svA_twice, cropA)); ((0, 1), (svA_twice, cropA))]; [((0, 1), (svB, cropB))]]
    (0, 1) [(svA_twice, cropA); (svA_twice, cropA); (svB, cropB)] _ _ _))).
  - vm_compute. reflexivity.
  - vm_compute. apply list_elem_of_here.
  - left. simpl. lia.
Defined.


(** ** Background in the stitching pipeline *)

Lemma foldM_inv {A B} (f : B → A → result B) (P : B → Prop) (l : list A) : ∀ b0 b,
  (∀ b a b', a ∈ l → P b → f b a = Ok b' → P b') →
  P b0 → foldM f b0 l = Ok b → P b.
Proof.
  induction l as [|a l IH]; intros b0 b Hstep H0; cbn [foldM].
  - by intros [= <-].
  - intros (b1 & Hb1 & Hrest)%bind_Ok.
    eapply (IH b1); [| |exact Hrest].
    + intros ? ? ? ?. apply Hstep. by right.
    + eapply Hstep; [by left | exact H0 | exact Hb1].
Qed.

Lemma elem_of_assoc_set {V} k (v : V) d k' v' :
  (k', v') ∈ assoc_set k v d → (k', v') = (k, v) ∨ (k', v') ∈ d.
Proof.
  induction d as [|[k0 v0] d IH]; cbn.
  - intros ->%list_elem_of_singleton. by left.
  - case_decide as Hk.
    + intros [->|Hin]%elem_of_cons; [left; by subst | right; by right].
    + intros [->|Hin]%elem_of_cons; [right; by left|].
      destruct (IH Hin) as [?|?]; [by left | right; by right].
Qed.

Lemma assoc_get_elem_of {V} k (v : V) d : assoc_get k d = Some v → (k, v) ∈ d.
Proof.
  induction d as [|[k0 v0] d IH]; cbn; [done|].
  case_decide as Hk.
  - intros [= <-]. subst. by left.
  - intros H. right. by apply IH.
Qed.

Lemma count_overlap_foreground D1 D2 d body1 body2 d' :
  body1 ∈ D1 → foreground_dict D1 D2 d →
  count_overlap d (body1, body2) = Ok d' → foreground_dict D1 D2 d'.
Proof.
  intros H1 Hd. unfold count_overlap. case_bool_decide as Hz; [by intros [= <-]|].
  intros (bodydict & Hget & (count & _ & [= <-])%bind_Ok)%bind_Ok.
  destruct (assoc_get body2 d) as [bd|] eqn:Eg; [|done]. injection Hget as ->.
  apply assoc_get_elem_of in Eg. destruct (Hd _ _ Eg) as (Hb2 & Hin2 & Hbd).
  assert (Hbd' : ∀ b1 val, (b1, val) ∈
            match assoc_get body1 bodydict with
            | Some _ => bodydict
            | None => assoc_set body1 0 bodydict
            end → b1 ≠ 0 ∧ b1 ∈ D1).
  { intros b1 val Hin. destruct (assoc_get body1 bodydict); [by eapply Hbd|].
    apply elem_of_assoc_set in Hin as [[= -> ->]|Hin]; [|by eapply Hbd].
    split; [tauto | done]. }
  intros b2 bd2 [[= -> ->]|Hin]%elem_of_assoc_set; [|by apply Hd].
  split_and!; [done..|].
  intros b1 val [[= -> ->]|Hin]%elem_of_assoc_set; [|by eapply Hbd'].
  split; [tauto | done].
Qed.

Lemma initial_dict_foreground D1 (labels : list N) :
  foreground_dict D1 labels
    (foldl (λ d body, if bool_decide (body = 0) then d else assoc_set body [] d)
           [] (unique labels)).
Proof.
  assert (H : ∀ l d, (∀ x, x ∈ l → x ∈ labels) → foreground_dict D1 labels d →
            foreground_dict D1 labels
              (foldl (λ d body, if bool_decide (body = 0) then d else assoc_set body [] d) d l)).
  { induction l as [|x l IH]; intros d Hl Hd; cbn [foldl]; [done|].
    apply IH; [intros; apply Hl; by right|].
    case_bool_decide as Hx; [done|].
    intros b2 bd [[= -> ->]|Hin]%elem_of_assoc_set; [|by apply Hd].
    split_and!; [done | apply Hl; by left |].
    intros ? ? []%elem_of_nil. }
  apply H.
  - intros x. by rewrite elem_of_unique.
  - intros ? ? []%elem_of_nil.
Qed.

Lemma stitcher_merge_list_foreground offsets sv1 sv2 b1 b2 zr yr xr idx edges a b :
  stitcher_merge_list offsets sv1 sv2 b1 b2 zr yr xr = Ok (idx, edges) →
  (a, b) ∈ edges →
  ∃ off1 off2 body1 body2,
    offsets !! sv_index sv1 = Some off1 ∧ offsets !! sv_index sv2 = Some off2 ∧
    body1 ∈ data b1 ∧ body2 ∈ data b2 ∧ body1 ≠ 0 ∧ body2 ≠ 0 ∧
    a = body1 + off1 ∧ b = body2 + off2.
Proof.
  unfold stitcher_merge_list.
  intros (d & Hd & (off1 & Ho1 & (off2 & Ho2 & [= <- <-])%bind_Ok)%bind_Ok)%bind_Ok Hin.
  destruct (offsets !! sv_index sv1) as [o1|]; [|done].
  destruct (offsets !! sv_index sv2) as [o2|]; [|done].
  injection Ho1 as ->. injection Ho2 as ->.
  assert (Hfg : foreground_dict (data b1) (data b2) d).
  { eapply (foldM_inv count_overlap); [| |exact Hd].
    - intros d0 [x y] d1 Hxy. apply count_overlap_foreground.
      by apply elem_of_zip_l in Hxy.
    - apply initial_dict_foreground. }
  apply list_elem_of_fmap in Hin as ([body1 body2] & [= -> ->] & Hin).
  apply list_elem_of_bind in Hin as ([bd2 bodydict] & Hin & Hbd). cbn in Hin.
  case_bool_decide; [|by apply elem_of_nil in Hin].
  apply list_elem_of_bind in Hin as ([bd1 val] & Hin & Hval). cbn in Hin.
  case_bool_decide; [|by apply elem_of_nil in Hin].
  apply list_elem_of_singleton in Hin as [= -> ->].
  destruct (Hfg _ _ Hbd) as (? & ? & Hinner). destruct (Hinner _ _ Hval).
  exists off1, off2, bd1, bd2. by split_and!.
Qed.

Lemma stitcher_foreground touches offsets key group idx edges a b :
  stitcher touches offsets (key, group) = Ok (idx, edges) →
  (a, b) ∈ edges →
  ∃ sv1 b1 sv2 b2 off1 off2 body1 body2,
    (sv1, b1) ∈ group ∧ (sv2, b2) ∈ group ∧
    offsets !! sv_index sv1 = Some off1 ∧ offsets !! sv_index sv2 = Some off2 ∧
    body1 ∈ data b1 ∧ body2 ∈ data b2 ∧ body1 ≠ 0 ∧ body2 ≠ 0 ∧
    a = body1 + off1 ∧ b = body2 + off2.
Proof.
  unfold stitcher.
  destruct group as [|[sv1 b1] [|[sv2 b2] [|c group]]]; try done.
  case_bool_decide as Hord.
  - case_bool_decide; [done|]. destruct (shape b2) as [[sz sy] sx].
    intros Hm Hin.
    destruct (stitcher_merge_list_foreground _ _ _ _ _ _ _ _ _ _ _ _ Hm Hin)
      as (off1 & off2 & body1 & body2 & ?).
    exists sv2, b2, sv1, b1, off1, off2, body1, body2.
    split; [right; by left|]. split; [by left|]. done.
  - case_bool_decide; [done|]. destruct (shape b1) as [[sz sy] sx].
    intros Hm Hin.
    destruct (stitcher_merge_list_foreground _ _ _ _ _ _ _ _ _ _ _ _ Hm Hin)
      as (off1 & off2 & body1 & body2 & ?).
    exists sv1, b1, sv2, b2, off1, off2, body1, body2.
    split; [by left|]. split; [right; by left|]. done.
Qed.

Lemma elem_of_group_insert {K V} `{EqDecision K} (k : K) (v : V) g k' vs' v' :
  (k', vs') ∈ group_insert k v g → v' ∈ vs' →
  (k', v') = (k, v) ∨ ∃ vs0, (k', vs0) ∈ g ∧ v' ∈ vs0.
Proof.
  induction g as [|[k0 vs0] g IH]; cbn.
  - intros [= -> ->]%list_elem_of_singleton ->%list_elem_of_singleton. by left.
  - case_decide as Hk.
    + intros [[= -> ->]|Hin]%elem_of_cons Hv.
      * apply elem_of_app in Hv as [Hv| ->%list_elem_of_singleton].
        -- right. eexists. split; [by left | done].
        -- left. by subst.
      * right. eexists. split; [by right | done].
    + intros [[= -> ->]|Hin]%elem_of_cons Hv.
      * right. eexists. split; [by left | done].
      * destruct (IH Hin Hv) as [?|(vs1 & ? & ?)]; [by left|].
        right. exists vs1. split; [by right | done].
Qed.

Lemma elem_of_groupByKey {K V} `{EqDecision K} (l : list (K * V)) k vs v :
  (k, vs) ∈ groupByKey l → v ∈ vs → (k, v) ∈ l.
Proof.
  unfold groupByKey.
  assert (H' : ∀ l' g,
    (∀ k vs v, (k, vs) ∈ g → v ∈ vs → (k, v) ∈ l) →
    (∀ kv, kv ∈ l' → kv ∈ l) →
    ∀ k vs v, (k, vs) ∈ foldl (λ g kv, group_insert kv.1 kv.2 g) g l' → v ∈ vs → (k, v) ∈ l).
  { induction l' as [|[k1 v1] l' IH]; intros g Hg Hsub; cbn [foldl]; [done|].
    apply IH; [|intros; apply Hsub; by right].
    intros k0 vs0 v0 Hin Hv. cbn in Hin.
    destruct (elem_of_group_insert _ _ _ _ _ _ Hin Hv) as [[= -> ->]|(vs1 & ? & ?)].
    - apply Hsub. by left.
    - by eapply Hg. }
  apply H'; [|done]. intros ? ? ? []%elem_of_nil.
Qed.

Lemma elem_of_reduceByKey_extend {K V} `{EqDecision K} (l : list (K * list V)) e :
  e ∈ mjoin (reduceByKey_extend l).*2 → ∃ k es, (k, es) ∈ l ∧ e ∈ es.
Proof.
  unfold reduceByKey_extend.
  intros (es & He & Hes)%list_elem_of_join.
  apply list_elem_of_fmap in Hes as ([k0 es'] & Heq & Hes). cbn in Heq. subst es.
  apply list_elem_of_fmap in Hes as ([k' vss] & Heq & Hg). cbn in Heq.
  injection Heq as Hk Hes'. subst k0 es'.
  apply list_elem_of_join in He as (es0 & He & Hes0).
  exists k', es0. split; [|done]. by eapply elem_of_groupByKey.
Qed.

Lemma merge_edges_stitcher touches label_chunks edges e :
  merge_edges touches label_chunks = Ok edges → e ∈ edges →
  ∃ key group idx es,
    stitcher touches (assign_offsets ((λ c, (c.1, c.2.2)) <$> label_chunks)).1 (key, group)
      = Ok (idx, es) ∧ e ∈ es.
Proof.
  unfold merge_edges.
  intros (mapped & _ & (mappings & Hm & [= <-])%bind_Ok)%bind_Ok He.
  apply elem_of_reduceByKey_extend in He as (idx & es & Hin & He).
  apply mapM_Ok_inv in Hm.
  apply list_elem_of_lookup in Hin as [i Hi].
  destruct (Forall2_lookup_r _ _ _ _ _ Hm Hi) as ([key group] & _ & Hst).
  by exists key, group, idx, es.
Qed.

Lemma merge_edges_foreground touches label_chunks edges a b :
  merge_edges touches label_chunks = Ok edges → (a, b) ∈ edges → a ≠ 0 ∧ b ≠ 0.
Proof.
  intros Hm Hin.
  destruct (merge_edges_stitcher _ _ _ _ Hm Hin) as (key & group & idx & es & Hst & He).
  destruct (stitcher_foreground _ _ _ _ _ _ _ _ Hst He)
    as (? & ? & ? & ? & off1 & off2 & body1 & body2 & _ & _ & _ & _ & _ & _ & ? & ? & -> & ->).
  lia.
Qed.

(** A label no merge edge mentions is left alone by the merge map. *)
Lemma apply_map_untouched (merge_list : list (N * N)) x :
  (∀ a b, (a, b) ∈ merge_list → a ≠ x ∧ b ≠ x) →
  Reconcile.apply_map (Reconcile.run merge_list).1 x = x.
Proof.
  intros Hx.
  assert (Hc : Reconcile.connected merge_list x
                 (Reconcile.apply_map (Reconcile.run merge_list).1 x)).
  { apply run_connected. symmetry. apply root_apply, apply_map_root.
    apply (run_inv merge_list). }
  apply rtc_inv in Hc as [Heq | (y & Hxy & _)]; [done|].
  destruct Hxy as [Hxy|Hxy]; apply Hx in Hxy; tauto.
Qed.

Lemma relabel_Ok offsets master_merge_list sv labels out :
  relabel offsets master_merge_list (sv, labels) = Ok out →
  ∃ offset, offsets !! sv_index sv = Some offset.
Proof.
  unfold relabel. destruct (offsets !! sv_index sv) as [offset|]; [eauto | done].
Qed.

(** Every block of a successful stitch comes back with its descriptor and
    shape, and with 0 wherever its input was 0. *)
Lemma stitch_background touches label_chunks out :
  stitch touches label_chunks = Ok out →
  Forall2 (λ (c : Subvolume * (ndarray * N)) (o : Subvolume * ndarray),
             o.1 = c.1 ∧ shape o.2 = shape c.2.1 ∧
             ∀ p, data c.2.1 !! p = Some 0 → data o.2 !! p = Some 0)
          label_chunks out.
Proof.
  unfold stitch. intros (merge_list & Hm & Hout)%bind_Ok.
  apply mapM_Ok_inv in Hout. rewrite Forall2_fmap_l in Hout.
  eapply Forall2_impl; [exact Hout|].
  intros [sv [labels max_id]] o Hrel.
  change (relabel (assign_offsets ((λ c, (c.1, c.2.2)) <$> label_chunks)).1
            (map_to_list (Reconcile.run merge_list).1) (sv, labels) = Ok o) in Hrel.
  destruct (relabel_Ok _ _ _ _ _ Hrel) as [offset Hoff].
  rewrite (relabel_spec _ _ _ _ _ Hoff) in Hrel.
  injection Hrel as <-. cbn. split_and!; [done..|].
  intros p Hp. rewrite list_lookup_fmap, Hp. cbn.
  rewrite global_label_background. f_equal. apply apply_map_untouched.
  intros a b Hab. destruct (merge_edges_foreground _ _ _ _ _ Hm Hab). done.
Qed.


(** ** Row argmax of a dense table *)

Lemma argmax_fold_spec (xs : list N) : ∀ (pre : list N) best best_val,
  (pre ++ xs) ≠ [] →
  pre !! N.to_nat best = Some best_val →
  (N.to_nat best < length pre)%nat →
  (∀ i v, pre !! i = Some v → v ≤ best_val) →
  (∀ i v, pre !! i = Some v → (i < N.to_nat best)%nat → v < best_val) →
  let r := (foldl (λ (st : N * N * N) v,
                     let '(best, best_val, i) := st in
                     if bool_decide (best_val < v) then (i, v, i + 1) else (best, best_val, i + 1))
                  (best, best_val, N.of_nat (length pre)) xs).1 in
  (pre ++ xs) !! N.to_nat r.1 = Some r.2 ∧
  (∀ i v, (pre ++ xs) !! i = Some v → v ≤ r.2) ∧
  (∀ i v, (pre ++ xs) !! i = Some v → (i < N.to_nat r.1)%nat → v < r.2).
Proof.
  induction xs as [|x xs IH]; intros pre best best_val Hne Hb Hlt Hmax Hlow; cbn [foldl].
  - rewrite app_nil_r. cbn. done.
  - replace (pre ++ x :: xs) with ((pre ++ [x]) ++ xs) in * by (by rewrite <- app_assoc).
    replace (N.of_nat (length pre) + 1) with (N.of_nat (length (pre ++ [x])))
      by (rewrite length_app; cbn; lia).
    case_bool_decide as Hx.
    + apply IH; [done | | | |].
      * rewrite Nat2N.id. by rewrite list_lookup_middle.
      * rewrite Nat2N.id, length_app. cbn. lia.
      * intros i v Hi. apply lookup_app_Some in Hi as [Hi|[_ Hi]].
        -- specialize (Hmax _ _ Hi). lia.
        -- apply list_lookup_singleton_Some in Hi as [_ <-]. lia.
      * intros i v Hi. rewrite Nat2N.id. intros Hil.
        rewrite lookup_app_l in Hi by done. specialize (Hmax _ _ Hi). lia.
    + apply IH; [done | | | |].
      * by rewrite lookup_app_l.
      * rewrite length_app. lia.
      * intros i v Hi. apply lookup_app_Some in Hi as [Hi|[_ Hi]].
        -- by eapply Hmax.
        -- apply list_lookup_singleton_Some in Hi as [_ <-]. lia.
      * intros i v Hi Hil. rewrite lookup_app_l in Hi by lia. by eapply Hlow.
Qed.

Lemma argmax_spec (row : list N) :
  row ≠ [] →
  ∃ c v, argmax row = Ok c ∧ row !! N.to_nat c = Some v ∧
    (∀ i w, row !! i = Some w → w ≤ v) ∧
    (∀ i w, row !! i = Some w → (i < N.to_nat c)%nat → w < v).
Proof.
  destruct row as [|x xs]; [done|]. intros _. unfold argmax.
  pose proof (argmax_fold_spec xs [x] 0 x) as H. cbn [length app] in H.
  change (N.of_nat 1) with 1 in H.
  destruct H as (H1 & H2 & H3); try done.
  - cbn. lia.
  - intros [|i] v; cbn; [intros [= <-]; lia | done].
  - intros i v _. cbn. lia.
  - eexists _, _. split; [reflexivity|]. split_and!; done.
Qed.

Lemma dense_get_here row rows c :
  table_get (Dense (row :: rows)) (N.of_nat 0) c = default 0 (row !! N.to_nat c).
Proof. unfold table_get. by rewrite Nat2N.id. Qed.

Lemma dense_get_further row rows r c :
  table_get (Dense (row :: rows)) (N.of_nat (S r)) c = table_get (Dense rows) (N.of_nat r) c.
Proof. unfold table_get. by rewrite !Nat2N.id. Qed.

Lemma dense_row_argmax (rows : list (list N)) :
  Forall (λ row, row ≠ []) rows →
  ∃ cols, row_argmax (Dense rows) = Ok cols ∧ length cols = length rows ∧
    ∀ r c, cols !! r = Some c → lowest_argmax (Dense rows) (N.of_nat r) c.
Proof.
  induction 1 as [|row rows Hrow Hrows (cols & Hc & Hlen & Hcols)].
  - exists []. split_and!; [done..|]. intros ? ? [=].
  - destruct (argmax_spec row Hrow) as (c & v & Hc0 & Hv & Hmax & Hlow).
    exists (c :: cols). cbn [row_argmax mapM] in *. rewrite Hc0, Hc. cbn.
    split_and!; [done | by rewrite Hlen |].
    intros [|r] c0; cbn [lookup list_lookup].
    + intros [= <-]. unfold lowest_argmax. split.
      * intros c'. rewrite !dense_get_here, Hv. cbn.
        destruct (row !! N.to_nat c') as [w|] eqn:E; cbn; [by eapply Hmax | lia].
      * intros c' Hc'. rewrite !dense_get_here, Hv. cbn.
        destruct (row !! N.to_nat c') as [w|] eqn:E; cbn.
        -- eapply Hlow; [done | lia].
        -- exfalso. apply lookup_ge_None in E. apply lookup_lt_Some in Hv. lia.
    + intros Hr. specialize (Hcols _ _ Hr). unfold lowest_argmax in *.
      split; intros c'; rewrite !dense_get_further; apply Hcols.
Qed.


(** ** Row argmax of a sparse table *)

Lemma lex_lt_spec (a b : N * N) :
  lex_lt a b = true ↔ a.1 < b.1 ∨ (a.1 = b.1 ∧ a.2 < b.2).
Proof.
  unfold lex_lt. rewrite orb_true_iff, andb_true_iff, !N.ltb_lt, N.eqb_eq. done.
Qed.

Lemma sparse_argmax_step_inv seen st e n :
  length st = n → (N.to_nat e.1.1 < n)%nat → argmax_inv seen st →
  ∃ st', sparse_argmax_step st e = Ok st' ∧ length st' = n ∧ argmax_inv (seen ++ [e]) st'.
Proof.
  destruct e as [[row col] element]. cbn [fst snd]. intros Hlen Hrow Hinv.
  unfold sparse_argmax_step.
  destruct (st !! N.to_nat row) as [[pmx pcol]|] eqn:Hprev;
    [|apply lookup_ge_None in Hprev; lia].
  cbn [of_option mbind result_bind fst].
  destruct (Hinv _ _ _ Hprev) as [Hmax Hfirst]. rewrite N2Nat.id in Hmax, Hfirst.
  assert (Hother : ∀ r mx c, r ≠ N.to_nat row → st !! r = Some (mx, c) →
    (∀ c' d', (N.of_nat r, c', d') ∈ seen ++ [(row, col, element)] → d' ≤ mx) ∧
    ((mx = 0 ∧ c = 0) ∨
     (0 < mx ∧ ∃ pre post, seen ++ [(row, col, element)] = pre ++ (N.of_nat r, c, mx) :: post ∧
        ∀ c' d', (N.of_nat r, c', d') ∈ pre → d' < mx))).
  { intros r mx c Hr Hst. destruct (Hinv _ _ _ Hst) as [Hm Hf]. split.
    - intros c' d' [Hin|Hin]%elem_of_app; [by eapply Hm|].
      apply list_elem_of_singleton in Hin. injection Hin as <- _ _. lia.
    - destruct Hf as [?|(Hpos & pre & post & -> & Hpre)]; [by left|].
      right. split; [done|]. exists pre, (post ++ [(row, col, element)]).
      split; [by rewrite <- app_assoc | done]. }
  case_bool_decide as Hgt.
  - eexists. split; [done|]. split; [by rewrite length_insert|].
    intros r mx c. destruct (decide (r = N.to_nat row)) as [->|Hne].
    + rewrite list_lookup_insert_eq by lia. intros [= <- <-]. rewrite N2Nat.id. split.
      * intros c' d' [Hin|Hin]%elem_of_app.
        -- specialize (Hmax _ _ Hin). lia.
        -- apply list_elem_of_singleton in Hin. injection Hin as _ ->. lia.
      * right. split; [lia|]. exists seen, []. split; [done|].
        intros c' d' Hin. specialize (Hmax _ _ Hin). lia.
    + rewrite list_lookup_insert_ne by done. by apply Hother.
  - eexists. split; [done|]. split; [done|].
    intros r mx c. destruct (decide (r = N.to_nat row)) as [->|Hne]; [|by apply Hother].
    rewrite Hprev. intros [= <- <-]. rewrite N2Nat.id. split.
    + intros c' d' [Hin|Hin]%elem_of_app; [by eapply Hmax|].
      apply list_elem_of_singleton in Hin. injection Hin as _ ->. lia.
    + destruct Hfirst as [?|(Hpos & pre & post & -> & Hpre)]; [by left|].
      right. split; [done|]. exists pre, (post ++ [(row, col, element)]).
      split; [by rewrite <- app_assoc | done].
Qed.

Lemma sparse_argmax_fold_inv n (rest : list (N * N * N)) : ∀ seen st,
  length st = n → Forall (λ e : N * N * N, (N.to_nat e.1.1 < n)%nat) rest →
  argmax_inv seen st →
  ∃ st', foldM sparse_argmax_step st rest = Ok st' ∧ length st' = n
         ∧ argmax_inv (seen ++ rest) st'.
Proof.
  induction rest as [|e rest IH]; intros seen st Hlen Hrows Hinv; cbn [foldM].
  - exists st. by rewrite app_nil_r.
  - apply Forall_cons in Hrows as [He Hrows].
    destruct (sparse_argmax_step_inv seen st e n Hlen He Hinv) as (st1 & -> & Hlen1 & Hinv1).
    cbn [mbind result_bind].
    destruct (IH _ _ Hlen1 Hrows Hinv1) as (st' & -> & ? & Hinv').
    exists st'. split_and!; [done..|]. by rewrite <- app_assoc in Hinv'.
Qed.

(** In canonical form a position is stored at most once, so the array
    entry is the stored datum. *)
Lemma key_lt_irrefl key e1 e2 : key_lt key e1 e2 → e1.1 ≠ e2.1.
Proof.
  unfold key_lt. rewrite lex_lt_spec. intros H Heq. rewrite Heq in H. lia.
Qed.

Lemma coo_get_cons e es r c :
  coo_get (e :: es) r c = (if decide (e.1 = (r, c)) then e.2 else 0) + coo_get es r c.
Proof.
  unfold coo_get. rewrite filter_cons. case_decide; [done|]. by rewrite N.add_0_l.
Qed.

Lemma coo_get_app es1 es2 r c : coo_get (es1 ++ es2) r c = coo_get es1 r c + coo_get es2 r c.
Proof.
  induction es1 as [|e es1 IH]; [done|].
  rewrite <- app_comm_cons, !coo_get_cons, IH. lia.
Qed.

Lemma coo_get_absent es r c : (∀ d, (r, c, d) ∉ es) → coo_get es r c = 0.
Proof.
  induction es as [|[[r0 c0] d0] es IH]; intros Habs; [done|].
  rewrite coo_get_cons. cbn [fst snd]. rewrite decide_False.
  - rewrite IH; [done|]. intros d Hd. apply (Habs d). by right.
  - intros [= -> ->]. apply (Habs d0). by left.
Qed.

Lemma coo_get_canonical key es r c d :
  StronglySorted (key_lt key) es → (r, c, d) ∈ es → coo_get es r c = d.
Proof.
  induction es as [|e es IH]; intros Hs Hin; [by apply elem_of_nil in Hin|].
  apply StronglySorted_cons in Hs as [Hall Hs]. rewrite Forall_forall in Hall.
  rewrite coo_get_cons. apply elem_of_cons in Hin as [<-|Hin].
  - cbn [fst snd]. rewrite decide_True by done. rewrite coo_get_absent; [lia|].
    intros d' Hd'. by apply (key_lt_irrefl _ _ _ (Hall _ Hd')).
  - rewrite decide_False; [by rewrite IH|].
    intros He. by apply (key_lt_irrefl _ _ _ (Hall _ Hin)).
Qed.

Lemma coo_get_cases key es r c :
  StronglySorted (key_lt key) es →
  (coo_get es r c = 0 ∧ ∀ d, (r, c, d) ∉ es) ∨ (∃ d, (r, c, d) ∈ es ∧ coo_get es r c = d).
Proof.
  intros Hs.
  destruct (decide (Exists (λ e : N * N * N, e.1 = (r, c)) es)) as [Hex|Hnex].
  - right. apply Exists_exists in Hex as ([[r' c'] d] & Hin & He).
    cbn in He. injection He as -> ->. exists d. split; [done|]. by apply (coo_get_canonical key).
  - left. assert (Habs : ∀ d, (r, c, d) ∉ es).
    { intros d Hd. apply Hnex, Exists_exists. by exists (r, c, d). }
    split; [by apply coo_get_absent | done].
Qed.

Lemma sparse_row_argmax (m : coo_matrix) :
  canonical m →
  ∃ cols, row_argmax (Sparse m) = Ok cols ∧ length cols = (coo_shape m).1 ∧
    ∀ r c, cols !! r = Some c → lowest_argmax (Sparse m) (N.of_nat r) c.
Proof.
  intros [Hsorted Hrows]. cbn [row_argmax]. unfold _sparse_row_argmax.
  destruct (sparse_argmax_fold_inv (coo_shape m).1 (coo_entries m) []
              (replicate (coo_shape m).1 (0, 0))) as (st & -> & Hlen & Hinv).
  { by rewrite length_replicate. }
  { done. }
  { intros r mx col [[= -> ->] _]%lookup_replicate. split.
    - intros ? ? []%elem_of_nil.
    - by left. }
  cbn [mbind result_bind app] in *. exists (st.*2).
  split; [done|]. split; [by rewrite length_fmap|].
  intros r c Hc. rewrite list_lookup_fmap in Hc.
  destruct (st !! r) as [[mx col]|] eqn:Hst; [|done]. injection Hc as <-.
  destruct (Hinv _ _ _ Hst) as [Hmax Hfirst].
  unfold lowest_argmax, table_get.
  assert (Hle : ∀ c', coo_get (coo_entries m) (N.of_nat r) c' ≤ mx).
  { intros c'. destruct (coo_get_cases _ (coo_entries m) (N.of_nat r) c' Hsorted)
      as [[-> _]|(d & Hd & ->)]; [lia | by eapply Hmax]. }
  destruct Hfirst as [[-> ->]|(Hpos & pre & post & Hsplit & Hpre)].
  - assert (Hz : ∀ c', coo_get (coo_entries m) (N.of_nat r) c' = 0)
      by (intros c'; specialize (Hle c'); lia).
    split; [intros c'; rewrite !Hz; lia | intros c'; lia].
  - assert (Hget : coo_get (coo_entries m) (N.of_nat r) col = mx).
    { eapply coo_get_canonical; [done|]. rewrite Hsplit. apply elem_of_app. right. by left. }
    rewrite Hget. split; [done|].
    intros c' Hc'.
    destruct (coo_get_cases _ (coo_entries m) (N.of_nat r) c' Hsorted)
      as [[-> _]|(d & Hd & ->)]; [done|].
    rewrite Hsplit in Hd, Hsorted.
    apply elem_of_app in Hd as [Hd|Hd]; [by eapply Hpre|].
    apply StronglySorted_app_1_r, StronglySorted_cons in Hsorted as [Hall _].
    rewrite Forall_forall in Hall.
    apply elem_of_cons in Hd as [[= ->]|Hd]; [lia|].
    specialize (Hall _ Hd). unfold key_lt in Hall. rewrite lex_lt_spec in Hall.
    cbn in Hall. lia.
Qed.


(** ** Sorting and summing the entries of a sparse matrix *)

Section sorted_insert.
Variable key : N * N → N * N.
Hypothesis key_inj : ∀ a b, key a = key b → a = b.

Lemma key_lt_trans e1 e2 e3 : key_lt key e1 e2 → key_lt key e2 e3 → key_lt key e1 e3.
Proof. unfold key_lt. rewrite !lex_lt_spec. lia. Qed.

Lemma key_lt_total e1 e2 :
  key e1.1 ≠ key e2.1 → lex_lt (key e1.1) (key e2.1) = false → key_lt key e2 e1.
Proof.
  unfold key_lt. intros Hne Hnlt. apply not_true_iff_false in Hnlt.
  rewrite lex_lt_spec in *.
  destruct (key e1.1) as [a1 b1], (key e2.1) as [a2 b2]. cbn in *.
  assert (a1 ≠ a2 ∨ b1 ≠ b2) by (destruct (decide (a1 = a2)); [right; congruence | by left]).
  lia.
Qed.

Lemma elem_of_sorted_insert e es x :
  x ∈ sorted_insert key e es → x.1 = e.1 ∨ ∃ x0, x0 ∈ es ∧ x.1 = x0.1.
Proof.
  induction es as [|e' es IH]; cbn [sorted_insert].
  - intros ->%list_elem_of_singleton. by left.
  - case_bool_decide as Hk.
    + intros [->|Hin]%elem_of_cons.
      * left. cbn. symmetry. by apply key_inj.
      * right. exists x. split; [by right | done].
    + destruct (lex_lt (key e.1) (key e'.1)).
      * intros [->|Hin]%elem_of_cons; [by left|].
        right. exists x. done.
      * intros [->|Hin]%elem_of_cons; [right; exists e'; split; [by left | done]|].
        destruct (IH Hin) as [?|(x0 & ? & ?)]; [by left|].
        right. exists x0. split; [by right | done].
Qed.

Lemma sorted_insert_sorted e es :
  StronglySorted (key_lt key) es → StronglySorted (key_lt key) (sorted_insert key e es).
Proof.
  induction es as [|e' es IH]; intros Hs; cbn [sorted_insert].
  - repeat constructor.
  - apply StronglySorted_cons in Hs as [Hall Hs].
    case_bool_decide as Hk.
    + apply StronglySorted_cons. split; [|done].
      eapply Forall_impl; [exact Hall|]. intros x Hx. exact Hx.
    + destruct (lex_lt (key e.1) (key e'.1)) eqn:Hlt.
      * apply StronglySorted_cons. split; [|by apply StronglySorted_cons].
        constructor; [exact Hlt|].
        eapply Forall_impl; [exact Hall|]. intros x Hx.
        by apply (key_lt_trans e e' x).
      * apply StronglySorted_cons. split; [|by apply IH].
        apply Forall_forall. intros x Hx.
        destruct (elem_of_sorted_insert _ _ _ Hx) as [Hxe|(x0 & Hx0 & Hxx0)].
        -- unfold key_lt. rewrite Hxe. apply (key_lt_total e e'); [done | exact Hlt].
        -- rewrite Forall_forall in Hall. specialize (Hall _ Hx0).
           unfold key_lt in *. by rewrite Hxx0.
Qed.

Lemma sorted_insert_get e es r c :
  coo_get (sorted_insert key e es) r c = coo_get (e :: es) r c.
Proof.
  induction es as [|e' es IH]; cbn [sorted_insert]; [done|].
  case_bool_decide as Hk.
  - apply key_inj in Hk. rewrite !coo_get_cons. cbn [fst snd]. rewrite Hk.
    case_decide; lia.
  - destruct (lex_lt (key e.1) (key e'.1)); [done|].
    rewrite !coo_get_cons, IH, !coo_get_cons. lia.
Qed.

Lemma foldr_sorted_insert_sorted es :
  StronglySorted (key_lt key) (foldr (sorted_insert key) [] es).
Proof.
  induction es as [|e es IH]; cbn [foldr]; [constructor | by apply sorted_insert_sorted].
Qed.

Lemma foldr_sorted_insert_get es r c :
  coo_get (foldr (sorted_insert key) [] es) r c = coo_get es r c.
Proof.
  induction es as [|e es IH]; cbn [foldr]; [done|].
  by rewrite sorted_insert_get, !coo_get_cons, IH.
Qed.

Lemma elem_of_foldr_sorted_insert es x :
  x ∈ foldr (sorted_insert key) [] es → ∃ x0, x0 ∈ es ∧ x.1 = x0.1.
Proof.
  revert x. induction es as [|e es IH]; intros x; cbn [foldr];
    [by intros ?%elem_of_nil|].
  intros Hx. destruct (elem_of_sorted_insert _ _ _ Hx) as [?|(x0 & Hx0 & Hxx0)].
  - exists e. split; [by left | done].
  - destruct (IH _ Hx0) as (x1 & ? & ?). exists x1. split; [by right | congruence].
Qed.

(** Data stay positive when the entries inserted are. *)
Lemma foldr_sorted_insert_pos es :
  Forall (λ e : N * N * N, 0 < e.2) es →
  Forall (λ e : N * N * N, 0 < e.2) (foldr (sorted_insert key) [] es).
Proof.
  induction 1 as [|e es He Hes IH]; cbn [foldr]; [constructor|].
  revert IH. generalize (foldr (sorted_insert key) [] es) as l.
  induction l as [|e' l IHl]; intros Hl; cbn [sorted_insert].
  - by constructor.
  - apply Forall_cons in Hl as [He' Hl]. case_bool_decide.
    + constructor; [cbn; lia | done].
    + destruct (lex_lt (key e.1) (key e'.1)).
      * constructor; [done|]. by constructor.
      * constructor; [done | by apply IHl].
Qed.

End sorted_insert.

Lemma prod_swap_inj (a b : N * N) : prod_swap a = prod_swap b → a = b.
Proof. destruct a, b. cbn. by intros [= -> ->]. Qed.

Lemma sum_duplicates_canonical (m : coo_matrix) :
  Forall (λ e : N * N * N, (N.to_nat e.1.1 < (coo_shape m).1)%nat) (coo_entries m) →
  canonical (sum_duplicates m).
Proof.
  intros Hrows. split; cbn.
  - apply foldr_sorted_insert_sorted. apply prod_swap_inj.
  - apply Forall_forall. intros x Hx.
    apply (elem_of_foldr_sorted_insert _ prod_swap_inj) in Hx as (x0 & Hx0 & ->).
    rewrite Forall_forall in Hrows. by apply Hrows.
Qed.


(** ** Building the overlap table *)

Lemma view_int32_small n : n < 2 ^ 31 → view_int32 n = Z.of_N n.
Proof.
  intros Hn. unfold view_int32. rewrite N.mod_small by lia.
  rewrite (proj2 (Z.ltb_lt _ _)); [done | lia].
Qed.

Lemma view_int32_nonneg n :
  n < 2 ^ 32 → (0 ≤ view_int32 n)%Z → view_int32 n = Z.of_N n ∧ n < 2 ^ 31.
Proof.
  intros Hn. unfold view_int32. rewrite N.mod_small by lia.
  destruct (Z.ltb_spec (Z.of_N n) (2 ^ 31)); lia.
Qed.

Lemma zip_fmap {A B A' B'} (f : A → A') (g : B → B') (l1 : list A) (l2 : list B) :
  zip (f <$> l1) (g <$> l2) = (λ p, (f p.1, g p.2)) <$> zip l1 l2.
Proof.
  revert l2. induction l1 as [|x l1 IH]; intros [|y l2]; cbn; [done..|]. by rewrite IH.
Qed.

Lemma max_list_with_ge {A} (f : A → nat) (l : list A) x :
  x ∈ l → (f x ≤ max_list_with f l)%nat.
Proof.
  induction l as [|y l IH]; [by intros ?%elem_of_nil|].
  cbn. intros [->|Hin]%elem_of_cons; [lia|]. specialize (IH Hin). lia.
Qed.

Lemma max_list_with_of_N (l : list N) :
  max_list_with Z.to_nat (Z.of_N <$> l) = max_list_with N.to_nat l.
Proof.
  induction l as [|x l IH]; [done|].
  rewrite fmap_cons. unfold max_list_with in *. fold (max_list_with Z.to_nat) in *.
  fold (max_list_with N.to_nat) in *. rewrite IH. lia.
Qed.

Lemma coo_get_ones (pairs : list (N * N)) r c :
  coo_get ((λ p : N * N, (p.1, p.2, 1)) <$> pairs) r c
  = N.of_nat (length (filter (λ p : N * N, p = (r, c)) pairs)).
Proof.
  induction pairs as [|[a b] pairs IH]; [done|].
  rewrite fmap_cons, coo_get_cons, IH, filter_cons. cbn [fst snd].
  repeat case_decide; cbn [length]; try lia; congruence.
Qed.

(** What a successful sparse construction returned, for [uint32] inputs. *)
Lemma contingency_table_sparse_inv (vol1 vol2 : ndarray) t :
  Forall (λ n, n < 2 ^ 32) (data vol1) → Forall (λ n, n < 2 ^ 32) (data vol2) →
  contingency_table vol1 vol2 true = Ok t →
  length (data vol1) = length (data vol2) ∧ data vol1 ≠ [] ∧
  Forall (λ n, n < 2 ^ 31) (data vol1) ∧ Forall (λ n, n < 2 ^ 31) (data vol2) ∧
  t = Sparse (sum_duplicates
        {| coo_shape := (S (max_list_with N.to_nat (data vol1)),
                         S (max_list_with N.to_nat (data vol2)));
           coo_entries := (λ p : N * N, (p.1, p.2, 1)) <$> zip (data vol1) (data vol2) |}).
Proof.
  intros H1 H2. unfold contingency_table.
  intros ([] & Hlen & (m & Hm & [= <-])%bind_Ok)%bind_Ok.
  unfold assert in Hlen. case_bool_decide as Hl; [|done]. rewrite !length_fmap in Hl.
  unfold coo_of_indices in Hm.
  case_bool_decide as He; [done|].
  case_bool_decide as Hn1; [done|]. case_bool_decide as Hn2; [done|].
  injection Hm as <-.
  apply not_Exists_Forall in Hn1; [|intros; apply _].
  apply not_Exists_Forall in Hn2; [|intros; apply _].
  rewrite Forall_fmap in Hn1, Hn2.
  assert (Hv : ∀ l, Forall (λ n, n < 2 ^ 32) l →
            Forall (λ x, ¬ (x < 0)%Z) (view_int32 <$> l) →
            Forall (λ n, n < 2 ^ 31) l ∧ view_int32 <$> l = Z.of_N <$> l).
  { intros l Hl32 Hnn. rewrite Forall_fmap in Hnn. split.
    - rewrite Forall_forall in *. intros n Hn.
      apply (view_int32_nonneg n); [by apply Hl32|]. specialize (Hnn n Hn). cbn in Hnn. lia.
    - apply list_fmap_ext. intros i n Hn. apply list_elem_of_lookup_2 in Hn.
      rewrite Forall_forall in Hl32, Hnn.
      apply (view_int32_nonneg n); [by apply Hl32|]. specialize (Hnn n Hn). cbn in Hnn. lia. }
  assert (Hn1' : Forall (λ x, ¬ (x < 0)%Z) (view_int32 <$> data vol1)) by (by rewrite Forall_fmap).
  assert (Hn2' : Forall (λ x, ¬ (x < 0)%Z) (view_int32 <$> data vol2)) by (by rewrite Forall_fmap).
  destruct (Hv _ H1 Hn1') as [H31a Ev1]. destruct (Hv _ H2 Hn2') as [H31b Ev2].
  split; [done|]. split.
  { intros Hnil. apply He. left. by rewrite Hnil. }
  split; [done|]. split; [done|].
  f_equal. unfold sum_duplicates. cbn. rewrite Ev1, Ev2. f_equal.
  - by rewrite !max_list_with_of_N.
  - f_equal. rewrite zip_fmap, <- list_fmap_compose. apply list_fmap_ext.
    intros i [a b] _. cbn. by rewrite !N2Z.id.
Qed.

Lemma coo_of_indices_rows rows cols m :
  coo_of_indices rows cols = Ok m →
  Forall (λ e : N * N * N, (N.to_nat e.1.1 < (coo_shape m).1)%nat) (coo_entries m).
Proof.
  unfold coo_of_indices. repeat (case_bool_decide; [done|]). intros [= <-]. cbn.
  apply Forall_forall. intros e ([r c] & -> & Hin)%list_elem_of_fmap. cbn.
  apply elem_of_zip_l in Hin. pose proof (max_list_with_ge Z.to_nat rows r Hin). lia.
Qed.

(** *** The dense table *)

Section dense.
Variables nrows ncols : nat.

Lemma add_at_spec t r c :
  length t = nrows → Forall (λ row, length row = ncols) t →
  (N.to_nat r < nrows)%nat → (N.to_nat c < ncols)%nat →
  ∃ t', add_at nrows ncols t (Z.of_N r, Z.of_N c) = Ok t' ∧
    length t' = nrows ∧ Forall (λ row, length row = ncols) t' ∧
    ∀ r' c', table_get (Dense t') r' c'
             = table_get (Dense t) r' c' + (if decide ((r', c') = (r, c)) then 1 else 0).
Proof.
  intros Hlen Hrows Hr Hc. unfold add_at, dense_index. cbn [fst snd].
  rewrite !bool_decide_true by lia. cbn [mbind result_bind].
  replace (Z.to_nat (Z.of_N r)) with (N.to_nat r) by lia.
  replace (Z.to_nat (Z.of_N c)) with (N.to_nat c) by lia.
  eexists. split; [done|]. split; [by rewrite length_alter|]. split.
  - apply Forall_forall. intros row Hin. apply list_elem_of_lookup in Hin as [i Hi].
    rewrite Forall_forall in Hrows.
    destruct (decide (i = N.to_nat r)) as [->|Hne].
    + rewrite list_lookup_alter_eq in Hi.
      destruct (t !! N.to_nat r) as [row0|] eqn:E; [|done]. injection Hi as <-.
      rewrite length_alter. apply Hrows. by eapply list_elem_of_lookup_2.
    + rewrite list_lookup_alter_ne in Hi by done.
      apply Hrows. by eapply list_elem_of_lookup_2.
  - intros r' c'. unfold table_get.
    destruct (lookup_lt_is_Some_2 t (N.to_nat r)) as [row Hrow]; [lia|].
    assert (Hrl : length row = ncols).
    { rewrite Forall_forall in Hrows. apply Hrows. by eapply list_elem_of_lookup_2. }
    destruct (lookup_lt_is_Some_2 row (N.to_nat c)) as [x Hx]; [lia|].
    destruct (decide (r' = r)) as [->|Hner].
    + rewrite list_lookup_alter_eq, Hrow. cbn.
      destruct (decide (c' = c)) as [->|Hnec].
      * rewrite list_lookup_alter_eq, Hx. cbn. by rewrite decide_True.
      * rewrite list_lookup_alter_ne by lia. rewrite decide_False by congruence. lia.
    + rewrite list_lookup_alter_ne by lia. rewrite decide_False by congruence. lia.
Qed.

Lemma foldM_add_at (pairs : list (N * N)) : ∀ t,
  length t = nrows → Forall (λ row, length row = ncols) t →
  Forall (λ p : N * N, (N.to_nat p.1 < nrows)%nat ∧ (N.to_nat p.2 < ncols)%nat) pairs →
  ∃ t', foldM (add_at nrows ncols) t ((λ p : N * N, (Z.of_N p.1, Z.of_N p.2)) <$> pairs) = Ok t' ∧
    length t' = nrows ∧ Forall (λ row, length row = ncols) t' ∧
    ∀ r c, table_get (Dense t') r c
           = table_get (Dense t) r c
             + N.of_nat (length (filter (λ p : N * N, p = (r, c)) pairs)).
Proof.
  induction pairs as [|[a b] pairs IH]; intros t Hlen Hrows Hpairs.
  - exists t. split_and!; [done..|]. intros r c. cbn. lia.
  - apply Forall_cons in Hpairs as [[Ha Hb] Hpairs]. cbn [fst snd] in Ha, Hb.
    destruct (add_at_spec t a b Hlen Hrows Ha Hb) as (t1 & Ht1 & Hlen1 & Hrows1 & Hget1).
    destruct (IH t1 Hlen1 Hrows1 Hpairs) as (t' & Ht' & Hlen' & Hrows' & Hget').
    exists t'. rewrite fmap_cons. cbn [foldM fst snd]. rewrite Ht1. cbn [mbind result_bind].
    split_and!; [done..|]. intros r c. rewrite Hget', Hget1, filter_cons.
    repeat case_decide; cbn [length]; try lia; congruence.
Qed.

Lemma alter_rows_length (f : N → N) t r c :
  Forall (λ row, length row = ncols) t →
  Forall (λ row, length row = ncols) (alter (alter f c) r t).
Proof.
  intros Hrows. apply Forall_forall. intros row Hin.
  apply list_elem_of_lookup in Hin as [i Hi]. rewrite Forall_forall in Hrows.
  destruct (decide (i = r)) as [->|Hne].
  - rewrite list_lookup_alter_eq in Hi.
    destruct (t !! r) as [row0|] eqn:E; [|done]. injection Hi as <-.
    rewrite length_alter. apply Hrows. by eapply list_elem_of_lookup_2.
  - rewrite list_lookup_alter_ne in Hi by done.
    apply Hrows. by eapply list_elem_of_lookup_2.
Qed.

(** A successful fill kept the rows at their length, and found at least
    one column if it added anything. *)
Lemma foldM_add_at_shape (pairs : list (Z * Z)) : ∀ t t',
  Forall (λ row, length row = ncols) t →
  foldM (add_at nrows ncols) t pairs = Ok t' →
  Forall (λ row, length row = ncols) t' ∧ (pairs ≠ [] → ncols ≠ 0%nat).
Proof.
  induction pairs as [|[r c] pairs IH]; intros t t' Hrows; cbn [foldM].
  - intros [= <-]. done.
  - intros (t1 & Ht1 & Hrest)%bind_Ok. unfold add_at in Ht1. cbn [fst snd] in Ht1.
    apply bind_Ok in Ht1 as (r' & _ & (c' & Hc' & [= <-])%bind_Ok).
    destruct (IH _ _ (alter_rows_length _ t r' c' Hrows) Hrest) as [Hrows' _].
    split; [done|]. intros _ ->. unfold dense_index in Hc'.
    rewrite !bool_decide_false in Hc' by lia. done.
Qed.
End dense.

Lemma max_Z_ge (l : list Z) x : x ∈ l → (x ≤ max_Z l)%Z.
Proof.
  unfold max_Z. generalize (hd 0%Z l) as d.
  induction l as [|y l IH]; intros d; [by intros ?%elem_of_nil|].
  cbn. intros [->|Hin]%elem_of_cons; [lia|]. specialize (IH d Hin). lia.
Qed.

(** Overlap tables are tables [row_argmax] is meant for. *)
Lemma contingency_table_wf (vol1 vol2 : ndarray) sparse t :
  contingency_table vol1 vol2 sparse = Ok t → table_wf t.
Proof.
  unfold contingency_table.
  intros ([] & _ & Ht)%bind_Ok. destruct sparse.
  - apply bind_Ok in Ht as (m & Hm & [= <-]). cbn.
    apply sum_duplicates_canonical. by eapply coo_of_indices_rows.
  - apply bind_Ok in Ht as (rows & Hrows & [= <-]). cbn.
    unfold dense_of_indices in Hrows.
    case_bool_decide as Hnil; [done|]. case_bool_decide; [done|].
    apply foldM_add_at_shape in Hrows as [Hlen Hne].
    + assert (Hcols : Z.to_nat (max_Z (view_int32 <$> data vol2) + 1) ≠ 0%nat).
      { apply Hne. destruct (view_int32 <$> data vol1), (view_int32 <$> data vol2);
          cbn; try done; exfalso; apply Hnil; auto. }
      eapply Forall_impl; [exact Hlen|]. intros row Hrow ->. cbn in Hrow. lia.
    + apply Forall_forall. intros row [-> _]%elem_of_replicate. apply length_replicate.
Qed.

Lemma dense_get_zeros n m r c : table_get (Dense (replicate n (replicate m 0))) r c = 0.
Proof.
  unfold table_get. destruct (replicate n (replicate m 0) !! N.to_nat r) as [row|] eqn:E; [|done].
  apply lookup_replicate in E as [-> _]. cbn.
  destruct (replicate m 0 !! N.to_nat c) as [x|] eqn:E'; [|done].
  by apply lookup_replicate in E' as [-> _].
Qed.

Lemma contingency_table_counts (vol1 vol2 : ndarray) sparse :
  length (data vol1) = length (data vol2) → data vol1 ≠ [] →
  Forall (λ n, n < 2 ^ 31) (data vol1) → Forall (λ n, n < 2 ^ 31) (data vol2) →
  ∃ t, contingency_table vol1 vol2 sparse = Ok t ∧
       ∀ r c, table_get t r c = count_pairs (data vol1) (data vol2) r c.
Proof.
  intros Hlen Hne H1 H2. unfold contingency_table.
  assert (Hv : ∀ l, Forall (λ n, n < 2 ^ 31) l → view_int32 <$> l = Z.of_N <$> l).
  { intros l Hl. apply list_fmap_ext. intros i n Hn. apply view_int32_small.
    rewrite Forall_forall in Hl. apply Hl. by eapply list_elem_of_lookup_2. }
  rewrite !Hv by done. unfold assert. rewrite bool_decide_true by (by rewrite !length_fmap).
  cbn [mbind result_bind].
  assert (Hne1 : Z.of_N <$> data vol1 ≠ []) by (by destruct (data vol1)).
  assert (Hne2 : Z.of_N <$> data vol2 ≠ []).
  { destruct (data vol2); [|done]. destruct (data vol1); done. }
  destruct sparse.
  - unfold coo_of_indices. rewrite bool_decide_false by tauto.
    rewrite !bool_decide_false.
    2,3: rewrite Exists_exists; intros (x & (n & -> & _)%list_elem_of_fmap & Hx); lia.
    cbn [mbind result_bind]. eexists. split; [done|]. intros r c.
    unfold table_get, sum_duplicates. cbn [coo_entries].
    rewrite (foldr_sorted_insert_get _ prod_swap_inj).
    rewrite zip_fmap, <- list_fmap_compose.
    erewrite list_fmap_ext; [apply coo_get_ones|].
    intros i [a b] _. cbn. by rewrite !N2Z.id.
  - unfold dense_of_indices. rewrite bool_decide_false by tauto.
    assert (Hm1 : (0 ≤ max_Z (Z.of_N <$> data vol1))%Z).
    { destruct (data vol1) as [|x l]; [done|].
      pose proof (max_Z_ge (Z.of_N <$> x :: l) (Z.of_N x)) as H. cbn in H.
      specialize (H ltac:(by left)). cbn. lia. }
    assert (Hm2 : (0 ≤ max_Z (Z.of_N <$> data vol2))%Z).
    { destruct (data vol2) as [|x l]; [done|].
      pose proof (max_Z_ge (Z.of_N <$> x :: l) (Z.of_N x)) as H. cbn in H.
      specialize (H ltac:(by left)). cbn. lia. }
    rewrite bool_decide_false by lia. rewrite zip_fmap.
    set (nrows := Z.to_nat (max_Z (Z.of_N <$> data vol1) + 1)).
    set (ncols := Z.to_nat (max_Z (Z.of_N <$> data vol2) + 1)).
    destruct (foldM_add_at nrows ncols (zip (data vol1) (data vol2))
                (replicate nrows (replicate ncols 0))) as (t & Ht & _ & _ & Hget).
    + by rewrite length_replicate.
    + apply Forall_forall. intros row [-> _]%elem_of_replicate. apply length_replicate.
    + apply Forall_forall. intros [a b] Hab. cbn [fst snd].
      pose proof (max_Z_ge (Z.of_N <$> data vol1) (Z.of_N a)) as Ha.
      pose proof (max_Z_ge (Z.of_N <$> data vol2) (Z.of_N b)) as Hb.
      specialize (Ha ltac:(apply list_elem_of_fmap_2; by eapply elem_of_zip_l)).
      specialize (Hb ltac:(apply list_elem_of_fmap_2; by eapply elem_of_zip_r)).
      unfold nrows, ncols. lia.
    + rewrite Ht. cbn [mbind result_bind]. eexists. split; [done|].
      intros r c. rewrite Hget, dense_get_zeros. unfold count_pairs. lia.
Qed.

(** ** The claims about overlap tables *)

(** C8.  An overlap table built by [contingency_table], dense or sparse,
    is a table [row_argmax] accepts, and on every such table [row_argmax]
    returns, for each row, a column holding the row's maximum count, the
    lowest one when several columns hold it. *)
Theorem row_argmax_lowest_maximum :
  (∀ vol1 vol2 sparse t, contingency_table vol1 vol2 sparse = Ok t → table_wf t) ∧
  (∀ t, table_wf t →
     ∃ cols, row_argmax t = Ok cols ∧ length cols = table_rows t ∧
       ∀ r c, cols !! r = Some c → lowest_argmax t (N.of_nat r) c).
Proof.
  split; [apply contingency_table_wf|].
  intros [rows|m] Hwf; [by apply dense_row_argmax | by apply sparse_row_argmax].
Qed.

Lemma row_argmax_lowest_maximum_witness :
  contingency_table tie_volume1 tie_volume2 true
    = Ok (Sparse {| coo_shape := (2, 3)%nat; coo_entries := [(1, 1, 2); (1, 2, 2)] |}) ∧
  ∃ cols, row_argmax (Sparse {| coo_shape := (2, 3)%nat;
                                coo_entries := [(1, 1, 2); (1, 2, 2)] |}) = Ok cols ∧
    length cols = 2%nat ∧
    ∀ r c, cols !! r = Some c →
      lowest_argmax (Sparse {| coo_shape := (2, 3)%nat;
                               coo_entries := [(1, 1, 2); (1, 2, 2)] |}) (N.of_nat r) c.
Proof.
  split; [by vm_compute|].
  apply (proj2 row_argmax_lowest_maximum).
  apply (proj1 row_argmax_lowest_maximum tie_volume1 tie_volume2 true).
  by vm_compute.
Defined.





(** ** Finite mappings *)

Lemma dict_snoc (l : list (N * N)) k v : dict (l ++ [(k, v)]) = <[k := v]> (dict l).
Proof. unfold dict. by rewrite foldl_snoc. Qed.

Lemma dict_lookup_Some (l : list (N * N)) k v : dict l !! k = Some v → (k, v) ∈ l.
Proof.
  induction l as [|[k' v'] l IH] using rev_ind;
    [unfold dict; cbn; by rewrite lookup_empty|].
  rewrite dict_snoc. destruct (decide (k = k')) as [->|Hne].
  - rewrite lookup_insert_eq. intros [= ->]. apply elem_of_app. right. by left.
  - rewrite lookup_insert_ne by done. intros H. apply elem_of_app. left. by apply IH.
Qed.

Lemma dict_dom (l : list (N * N)) : dom (dict l) = list_to_set l.*1.
Proof.
  induction l as [|[k' v'] l IH] using rev_ind;
    [unfold dict; cbn; by rewrite dom_empty_L|].
  rewrite dict_snoc, dom_insert_L, IH, fmap_app, list_to_set_app_L. cbn. set_solver.
Qed.

Lemma dict_lookup_is_Some (l : list (N * N)) k : k ∈ l.*1 ↔ is_Some (dict l !! k).
Proof. rewrite <- elem_of_dom, dict_dom. set_solver. Qed.

Lemma NoDup_fst_functional (l : list (N * N)) k v v' :
  NoDup l.*1 → (k, v) ∈ l → (k, v') ∈ l → v = v'.
Proof.
  induction l as [|[k0 v0] l IH]; [by intros _ ?%elem_of_nil|].
  cbn. intros [Hk0 Hnd]%NoDup_cons [[= -> ->]|H1]%elem_of_cons [[= ->]|H2]%elem_of_cons.
  - done.
  - exfalso. apply Hk0. apply list_elem_of_fmap. by exists (k0, v').
  - subst. exfalso. apply Hk0. apply list_elem_of_fmap. by exists (k0, v).
  - by apply IH.
Qed.

Lemma dict_lookup_NoDup (l : list (N * N)) k v :
  NoDup l.*1 → (k, v) ∈ l → dict l !! k = Some v.
Proof.
  intros Hnd Hin.
  destruct (proj1 (dict_lookup_is_Some l k)) as [v' Hv'].
  { apply list_elem_of_fmap. by exists (k, v). }
  rewrite Hv'. f_equal. eapply NoDup_fst_functional; [done | | done].
  by apply dict_lookup_Some.
Qed.

Lemma size_list_to_set_le (l : list N) : (size (list_to_set l : gset N) ≤ length l)%nat.
Proof.
  induction l as [|x l IH]; [by rewrite list_to_set_nil, size_empty|].
  rewrite list_to_set_cons. cbn.
  pose proof (size_union_alt ({[x]} : gset N) (list_to_set l)) as H.
  rewrite size_singleton in H.
  pose proof (subseteq_size (list_to_set l ∖ {[x]} : gset N) (list_to_set l)
                ltac:(set_solver)).
  lia.
Qed.

Lemma size_list_to_set_NoDup (l : list N) :
  size (list_to_set l : gset N) = length l → NoDup l.
Proof.
  induction l as [|x l IH]; [constructor|].
  rewrite list_to_set_cons. cbn. intros Hsize.
  pose proof (size_list_to_set_le l) as Hle.
  destruct (decide (x ∈ l)) as [Hin|Hnin].
  - exfalso. replace ({[x]} ∪ list_to_set l : gset N) with (list_to_set l : gset N) in Hsize
      by set_solver. lia.
  - apply NoDup_cons. split; [done|]. apply IH.
    rewrite size_union in Hsize by set_solver. rewrite size_singleton in Hsize. lia.
Qed.

(** A successful [reverse_dict] is the inverse relation. *)
Lemma reverse_dict_spec (d rev : gmap N N) :
  reverse_dict d = Ok rev → ∀ k v, rev !! v = Some k ↔ d !! k = Some v.
Proof.
  unfold reverse_dict, assert. case_bool_decide as Hsize; [|done].
  cbn [mbind result_bind]. intros [= <-] k v.
  assert (Hnd : NoDup (prod_swap <$> map_to_list d).*1).
  { apply size_list_to_set_NoDup. rewrite <- dict_dom, size_dom, Hsize.
    by rewrite !length_fmap, length_map_to_list. }
  split.
  - intros H%dict_lookup_Some. apply list_elem_of_fmap in H as ([k0 v0] & Heq & H).
    cbn in Heq. injection Heq as -> ->. by apply elem_of_map_to_list.
  - intros H. apply dict_lookup_NoDup; [done|].
    apply list_elem_of_fmap. exists (k, v). split; [done|]. by apply elem_of_map_to_list.
Qed.

(** A successful composition is the composition. *)
Lemma compose2_spec (AtoB BtoC AtoC : gmap N N) :
  compose2 AtoB BtoC = Ok AtoC →
  (∀ k, AtoC !! k = AtoB !! k ≫= (BtoC !!.)) ∧
  (∀ k v, AtoB !! k = Some v → is_Some (BtoC !! v)).
Proof.
  unfold compose2. case_bool_decide as Hall; [|done]. intros [= <-]. split.
  - intros k. by rewrite lookup_omap.
  - intros k v Hk. by apply (Hall k v).
Qed.

Lemma compose_mappings_2 (A B C : gmap N N) :
  compose_mappings [A; B] = Ok C →
  (∀ k, C !! k = A !! k ≫= (B !!.)) ∧ (∀ k v, A !! k = Some v → is_Some (B !! v)).
Proof.
  cbn. intros (C' & HC & [= <-])%bind_Ok. by apply compose2_spec.
Qed.

Lemma compose_mappings_3 (A B C D : gmap N N) :
  compose_mappings [A; B; C] = Ok D →
  ∀ k, D !! k = (A !! k ≫= (B !!.)) ≫= (C !!.).
Proof.
  cbn. intros (AB & HAB & (D' & HD & [= <-])%bind_Ok)%bind_Ok k.
  apply compose2_spec in HAB as [HAB _]. apply compose2_spec in HD as [HD _].
  by rewrite HD, HAB.
Qed.

Lemma applyMapping_spec labels mapping out_shape out :
  applyMapping labels mapping false out_shape = Ok out →
  shape out = out_shape ∧ shape labels = out_shape ∧
  Forall2 (λ l l', mapping !! l = Some l') (data labels) (data out).
Proof.
  unfold applyMapping. case_bool_decide as Hs; [done|].
  intros (new_data & Hm & [= <-])%bind_Ok. cbn.
  assert (shape labels = out_shape) by (by destruct (decide (shape labels = out_shape))).
  split_and!; [done..|].
  apply mapM_Ok_inv in Hm. eapply Forall2_impl; [exact Hm|].
  intros l l'. cbn. destruct (mapping !! l); [by intros [= ->] | done].
Qed.


(** ** Consecutive relabelling *)

Lemma labelmap_step_inv seen m old :
  labelmap_inv seen m → labelmap_inv (seen ++ [old]) (labelmap_step m old).
Proof.
  intros [Hz Hb Hi Hd Ho]. unfold labelmap_step.
  destruct (m !! old) as [c|] eqn:Hold.
  - split; try done.
    intros x. rewrite Hd, elem_of_app, list_elem_of_singleton.
    split; [tauto|]. intros [?|[?| ->]]; [tauto..|].
    apply Hd. by exists c.
  - assert (Hsize : size (<[old := N.of_nat (size m)]> m) = S (size m))
      by (by apply map_size_insert_None).
    assert (old ≠ 0) by (intros ->; congruence).
    split.
    + by rewrite lookup_insert_ne.
    + intros x c. rewrite Hsize. destruct (decide (x = old)) as [->|Hne].
      * rewrite lookup_insert_eq. intros [= <-]. lia.
      * rewrite lookup_insert_ne by done. intros Hx. specialize (Hb _ _ Hx). lia.
    + intros x y c. destruct (decide (x = old)) as [->|Hx], (decide (y = old)) as [->|Hy];
        rewrite ?lookup_insert_eq, ?lookup_insert_ne by done; try done.
      * intros [= <-] Hy'. specialize (Hb _ _ Hy'). lia.
      * intros Hx' [= <-]. specialize (Hb _ _ Hx'). lia.
      * apply Hi.
    + intros x. rewrite elem_of_app, list_elem_of_singleton.
      destruct (decide (x = old)) as [->|Hne].
      * rewrite lookup_insert_eq. split; [auto | by eexists].
      * rewrite lookup_insert_ne by done. rewrite Hd. tauto.
    + intros c. rewrite Hsize. intros Hc.
      destruct (decide (N.to_nat c = size m)) as [Heq|Hne].
      * exists old. rewrite lookup_insert_eq. f_equal. lia.
      * destruct (Ho c) as [x Hx]; [lia|]. exists x.
        rewrite lookup_insert_ne; [done|]. intros ->. congruence.
Qed.

Lemma labelmap_foldl_inv (l : list N) : ∀ seen m,
  labelmap_inv seen m → labelmap_inv (seen ++ l) (foldl labelmap_step m l).
Proof.
  induction l as [|x l IH]; intros seen m Hinv; cbn [foldl].
  - by rewrite app_nil_r.
  - replace (seen ++ x :: l) with ((seen ++ [x]) ++ l) by (by rewrite <- app_assoc).
    apply IH. by apply labelmap_step_inv.
Qed.

Lemma labelmap_init_inv : labelmap_inv [] {[0 := 0]}.
Proof.
  split.
  - by rewrite lookup_singleton_eq.
  - intros x c [<- <-]%lookup_singleton_Some. rewrite map_size_singleton. lia.
  - intros x y c [<- _]%lookup_singleton_Some [<- _]%lookup_singleton_Some. done.
  - intros x. split.
    + intros [c [<- _]%lookup_singleton_Some]. by left.
    + intros [->|[]%elem_of_nil]. rewrite lookup_singleton_eq. by eexists.
  - intros c. rewrite map_size_singleton. intros Hc. exists 0.
    rewrite lookup_singleton_eq. f_equal. lia.
Qed.

(** What [relabelConsecutive] returns. *)
Lemma relabelConsecutive_spec (labels : ndarray) :
  let '(labels_consecutive, max_label, labelmap) := relabelConsecutive labels in
  labelmap_inv (data labels) labelmap ∧
  max_label = N.of_nat (size labelmap) - 1 ∧
  shape labels_consecutive = shape labels ∧
  Forall2 (λ old new, labelmap !! old = Some new) (data labels) (data labels_consecutive).
Proof.
  unfold relabelConsecutive.
  change (foldl _ {[0 := 0]} (data labels)) with (foldl labelmap_step {[0 := 0]} (data labels)).
  pose proof (labelmap_foldl_inv (data labels) [] _ labelmap_init_inv) as Hinv.
  cbn [app] in Hinv. split; [done|]. split; [done|]. split; [done|]. cbn.
  apply Forall2_fmap_r, Forall_Forall2_diag, Forall_forall. intros x Hx.
  destruct (proj2 (lm_dom _ _ Hinv x)) as [c Hc]; [by right|]. cbn. by rewrite Hc.
Qed.

(** Every positive consecutive label occurs in the relabelled volume. *)
Lemma relabelConsecutive_occurs (labels : ndarray) c :
  1 ≤ c ≤ (relabelConsecutive labels).1.2 →
  c ∈ data (relabelConsecutive labels).1.1.
Proof.
  pose proof (relabelConsecutive_spec labels) as H.
  destruct (relabelConsecutive labels) as [[cons max_label] labelmap].
  destruct H as (Hinv & -> & _ & Hall). cbn. intros Hc.
  destruct (lm_onto _ _ Hinv c) as [x Hx]; [lia|].
  assert (x ∈ data labels) as Hin.
  { destruct (proj1 (lm_dom _ _ Hinv x)) as [->|?]; [by eexists | | done].
    rewrite (lm_zero _ _ Hinv) in Hx. injection Hx as <-. lia. }
  apply list_elem_of_lookup in Hin as [i Hi].
  destruct (Forall2_lookup_l _ _ _ _ _ Hall Hi) as (c' & Hc' & Hxc').
  rewrite Hx in Hxc'. injection Hxc' as <-. by eapply list_elem_of_lookup_2.
Qed.


(** ** The overlap table of a volume and its component labelling *)

Lemma id_inj (a b : N * N) : id a = id b → a = b.
Proof. done. Qed.

Lemma coo_get_pos_elem es r c : coo_get es r c ≠ 0 → ∃ d, (r, c, d) ∈ es ∧ d ≠ 0.
Proof.
  induction es as [|[[r0 c0] d0] es IH]; [done|].
  rewrite coo_get_cons. cbn [fst snd]. case_decide as Heq.
  - injection Heq as -> ->. destruct (decide (d0 = 0)) as [->|Hd].
    + rewrite N.add_0_l. intros (d & Hd & ?)%IH. exists d. split; [by right | done].
    + intros _. exists d0. split; [by left | done].
  - rewrite N.add_0_l. intros (d & Hd & ?)%IH. exists d. split; [by right | done].
Qed.

Section overlap_entries.
Variables l1 l2 : list N.
Let ones : list (N * N * N) := (λ p : N * N, (p.1, p.2, 1)) <$> zip l1 l2.

Variable key : N * N → N * N.
Hypothesis key_inj : ∀ a b, key a = key b → a = b.

(** Sorting and summing the ones once, or again by another key, stores
    exactly the pairs of labels that occur, with a positive count. *)
Lemma summed_entries_sound key' e :
  (∀ a b, key' a = key' b → a = b) →
  e ∈ foldr (sorted_insert key') [] (foldr (sorted_insert key) [] ones) →
  e.1 ∈ zip l1 l2 ∧ 0 < e.2.
Proof.
  intros key'_inj He. split.
  - apply (elem_of_foldr_sorted_insert _ key'_inj) in He as (e1 & He1 & ->).
    apply (elem_of_foldr_sorted_insert _ key_inj) in He1 as (e0 & He0 & ->).
    apply list_elem_of_fmap in He0 as ([a b] & -> & Hab). done.
  - revert e He. apply Forall_forall.
    apply foldr_sorted_insert_pos, foldr_sorted_insert_pos.
    apply Forall_forall. intros e0 ([a b] & -> & _)%list_elem_of_fmap. cbn. lia.
Qed.

Lemma summed_entries_complete key' r c :
  (∀ a b, key' a = key' b → a = b) →
  (r, c) ∈ zip l1 l2 →
  ∃ d, (r, c, d) ∈ foldr (sorted_insert key') [] (foldr (sorted_insert key) [] ones)
       ∧ d ≠ 0.
Proof.
  intros key'_inj Hin. apply coo_get_pos_elem.
  rewrite (foldr_sorted_insert_get _ key'_inj), (foldr_sorted_insert_get _ key_inj).
  unfold ones. rewrite coo_get_ones.
  assert (Hf : (r, c) ∈ filter (λ p : N * N, p = (r, c)) (zip l1 l2))
    by (by apply list_elem_of_filter).
  destruct (filter _ (zip l1 l2)); [by apply elem_of_nil in Hf | cbn; lia].
Qed.
End overlap_entries.

(** The weak form of the argmax property that split-body relabeling uses:
    the column returned for a row is stored in that row, or the row is
    empty and the column is 0. *)
Lemma sparse_row_argmax_stored (m : coo_matrix) cols :
  Forall (λ e : N * N * N, (N.to_nat e.1.1 < (coo_shape m).1)%nat) (coo_entries m) →
  Forall (λ e : N * N * N, 0 < e.2) (coo_entries m) →
  row_argmax (Sparse m) = Ok cols →
  length cols = (coo_shape m).1 ∧
  ∀ r s, cols !! r = Some s →
    (∃ d, (N.of_nat r, s, d) ∈ coo_entries m)
    ∨ (s = 0 ∧ ∀ c d, (N.of_nat r, c, d) ∉ coo_entries m).
Proof.
  intros Hrows Hpos. cbn [row_argmax]. unfold _sparse_row_argmax.
  destruct (sparse_argmax_fold_inv (coo_shape m).1 (coo_entries m) []
              (replicate (coo_shape m).1 (0, 0))) as (st & -> & Hlen & Hinv).
  { by rewrite length_replicate. }
  { done. }
  { intros r mx col [[= -> ->] _]%lookup_replicate. split.
    - intros ? ? []%elem_of_nil.
    - by left. }
  cbn [mbind result_bind app] in *. intros [= <-].
  split; [by rewrite length_fmap|].
  intros r s Hs. rewrite list_lookup_fmap in Hs.
  destruct (st !! r) as [[mx col]|] eqn:Hst; [|done]. injection Hs as <-.
  destruct (Hinv _ _ _ Hst) as [Hmax [[-> ->]|(_ & pre & post & Hsplit & _)]].
  - right. split; [done|]. intros c d Hin. specialize (Hmax _ _ Hin).
    rewrite Forall_forall in Hpos. specialize (Hpos _ Hin). cbn in Hpos. lia.
  - left. exists mx. rewrite Hsplit. apply elem_of_app. right. by left.
Qed.

(** Clearing the main entries of the boolean table. *)
Lemma elem_of_foldl_set_false (mains : list (N * N)) : ∀ m e,
  e ∈ coo_entries (foldl (λ m (rc : N * N), set_false rc.1 rc.2 m) m mains) →
  e.2 ≠ 0 → e ∈ coo_entries m ∧ e.1 ∉ mains.
Proof.
  induction mains as [|[i s] mains IH]; intros m e; cbn [foldl].
  - intros He _. split; [done | by apply not_elem_of_nil].
  - intros He Hnz. destruct (IH _ _ He Hnz) as [He' Hnotin].
    cbn in He'. apply list_elem_of_fmap in He' as (e0 & -> & He0).
    case_bool_decide as Heq; [done|]. split; [done|].
    intros [Hhd|Htl]%elem_of_cons; [by rewrite Hhd in Heq | done].
Qed.

(** ** The two mappings of [_split_body_mappings] *)

Section split_body_mappings.
Variables labels_orig labels_split : ndarray.
Hypothesis Hlabelling : component_labelling labels_orig labels_split.

Let pairs : list (N * N) := zip (data labels_orig) (data labels_split).
Let ones : list (N * N * N) := (λ p : N * N, (p.1, p.2, 1)) <$> pairs.
Let table_entries := foldr (sorted_insert prod_swap) [] ones.
Let csr_entries := foldr (sorted_insert id) [] table_entries.

Lemma labelling_zero c s : (c, s) ∈ pairs → c = 0 ↔ s = 0.
Proof.
  destruct Hlabelling as (_ & Hz & _). rewrite Forall_forall in Hz.
  intros Hin. apply (Hz _ Hin).
Qed.

Lemma labelling_functional c c' s : (c, s) ∈ pairs → (c', s) ∈ pairs → c = c'.
Proof.
  destruct Hlabelling as (_ & _ & Hf). rewrite Forall_forall in Hf.
  intros Hin Hin'. specialize (Hf _ Hin). rewrite Forall_forall in Hf.
  by apply (Hf _ Hin').
Qed.

Lemma table_entries_sound e : e ∈ table_entries → e.1 ∈ pairs ∧ 0 < e.2.
Proof.
  intros He. split.
  - apply (elem_of_foldr_sorted_insert _ prod_swap_inj) in He as (e0 & He0 & ->).
    apply list_elem_of_fmap in He0 as ([a b] & -> & Hab). done.
  - revert e He. apply Forall_forall, foldr_sorted_insert_pos.
    apply Forall_forall. intros e0 ([a b] & -> & _)%list_elem_of_fmap. cbn. lia.
Qed.

Lemma table_entries_complete r c : (r, c) ∈ pairs → ∃ d, (r, c, d) ∈ table_entries.
Proof.
  intros Hin. destruct (coo_get_pos_elem table_entries r c) as (d & Hd & _); [|by exists d].
  unfold table_entries. rewrite (foldr_sorted_insert_get _ prod_swap_inj).
  unfold ones. rewrite coo_get_ones.
  assert (Hf : (r, c) ∈ filter (λ p : N * N, p = (r, c)) pairs)
    by (by apply list_elem_of_filter).
  destruct (filter _ pairs); [by apply elem_of_nil in Hf | cbn; lia].
Qed.

Lemma csr_entries_sound e : e ∈ csr_entries → e.1 ∈ pairs ∧ 0 < e.2.
Proof. apply (summed_entries_sound _ _ prod_swap prod_swap_inj id). apply id_inj. Qed.

Lemma csr_entries_complete r c : (r, c) ∈ pairs → ∃ d, (r, c, d) ∈ csr_entries ∧ d ≠ 0.
Proof. apply (summed_entries_complete _ _ prod_swap prod_swap_inj id). apply id_inj. Qed.

(** [split_to_orig]: a component is sent to the segment it lies in. *)
Lemma split_to_orig_spec sh :
  let split_to_orig : gmap N N :=
    <[0 := 0]> (dict (prod_swap <$> nonzero {| coo_shape := sh; coo_entries := csr_entries |})) in
  (∀ c s, (c, s) ∈ pairs → split_to_orig !! s = Some c) ∧
  (∀ s c, split_to_orig !! s = Some c → (s = 0 ∧ c = 0) ∨ (c, s) ∈ pairs).
Proof.
  intros split_to_orig.
  assert (Hnz : ∀ s c, (s, c) ∈ prod_swap <$>
            nonzero {| coo_shape := sh; coo_entries := csr_entries |} ↔
            ∃ d, (c, s, d) ∈ csr_entries ∧ d ≠ 0).
  { intros s c. unfold nonzero. cbn [coo_entries]. split.
    - intros ([c' s'] & Heq & Hin)%list_elem_of_fmap. cbn in Heq. injection Heq as -> ->.
      apply list_elem_of_fmap in Hin as ([[c0 s0] d] & Heq & Hin). cbn in Heq.
      injection Heq as -> ->. apply list_elem_of_filter in Hin as [Hd Hin].
      by exists d.
    - intros (d & Hin & Hd). apply list_elem_of_fmap. exists (c, s). split; [done|].
      apply list_elem_of_fmap. exists (c, s, d). split; [done|].
      by apply list_elem_of_filter. }
  assert (Hinv : ∀ s c, split_to_orig !! s = Some c → (s = 0 ∧ c = 0) ∨ (c, s) ∈ pairs).
  { intros s c. unfold split_to_orig. destruct (decide (s = 0)) as [->|Hs].
    - rewrite lookup_insert_eq. intros [= <-]. by left.
    - rewrite lookup_insert_ne by done. intros H%dict_lookup_Some.
      apply Hnz in H as (d & Hin & _). right.
      by apply (csr_entries_sound (c, s, d)). }
  split; [|done].
  intros c s Hin. destruct (decide (s = 0)) as [->|Hs].
  - unfold split_to_orig. rewrite lookup_insert_eq. f_equal. symmetry.
    by apply (labelling_zero c 0).
  - destruct (csr_entries_complete c s Hin) as (d & Hd & Hdnz).
    assert (is_Some (split_to_orig !! s)) as [c' Hc'].
    { unfold split_to_orig. rewrite lookup_insert_ne by done.
      apply dict_lookup_is_Some. apply list_elem_of_fmap. exists (s, c). split; [done|].
      apply Hnz. by exists d. }
    rewrite Hc'. f_equal. destruct (Hinv _ _ Hc') as [[-> _]|Hin']; [done|].
    by apply (labelling_functional c' c s).
Qed.

(** The components left in the boolean table once the main ones are
    cleared. *)
Lemma nonmain_ids_spec sh (main_split_segments : list N) x :
  x ∈ (nonzero (foldl (λ m (rc : N * N), set_false rc.1 rc.2 m)
                      (astype_bool {| coo_shape := sh; coo_entries := csr_entries |})
                      (imap (λ i s, (N.of_nat i, s)) main_split_segments))).*2 →
  ∃ r, (r, x) ∈ pairs ∧ main_split_segments !! N.to_nat r ≠ Some x.
Proof.
  intros ([r x'] & -> & Hin)%list_elem_of_fmap. cbn.
  unfold nonzero in Hin. apply list_elem_of_fmap in Hin as ([[r0 x0] d] & Heq & Hin).
  cbn in Heq. injection Heq as <- <-.
  apply list_elem_of_filter in Hin as [Hd Hin]. cbn in Hd.
  apply elem_of_foldl_set_false in Hin as [Hin Hnot]; [|done].
  cbn in Hin. apply list_elem_of_fmap in Hin as ([[r1 x1] d1] & Heq & Hin).
  cbn in Heq. injection Heq as <- <- _. cbn in Hnot.
  exists r. split; [by apply (csr_entries_sound (r, x', d1))|].
  intros Hmain. apply Hnot. apply list_elem_of_lookup. exists (N.to_nat r).
  rewrite list_lookup_imap, Hmain. cbn. by rewrite N2Nat.id.
Qed.

End split_body_mappings.


Lemma elem_of_range start len y :
  y ∈ range start len → start ≤ y.
Proof.
  unfold range. intros (j & -> & Hj)%list_elem_of_fmap. apply elem_of_seq in Hj. lia.
Qed.

Lemma elem_of_zip_pair {A B} (l1 : list A) (l2 : list B) x :
  length l1 = length l2 → x ∈ l1 → ∃ y, (x, y) ∈ zip l1 l2.
Proof.
  intros Hlen [i Hi]%list_elem_of_lookup.
  destruct (lookup_lt_is_Some_2 l2 i) as [y Hy].
  { rewrite <- Hlen. by eapply lookup_lt_Some. }
  exists y. apply list_elem_of_lookup. exists i.
  rewrite lookup_zip_with, Hi. cbn. by rewrite Hy.
Qed.

(** What [_split_body_mappings] returns, for a volume whose positive labels
    up to the largest all occur, and a component labelling of it:
    - a component containing a voxel of segment [c] is sent to an id that
      the second mapping sends back to [c], and that is [c] itself when it
      is not above the largest label;
    - component 0 is sent to 0, and only 0 is sent back to 0. *)
Lemma split_body_mappings_spec (labels_orig labels_split : ndarray)
    (split_to_nonconflicting nonconflicting_to_orig : gmap N N) :
  uint32_array labels_orig → uint32_array labels_split →
  component_labelling labels_orig labels_split →
  (∀ c, 1 ≤ c → (N.to_nat c ≤ max_list_with N.to_nat (data labels_orig))%nat →
        c ∈ data labels_orig) →
  _split_body_mappings labels_orig labels_split
    = Ok (split_to_nonconflicting, nonconflicting_to_orig) →
  (∀ c s y, (c, s) ∈ zip (data labels_orig) (data labels_split) →
     split_to_nonconflicting !! s = Some y →
     nonconflicting_to_orig !! y = Some c ∧
     ((N.to_nat y ≤ max_list_with N.to_nat (data labels_orig))%nat → y = c)) ∧
  (∀ y, split_to_nonconflicting !! 0 = Some y → y = 0) ∧
  (∀ y, nonconflicting_to_orig !! y = Some 0 → y = 0) ∧
  (∀ c, nonconflicting_to_orig !! 0 = Some c → c = 0).
Proof.
  intros H32o H32s Hlab Hocc. unfold _split_body_mappings.
  intros (t & Ht & Hrest)%bind_Ok.
  destruct (contingency_table_sparse_inv _ _ _ H32o H32s Ht) as (Hlen & Hne & _ & _ & ->).
  set (n := max_list_with N.to_nat (data labels_orig)) in *.
  set (ms := max_list_with N.to_nat (data labels_split)) in *.
  set (pairs := zip (data labels_orig) (data labels_split)) in *.
  cbn [coo_shape sum_duplicates fst snd] in Hrest.
  apply bind_Ok in Hrest as (main & Hmain & Hrest).
  apply bind_Ok in Hrest as (main_pairs & Hpairs & Hrest).
  apply bind_Ok in Hrest as ([] & _ & Hrest).
  apply bind_Ok in Hrest as (nc_to_split & Hrev & Hrest).
  apply bind_Ok in Hrest as (nc_to_orig & Hcomp & Hrest).
  apply bind_Ok in Hrest as ([] & _ & Hrest).
  injection Hrest as <- <-.
  (* the main components *)
  cbn [matrix_argmax] in Hmain.
  apply sparse_row_argmax_stored in Hmain as [Hmlen Hmain]; cycle 1.
  { apply sum_duplicates_canonical. cbn.
    apply Forall_forall. intros e ([a b] & -> & Hin)%list_elem_of_fmap. cbn.
    apply elem_of_zip_l in Hin. pose proof (max_list_with_ge N.to_nat _ _ Hin). lia. }
  { apply Forall_forall. intros e He. by apply (table_entries_sound labels_orig labels_split). }
  cbn [coo_shape coo_entries sum_duplicates fst] in Hmlen, Hmain.
  assert (MR : ∀ r s, main !! r = Some s → (r ≤ n)%nat →
            (N.of_nat r, s) ∈ pairs ∨ (r = 0%nat ∧ s = 0)).
  { intros r s Hrs Hr. destruct (Hmain _ _ Hrs) as [[d Hd]|[-> Hempty]].
    - left. by apply (table_entries_sound labels_orig labels_split (N.of_nat r, s, d)).
    - destruct (decide (r = 0%nat)) as [->|Hr0]; [by right|]. exfalso.
      destruct (elem_of_zip_pair (data labels_orig) (data labels_split) (N.of_nat r) Hlen)
        as [s' Hs']; [apply Hocc; lia|].
      destruct (table_entries_complete labels_orig labels_split _ _ Hs') as [d Hd].
      by apply (Hempty s' d). }
  assert (MP : ∀ s y, (s, y) ∈ main_pairs →
            ∃ orig, (orig ≤ n)%nat ∧ y = N.of_nat orig ∧ main !! orig = Some s).
  { intros s y Hin. apply mapM_Ok_inv in Hpairs.
    apply list_elem_of_lookup in Hin as [i Hi].
    destruct (Forall2_lookup_r _ _ _ _ _ Hpairs Hi) as (orig & Horig & Hf).
    apply lookup_seq in Horig as [-> Hlt].
    destruct (main !! (0 + i)%nat) as [s0|] eqn:E; [|done]. injection Hf as <- <-.
    exists (0 + i)%nat. split_and!; [lia | done | done]. }
  destruct (split_to_orig_spec labels_orig labels_split Hlab (S n, S ms)) as [S1 S2].
  pose proof (reverse_dict_spec _ _ Hrev) as Hrevspec.
  apply compose_mappings_2 in Hcomp as [Hcomp _].
  (* a component sent into the range of the original labels is a main one *)
  match type of Hrev with
  | reverse_dict (?nm ∪ ?md) = _ => set (nonmain := nm) in *; set (mains := md) in *
  end.
  assert (Hlow : ∀ s y, (nonmain ∪ mains) !! s = Some y →
            (N.to_nat y ≤ n)%nat → (s, y) ∈ main_pairs).
  { intros s y Hsy Hy. apply lookup_union_Some_raw in Hsy as [Hnm|[_ Hmd]].
    - unfold nonmain in Hnm.
      apply dict_lookup_Some, elem_of_zip_r, elem_of_range in Hnm. lia.
    - by apply dict_lookup_Some. }
  assert (Hzero : ∀ y, (nonmain ∪ mains) !! 0 = Some y → y = 0).
  { intros y Hy. apply lookup_union_Some_raw in Hy as [Hnm|[_ Hmd]].
    - exfalso. unfold nonmain in Hnm.
      apply dict_lookup_Some, elem_of_zip_l in Hnm. rewrite elem_of_unique in Hnm.
      apply (nonmain_ids_spec labels_orig labels_split) in Hnm as (r & Hr & Hnot).
      assert (r = 0) as -> by (by apply (labelling_zero labels_orig labels_split Hlab r 0)).
      destruct (lookup_lt_is_Some_2 main 0) as [s0 Hs0]; [lia|].
      apply Hnot. change (N.to_nat 0) with 0%nat. rewrite Hs0. f_equal.
      destruct (MR _ _ Hs0 ltac:(lia)) as [Hin|[_ ?]]; [|done].
      by apply (labelling_zero labels_orig labels_split Hlab 0 s0).
    - apply dict_lookup_Some, MP in Hmd as (orig & Ho & -> & Hm).
      destruct (MR _ _ Hm Ho) as [Hin|[-> _]]; [|done].
      by apply (labelling_zero labels_orig labels_split Hlab (N.of_nat orig) 0). }
  split_and!.
  - intros c s y Hcs Hsy. split.
    + rewrite Hcomp. rewrite (proj2 (Hrevspec s y) Hsy). cbn. by apply S1.
    + intros Hy. apply Hlow in Hsy; [|done].
      apply MP in Hsy as (orig & Ho & -> & Hm).
      destruct (MR _ _ Hm Ho) as [Hin|[-> ->]].
      * by apply (labelling_functional labels_orig labels_split Hlab _ _ s).
      * symmetry. by apply (labelling_zero labels_orig labels_split Hlab c 0).
  - exact Hzero.
  - intros y Hy. rewrite Hcomp in Hy.
    destruct (nc_to_split !! y) as [s|] eqn:Es; [|done]. cbn in Hy.
    apply Hrevspec in Es. apply Hzero.
    destruct (S2 _ _ Hy) as [[-> _]|Hin]; [done|].
    assert (s = 0) as -> by (by apply (labelling_zero labels_orig labels_split Hlab 0 s)).
    done.
  - intros c Hc. rewrite Hcomp in Hc.
    destruct (nc_to_split !! 0) as [s|] eqn:Es; [|done]. cbn in Hc.
    apply Hrevspec in Es. apply Hlow in Es; [|cbn; lia].
    apply MP in Es as (orig & Ho & Heq & Hm).
    assert (s = 0) as ->.
    { destruct (MR _ _ Hm Ho) as [Hin|[_ ?]]; [|done].
      apply (labelling_zero labels_orig labels_split Hlab (N.of_nat orig) s); [done | lia]. }
    destruct (S2 _ _ Hc) as [[_ ?]|Hin]; [done|].
    by apply (labelling_zero labels_orig labels_split Hlab c 0).
Qed.


(** ** Split-body relabeling *)

Lemma max_N_ge (l : list N) x : x ∈ l → x ≤ max_N l.
Proof.
  induction l as [|y l IH]; [by intros ?%elem_of_nil|].
  change (max_N (y :: l)) with (N.max y (max_N l)).
  intros [->|Hin]%elem_of_cons; [lia|]. specialize (IH Hin). lia.
Qed.

Lemma max_list_with_le {A} (f : A → nat) (l : list A) b :
  (∀ x, x ∈ l → (f x ≤ b)%nat) → (max_list_with f l ≤ b)%nat.
Proof.
  induction l as [|y l IH]; intros H; cbn; [lia|].
  pose proof (H y ltac:(by left)). pose proof (IH (λ x Hx, H x ltac:(by right))). lia.
Qed.

Lemma fmap_eq_of_lookup {A B} (f : A → B) (l : list A) (k : list B) :
  length l = length k →
  (∀ i x y, l !! i = Some x → k !! i = Some y → f x = y) → f <$> l = k.
Proof.
  intros Hlen H. apply list_eq_same_length with (length k); [done | by rewrite length_fmap |].
  intros i y y' _. rewrite list_lookup_fmap.
  destruct (l !! i) as [x|] eqn:E; [|done]. cbn. intros [= <-] Hy. f_equal. by eapply H.
Qed.

Section split_facts.
Variable labelMultiArrayWithBackground : ndarray → ndarray.

(** The core fact: at every voxel the chain of mappings leads back to
    the original label; the output is 0 where the input was; and 0 is no
    key of the returned mapping. *)
Lemma split_disconnected_bodies_spec (labels_orig labels_new : ndarray)
    (new_to_orig : gmap N N) :
  uint32_array (relabelConsecutive labels_orig).1.1 →
  uint32_array (labelMultiArrayWithBackground (relabelConsecutive labels_orig).1.1) →
  component_labelling (relabelConsecutive labels_orig).1.1
    (labelMultiArrayWithBackground (relabelConsecutive labels_orig).1.1) →
  split_disconnected_bodies labelMultiArrayWithBackground labels_orig
    = Ok (labels_new, new_to_orig) →
  shape labels_new = shape labels_orig ∧
  length (data labels_new) = length (data labels_orig) ∧
  (∀ i k x, data labels_new !! i = Some k → data labels_orig !! i = Some x →
     default k (new_to_orig !! k) = x ∧ (x = 0 → k = 0)) ∧
  new_to_orig !! 0 = None ∧
  (∀ k, new_to_orig !! k ≠ Some 0) ∧
  (∀ k v, new_to_orig !! k = Some v →
     ∃ k', new_to_orig !! k' = Some v ∧ ∀ x, x ∈ data labels_orig → x < k').
Proof.
  pose proof (relabelConsecutive_spec labels_orig) as Hspec.
  pose proof (relabelConsecutive_occurs labels_orig) as Hocc.
  unfold split_disconnected_bodies.
  destruct (relabelConsecutive labels_orig) as [[cons maxc] o2c].
  cbn [fst snd] in *. destruct Hspec as (Hinv & Hmaxc & Hshape & Hcons).
  set (split := labelMultiArrayWithBackground cons) in *.
  set (max_orig := max_N (elements (dom o2c))).
  intros H32c H32s Hlab.
  intros (c2o & Hc2o & Hrest)%bind_Ok.
  apply bind_Ok in Hrest as ([s2nc nc2o] & Hmaps & Hrest).
  apply bind_Ok in Hrest as (cws0 & Hcws0 & Hrest).
  apply bind_Ok in Hrest as (s2ows & Hs2ows & Hrest).
  apply bind_Ok in Hrest as (new & Hnew & Hrest).
  apply bind_Ok in Hrest as (ows2cws & Hows2cws & Hrest).
  apply bind_Ok in Hrest as (ows2orig & Hows2orig & Hrest).
  injection Hrest as <- <-.
  pose proof (reverse_dict_spec _ _ Hc2o) as Rc2o.
  pose proof (reverse_dict_spec _ _ Hcws0) as Rcws0.
  pose proof (reverse_dict_spec _ _ Hows2cws) as Rows.
  apply compose_mappings_2 in Hs2ows as [Cs2ows _].
  pose proof (compose_mappings_3 _ _ _ _ Hows2orig) as Cows.
  apply applyMapping_spec in Hnew as (Hnshape & _ & Hnew).
  (* bounds on the consecutive labels *)
  assert (Hle : ∀ x c, o2c !! x = Some c → c ≤ maxc).
  { intros x c Hx. pose proof (lm_bound _ _ Hinv _ _ Hx). lia. }
  assert (Hkey : ∀ x c, o2c !! x = Some c → x ≤ max_orig).
  { intros x c Hx. apply max_N_ge, elem_of_elements, elem_of_dom. by eexists. }
  assert (Hmax : max_list_with N.to_nat (data cons) = N.to_nat maxc).
  { apply Nat.le_antisymm.
    - apply max_list_with_le. intros c [i Hi]%list_elem_of_lookup.
      destruct (Forall2_lookup_r _ _ _ _ _ Hcons Hi) as (x & _ & Hx).
      specialize (Hle _ _ Hx). lia.
    - destruct (decide (maxc = 0)) as [->|Hnz]; [cbn; lia|].
      apply (max_list_with_ge N.to_nat). apply Hocc. lia. }
  destruct (split_body_mappings_spec cons split s2nc nc2o H32c H32s Hlab) as
    (Mvox & Mzero & Mback & Mzero').
  { intros c Hc Hcm. apply Hocc. lia. }
  { exact Hmaps. }
  (* the ids given to the new pieces lie above the original ones *)
  match type of Rows with
  | ∀ k v, _ ↔ (?nr ∪ _) !! _ = _ => set (fresh := nr) in *
  end.
  assert (Hfresh : ∀ y k, fresh !! y = Some k → 1 + maxc ≤ y ∧ 1 + max_orig ≤ k).
  { intros y k Hyk. unfold fresh in Hyk. apply dict_lookup_Some in Hyk.
    split; [by apply elem_of_zip_l, elem_of_range in Hyk
           | by apply elem_of_zip_r, elem_of_range in Hyk]. }
  assert (Hcws : ∀ y k, (fresh ∪ cws0) !! y = Some k →
            (1 + maxc ≤ y ∧ 1 + max_orig ≤ k) ∨ (o2c !! k = Some y)).
  { intros y k [Hf|[_ Hc]]%lookup_union_Some_raw; [left; by apply Hfresh|].
    right. by apply Rcws0. }
  assert (Hcws_zero : ∀ k, (fresh ∪ cws0) !! 0 = Some k → k = 0).
  { intros k [[? _]|Hk]%Hcws; [lia|].
    apply (lm_inj _ _ Hinv k 0 0); [done | apply (lm_zero _ _ Hinv)]. }
  (* the chain of mappings at an id of the output *)
  assert (Hchain : ∀ k x, ows2orig !! k = Some x →
            ∃ y c, (fresh ∪ cws0) !! y = Some k ∧ nc2o !! y = Some c ∧ o2c !! x = Some c).
  { intros k x Hk. rewrite Cows in Hk.
    destruct (ows2cws !! k) as [y|] eqn:Ey; [|done]. cbn in Hk.
    destruct (nc2o !! y) as [c|] eqn:Ec; [|done]. cbn in Hk.
    exists y, c. split_and!; [by apply Rows | done | by apply Rc2o]. }
  assert (Hlen : length (data new) = length (data labels_orig)).
  { rewrite <- (Forall2_length _ _ _ Hnew). destruct Hlab as [<- _].
    symmetry. by eapply Forall2_length. }
  assert (Hno : ∀ k', ows2orig !! k' = Some 0 → max_orig < k' → False).
  { intros k' Hk' Hgt.
    destruct (Hchain _ _ Hk') as (y1 & c1 & Hy1 & Hc1 & Hv1).
    rewrite (lm_zero _ _ Hinv) in Hv1. injection Hv1 as <-.
    assert (y1 = 0) as -> by (by apply Mback).
    apply Hcws_zero in Hy1. lia. }
  assert (Hsplit : ∀ v, v ∈ (list_to_set (map_to_list
                     (filter (λ kv : N * N, max_orig < kv.1) ows2orig)).*2 : gset N) →
            ∃ k', ows2orig !! k' = Some v ∧ max_orig < k').
  { intros v Hsl.
    apply elem_of_list_to_set, list_elem_of_fmap in Hsl as ([k' v'] & -> & Hin).
    apply elem_of_map_to_list, map_lookup_filter_Some in Hin as [Hk' Hgt].
    by exists k'. }
  assert (Hentry : ∀ k v, (filter (λ kv : N * N, kv.2 ∈ (list_to_set (map_to_list
                     (filter (λ kv : N * N, max_orig < kv.1) ows2orig)).*2 : gset N)) ows2orig
                   ∪ filter (λ kv : N * N, max_orig < kv.1) ows2orig) !! k = Some v →
            ows2orig !! k = Some v ∧ ∃ k', ows2orig !! k' = Some v ∧ max_orig < k').
  { intros k v [Hf|[_ Hm]]%lookup_union_Some_raw.
    - apply map_lookup_filter_Some in Hf as [Hk Hsl]. split; [done|]. by apply Hsplit.
    - apply map_lookup_filter_Some in Hm as [Hk Hgt]. split; [done|]. by exists k. }
  split; [congruence|]. split; [done|]. split; [|split_and!].
  - intros i k x Hk Hx.
    destruct (Forall2_lookup_l _ _ _ _ _ Hcons Hx) as (c & Hc & Hxc).
    destruct (Forall2_lookup_r _ _ _ _ _ Hnew Hk) as (s & Hs & Hsk).
    assert (Hcs : (c, s) ∈ zip (data cons) (data split)).
    { apply list_elem_of_lookup. exists i. rewrite lookup_zip_with, Hc. cbn. by rewrite Hs. }
    rewrite Cs2ows in Hsk. destruct (s2nc !! s) as [y|] eqn:Ey; [|done]. cbn in Hsk.
    destruct (Mvox _ _ _ Hcs Ey) as [Hyc Hylow].
    assert (Hows : ows2orig !! k = Some x).
    { rewrite Cows. rewrite (proj2 (Rows _ _) Hsk). cbn. rewrite Hyc. cbn. by apply Rc2o. }
    split.
    + destruct ((filter _ ows2orig ∪ filter _ ows2orig) !! k) as [v|] eqn:Ev.
      * cbn. apply lookup_union_Some_raw in Ev as [Ev|[_ Ev]];
          apply map_lookup_filter_Some in Ev as [Ev _]; congruence.
      * cbn. apply lookup_union_None in Ev as [_ Ev].
        apply map_lookup_filter_None in Ev as [Ev|Ev]; [congruence|].
        specialize (Ev _ Hows). cbn in Ev.
        destruct (Hcws _ _ Hsk) as [[_ ?]|Hky]; [fold max_orig in Ev; lia|].
        assert (y = c) as -> by (apply Hylow; rewrite Hmax; specialize (Hle _ _ Hky); lia).
        by apply (lm_inj _ _ Hinv k x c).
    + intros ->.
      assert (c = 0) as ->.
      { rewrite (lm_zero _ _ Hinv) in Hxc. by injection Hxc. }
      assert (s = 0) as -> by (by apply (labelling_zero cons split Hlab 0 s)).
      rewrite (Mzero _ Ey) in Hsk. by apply Hcws_zero.
  - match goal with
    | |- ?m !! 0 = None => destruct (m !! 0) as [v|] eqn:Ev; [|done]
    end.
    exfalso.
    apply Hentry in Ev as (Hv & k' & Hk' & Hgt).
    destruct (Hchain _ _ Hv) as (y0 & c0 & Hy0 & Hc0 & Hv0).
    assert (y0 = 0) as ->.
    { destruct (Hcws _ _ Hy0) as [[_ ?]|Hy]; [lia|].
      rewrite (lm_zero _ _ Hinv) in Hy. by injection Hy. }
    assert (c0 = 0) as -> by (by apply Mzero').
    assert (v = 0) as -> by (apply (lm_inj _ _ Hinv v 0 0); [done | apply (lm_zero _ _ Hinv)]).
    by apply (Hno k').
  - intros k Hk. apply Hentry in Hk as (_ & k' & Hk' & Hgt). by apply (Hno k').
  - intros k v Hk. apply Hentry in Hk as (_ & k' & Hk' & Hgt). exists k'. split.
    + apply lookup_union_Some_raw.
      match goal with
      | |- ?A !! _ = _ ∨ _ => destruct (A !! k') as [v'|] eqn:Ef
      end.
      * left. apply map_lookup_filter_Some in Ef as [Ef _]. congruence.
      * right. split; [done|]. by apply map_lookup_filter_Some.
    + intros x [i Hi]%list_elem_of_lookup.
      destruct (Forall2_lookup_l _ _ _ _ _ Hcons Hi) as (c & _ & Hxc).
      specialize (Hkey _ _ Hxc). lia.
Qed.

End split_facts.


(** ** The claims about split-body relabeling *)

(** C1.  If [split_disconnected_bodies] returns a volume and a mapping,
    relabelling the volume back through the mapping (labels absent from
    it are kept) gives the original volume, and every voxel that was 0 is
    0 in the returned volume.  The two arrays vigra computes on the way
    are [uint32] arrays, and the component labelling is one of the
    consecutive volume. *)
Theorem split_round_trip (labelMultiArrayWithBackground : ndarray → ndarray)
    (labels_orig labels_new : ndarray) (new_to_orig : gmap N N) :
  uint32_array (relabelConsecutive labels_orig).1.1 →
  uint32_array (labelMultiArrayWithBackground (relabelConsecutive labels_orig).1.1) →
  component_labelling (relabelConsecutive labels_orig).1.1
    (labelMultiArrayWithBackground (relabelConsecutive labels_orig).1.1) →
  split_disconnected_bodies labelMultiArrayWithBackground labels_orig
    = Ok (labels_new, new_to_orig) →
  relabel_back new_to_orig labels_new = labels_orig ∧
  (∀ i, data labels_orig !! i = Some 0 → data labels_new !! i = Some 0).
Proof.
  intros H1 H2 H3 Hsplit.
  destruct (split_disconnected_bodies_spec _ _ _ _ H1 H2 H3 Hsplit)
    as (Hshape & Hlen & Hvox & _).
  split.
  - unfold relabel_back, array_map. destruct labels_orig as [sh l]. cbn in *.
    rewrite Hshape. f_equal. apply fmap_eq_of_lookup; [done|].
    intros i k x Hk Hx. by apply (Hvox i k x).
  - intros i Hi.
    destruct (lookup_lt_is_Some_2 (data labels_new) i) as [k Hk].
    { rewrite Hlen. by eapply lookup_lt_Some. }
    rewrite Hk. f_equal. by apply (Hvox i k 0).
Qed.

Lemma split_round_trip_witness :
  relabel_back {[10 := 3; 9 := 3; 3 := 3]} three_pieces_result = three_pieces ∧
  (∀ i, data three_pieces !! i = Some 0 → data three_pieces_result !! i = Some 0).
Proof.
  apply (split_round_trip connected_components three_pieces three_pieces_result
           {[10 := 3; 9 := 3; 3 := 3]}).
  - apply (bool_decide_unpack _). by vm_compute.
  - apply (bool_decide_unpack _). by vm_compute.
  - apply (bool_decide_unpack _). by vm_compute.
  - vm_compute. reflexivity.
Defined.

(** C6.  In the scenario volume label 5 has 130 voxels and the largest
    label is 9.  [split_disconnected_bodies] keeps 5 on the 100-voxel
    piece, gives the 30-voxel piece the new label 10 and returns the
    mapping {10: 5, 5: 5}: the identity entry of the dominant piece is
    there, and the labels 0, 7 and 9, which no split touches, are not.
    The pieces are whole components: splitting the result again changes
    nothing.  In general every entry of a returned mapping has the
    original label of a split body as its value: some fresh id, above all
    labels of the input, is mapped to the same value. *)
Theorem split_scenario_mapping :
  (max_N (data split_scenario) = 9 ∧ voxel_count 5 split_scenario = 130%nat) ∧
  split_disconnected_bodies connected_components split_scenario
    = Ok (split_scenario_result, {[10 := 5; 5 := 5]}) ∧
  (voxel_count 5 split_scenario_result = 100%nat ∧
   voxel_count 10 split_scenario_result = 30%nat) ∧
  split_disconnected_bodies connected_components split_scenario_result
    = Ok (split_scenario_result, ∅) ∧
  (∀ (labelMultiArrayWithBackground : ndarray → ndarray) labels_orig labels_new new_to_orig,
     uint32_array (relabelConsecutive labels_orig).1.1 →
     uint32_array (labelMultiArrayWithBackground (relabelConsecutive labels_orig).1.1) →
     component_labelling (relabelConsecutive labels_orig).1.1
       (labelMultiArrayWithBackground (relabelConsecutive labels_orig).1.1) →
     split_disconnected_bodies labelMultiArrayWithBackground labels_orig
       = Ok (labels_new, new_to_orig) →
     ∀ k v, new_to_orig !! k = Some v →
       ∃ k', new_to_orig !! k' = Some v ∧ ∀ x, x ∈ data labels_orig → x < k').
Proof.
  split; [split; by vm_compute|].
  split; [vm_compute; reflexivity|].
  split; [split; by vm_compute|].
  split; [vm_compute; reflexivity|].
  intros cc labels_orig labels_new new_to_orig H1 H2 H3 Hsplit.
  by destruct (split_disconnected_bodies_spec _ _ _ _ H1 H2 H3 Hsplit)
    as (_ & _ & _ & _ & _ & Hcompanion).
Qed.

Lemma split_scenario_mapping_witness :
  ∃ k', ({[10 := 3; 9 := 3; 3 := 3]} : gmap N N) !! k' = Some 3 ∧
        ∀ x, x ∈ data three_pieces → x < k'.
Proof.
  refine (proj2 (proj2 (proj2 (proj2 split_scenario_mapping)))
            connected_components three_pieces three_pieces_result
            {[10 := 3; 9 := 3; 3 := 3]} _ _ _ _ 3 3 _).
  - apply (bool_decide_unpack _). by vm_compute.
  - apply (bool_decide_unpack _). by vm_compute.
  - apply (bool_decide_unpack _). by vm_compute.
  - vm_compute. reflexivity.
  - by vm_compute.
Defined.

(** C5.  Label 0 stays label 0 everywhere.  [split_disconnected_bodies]
    leaves every 0 voxel at 0, and 0 is neither a key nor a value of the
    mapping it returns.  Every merge edge [stitcher] emits joins two
    foreground labels of its two boundaries, each moved by the offset of
    its block.  In the output of [stitch] every block has 0 wherever its
    input had 0. *)
Theorem background_is_preserved :
  (∀ (labelMultiArrayWithBackground : ndarray → ndarray) labels_orig labels_new new_to_orig,
     uint32_array (relabelConsecutive labels_orig).1.1 →
     uint32_array (labelMultiArrayWithBackground (relabelConsecutive labels_orig).1.1) →
     component_labelling (relabelConsecutive labels_orig).1.1
       (labelMultiArrayWithBackground (relabelConsecutive labels_orig).1.1) →
     split_disconnected_bodies labelMultiArrayWithBackground labels_orig
       = Ok (labels_new, new_to_orig) →
     (∀ i, data labels_orig !! i = Some 0 → data labels_new !! i = Some 0) ∧
     new_to_orig !! 0 = None ∧ (∀ k, new_to_orig !! k ≠ Some 0)) ∧
  (∀ (touches : Z → Z → Z → Z → bool) offsets key group idx edges a b,
     stitcher touches offsets (key, group) = Ok (idx, edges) →
     (a, b) ∈ edges →
     ∃ sv1 b1 sv2 b2 off1 off2 body1 body2,
       (sv1, b1) ∈ group ∧ (sv2, b2) ∈ group ∧
       offsets !! sv_index sv1 = Some off1 ∧ offsets !! sv_index sv2 = Some off2 ∧
       body1 ∈ data b1 ∧ body2 ∈ data b2 ∧ body1 ≠ 0 ∧ body2 ≠ 0 ∧
       a = body1 + off1 ∧ b = body2 + off2) ∧
  (∀ (touches : Z → Z → Z → Z → bool) label_chunks out,
     stitch touches label_chunks = Ok out →
     Forall2 (λ (c : Subvolume * (ndarray * N)) (o : Subvolume * ndarray),
                o.1 = c.1 ∧ shape o.2 = shape c.2.1 ∧
                ∀ p, data c.2.1 !! p = Some 0 → data o.2 !! p = Some 0)
             label_chunks out).
Proof.
  split_and!.
  - intros cc labels_orig labels_new new_to_orig H1 H2 H3 Hsplit.
    destruct (split_disconnected_bodies_spec _ _ _ _ H1 H2 H3 Hsplit)
      as (_ & Hlen & Hvox & Hkey & Hval & _).
    split_and!; [|done..].
    intros i Hi.
    destruct (lookup_lt_is_Some_2 (data labels_new) i) as [k Hk].
    { rewrite Hlen. by eapply lookup_lt_Some. }
    rewrite Hk. f_equal. by apply (Hvox i k 0).
  - apply stitcher_foreground.
  - apply stitch_background.
Qed.

Lemma background_is_preserved_witness :
  (∀ i, data three_pieces !! i = Some 0 → data three_pieces_result !! i = Some 0) ∧
  ({[10 := 3; 9 := 3; 3 := 3]} : gmap N N) !! 0 = None ∧
  (∀ k, ({[10 := 3; 9 := 3; 3 := 3]} : gmap N N) !! k ≠ Some 0).
Proof.
  apply (proj1 background_is_preserved connected_components three_pieces
           three_pieces_result {[10 := 3; 9 := 3; 3 := 3]}).
  - apply (bool_decide_unpack _). by vm_compute.
  - apply (bool_decide_unpack _). by vm_compute.
  - apply (bool_decide_unpack _). by vm_compute.
  - vm_compute. reflexivity.
Defined.


(** ** The model of the component labelling meets what is assumed of it *)

Lemma ids_inv_init (labels : list N) :
  ids_inv labels (imap (λ i l, if bool_decide (l = 0) then 0 else N.of_nat (S i)) labels).
Proof.
  split; [by rewrite length_imap|].
  intros i x id Hx. rewrite list_lookup_imap, Hx. cbn. intros [= <-].
  case_bool_decide; split; try done. intros _. by exists i.
Qed.

Lemma ids_inv_propagate sh (labels ids : list N) :
  ids_inv labels ids → ids_inv labels (propagate sh labels ids).
Proof.
  intros [Hlen Hinv]. unfold propagate. split; [by rewrite length_imap|].
  intros i x id Hx. rewrite list_lookup_imap.
  destruct (ids !! i) as [id0|] eqn:Eid; [|done]. cbn. rewrite Hx.
  intros [= <-]. destruct (Hinv _ _ _ Hx Eid) as [Hz Hnz].
  case_bool_decide as Hx0; [done|]. split; [done|]. intros _.
  specialize (Hnz Hx0).
  generalize (neighbours sh i) as ns. intros ns.
  induction ns as [|j ns IH]; cbn [foldr]; [done|].
  case_bool_decide as Hj; [|done].
  destruct (ids !! j) as [idj|] eqn:Ej; cbn; [|by rewrite N.min_id].
  destruct (Hinv _ _ _ Hj Ej) as [_ Hjnz]. specialize (Hjnz Hx0).
  match goal with |- context [?a `min` idj] =>
    destruct (N.min_spec a idj) as [[_ ->]|[_ ->]] end; done.
Qed.

Lemma ids_inv_iter sh (labels : list N) n ids :
  ids_inv labels ids → ids_inv labels (Nat.iter n (propagate sh labels) ids).
Proof.
  intros H. induction n as [|n IH]; [done|]. cbn. by apply ids_inv_propagate.
Qed.

Lemma labelmap_size_le (l : list N) : ∀ m,
  (size (foldl labelmap_step m l) ≤ size m + length l)%nat.
Proof.
  induction l as [|x l IH]; intros m; cbn [foldl length]; [lia|].
  specialize (IH (labelmap_step m x)). unfold labelmap_step in *.
  destruct (m !! x) eqn:E; [lia|].
  rewrite map_size_insert_None in IH by done. lia.
Qed.

(** [relabelConsecutive] returns a [uint32] array when the input has fewer
    than 2^32 elements. *)
Lemma relabelConsecutive_uint32 (labels : ndarray) :
  N.of_nat (length (data labels)) < 2 ^ 32 →
  uint32_array (relabelConsecutive labels).1.1.
Proof.
  intros Hlen. pose proof (relabelConsecutive_spec labels) as H.
  unfold relabelConsecutive in *. cbn [fst snd] in *.
  destruct H as (Hinv & _ & _ & Hall).
  change (foldl _ {[0 := 0]} (data labels)) with (foldl labelmap_step {[0 := 0]} (data labels)) in *.
  pose proof (labelmap_size_le (data labels) {[0 := 0]}) as Hsize.
  rewrite map_size_singleton in Hsize.
  unfold uint32_array. apply Forall_forall. intros c [i Hi]%list_elem_of_lookup.
  destruct (Forall2_lookup_r _ _ _ _ _ Hall Hi) as (x & _ & Hx).
  pose proof (lm_bound _ _ Hinv _ _ Hx). lia.
Qed.

Lemma connected_components_length (labels : ndarray) :
  length (data (connected_components labels)) = length (data labels).
Proof.
  unfold connected_components, relabelConsecutive. cbn. rewrite length_fmap.
  apply (ids_inv_iter _ _ _ _ (ids_inv_init (data labels))).
Qed.

Lemma connected_components_uint32 (labels : ndarray) :
  N.of_nat (length (data labels)) < 2 ^ 32 →
  uint32_array (connected_components labels).
Proof.
  intros Hlen. unfold connected_components. apply relabelConsecutive_uint32. cbn.
  by rewrite (proj1 (ids_inv_iter _ _ _ _ (ids_inv_init (data labels)))).
Qed.

(** The labelling is 0 exactly on the background, and a component lies
    within one segment. *)
Lemma connected_components_labelling (labels : ndarray) :
  component_labelling labels (connected_components labels).
Proof.
  pose proof (ids_inv_iter (shape labels) (data labels) (length (data labels)) _
                (ids_inv_init (data labels))) as [Hlen Hids].
  set (ids := Nat.iter _ _ _) in *.
  pose proof (relabelConsecutive_spec {| shape := shape labels; data := ids |}) as Hspec.
  unfold connected_components. fold ids.
  destruct (relabelConsecutive {| shape := shape labels; data := ids |})
    as [[cc maxc] labelmap]. cbn [fst snd data] in *.
  destruct Hspec as (Hinv & _ & _ & Hcc).
  assert (Hlen' : length (data labels) = length (data cc)).
  { rewrite <- Hlen. by eapply Forall2_length. }
  assert (Hpair : ∀ x c, (x, c) ∈ zip (data labels) (data cc) →
            ∃ i id, data labels !! i = Some x ∧ ids !! i = Some id ∧
                    labelmap !! id = Some c).
  { intros x c [i Hi]%list_elem_of_lookup. rewrite lookup_zip_with in Hi.
    destruct (data labels !! i) as [x'|] eqn:Ex; [|done]. cbn in Hi.
    destruct (data cc !! i) as [c'|] eqn:Ec; [|done]. injection Hi as -> ->.
    destruct (Forall2_lookup_r _ _ _ _ _ Hcc Ec) as (id & Hid & Hm).
    by exists i, id. }
  split; [done|]. split.
  - apply Forall_forall. intros [x c] (i & id & Hx & Hid & Hm)%Hpair. cbn.
    destruct (Hids _ _ _ Hx Hid) as [Hz Hnz]. split.
    + intros ->. rewrite (Hz eq_refl), (lm_zero _ _ Hinv) in Hm. by injection Hm.
    + intros ->. assert (id = 0) as ->
        by (apply (lm_inj _ _ Hinv id 0 0); [done | apply (lm_zero _ _ Hinv)]).
      destruct (decide (x = 0)) as [|Hx0]; [done|].
      destruct (Hnz Hx0) as (j & Hj & _). lia.
  - apply Forall_forall. intros [x c] (i & id & Hx & Hid & Hm)%Hpair.
    apply Forall_forall. intros [x' c'] (i' & id' & Hx' & Hid' & Hm')%Hpair. cbn.
    intros ->. assert (id = id') as <- by (by apply (lm_inj _ _ Hinv id id' c')).
    destruct (Hids _ _ _ Hx Hid) as [Hz Hnz]. destruct (Hids _ _ _ Hx' Hid') as [Hz' Hnz'].
    destruct (decide (x = 0)) as [->|Hx0], (decide (x' = 0)) as [->|Hx0']; try done.
    + rewrite (Hz eq_refl) in Hnz'. destruct (Hnz' Hx0') as (j & Hj & _). lia.
    + rewrite (Hz' eq_refl) in Hnz. destruct (Hnz Hx0) as (j & Hj & _). lia.
    + destruct (Hnz Hx0) as (j & Hj & Hlj). destruct (Hnz' Hx0') as (j' & Hj' & Hlj').
      assert (j = j') as <- by lia. congruence.
Qed.

(** With that model in place of vigra's function the round trip needs no
    assumption beyond the size of the volume. *)
Corollary split_round_trip_connected_components (labels_orig labels_new : ndarray)
    (new_to_orig : gmap N N) :
  N.of_nat (length (data labels_orig)) < 2 ^ 32 →
  split_disconnected_bodies connected_components labels_orig = Ok (labels_new, new_to_orig) →
  relabel_back new_to_orig labels_new = labels_orig ∧ new_to_orig !! 0 = None.
Proof.
  intros Hlen Hsplit.
  assert (Hlen' : N.of_nat (length (data (relabelConsecutive labels_orig).1.1)) < 2 ^ 32).
  { unfold relabelConsecutive. cbn. by rewrite length_fmap. }
  destruct (split_disconnected_bodies_spec connected_components _ _ _
              (relabelConsecutive_uint32 _ Hlen)
              (connected_components_uint32 _ Hlen')
              (connected_components_labelling _) Hsplit)
    as (Hshape & Hl & Hvox & Hkey & _).
  split; [|done].
  unfold relabel_back, array_map. destruct labels_orig as [sh l]. cbn in *.
  rewrite Hshape. f_equal. apply fmap_eq_of_lookup; [done|].
  intros i k x Hk Hx. by apply (Hvox i k x).
Qed.


(** * Further properties of the module *)

(** ** [reverse_dict] and [compose_mappings] *)

Lemma NoDup_values_injective (d : gmap N N) :
  injective_dict d → NoDup (map_to_list d).*2.
Proof.
  intros Hinj. apply NoDup_fmap_2_strong; [|apply NoDup_map_to_list].
  intros [k1 v1] [k2 v2] H1%elem_of_map_to_list H2%elem_of_map_to_list. cbn.
  intros ->. f_equal. by eapply Hinj.
Qed.

Lemma reverse_dict_injective (d : gmap N N) :
  injective_dict d → ∃ rev, reverse_dict d = Ok rev.
Proof.
  intros Hinj. unfold reverse_dict, assert. rewrite bool_decide_true; [by eexists|].
  rewrite <- size_dom, dict_dom.
  assert (Heq : (prod_swap <$> map_to_list d).*1 = (map_to_list d).*2).
  { rewrite <- list_fmap_compose. apply list_fmap_ext. by intros _ [??] _. }
  rewrite Heq, size_list_to_set by by apply NoDup_values_injective.
  by rewrite length_fmap, length_map_to_list.
Qed.

(** X1.  [reverse_dict] succeeds exactly on the dicts in which no two keys
    share a value, and otherwise trips its assertion; when it succeeds the
    result holds [v -> k] exactly for the pairs [k -> v] of the input. *)
Theorem reverse_dict_succeeds_iff_injective (d : gmap N N) :
  (injective_dict d →
     ∃ rev, reverse_dict d = Ok rev ∧ ∀ k v, rev !! v = Some k ↔ d !! k = Some v) ∧
  (¬ injective_dict d →
     reverse_dict d = Raise (AssertionError "dict is not reversable")).
Proof.
  split.
  - intros [rev Hrev]%reverse_dict_injective. exists rev. split; [done|].
    by apply reverse_dict_spec.
  - intros Hninj. destruct (reverse_dict d) as [rev|e] eqn:E.
    + exfalso. apply Hninj. intros k1 k2 v H1 H2.
      pose proof (reverse_dict_spec _ _ E) as Hspec.
      apply Hspec in H1, H2. congruence.
    + unfold reverse_dict, assert in E. by case_bool_decide.
Qed.

Lemma reverse_dict_succeeds_iff_injective_witness :
  ∃ rev, reverse_dict {[1 := 5; 2 := 7]} = Ok rev ∧
         ∀ k v, rev !! v = Some k ↔ ({[1 := 5; 2 := 7]} : gmap N N) !! k = Some v.
Proof.
  apply (proj1 (reverse_dict_succeeds_iff_injective {[1 := 5; 2 := 7]})).
  intros k1 k2 v H1 H2.
  apply lookup_insert_Some in H1 as [[<- <-]|[? [<- <-]%lookup_singleton_Some]];
  apply lookup_insert_Some in H2 as [[<- ?]|[? [<- ?]%lookup_singleton_Some]];
    congruence.
Defined.

(** X2.  Reversing twice gives the dict back: the reverse of a reversible
    dict is itself reversible, and its reverse is the original. *)
Theorem reverse_dict_involutive (d rev : gmap N N) :
  reverse_dict d = Ok rev → reverse_dict rev = Ok d.
Proof.
  intros Hrev. pose proof (reverse_dict_spec _ _ Hrev) as Hspec.
  destruct (reverse_dict_injective rev) as [d' Hd'].
  { intros v1 v2 k H1%Hspec H2%Hspec. congruence. }
  rewrite Hd'. f_equal. apply map_eq. intros k.
  pose proof (reverse_dict_spec _ _ Hd') as Hspec'.
  apply option_eq. intros v. by rewrite Hspec', Hspec.
Qed.

Lemma reverse_dict_involutive_witness :
  reverse_dict {[5 := 1; 7 := 2]} = Ok ({[1 := 5; 2 := 7]} : gmap N N).
Proof.
  apply (reverse_dict_involutive {[1 := 5; 2 := 7]}). vm_compute. reflexivity.
Defined.

Lemma compose2_Ok (AtoB BtoC : gmap N N) :
  map_Forall (λ _ v, is_Some (BtoC !! v)) AtoB →
  compose2 AtoB BtoC = Ok (omap (λ v, BtoC !! v) AtoB).
Proof. intros H. unfold compose2. by rewrite bool_decide_true. Qed.

Lemma compose2_KeyError (AtoB BtoC : gmap N N) :
  ¬ map_Forall (λ _ v, is_Some (BtoC !! v)) AtoB →
  compose2 AtoB BtoC = Raise KeyError.
Proof. intros H. unfold compose2. by rewrite bool_decide_false. Qed.

Lemma foldM_compose2_chain (rest : list (gmap N N)) : ∀ A : gmap N N,
  (map_Forall (λ _ v, is_Some (chain rest v)) A →
     foldM compose2 A rest = Ok (omap (chain rest) A)) ∧
  (¬ map_Forall (λ _ v, is_Some (chain rest v)) A →
     foldM compose2 A rest = Raise KeyError).
Proof.
  induction rest as [|B rest IH]; intros A; cbn [foldM chain].
  - split.
    + intros _. f_equal. apply map_eq. intros k. rewrite lookup_omap.
      by destruct (A !! k).
    + intros H. exfalso. apply H. by intros k v _.
  - destruct (decide (map_Forall (λ _ v, is_Some (B !! v)) A)) as [HB|HB].
    + rewrite compose2_Ok by done. cbn [mbind result_bind].
      assert (Hlk : ∀ k, omap (λ v, B !! v) A !! k ≫= chain rest
                         = A !! k ≫= (λ v, B !! v ≫= chain rest)).
      { intros k. rewrite lookup_omap. by destruct (A !! k). }
      assert (Hiff : map_Forall (λ _ v, is_Some (chain rest v)) (omap (λ v, B !! v) A)
                     ↔ map_Forall (λ _ v, is_Some (B !! v ≫= chain rest)) A).
      { split.
        - intros H k v Hk. destruct (HB k v Hk) as [w Hw]. rewrite Hw. cbn.
          apply (H k w). by rewrite lookup_omap, Hk.
        - intros H k w. rewrite lookup_omap. destruct (A !! k) as [v|] eqn:Hk; [|done].
          cbn. intros Hw. specialize (H k v Hk). cbn in H. by rewrite Hw in H. }
      destruct (IH (omap (λ v, B !! v) A)) as [IH1 IH2]. split.
      * intros H. rewrite IH1 by by apply Hiff. f_equal. apply map_eq. intros k.
        rewrite !lookup_omap. destruct (A !! k) as [v|]; [|done]. cbn.
        by destruct (B !! v).
      * intros H. apply IH2. by rewrite Hiff.
    + rewrite compose2_KeyError by done. cbn [mbind result_bind]. split; [|done].
      intros H. exfalso. apply HB. intros k v Hk. specialize (H k v Hk). cbn in H.
      destruct (B !! v); [done | by destruct H].
Qed.

(** X3.  [compose_mappings] follows every value of the first dict through
    the rest of the chain: when each of them can be followed to the end
    the result has the keys of the first dict and the final labels as
    values; when one of them is missing from a later dict the call is a
    [KeyError]; with no mapping at all it is an [IndexError]. *)
Theorem compose_mappings_follows_chain (A : gmap N N) (rest : list (gmap N N)) :
  (map_Forall (λ _ v, is_Some (chain rest v)) A →
     compose_mappings (A :: rest) = Ok (omap (chain rest) A)) ∧
  (¬ map_Forall (λ _ v, is_Some (chain rest v)) A →
     compose_mappings (A :: rest) = Raise KeyError) ∧
  compose_mappings [] = Raise IndexError.
Proof.
  destruct (foldM_compose2_chain rest A) as [H1 H2]. by split_and!.
Qed.

Lemma compose_mappings_follows_chain_witness :
  compose_mappings [{[1 := 2]}; {[2 := 3]}; {[3 := 4]}]
  = Ok (omap (chain [{[2 := 3]}; {[3 := 4]}]) ({[1 := 2]} : gmap N N)) ∧
  compose_mappings [{[1 := 2]}; {[2 := 3]}; {[9 := 4]}] = Raise KeyError.
Proof.
  split.
  - apply (proj1 (compose_mappings_follows_chain {[1 := 2]} [{[2 := 3]}; {[3 := 4]}])).
    intros k v [<- <-]%lookup_singleton_Some. vm_compute. eauto.
  - apply (proj1 (proj2 (compose_mappings_follows_chain {[1 := 2]} [{[2 := 3]}; {[9 := 4]}]))).
    intros H. specialize (H 1 2 (lookup_singleton_eq _ _)). vm_compute in H.
    by destruct H.
Defined.


(** ** The stages of [stitch] *)

(** X4.  [intersects] refuses a range given back to front.  For two
    well-formed ranges it returns one window per range, both of the same
    length, that start at a non-negative position and denote the same
    stretch of global coordinates: from the larger of the two starts to
    the smaller of the two ends. *)
Theorem intersects_common_window (pt1 pt2 pt1_2 pt2_2 : Z) :
  ((pt1 ≤ pt2)%Z → (pt1_2 ≤ pt2_2)%Z →
     ∃ a b c d, intersects pt1 pt2 pt1_2 pt2_2 = Ok (a, b, c, d) ∧
       (0 ≤ a)%Z ∧ (0 ≤ c)%Z ∧
       (pt1 + a = Z.max pt1 pt1_2)%Z ∧ (pt1_2 + c = Z.max pt1 pt1_2)%Z ∧
       (pt1 + b = Z.min pt2 pt2_2)%Z ∧ (pt1_2 + d = Z.min pt2 pt2_2)%Z) ∧
  ((pt2 < pt1)%Z ∨ (pt2_2 < pt1_2)%Z →
     ∃ msg, intersects pt1 pt2 pt1_2 pt2_2 = Raise (AssertionError msg)).
Proof.
  unfold intersects, assert. split.
  - intros H1 H2. rewrite !bool_decide_true by done. cbn [mbind result_bind].
    do 4 eexists. split; [reflexivity|]. lia.
  - intros H. destruct (decide (pt1 ≤ pt2)%Z) as [H1|H1].
    + rewrite (bool_decide_true _ H1), bool_decide_false by lia. by eexists.
    + rewrite (bool_decide_false _ H1). by eexists.
Qed.

Lemma intersects_common_window_witness :
  ∃ a b c d, intersects (-1) 5 3 9 = Ok (a, b, c, d) ∧
       (0 ≤ a)%Z ∧ (0 ≤ c)%Z ∧
       (-1 + a = Z.max (-1) 3)%Z ∧ (3 + c = Z.max (-1) 3)%Z ∧
       (-1 + b = Z.min 5 9)%Z ∧ (3 + d = Z.min 5 9)%Z.
Proof.
  apply (proj1 (intersects_common_window (-1) 5 3 9)); lia.
Defined.

(** X5.  The two contributions of a boundary reach [stitcher] in whatever
    order the shuffle delivers them.  When their subvolume indices differ
    the order does not matter: the result, an exception included, is the
    same. *)
Theorem stitcher_arrival_order (touches : Z → Z → Z → Z → bool) (offsets : gmap N N)
    (key : N * N) (c1 c2 : Subvolume * ndarray) :
  sv_index c1.1 ≠ sv_index c2.1 →
  stitcher touches offsets (key, [c1; c2]) = stitcher touches offsets (key, [c2; c1]).
Proof.
  destruct c1 as [sv1 b1], c2 as [sv2 b2]. cbn [fst]. intros Hne. unfold stitcher.
  destruct (decide (sv_index sv2 < sv_index sv1)) as [Hlt|Hge].
  - rewrite (bool_decide_true (sv_index sv2 < sv_index sv1)) by done.
    rewrite (bool_decide_false (sv_index sv1 < sv_index sv2)) by lia. done.
  - rewrite (bool_decide_false (sv_index sv2 < sv_index sv1)) by done.
    rewrite (bool_decide_true (sv_index sv1 < sv_index sv2)) by lia. done.
Qed.

Lemma stitcher_arrival_order_witness :
  stitcher touches_faces {[0 := 0; 1 := 3]} ((0, 1), [(svA, cropA); (svB, cropB)])
  = stitcher touches_faces {[0 := 0; 1 := 3]} ((0, 1), [(svB, cropB); (svA, cropA)]).
Proof.
  apply (stitcher_arrival_order touches_faces {[0 := 0; 1 := 3]} (0, 1)
           (svA, cropA) (svB, cropB)).
  simpl. lia.
Defined.

(** X6.  The reconciliation loop merges exactly what the merge edges
    connect: two labels end with one common final label if and only if a
    chain of merge edges, followed in either direction, joins them.  In
    particular a label no edge mentions keeps its own label. *)
Theorem reconcile_merges_exactly_connected (merge_list : list (N * N)) :
  (∀ x y,
     Reconcile.apply_map (Reconcile.run merge_list).1 x
       = Reconcile.apply_map (Reconcile.run merge_list).1 y
     ↔ Reconcile.connected merge_list x y) ∧
  (∀ x, (∀ a b, (a, b) ∈ merge_list → a ≠ x ∧ b ≠ x) →
        Reconcile.apply_map (Reconcile.run merge_list).1 x = x).
Proof.
  split.
  - intros x y. apply run_connected.
  - apply apply_map_untouched.
Qed.









(** ** Overlap tables: both representations, both axes *)

Lemma view_int32_high n : 2 ^ 31 ≤ n mod 2 ^ 32 → (view_int32 n < 0)%Z.
Proof.
  intros Hn. unfold view_int32.
  pose proof (N.mod_upper_bound n (2 ^ 32)) as Hub.
  destruct (Z.ltb_spec (Z.of_N (n mod 2 ^ 32)) (2 ^ 31)); lia.
Qed.

(** X9.  What [contingency_table] refuses besides volumes of different
    sizes.  Two empty volumes are a [ValueError] in either mode.  In
    sparse mode a label whose 32-bit pattern has the top bit set, which
    the [int32] view reads as negative, is a [ValueError] too. *)
Theorem contingency_table_value_errors (vol1 vol2 : ndarray) :
  length (data vol1) = length (data vol2) →
  (data vol1 = [] →
     ∀ sparse, ∃ msg, contingency_table vol1 vol2 sparse = Raise (ValueError msg)) ∧
  (Exists (λ n, 2 ^ 31 ≤ n mod 2 ^ 32) (data vol1 ++ data vol2) →
     ∃ msg, contingency_table vol1 vol2 true = Raise (ValueError msg)).
Proof.
  intros Hlen. unfold contingency_table, assert.
  rewrite bool_decide_true by (by rewrite !length_fmap). cbn [mbind result_bind].
  split.
  - intros Hnil sparse. rewrite Hnil. cbn [fmap list_fmap].
    destruct sparse.
    + unfold coo_of_indices. rewrite bool_decide_true by (by left). by eexists.
    + unfold dense_of_indices. rewrite bool_decide_true by (by left). by eexists.
  - intros Hex. unfold coo_of_indices.
    case_bool_decide; [by eexists|].
    case_bool_decide; [by eexists|].
    rewrite bool_decide_true; [by eexists|].
    apply Exists_app in Hex as [Hex|Hex].
    + exfalso. match goal with H : ¬ Exists _ (view_int32 <$> data vol1) |- _ => apply H end.
      apply Exists_fmap. eapply Exists_impl; [exact Hex|]. intros n. apply view_int32_high.
    + apply Exists_fmap. eapply Exists_impl; [exact Hex|]. intros n. apply view_int32_high.
Qed.

Lemma contingency_table_value_errors_witness :
  ∃ msg, contingency_table {| shape := (1, 1, 2)%nat; data := [1; 4294967295] |}
                           {| shape := (1, 1, 2)%nat; data := [1; 1] |} true
         = Raise (ValueError msg).
Proof.
  apply (proj2 (contingency_table_value_errors
                  {| shape := (1, 1, 2)%nat; data := [1; 4294967295] |}
                  {| shape := (1, 1, 2)%nat; data := [1; 1] |} eq_refl)).
  apply Exists_cons_tl, Exists_cons_hd. vm_compute. discriminate.
Defined.

(** *** Column argmax *)

Lemma coo_get_transpose (es : list (N * N * N)) r c :
  coo_get ((λ e : N * N * N, (e.1.2, e.1.1, e.2)) <$> es) c r = coo_get es r c.
Proof.
  induction es as [|[[r0 c0] d0] es IH]; [done|].
  rewrite fmap_cons, !coo_get_cons, IH. cbn [fst snd].
  repeat case_decide; try done; congruence.
Qed.

Lemma table_get_transpose_sparse (m : coo_matrix) r c :
  table_get (transpose (Sparse m)) c r = table_get (Sparse m) r c.
Proof. apply coo_get_transpose. Qed.

(** The loop of [_sparse_row_argmax] finds the lowest column whenever the
    entries of one row are stored by increasing column. *)
Lemma sparse_row_argmax_sorted key (m : coo_matrix) :
  (∀ e1 e2 : N * N * N, key_lt key e1 e2 → e1.1.1 = e2.1.1 → e1.1.2 < e2.1.2) →
  StronglySorted (key_lt key) (coo_entries m) →
  Forall (λ e : N * N * N, (N.to_nat e.1.1 < (coo_shape m).1)%nat) (coo_entries m) →
  ∃ cols, row_argmax (Sparse m) = Ok cols ∧ length cols = (coo_shape m).1 ∧
    ∀ r c, cols !! r = Some c → lowest_argmax (Sparse m) (N.of_nat r) c.
Proof.
  intros Hkey Hsorted Hrows. cbn [row_argmax]. unfold _sparse_row_argmax.
  destruct (sparse_argmax_fold_inv (coo_shape m).1 (coo_entries m) []
              (replicate (coo_shape m).1 (0, 0))) as (st & -> & Hlen & Hinv).
  { by rewrite length_replicate. }
  { done. }
  { intros r mx col [[= -> ->] _]%lookup_replicate. split.
    - intros ? ? []%elem_of_nil.
    - by left. }
  cbn [mbind result_bind app] in *. exists (st.*2).
  split; [done|]. split; [by rewrite length_fmap|].
  intros r c Hc. rewrite list_lookup_fmap in Hc.
  destruct (st !! r) as [[mx col]|] eqn:Hst; [|done]. injection Hc as <-.
  destruct (Hinv _ _ _ Hst) as [Hmax Hfirst].
  unfold lowest_argmax, table_get.
  assert (Hle : ∀ c', coo_get (coo_entries m) (N.of_nat r) c' ≤ mx).
  { intros c'. destruct (coo_get_cases _ (coo_entries m) (N.of_nat r) c' Hsorted)
      as [[-> _]|(d & Hd & ->)]; [lia | by eapply Hmax]. }
  destruct Hfirst as [[-> ->]|(Hpos & pre & post & Hsplit & Hpre)].
  - assert (Hz : ∀ c', coo_get (coo_entries m) (N.of_nat r) c' = 0)
      by (intros c'; specialize (Hle c'); lia).
    split; [intros c'; rewrite !Hz; lia | intros c'; lia].
  - assert (Hget : coo_get (coo_entries m) (N.of_nat r) col = mx).
    { eapply coo_get_canonical; [done|]. rewrite Hsplit. apply elem_of_app. right. by left. }
    rewrite Hget. split; [done|].
    intros c' Hc'.
    destruct (coo_get_cases _ (coo_entries m) (N.of_nat r) c' Hsorted)
      as [[-> _]|(d & Hd & ->)]; [done|].
    rewrite Hsplit in Hd, Hsorted.
    apply elem_of_app in Hd as [Hd|Hd]; [by eapply Hpre|].
    apply StronglySorted_app_1_r, StronglySorted_cons in Hsorted as [Hall _].
    rewrite Forall_forall in Hall.
    apply elem_of_cons in Hd as [[= ->]|Hd]; [lia|].
    specialize (Hkey _ _ (Hall _ Hd) eq_refl). cbn in Hkey. lia.
Qed.

Lemma transpose_sorted (es : list (N * N * N)) :
  StronglySorted (key_lt prod_swap) es →
  StronglySorted (key_lt id) ((λ e : N * N * N, (e.1.2, e.1.1, e.2)) <$> es).
Proof.
  induction 1 as [|e es Hes IH Hall]; [constructor|].
  rewrite fmap_cons. constructor; [done|].
  rewrite Forall_fmap. eapply Forall_impl; [exact Hall|].
  intros [[r c] d]. destruct e as [[r0 c0] d0]. done.
Qed.

Lemma coo_of_indices_cols rows cols m :
  coo_of_indices rows cols = Ok m →
  Forall (λ e : N * N * N, (N.to_nat e.1.2 < (coo_shape m).2)%nat) (coo_entries m).
Proof.
  unfold coo_of_indices. repeat (case_bool_decide; [done|]). intros [= <-]. cbn.
  apply Forall_forall. intros e ([r c] & -> & Hin)%list_elem_of_fmap. cbn.
  apply elem_of_zip_r in Hin. pose proof (max_list_with_ge Z.to_nat cols c Hin). lia.
Qed.

Lemma sparse_column_argmax (m : coo_matrix) :
  Forall (λ e : N * N * N, (N.to_nat e.1.2 < (coo_shape m).2)%nat) (coo_entries m) →
  ∃ rows, matrix_argmax (Sparse (sum_duplicates m)) Axis0 = Ok rows ∧
    length rows = (coo_shape m).2 ∧
    ∀ c r, rows !! c = Some r →
      lowest_argmax_row (Sparse (sum_duplicates m)) (N.of_nat c) r.
Proof.
  intros Hcols. cbn [matrix_argmax].
  destruct (sparse_row_argmax_sorted id
              {| coo_shape := ((coo_shape m).2, (coo_shape m).1);
                 coo_entries := (λ e : N * N * N, (e.1.2, e.1.1, e.2))
                                <$> coo_entries (sum_duplicates m) |})
    as (rows & Hrows & Hlen & Hlow).
  - intros [[r1 c1] d1] [[r2 c2] d2]. unfold key_lt. rewrite lex_lt_spec. cbn.
    intros H ->. lia.
  - cbn [coo_entries]. apply transpose_sorted. cbn.
    apply foldr_sorted_insert_sorted. apply prod_swap_inj.
  - cbn [coo_entries coo_shape fst]. rewrite Forall_fmap. apply Forall_forall.
    intros x Hx. cbn in Hx.
    apply (elem_of_foldr_sorted_insert _ prod_swap_inj) in Hx as (x0 & Hx0 & Heq).
    cbn. rewrite Heq. rewrite Forall_forall in Hcols. by apply Hcols.
  - exists rows. split; [exact Hrows|]. split; [exact Hlen|].
    intros c r Hr. specialize (Hlow c r Hr). unfold lowest_argmax in Hlow.
    unfold lowest_argmax_row.
    assert (Hget : ∀ r', table_get (Sparse (sum_duplicates m)) r' (N.of_nat c)
              = table_get (Sparse {| coo_shape := ((coo_shape m).2, (coo_shape m).1);
                     coo_entries := (λ e : N * N * N, (e.1.2, e.1.1, e.2))
                                    <$> coo_entries (sum_duplicates m) |}) (N.of_nat c) r').
    { intros r'. cbn [table_get coo_entries]. by rewrite coo_get_transpose. }
    destruct Hlow as [Hmax Hfirst].
    split; [intros r' | intros r' Hr']; rewrite (Hget r'), (Hget r); auto.
Qed.

Lemma length_transpose_rows n rows : length (transpose_rows n rows) = n.
Proof. induction n as [|n IH]; [done|]. cbn. rewrite length_app, IH. cbn. lia. Qed.

Lemma transpose_rows_lookup n rows c :
  transpose_rows n rows !! c
  = if decide (c < n)%nat then Some ((λ row, nth c row 0) <$> rows) else None.
Proof.
  induction n as [|n IH]; cbn [transpose_rows].
  - by rewrite decide_False by lia.
  - destruct (decide (c < n)%nat) as [Hlt|Hge].
    + rewrite lookup_app_l by (by rewrite length_transpose_rows).
      rewrite IH. by rewrite decide_True by lia.
    + rewrite lookup_app_r by (rewrite length_transpose_rows; lia).
      rewrite length_transpose_rows.
      destruct (decide (c = n)) as [->|Hne].
      * rewrite Nat.sub_diag. cbn. by rewrite decide_True by lia.
      * rewrite decide_False by lia.
        destruct (c - n)%nat as [|k] eqn:E; [lia | done].
Qed.

Lemma table_get_transpose_dense n (rows : list (list N)) r c :
  Forall (λ row, length row = n) rows →
  table_get (Dense (transpose_rows n rows)) c r = table_get (Dense rows) r c.
Proof.
  intros Hrect. unfold table_get. rewrite transpose_rows_lookup.
  destruct (rows !! N.to_nat r) as [row|] eqn:Hrow; cbn.
  - case_decide as Hc; cbn.
    + rewrite list_lookup_fmap, Hrow. cbn. by rewrite nth_lookup.
    + rewrite Forall_forall in Hrect.
      specialize (Hrect row (list_elem_of_lookup_2 _ _ _ Hrow)).
      by rewrite (lookup_ge_None_2 row) by lia.
  - case_decide; cbn; [|done]. by rewrite list_lookup_fmap, Hrow.
Qed.

Lemma dense_column_argmax n (rows : list (list N)) :
  rows ≠ [] → Forall (λ row, length row = n) rows →
  ∃ rs, matrix_argmax (Dense rows) Axis0 = Ok rs ∧ length rs = n ∧
    ∀ c r, rs !! c = Some r → lowest_argmax_row (Dense rows) (N.of_nat c) r.
Proof.
  intros Hne Hrect. cbn [matrix_argmax transpose].
  assert (Hhd : length (hd [] rows) = n).
  { destruct rows as [|row rows]; [done|]. by apply Forall_cons in Hrect as [? _]. }
  rewrite Hhd.
  destruct (dense_row_argmax (transpose_rows n rows)) as (rs & Hrs & Hlen & Hlow).
  { apply Forall_forall. intros col [c Hc]%list_elem_of_lookup.
    rewrite transpose_rows_lookup in Hc. case_decide; [|done]. injection Hc as <-.
    by destruct rows. }
  exists rs. split; [exact Hrs|]. split; [by rewrite Hlen, length_transpose_rows|].
  intros c r Hr. specialize (Hlow c r Hr). unfold lowest_argmax in Hlow.
  unfold lowest_argmax_row.
  destruct Hlow as [Hmax Hfirst].
  split; [intros r' | intros r' Hr'];
    rewrite <- (table_get_transpose_dense n rows r') by done;
    rewrite <- (table_get_transpose_dense n rows r) by done; auto.
Qed.

Lemma foldM_add_at_length nrows ncols (pairs : list (Z * Z)) : ∀ t t',
  foldM (add_at nrows ncols) t pairs = Ok t' →
  length t' = length t ∧ (pairs ≠ [] → nrows ≠ 0%nat).
Proof.
  induction pairs as [|[r c] pairs IH]; intros t t'; cbn [foldM].
  - intros [= <-]. done.
  - intros (t1 & Ht1 & Hrest)%bind_Ok. unfold add_at in Ht1. cbn [fst snd] in Ht1.
    apply bind_Ok in Ht1 as (r' & Hr' & (c' & _ & [= <-])%bind_Ok).
    destruct (IH _ _ Hrest) as [Hlen _]. rewrite length_alter in Hlen.
    split; [done|]. intros _ ->. unfold dense_index in Hr'.
    rewrite !bool_decide_false in Hr' by lia. done.
Qed.

(** What a successful dense construction returned: a rectangular array
    with at least one row and one column. *)
Lemma contingency_table_dense_inv (vol1 vol2 : ndarray) t :
  contingency_table vol1 vol2 false = Ok t →
  ∃ rows, t = Dense rows ∧ rows ≠ [] ∧
    length rows = Z.to_nat (max_Z (view_int32 <$> data vol1) + 1) ∧
    Forall (λ row, length row = Z.to_nat (max_Z (view_int32 <$> data vol2) + 1)) rows ∧
    Z.to_nat (max_Z (view_int32 <$> data vol2) + 1) ≠ 0%nat.
Proof.
  unfold contingency_table.
  intros ([] & _ & (rows & Hrows & [= <-])%bind_Ok)%bind_Ok.
  unfold dense_of_indices in Hrows.
  case_bool_decide as Hnil; [done|]. case_bool_decide; [done|].
  assert (Hpairs : zip (view_int32 <$> data vol1) (view_int32 <$> data vol2) ≠ []).
  { destruct (view_int32 <$> data vol1), (view_int32 <$> data vol2);
      cbn; try done; exfalso; apply Hnil; auto. }
  pose proof (foldM_add_at_length _ _ _ _ _ Hrows) as [Hlen Hnr].
  rewrite length_replicate in Hlen.
  apply foldM_add_at_shape in Hrows as [Hrect Hnc].
  2: { apply Forall_forall. intros row [-> _]%elem_of_replicate. apply length_replicate. }
  exists rows. split_and!; [done | | done | done | by apply Hnc].
  intros ->. cbn in Hlen. by apply Hnr.
Qed.

Lemma contingency_table_column_argmax (vol1 vol2 : ndarray) (sparse : bool) (t : table) :
  contingency_table vol1 vol2 sparse = Ok t →
  ∃ rows, matrix_argmax t Axis0 = Ok rows ∧ length rows = table_cols t ∧
    ∀ c r, rows !! c = Some r → lowest_argmax_row t (N.of_nat c) r.
Proof.
  destruct sparse.
  - unfold contingency_table.
    intros ([] & _ & (m & Hm & [= <-])%bind_Ok)%bind_Ok.
    by apply sparse_column_argmax, (coo_of_indices_cols _ _ _ Hm).
  - intros (rows & -> & Hne & _ & Hrect & _)%contingency_table_dense_inv.
    destruct (dense_column_argmax _ rows Hne Hrect) as (rs & Hrs & Hlen & Hlow).
    exists rs. split_and!; [done | | done]. rewrite Hlen. cbn.
    destruct rows as [|row rows]; [done|]. apply Forall_cons in Hrect as [Hrow _].
    cbn. congruence.
Qed.

(** X11.  [matrix_argmax] along axis 0, on any overlap table that
    [contingency_table] built, dense or sparse: it returns one entry per
    column, the row holding the column's maximum count, and the lowest
    such row when several hold it. *)
Theorem matrix_argmax_axis0_lowest_row (vol1 vol2 : ndarray) (sparse : bool) (t : table) :
  contingency_table vol1 vol2 sparse = Ok t →
  ∃ rows, matrix_argmax t Axis0 = Ok rows ∧ length rows = table_cols t ∧
    ∀ c r, rows !! c = Some r → lowest_argmax_row t (N.of_nat c) r.
Proof. apply contingency_table_column_argmax. Qed.

Lemma matrix_argmax_axis0_lowest_row_witness :
  ∃ rows, matrix_argmax (Sparse {| coo_shape := (2, 3)%nat;
                                   coo_entries := [(1, 1, 2); (1, 2, 2)] |}) Axis0 = Ok rows ∧
    length rows = 3%nat ∧
    ∀ c r, rows !! c = Some r →
      lowest_argmax_row (Sparse {| coo_shape := (2, 3)%nat;
                                   coo_entries := [(1, 1, 2); (1, 2, 2)] |}) (N.of_nat c) r.
Proof.
  apply (matrix_argmax_axis0_lowest_row tie_volume1 tie_volume2 true).
  vm_compute. reflexivity.
Defined.

(** *** The two representations agree *)

Lemma lowest_argmax_unique (t t' : table) r c c' :
  (∀ r c, table_get t r c = table_get t' r c) →
  lowest_argmax t r c → lowest_argmax t' r c' → c = c'.
Proof.
  intros Hget [Hmax Hlow] [Hmax' Hlow'].
  destruct (N.lt_trichotomy c c') as [Hlt|[->|Hgt]]; [| done |].
  - specialize (Hlow' c Hlt). specialize (Hmax c'). rewrite !Hget in Hmax. lia.
  - specialize (Hlow c' Hgt). specialize (Hmax' c). rewrite !Hget in Hlow. lia.
Qed.

Lemma lowest_argmax_row_unique (t t' : table) c r r' :
  (∀ r c, table_get t r c = table_get t' r c) →
  lowest_argmax_row t c r → lowest_argmax_row t' c r' → r = r'.
Proof.
  intros Hget [Hmax Hlow] [Hmax' Hlow'].
  destruct (N.lt_trichotomy r r') as [Hlt|[->|Hgt]]; [| done |].
  - specialize (Hlow' r Hlt). specialize (Hmax r'). rewrite !Hget in Hmax. lia.
  - specialize (Hlow r' Hgt). specialize (Hmax' r). rewrite !Hget in Hlow. lia.
Qed.

Lemma foldr_max_of_N (l : list N) (d : Z) :
  (0 ≤ d)%Z →
  foldr Z.max d (Z.of_N <$> l) = Z.max d (Z.of_nat (max_list_with N.to_nat l)).
Proof.
  intros Hd. induction l as [|x l IH]; [cbn; lia|].
  rewrite fmap_cons. cbn [foldr]. rewrite IH.
  change (max_list_with N.to_nat (x :: l))
    with (N.to_nat x `max` max_list_with N.to_nat l)%nat. lia.
Qed.

Lemma max_Z_of_N (l : list N) :
  l ≠ [] → max_Z (Z.of_N <$> l) = Z.of_nat (max_list_with N.to_nat l).
Proof.
  destruct l as [|x l]; [done|]. intros _. unfold max_Z.
  rewrite foldr_max_of_N by (cbn; lia).
  change (max_list_with N.to_nat (x :: l))
    with (N.to_nat x `max` max_list_with N.to_nat l)%nat. cbn [hd fmap list_fmap]. lia.
Qed.

(** X10.  The dense and the sparse overlap table are two representations
    of one array.  Whenever the sparse table of two [uint32] volumes can
    be built, so can the dense one; both have the same numbers of rows and
    columns and the same count at every position, and [matrix_argmax]
    returns the same indices on both, along either axis. *)
Theorem contingency_table_modes_agree (vol1 vol2 : ndarray) (ts : table) :
  uint32_array vol1 → uint32_array vol2 →
  contingency_table vol1 vol2 true = Ok ts →
  ∃ td, contingency_table vol1 vol2 false = Ok td ∧
    table_rows td = table_rows ts ∧ table_cols td = table_cols ts ∧
    (∀ r c, table_get td r c = table_get ts r c) ∧
    (∀ ax, matrix_argmax td ax = matrix_argmax ts ax).
Proof.
  intros H1 H2 Hts.
  destruct (contingency_table_sparse_inv _ _ _ H1 H2 Hts) as (Hlen & Hne & H31a & H31b & Ets).
  destruct (contingency_table_counts vol1 vol2 false Hlen Hne H31a H31b) as (td & Htd & Hcd).
  destruct (contingency_table_counts vol1 vol2 true Hlen Hne H31a H31b) as (ts' & Hts' & Hcs).
  assert (ts' = ts) as -> by congruence.
  assert (Hget : ∀ r c, table_get td r c = table_get ts r c).
  { intros r c. by rewrite Hcd, Hcs. }
  assert (Hv : ∀ l, Forall (λ n, n < 2 ^ 31) l → view_int32 <$> l = Z.of_N <$> l).
  { intros l Hl. apply list_fmap_ext. intros i n Hn. apply view_int32_small.
    rewrite Forall_forall in Hl. apply Hl. by eapply list_elem_of_lookup_2. }
  assert (Hne2 : data vol2 ≠ []).
  { intros E. rewrite E in Hlen. by destruct (data vol1). }
  destruct (contingency_table_dense_inv _ _ _ Htd) as (rows & -> & Hrne & Hrl & Hrect & _).
  rewrite Hv, max_Z_of_N in Hrl by done.
  assert (Hrect' : Forall (λ row : list N,
             length row = S (max_list_with N.to_nat (data vol2))) rows).
  { eapply Forall_impl; [exact Hrect|]. intros row ->.
    rewrite Hv, max_Z_of_N by done. lia. }
  assert (Hrows : table_rows (Dense rows) = table_rows ts).
  { rewrite Ets. cbn. lia. }
  assert (Hcols : table_cols (Dense rows) = table_cols ts).
  { rewrite Ets. cbn. destruct rows as [|row rows]; [done|].
    apply Forall_cons in Hrect' as [Hrow _]. cbn. congruence. }
  exists (Dense rows). split_and!; [done..|].
  intros [|].
  - destruct (contingency_table_column_argmax _ _ _ _ Htd) as (rd & -> & Hld & Hlowd).
    destruct (contingency_table_column_argmax _ _ _ _ Hts) as (rs & -> & Hls & Hlows).
    f_equal. apply list_eq_same_length with (length rd); [congruence | done |].
    intros i x y _ Hx Hy. eapply lowest_argmax_row_unique; [exact Hget | eauto..].
  - cbn [matrix_argmax].
    destruct (dense_row_argmax rows) as (cd & -> & Hld & Hlowd).
    { by apply (contingency_table_wf _ _ _ _ Htd). }
    pose proof (contingency_table_wf _ _ _ _ Hts) as Hwf.
    destruct ts as [?|m]; [by rewrite Ets in *|].
    destruct (sparse_row_argmax m Hwf) as (cs & -> & Hls & Hlows).
    f_equal. apply list_eq_same_length with (length cd); [| done |].
    { cbn in Hrows. congruence. }
    intros i x y _ Hx Hy. eapply lowest_argmax_unique; [exact Hget | eauto..].
Qed.

Lemma contingency_table_modes_agree_witness :
  ∃ td, contingency_table tie_volume1 tie_volume2 false = Ok td ∧
    table_rows td = 2%nat ∧ table_cols td = 3%nat ∧
    (∀ r c, table_get td r c
            = table_get (Sparse {| coo_shape := (2, 3)%nat;
                                   coo_entries := [(1, 1, 2); (1, 2, 2)] |}) r c) ∧
    (∀ ax, matrix_argmax td ax
           = matrix_argmax (Sparse {| coo_shape := (2, 3)%nat;
                                      coo_entries := [(1, 1, 2); (1, 2, 2)] |}) ax).
Proof.
  apply (contingency_table_modes_agree tie_volume1 tie_volume2
           (Sparse {| coo_shape := (2, 3)%nat; coo_entries := [(1, 1, 2); (1, 2, 2)] |})).
  - unfold uint32_array. cbn. repeat constructor.
  - unfold uint32_array. cbn. repeat constructor.
  - vm_compute. reflexivity.
Defined.


(** ** The pairwise stage: what [stitcher] emits *)

Lemma assoc_get_set {V} k (v : V) d k' :
  assoc_get k' (assoc_set k v d) = if decide (k' = k) then Some v else assoc_get k' d.
Proof.
  induction d as [|[k0 v0] d IH]; cbn.
  - by destruct (decide (k' = k)).
  - destruct (decide (k = k0)) as [->|Hne]; cbn.
    + by destruct (decide (k' = k0)).
    + destruct (decide (k' = k0)) as [->|Hne'].
      * by rewrite decide_False by done.
      * done.
Qed.

Lemma assoc_get_is_Some {V} k (d : list (N * V)) : is_Some (assoc_get k d) ↔ k ∈ d.*1.
Proof.
  induction d as [|[k0 v0] d IH]; cbn.
  - split; [by intros [? ?] | by intros ?%elem_of_nil].
  - destruct (decide (k = k0)) as [->|Hne].
    + split; [intros _; by left | eauto].
    + rewrite IH. split; [by right | by intros [?|?]%elem_of_cons].
Qed.

Lemma assoc_get_NoDup {V} k (v : V) d :
  NoDup d.*1 → (k, v) ∈ d → assoc_get k d = Some v.
Proof.
  induction d as [|[k0 v0] d IH]; [by intros _ ?%elem_of_nil|].
  cbn. intros [Hk0 Hnd]%NoDup_cons [[= -> ->]|Hin]%elem_of_cons.
  - by rewrite decide_True.
  - rewrite decide_False; [by apply IH|].
    intros ->. apply Hk0. apply list_elem_of_fmap. by exists (k0, v).
Qed.

Lemma NoDup_assoc_set {V} k (v : V) d : NoDup d.*1 → NoDup (assoc_set k v d).*1.
Proof.
  induction d as [|[k0 v0] d IH]; cbn.
  - intros _. apply NoDup_singleton.
  - intros [Hk0 Hnd]%NoDup_cons. destruct (decide (k = k0)) as [->|Hne]; cbn.
    + by apply NoDup_cons.
    + apply NoDup_cons. split; [|by apply IH].
      intros Hin. apply assoc_get_is_Some in Hin. rewrite assoc_get_set in Hin.
      rewrite decide_False in Hin by done. by apply Hk0, assoc_get_is_Some.
Qed.

Lemma occurrences_snoc p seen q :
  occurrences p (seen ++ [q]) = occurrences p seen + (if decide (q = p) then 1 else 0).
Proof.
  unfold occurrences. rewrite filter_app, length_app, filter_cons, filter_nil.
  case_decide; cbn [length]; lia.
Qed.

Lemma occurrences_pos p seen : 0 < occurrences p seen ↔ p ∈ seen.
Proof.
  unfold occurrences. split.
  - intros H. destruct (filter (λ q, q = p) seen) as [|q l] eqn:E; [cbn in H; lia|].
    assert (Hq : q ∈ filter (λ q, q = p) seen) by (rewrite E; by left).
    apply list_elem_of_filter in Hq as [-> ?]. done.
  - intros Hin. assert (Hp : p ∈ filter (λ q, q = p) seen) by (by apply list_elem_of_filter).
    destruct (filter (λ q, q = p) seen); [by apply elem_of_nil in Hp | cbn; lia].
Qed.

(** The dict the traversal starts from. *)
Lemma initial_dict_inv (labels2 : list N) :
  overlap_inv labels2 []
    (foldl (λ d body, if bool_decide (body = 0) then d else assoc_set body [] d)
           [] (unique labels2)).
Proof.
  assert (H : ∀ (l : list N) (d : list (N * list (N * N))),
            NoDup d.*1 →
            (∀ k bd, assoc_get k d = Some bd → bd = []) →
            let d' := foldl (λ d body, if bool_decide (body = 0) then d
                                       else assoc_set body [] d) d l in
            NoDup d'.*1 ∧
            (∀ k bd, assoc_get k d' = Some bd → bd = []) ∧
            (∀ k, is_Some (assoc_get k d') ↔ (k ≠ 0 ∧ k ∈ l) ∨ is_Some (assoc_get k d))).
  { induction l as [|x l IH]; intros d Hnd Hnil; cbn [foldl].
    - split_and!; [done..|]. intros k. split; [by right|].
      by intros [[_ ?%elem_of_nil]|?].
    - case_bool_decide as Hx.
      + destruct (IH d Hnd Hnil) as (H1 & H2 & H3). split_and!; [done..|].
        intros k. rewrite H3. split.
        * intros [[? ?]|?]; [left; split; [done | by right] | by right].
        * intros [[? [->|?]%elem_of_cons]|?]; [done | left; by split | by right].
      + destruct (IH (assoc_set x [] d)) as (H1 & H2 & H3).
        { by apply NoDup_assoc_set. }
        { intros k bd. rewrite assoc_get_set. case_decide; [by intros [= <-] | apply Hnil]. }
        split_and!; [done..|]. intros k. rewrite H3, assoc_get_set. split.
        * intros [[? ?]|Hk]; [left; split; [done | by right]|].
          case_decide as Hkx; [left; subst; split; [done | by left] | by right].
        * intros [[? [->|?]%elem_of_cons]|?].
          -- right. rewrite decide_True by done. eauto.
          -- left. by split.
          -- right. case_decide; eauto. }
  destruct (H (unique labels2) []) as (H1 & H2 & H3).
  { constructor. }
  { by intros k bd [=]. }
  split_and!; [done | |].
  - intros k. rewrite H3, elem_of_unique. split; [|by left].
    intros [?|[? [=]]]; done.
  - intros body2 bodydict Hget. rewrite (H2 _ _ Hget). split; [constructor|].
    intros body1. cbn. rewrite decide_False; [done|].
    intros [_ Hpos]. unfold occurrences in Hpos. cbn in Hpos. lia.
Qed.

(** One voxel pair keeps the invariant, and is never a [KeyError]. *)
Lemma count_overlap_inv (labels2 : list N) seen d body1 body2 :
  body2 ∈ labels2 → overlap_inv labels2 seen d →
  ∃ d', count_overlap d (body1, body2) = Ok d' ∧
        overlap_inv labels2 (seen ++ [(body1, body2)]) d'.
Proof.
  intros Hin (Hnd & Hkeys & Hcnt). unfold count_overlap.
  case_bool_decide as Hz.
  - exists d. split; [done|]. split_and!; [done..|].
    intros b2 bd Hget. destruct (Hcnt _ _ Hget) as [Hnd' Hbd]. split; [done|].
    intros b1. rewrite Hbd, occurrences_snoc.
    assert (Hb2 : b2 ≠ 0).
    { apply (Hkeys b2). by rewrite Hget. }
    destruct (decide ((body1, body2) = (b1, b2))) as [[= -> ->]|Hne].
    + destruct Hz as [?|?]; [done|]. subst.
      rewrite !decide_False; [done | tauto | tauto].
    + by rewrite N.add_0_r.
  - assert (Hb2 : body2 ≠ 0) by tauto. assert (Hb1 : body1 ≠ 0) by tauto.
    destruct (proj2 (Hkeys body2) (conj Hb2 Hin)) as [bodydict Hget].
    rewrite Hget. cbn [of_option mbind result_bind].
    destruct (Hcnt _ _ Hget) as [Hndbd Hbd].
    set (occ := occurrences (body1, body2) seen).
    set (bodydict' := match assoc_get body1 bodydict with
                      | Some _ => bodydict
                      | None => assoc_set body1 0 bodydict
                      end).
    assert (Hget1 : assoc_get body1 bodydict' = Some occ).
    { unfold bodydict'. destruct (assoc_get body1 bodydict) as [c|] eqn:E.
      - rewrite E. rewrite Hbd in E. fold occ in E. by case_decide.
      - rewrite assoc_get_set, decide_True by done. rewrite Hbd in E. fold occ in E.
        case_decide as Hd; [done|]. f_equal. lia. }
    assert (Hother : ∀ b1, b1 ≠ body1 → assoc_get b1 bodydict' = assoc_get b1 bodydict).
    { intros b1 Hne. unfold bodydict'. destruct (assoc_get body1 bodydict); [done|].
      rewrite assoc_get_set. by rewrite decide_False. }
    assert (Hnd' : NoDup bodydict'.*1).
    { unfold bodydict'. destruct (assoc_get body1 bodydict); [done|].
      by apply NoDup_assoc_set. }
    rewrite Hget1. cbn [of_option mbind result_bind].
    eexists. split; [reflexivity|]. split_and!.
    + by apply NoDup_assoc_set.
    + intros k. rewrite assoc_get_set. case_decide as Hk; [|apply Hkeys].
      subst. split; [done | eauto].
    + intros b2 bd. rewrite assoc_get_set. case_decide as Hk.
      * subst b2. intros [= <-]. split; [by apply NoDup_assoc_set|].
        intros b1. rewrite assoc_get_set, occurrences_snoc.
        destruct (decide (b1 = body1)) as [->|Hne].
        -- rewrite (decide_True (P := (body1, body2) = (body1, body2))) by done.
           fold occ. by rewrite decide_True by (split; [done | lia]).
        -- rewrite (decide_False (P := (body1, body2) = (b1, body2))) by congruence.
           rewrite N.add_0_r. rewrite Hother by done. apply Hbd.
      * intros Hgetb. destruct (Hcnt _ _ Hgetb) as [? Hbdb]. split; [done|].
        intros b1. rewrite Hbdb, occurrences_snoc.
        rewrite (decide_False (P := (body1, body2) = (b1, b2))) by congruence.
        by rewrite N.add_0_r.
Qed.

Lemma foldM_count_overlap_inv (labels2 : list N) (pairs : list (N * N)) : ∀ seen d,
  (∀ p, p ∈ pairs → p.2 ∈ labels2) → overlap_inv labels2 seen d →
  ∃ d', foldM count_overlap d pairs = Ok d' ∧ overlap_inv labels2 (seen ++ pairs) d'.
Proof.
  induction pairs as [|[b1 b2] pairs IH]; intros seen d Hpairs Hinv; cbn [foldM].
  - exists d. by rewrite app_nil_r.
  - destruct (count_overlap_inv labels2 seen d b1 b2) as (d1 & -> & Hinv1);
      [apply (Hpairs (b1, b2)); by left | done |].
    cbn [mbind result_bind].
    destruct (IH (seen ++ [(b1, b2)]) d1) as (d' & -> & Hinv');
      [intros p Hp; apply Hpairs; by right | done |].
    exists d'. split; [done|]. by rewrite <- app_assoc in Hinv'.
Qed.

Ltac nonempty_branch H :=
  match type of H with
  | _ ∈ (if ?b then _ else _) => destruct b eqn:?; [|by apply elem_of_nil in H]
  end.

(** The merge list read off the final dict: every overlapping pair of
    foreground labels whose second label is eligible, once. *)
Lemma merge_list_spec (labels2 : list N) (pairs : list (N * N)) (eligible : gset N)
    (d : list (N * list (N * N))) :
  (∀ p, p ∈ pairs → p.2 ∈ labels2) →
  overlap_inv labels2 pairs d →
  let merge_list :=
    '(body2, bodydict) ← d;
    if bool_decide (body2 ∈ eligible)
    then '(body1, val) ← bodydict;
         if bool_decide (0 < val) then [(body1, body2)] else []
    else [] in
  NoDup merge_list ∧
  ∀ body1 body2, (body1, body2) ∈ merge_list ↔
    body1 ≠ 0 ∧ body2 ≠ 0 ∧ (body1, body2) ∈ pairs ∧ body2 ∈ eligible.
Proof.
  intros Hpairs (Hnd & Hkeys & Hcnt) merge_list. split.
  - apply NoDup_bind.
    + intros [b2 bd] [b2' bd'] [x y] Hin Hin' Hx Hx'. cbn beta iota in Hx, Hx'.
      nonempty_branch Hx. nonempty_branch Hx'.
      apply list_elem_of_bind in Hx as ([b1 v] & Hx & _).
      apply list_elem_of_bind in Hx' as ([b1' v'] & Hx' & _).
      cbn beta iota in Hx, Hx'. nonempty_branch Hx. nonempty_branch Hx'.
      apply list_elem_of_singleton in Hx as [= -> ->].
      apply list_elem_of_singleton in Hx' as [= _ ->].
      pose proof (assoc_get_NoDup _ _ _ Hnd Hin) as H1.
      pose proof (assoc_get_NoDup _ _ _ Hnd Hin') as H2. congruence.
    + intros [b2 bd] Hin. cbn beta iota.
      destruct (bool_decide (b2 ∈ eligible)); [|constructor].
      pose proof (assoc_get_NoDup _ _ _ Hnd Hin) as Hget.
      destruct (Hcnt _ _ Hget) as [Hndbd _].
      apply NoDup_bind.
      * intros [b1 v] [b1' v'] [x y] Hi Hi' Hx Hx'. cbn beta iota in Hx, Hx'.
        nonempty_branch Hx. nonempty_branch Hx'.
        apply list_elem_of_singleton in Hx as [= -> _].
        apply list_elem_of_singleton in Hx' as [= -> _].
        pose proof (assoc_get_NoDup _ _ _ Hndbd Hi) as H1.
        pose proof (assoc_get_NoDup _ _ _ Hndbd Hi') as H2. congruence.
      * intros [b1 v] _. cbn beta iota.
        destruct (bool_decide (0 < v)); [apply NoDup_singleton | constructor].
      * by apply NoDup_fmap_1 with fst.
    + by apply NoDup_fmap_1 with fst.
  - intros body1 body2. unfold merge_list. rewrite list_elem_of_bind. split.
    + intros ([b2 bd] & Hx & Hin). cbn beta iota in Hx.
      destruct (bool_decide (b2 ∈ eligible)) eqn:Hel; [|by apply elem_of_nil in Hx].
      apply bool_decide_eq_true in Hel.
      apply list_elem_of_bind in Hx as ([b1 v] & Hx & Hi). cbn beta iota in Hx.
      nonempty_branch Hx.
      apply list_elem_of_singleton in Hx as [= -> ->].
      pose proof (assoc_get_NoDup _ _ _ Hnd Hin) as Hget.
      destruct (Hcnt _ _ Hget) as [Hndbd Hbd].
      pose proof (assoc_get_NoDup _ _ _ Hndbd Hi) as Hget1. rewrite Hbd in Hget1.
      case_decide as Hd; [|done]. destruct Hd as [Hb1 Hpos].
      assert (Hb2 : b2 ≠ 0) by (apply (Hkeys b2); by rewrite Hget).
      split_and!; [done | done | by apply occurrences_pos | done].
    + intros (Hb1 & Hb2 & Hin & Hel).
      destruct (proj2 (Hkeys body2) (conj Hb2 (Hpairs _ Hin))) as [bd Hget].
      exists (body2, bd). split; [|by apply assoc_get_elem_of]. cbn beta iota.
      rewrite bool_decide_true by done.
      destruct (Hcnt _ _ Hget) as [_ Hbd]. specialize (Hbd body1).
      rewrite decide_True in Hbd by (split; [done | by apply occurrences_pos]).
      apply list_elem_of_bind. exists (body1, occurrences (body1, body2) pairs).
      split; [|by apply assoc_get_elem_of]. cbn beta iota.
      rewrite bool_decide_true by (by apply occurrences_pos). by left.
Qed.

(** [stitcher] past its two checks: it returns, and its merge list is the
    list of overlapping foreground pairs whose second label shows in the
    slab, each once, shifted by the two offsets. *)
Lemma stitcher_merge_list_spec (offsets : gmap N N) sv1 sv2 b1 b2 zr yr xr off1 off2 :
  offsets !! sv_index sv1 = Some off1 → offsets !! sv_index sv2 = Some off2 →
  ∃ edges, stitcher_merge_list offsets sv1 sv2 b1 b2 zr yr xr = Ok (sv_index sv1, edges) ∧
    NoDup edges ∧
    ∀ a b, (a, b) ∈ edges ↔
      ∃ body1 body2, a = body1 + off1 ∧ b = body2 + off2 ∧ body1 ≠ 0 ∧ body2 ≠ 0 ∧
        (body1, body2) ∈ zip (data b1) (data b2) ∧
        body2 ∈ data (slice3 b2 (Z.of_nat zr.1, Z.of_nat zr.2)
                             (Z.of_nat yr.1, Z.of_nat yr.2) (Z.of_nat xr.1, Z.of_nat xr.2)).
Proof.
  intros Ho1 Ho2. unfold stitcher_merge_list.
  assert (Hpairs : ∀ p, p ∈ zip (data b1) (data b2) → p.2 ∈ data b2).
  { intros [x y] H. by apply elem_of_zip_r in H. }
  destruct (foldM_count_overlap_inv (data b2) (zip (data b1) (data b2)) [] _ Hpairs
              (initial_dict_inv (data b2))) as (d & -> & Hinv).
  cbn [mbind result_bind app] in *. rewrite Ho1, Ho2. cbn [of_option mbind result_bind].
  eexists. split; [reflexivity|].
  destruct (merge_list_spec (data b2) _
              (list_to_set (unique (data (slice3 b2 (Z.of_nat zr.1, Z.of_nat zr.2)
                 (Z.of_nat yr.1, Z.of_nat yr.2) (Z.of_nat xr.1, Z.of_nat xr.2)))))
              d Hpairs Hinv) as [Hnd Hmem].
  split.
  - apply NoDup_fmap_2; [|exact Hnd].
    intros [x y] [x' y']. cbn. intros [= Hx Hy]. f_equal; lia.
  - intros a b. rewrite list_elem_of_fmap. split.
    + intros ([body1 body2] & [= -> ->] & Hin). apply Hmem in Hin as (? & ? & ? & Hel).
      exists body1, body2. split_and!; [done..|].
      by rewrite elem_of_list_to_set, elem_of_unique in Hel.
    + intros (body1 & body2 & -> & -> & ? & ? & ? & Hel).
      exists (body1, body2). split; [done|]. apply Hmem. split_and!; [done..|].
      by rewrite elem_of_list_to_set, elem_of_unique.
Qed.


(** X12.  [stitcher] fails only on a malformed group.  Provided the offset
    dict knows the subvolumes of the group, it returns a merge list exactly
    when the group holds two contributions of one shape; the traversal
    itself never raises a [KeyError]. *)
Theorem stitcher_succeeds_iff_well_formed (touches : Z → Z → Z → Z → bool)
    (offsets : gmap N N) (key : N * N) (group : list (Subvolume * ndarray)) :
  (∀ c, c ∈ group → is_Some (offsets !! sv_index c.1)) →
  (∃ r, stitcher touches offsets (key, group) = Ok r)
  ↔ ∃ c1 c2, group = [c1; c2] ∧ shape c1.2 = shape c2.2.
Proof.
  intros Hoff. split.
  - intros [r Hr].
    destruct (decide (length group = 2%nat)) as [Hlen|Hlen].
    + destruct group as [|c1 [|c2 [|c3 group]]]; try done.
      exists c1, c2. split; [done|].
      destruct (decide (shape c1.2 = shape c2.2)) as [|Hne]; [done|].
      destruct (stitcher_malformed touches offsets key [c1; c2]) as [msg Hmsg].
      { right. destruct c1 as [sv1 b1], c2 as [sv2 b2]. by exists sv1, b1, sv2, b2. }
      congruence.
    + destruct (stitcher_malformed touches offsets key group) as [msg Hmsg]; [by left|].
      congruence.
  - intros ([sv1 b1] & [sv2 b2] & -> & Hshape). cbn [snd] in Hshape.
    destruct (Hoff (sv1, b1)) as [off1 Ho1]; [by left|].
    destruct (Hoff (sv2, b2)) as [off2 Ho2]; [right; by left|].
    cbn [fst] in Ho1, Ho2. unfold stitcher.
    case_bool_decide.
    + rewrite bool_decide_false by (intros ?; congruence).
      destruct (shape b2) as [[sz sy] sx].
      edestruct (stitcher_merge_list_spec offsets sv2 sv1 b2 b1) as (edges & -> & _);
        [done..|]. by eexists.
    + rewrite bool_decide_false by (intros ?; congruence).
      destruct (shape b1) as [[sz sy] sx].
      edestruct (stitcher_merge_list_spec offsets sv1 sv2 b1 b2) as (edges & -> & _);
        [done..|]. by eexists.
Qed.

Lemma stitcher_succeeds_iff_well_formed_witness :
  (∃ r, stitcher touches_faces {[0 := 0; 1 := 3]} ((0, 1), [(svA, cropA); (svB, cropB)]) = Ok r)
  ↔ ∃ c1 c2, [(svA, cropA); (svB, cropB)] = [c1; c2] ∧ shape c1.2 = shape c2.2.
Proof.
  apply (stitcher_succeeds_iff_well_formed touches_faces {[0 := 0; 1 := 3]} (0, 1)
           [(svA, cropA); (svB, cropB)]).
  intros c Hc. apply elem_of_cons in Hc as [->|Hc]; [vm_compute; eauto|].
  apply list_elem_of_singleton in Hc as ->. vm_compute. eauto.
Defined.




(** ** Boundary extraction *)

Lemma slice_bound_inside (n : nat) (i : Z) :
  (0 ≤ i ≤ Z.of_nat n)%Z → slice_bound n i = Z.to_nat i.
Proof.
  intros Hi. unfold slice_bound. destruct (Z.ltb_spec i 0); [lia|]. lia.
Qed.

Lemma length_slice_range (n : nat) (start stop : Z) :
  (0 ≤ start ≤ stop)%Z → (stop ≤ Z.of_nat n)%Z →
  length (slice_range n start stop) = Z.to_nat (stop - start).
Proof.
  intros H1 H2. unfold slice_range.
  rewrite length_seq, !slice_bound_inside by lia. lia.
Qed.

Lemma shape_slice3 (a : ndarray) nz ny nx (zr yr xr : Z * Z) :
  shape a = (nz, ny, nx) →
  shape (slice3 a zr yr xr)
  = (length (slice_range nz zr.1 zr.2), length (slice_range ny yr.1 yr.2),
     length (slice_range nx xr.1 xr.2)).
Proof. intros Hs. unfold slice3. by rewrite Hs. Qed.

Lemma intersects_Ok (pt1 pt2 pt1_2 pt2_2 : Z) :
  (pt1 ≤ pt2)%Z → (pt1_2 ≤ pt2_2)%Z →
  intersects pt1 pt2 pt1_2 pt2_2
  = Ok ((Z.max pt1 pt1_2 - pt1)%Z,
        (Z.max pt1 pt1_2 - pt1 + (Z.min pt2 pt2_2 - Z.max pt1 pt1_2))%Z,
        (Z.max pt1 pt1_2 - pt1_2)%Z,
        (Z.max pt1 pt1_2 - pt1_2 + (Z.min pt2 pt2_2 - Z.max pt1 pt1_2))%Z).
Proof.
  intros H1 H2. unfold intersects, assert. by rewrite !bool_decide_true by done.
Qed.

Lemma overlap_length_sym (b lo1 hi1 lo2 hi2 : Z) :
  overlap_length b lo1 hi1 lo2 hi2 = overlap_length b lo2 hi2 lo1 hi1.
Proof. unfold overlap_length. by rewrite Z.min_comm, Z.max_comm. Qed.

(** X14.  For a subvolume read with its full border whose listed partners
    all meet its box, [extract_boundaries] cannot fail.  It emits one
    entry per partner, in order, under the key (smaller index, larger
    index), carrying the subvolume itself and a crop whose shape is the
    region the two bordered boxes share.  That shape is the same seen from
    either side, so the two crops that meet under one key in [stitcher]
    pass its shape check. *)
Theorem extract_boundaries_crops_shared_region (sv : Subvolume) (labels : ndarray) :
  (0 ≤ border sv)%Z →
  shape labels = full_shape sv →
  Forall (λ partner : N * box, boxes_meet (border sv) (sv_box sv) partner.2)
         (local_regions sv) →
  (∃ out, extract_boundaries (sv, labels) = Ok out ∧
     Forall2 (λ (partner : N * box) (entry : (N * N) * (Subvolume * ndarray)),
                entry.1 = (N.min (sv_index sv) partner.1, N.max (sv_index sv) partner.1) ∧
                entry.2.1 = sv ∧
                shape entry.2.2 = overlap_shape (border sv) (sv_box sv) partner.2)
             (local_regions sv) out) ∧
  (∀ b box1 box2, overlap_shape b box1 box2 = overlap_shape b box2 box1).
Proof.
  intros Hb Hshape Hmeet. split.
  2: { intros b box1 box2. unfold overlap_shape.
       by rewrite (overlap_length_sym b (z1 box1)), (overlap_length_sym b (y1 box1)),
                  (overlap_length_sym b (x1 box1)). }
  unfold extract_boundaries.
  set (g := λ partner : N * box,
         ((N.min (sv_index sv) partner.1, N.max (sv_index sv) partner.1),
          (sv, slice3 labels
             ((Z.max (z1 (sv_box sv)) (z1 partner.2) - border sv - (z1 (sv_box sv) - border sv))%Z,
              (Z.max (z1 (sv_box sv)) (z1 partner.2) - border sv - (z1 (sv_box sv) - border sv)
               + Z.of_nat (overlap_length (border sv) (z1 (sv_box sv)) (z2 (sv_box sv))
                             (z1 partner.2) (z2 partner.2)))%Z)
             ((Z.max (y1 (sv_box sv)) (y1 partner.2) - border sv - (y1 (sv_box sv) - border sv))%Z,
              (Z.max (y1 (sv_box sv)) (y1 partner.2) - border sv - (y1 (sv_box sv) - border sv)
               + Z.of_nat (overlap_length (border sv) (y1 (sv_box sv)) (y2 (sv_box sv))
                             (y1 partner.2) (y2 partner.2)))%Z)
             ((Z.max (x1 (sv_box sv)) (x1 partner.2) - border sv - (x1 (sv_box sv) - border sv))%Z,
              (Z.max (x1 (sv_box sv)) (x1 partner.2) - border sv - (x1 (sv_box sv) - border sv)
               + Z.of_nat (overlap_length (border sv) (x1 (sv_box sv)) (x2 (sv_box sv))
                             (x1 partner.2) (x2 partner.2)))%Z)))).
  exists (g <$> local_regions sv). split.
  - apply mapM_Ok_fmap. intros [key2 box2] Hin.
    rewrite Forall_forall in Hmeet. destruct (Hmeet _ Hin) as (Hz & Hy & Hx).
    cbn [fst snd] in *.
    destruct Hz as (Hz1 & Hz2 & Hz3), Hy as (Hy1 & Hy2 & Hy3), Hx as (Hx1 & Hx2 & Hx3).
    rewrite !intersects_Ok by lia.
    cbn [mbind result_bind]. unfold g. cbn [fst snd].
    assert (Hkey : (if bool_decide (key2 < sv_index sv) then (key2, sv_index sv)
                    else (sv_index sv, key2))
                   = (N.min (sv_index sv) key2, N.max (sv_index sv) key2)).
    { case_bool_decide; f_equal; lia. }
    rewrite Hkey. unfold overlap_length. do 3 f_equal.
    f_equal; f_equal; lia.
  - apply Forall2_fmap_r, Forall_Forall2_diag. rewrite Forall_forall in Hmeet |- *.
    intros [key2 box2] Hin. destruct (Hmeet _ Hin) as (Hz & Hy & Hx).
    cbn [fst snd] in *.
    destruct Hz as (Hz1 & Hz2 & Hz3), Hy as (Hy1 & Hy2 & Hy3), Hx as (Hx1 & Hx2 & Hx3).
    split_and!; [done..|].
    unfold full_shape in Hshape. unfold g. cbn [fst snd].
    rewrite (shape_slice3 _ _ _ _ _ _ _ Hshape).
    cbn [fst snd]. unfold overlap_shape, overlap_length.
    rewrite !length_slice_range by lia. f_equal; [f_equal|]; lia.
Qed.

Lemma extract_boundaries_crops_shared_region_witness :
  ∃ out, extract_boundaries (svA, volA) = Ok out ∧
     Forall2 (λ (partner : N * box) (entry : (N * N) * (Subvolume * ndarray)),
                entry.1 = (N.min (sv_index svA) partner.1, N.max (sv_index svA) partner.1) ∧
                entry.2.1 = svA ∧
                shape entry.2.2 = overlap_shape (border svA) (sv_box svA) partner.2)
             (local_regions svA) out.
Proof.
  apply (extract_boundaries_crops_shared_region svA volA).
  - simpl. lia.
  - reflexivity.
  - repeat constructor; simpl; lia.
Defined.


(** ** Seeds for the watershed *)

Lemma bincount_lookup (l : list N) (x : N) :
  x ∈ l → bincount l !! N.to_nat x = Some (length (filter (λ y, y = x) l)).
Proof.
  intros Hx. unfold bincount. destruct l as [|y l]; [by apply elem_of_nil in Hx|].
  pose proof (max_N_ge _ _ Hx) as Hle.
  rewrite list_lookup_fmap, lookup_seq_lt by lia. cbn. by rewrite N2Nat.id.
Qed.

(** What becomes of one voxel. *)
Lemma remove_small_seeds_lookup (seed_size : Z) (seeds : ndarray) i s :
  (0 < seed_size)%Z → data seeds !! i = Some s →
  data (remove_small_seeds seed_size seeds) !! i
  = Some (if bool_decide (Z.of_nat (voxel_count s seeds) < seed_size)%Z then 0 else s).
Proof.
  intros Hpos Hs. unfold remove_small_seeds. rewrite bool_decide_true by done.
  cbn [data]. rewrite lookup_zip_with, Hs. cbn. rewrite list_lookup_fmap, Hs. cbn.
  rewrite list_lookup_fmap, bincount_lookup by (by eapply list_elem_of_lookup_2). cbn.
  unfold voxel_count. by case_bool_decide.
Qed.

Lemma remove_small_seeds_length (seed_size : Z) (seeds : ndarray) :
  length (data (remove_small_seeds seed_size seeds)) = length (data seeds).
Proof.
  unfold remove_small_seeds. case_bool_decide; [|done]. cbn [data].
  rewrite length_zip_with, length_fmap. lia.
Qed.

Lemma count_after_zeroing (small : N → bool) (l : list N) s :
  s ≠ 0 →
  length (filter (λ y, y = s) ((λ x, if small x then 0 else x) <$> l))
  = if small s then 0%nat else length (filter (λ y, y = s) l).
Proof.
  intros Hs. induction l as [|x l IH].
  - by destruct (small s).
  - rewrite fmap_cons, !filter_cons.
    destruct (decide (x = s)) as [->|Hne].
    + destruct (small s) eqn:E.
      * by rewrite decide_False by done.
      * rewrite decide_True by done. cbn [length]. by rewrite IH.
    + rewrite decide_False; [exact IH|]. by destruct (small x).
Qed.

(** A label that survives keeps all its voxels. *)
Lemma remove_small_seeds_count (seed_size : Z) (seeds : ndarray) s :
  s ≠ 0 → (0 < seed_size)%Z →
  voxel_count s (remove_small_seeds seed_size seeds)
  = if bool_decide (Z.of_nat (voxel_count s seeds) < seed_size)%Z then 0%nat
    else voxel_count s seeds.
Proof.
  intros Hs Hpos. unfold voxel_count at 1.
  assert (Hdata : data (remove_small_seeds seed_size seeds)
                  = (λ x, if bool_decide (Z.of_nat (voxel_count x seeds) < seed_size)%Z
                          then 0 else x) <$> data seeds).
  { apply list_eq_same_length with (length (data seeds));
      [by rewrite length_fmap | apply remove_small_seeds_length |].
    intros i x y Hi Hx Hy. rewrite list_lookup_fmap in Hy.
    destruct (data seeds !! i) as [s0|] eqn:E; [|done].
    rewrite (remove_small_seeds_lookup _ _ _ _ Hpos E) in Hx. cbn in Hy. congruence. }
  rewrite Hdata.
  apply (count_after_zeroing
           (λ x, bool_decide (Z.of_nat (voxel_count x seeds) < seed_size)%Z)). done.
Qed.

(** X15.  The seeds [seeded_watershed] hands to the watershed, for a
    positive [seed_size]: a voxel keeps its seed label when the label
    covers at least [seed_size] voxels and becomes 0 otherwise, so every
    seed label left covers at least [seed_size] voxels and has lost none;
    filtering a second time changes nothing.  With [seed_size <= 0] the
    seeds are left as they are. *)
Theorem small_seeds_are_removed (seed_size : Z) (seeds : ndarray) :
  ((0 < seed_size)%Z →
     shape (remove_small_seeds seed_size seeds) = shape seeds ∧
     (∀ i s, data seeds !! i = Some s →
        data (remove_small_seeds seed_size seeds) !! i
        = Some (if bool_decide (Z.of_nat (voxel_count s seeds) < seed_size)%Z
                then 0 else s)) ∧
     (∀ s, s ≠ 0 → s ∈ data (remove_small_seeds seed_size seeds) →
        (seed_size ≤ Z.of_nat (voxel_count s (remove_small_seeds seed_size seeds)))%Z ∧
        voxel_count s (remove_small_seeds seed_size seeds) = voxel_count s seeds) ∧
     remove_small_seeds seed_size (remove_small_seeds seed_size seeds)
       = remove_small_seeds seed_size seeds) ∧
  ((seed_size ≤ 0)%Z → remove_small_seeds seed_size seeds = seeds).
Proof.
  split.
  2: { intros H. unfold remove_small_seeds. by rewrite bool_decide_false by lia. }
  intros Hpos.
  assert (Hsurv : ∀ s, s ≠ 0 → s ∈ data (remove_small_seeds seed_size seeds) →
            (seed_size ≤ Z.of_nat (voxel_count s seeds))%Z).
  { intros s Hs [i Hi]%list_elem_of_lookup.
    destruct (lookup_lt_is_Some_2 (data seeds) i) as [s0 Hs0].
    { rewrite <- (remove_small_seeds_length seed_size). by eapply lookup_lt_Some. }
    rewrite (remove_small_seeds_lookup _ _ _ _ Hpos Hs0) in Hi.
    case_bool_decide; [congruence|]. injection Hi as ->. lia. }
  split_and!.
  - unfold remove_small_seeds. by rewrite bool_decide_true.
  - intros i s. by apply remove_small_seeds_lookup.
  - intros s Hs Hin. specialize (Hsurv s Hs Hin).
    rewrite remove_small_seeds_count by done. rewrite bool_decide_false by lia. done.
  - set (seeds' := remove_small_seeds seed_size seeds).
    assert (Hshape : shape (remove_small_seeds seed_size seeds') = shape seeds').
    { unfold remove_small_seeds. by rewrite bool_decide_true. }
    destruct (remove_small_seeds seed_size seeds') as [sh d] eqn:E.
    destruct seeds' as [sh' d'] eqn:E'. cbn in Hshape. subst sh'. f_equal.
    assert (Hd : d = data (remove_small_seeds seed_size {| shape := sh; data := d' |}))
      by (by rewrite E).
    rewrite Hd.
    apply list_eq_same_length with (length d'); [done | apply remove_small_seeds_length |].
    intros i x y Hi Hx Hy.
    rewrite (remove_small_seeds_lookup _ {| shape := sh; data := d' |} i y Hpos Hy) in Hx.
    injection Hx as <-. case_bool_decide as Hsmall; [|done].
    destruct (decide (y = 0)) as [->|Hy0]; [done|]. exfalso.
    assert (Hin : y ∈ data seeds') by (rewrite E'; by eapply list_elem_of_lookup_2).
    specialize (Hsurv y Hy0 Hin).
    pose proof (remove_small_seeds_count seed_size seeds y Hy0 Hpos) as Hc.
    rewrite bool_decide_false in Hc by lia. fold seeds' in Hc. rewrite E' in Hc. lia.
Qed.

Lemma small_seeds_are_removed_witness :
  remove_small_seeds 2 {| shape := (1, 1, 5)%nat; data := [1; 2; 2; 0; 3] |}
  = {| shape := (1, 1, 5)%nat; data := [0; 2; 2; 0; 0] |} ∧
  remove_small_seeds 0 {| shape := (1, 1, 5)%nat; data := [1; 2; 2; 0; 3] |}
  = {| shape := (1, 1, 5)%nat; data := [1; 2; 2; 0; 3] |}.
Proof.
  split.
  - vm_compute. reflexivity.
  - apply (proj2 (small_seeds_are_removed 0
                    {| shape := (1, 1, 5)%nat; data := [1; 2; 2; 0; 3] |})). lia.
Defined.


(** ** Regions of interest *)

Lemma elem_of_get_roi (roi_blockruns : list (Z * Z * Z * Z)) (z y x : Z) :
  (z, y, x) ∈ get_roi roi_blockruns
  ↔ ∃ x_first x_last, (z, y, x_first, x_last) ∈ roi_blockruns ∧ (x_first ≤ x ≤ x_last)%Z.
Proof.
  unfold get_roi. rewrite list_elem_of_bind. split.
  - intros ([[[z0 y0] xf] xl] & Hin & Hrun).
    apply list_elem_of_fmap in Hin as (x0 & [= -> -> ->] & Hx0).
    apply elem_of_seqZ in Hx0. exists xf, xl. split; [done | lia].
  - intros (xf & xl & Hrun & Hx). exists (z, y, xf, xl). split; [|done].
    apply list_elem_of_fmap. exists x. split; [done|]. apply elem_of_seqZ. lia.
Qed.

Lemma length_get_roi (roi_blockruns : list (Z * Z * Z * Z)) :
  length (get_roi roi_blockruns)
  = sum_list_with (λ run : Z * Z * Z * Z, Z.to_nat (run.2 + 1 - run.1.2)) roi_blockruns.
Proof.
  unfold get_roi. induction roi_blockruns as [|[[[z y] xf] xl] runs IH]; [done|].
  cbn [mbind list_bind sum_list_with]. rewrite length_app, IH, length_fmap, length_seqZ.
  done.
Qed.

(** X16.  [get_roi] expands the block runs of a ROI: the block (z, y, x) is
    listed exactly when some run (z, y, x_first, x_last) has
    [x_first <= x <= x_last]; a run with [x_last < x_first] contributes
    nothing; and the number of blocks listed is the sum of the lengths of
    the runs. *)
Theorem get_roi_expands_runs (roi_blockruns : list (Z * Z * Z * Z)) :
  (∀ z y x, (z, y, x) ∈ get_roi roi_blockruns
     ↔ ∃ x_first x_last, (z, y, x_first, x_last) ∈ roi_blockruns
                         ∧ (x_first ≤ x ≤ x_last)%Z) ∧
  length (get_roi roi_blockruns)
  = sum_list_with (λ run : Z * Z * Z * Z, Z.to_nat (run.2 + 1 - run.1.2)) roi_blockruns.
Proof. split; [apply elem_of_get_roi | apply length_get_roi]. Qed.

(** *** The grid-aligned partition *)

Lemma int64_small (z : Z) : (- 2 ^ 63 ≤ z < 2 ^ 63)%Z → int64 z = z.
Proof. intros Hz. unfold int64. rewrite Z.mod_small; lia. Qed.

Lemma min_Z_le (l : list Z) x : x ∈ l → (min_Z l ≤ x)%Z.
Proof.
  unfold min_Z. generalize (hd 0%Z l) as d.
  induction l as [|y l IH]; intros d; [by intros ?%elem_of_nil|].
  cbn. intros [->|Hin]%elem_of_cons; [lia|]. specialize (IH d Hin). lia.
Qed.

Lemma min_Z_bound (l : list Z) (a : Z) :
  l ≠ [] → Forall (λ x, a ≤ x)%Z l → (a ≤ min_Z l)%Z.
Proof.
  destruct l as [|y l]; [done|]. intros _ Hall. unfold min_Z. cbn [hd].
  assert (Hy : (a ≤ y)%Z) by (by apply Forall_cons in Hall as [? _]).
  revert Hall. generalize (y :: l) as k. induction k as [|z k IH]; intros Hall; cbn; [done|].
  apply Forall_cons in Hall as [Hz Hall]. specialize (IH Hall). lia.
Qed.

Lemma max_Z_bound (l : list Z) (b : Z) :
  l ≠ [] → Forall (λ x, x < b)%Z l → (max_Z l < b)%Z.
Proof.
  destruct l as [|y l]; [done|]. intros _ Hall. unfold max_Z. cbn [hd].
  assert (Hy : (y < b)%Z) by (by apply Forall_cons in Hall as [? _]).
  revert Hall. generalize (y :: l) as k. induction k as [|z k IH]; intros Hall; cbn; [done|].
  apply Forall_cons in Hall as [Hz Hall]. specialize (IH Hall). lia.
Qed.

Section axis.
Variables (coords : list Z) (subvol_size : Z).
Hypothesis coords_ne : coords ≠ [].
Hypothesis coords_int32 : Forall (λ c, - 2 ^ 31 ≤ c < 2 ^ 31)%Z coords.
Hypothesis size_pos : (0 < subvol_size < 2 ^ 31)%Z.
Hypothesis size_blocks : (subvol_size `mod` BLK_SIZE = 0)%Z.

Let sv := (subvol_size `div` BLK_SIZE)%Z.

Lemma axis_size : (subvol_size = BLK_SIZE * sv ∧ 0 < sv < 2 ^ 26)%Z.
Proof.
  unfold sv, BLK_SIZE in *.
  pose proof (Z.div_mod subvol_size 32 ltac:(lia)) as Hdm. lia.
Qed.

Lemma axis_extent :
  (- 2 ^ 31 ≤ min_Z coords ∧ min_Z coords ≤ max_Z coords ∧ max_Z coords < 2 ^ 31)%Z.
Proof.
  destruct coords as [|c cs] eqn:E; [done|]. rewrite <- E in *.
  assert (Hc : c ∈ coords) by (rewrite E; by left).
  pose proof (min_Z_le coords c Hc). pose proof (max_Z_ge coords c Hc).
  split_and!; [|lia|].
  - apply min_Z_bound; [done|]. eapply Forall_impl; [exact coords_int32|]. cbn. lia.
  - apply max_Z_bound; [done|]. eapply Forall_impl; [exact coords_int32|]. cbn. lia.
Qed.

Lemma grid_count_spec :
  (grid_count coords subvol_size = (max_Z coords - min_Z coords) `div` sv + 1)%Z.
Proof.
  destruct axis_size as [_ Hsv]. unfold grid_count. fold sv.
  replace (max_Z coords - min_Z coords + sv)%Z
    with ((max_Z coords - min_Z coords) + 1 * sv)%Z by lia.
  rewrite Z.div_add by lia. done.
Qed.

Lemma grid_index_bound (i : Z) :
  (0 ≤ i < grid_count coords subvol_size)%Z →
  (0 ≤ sv * i ≤ max_Z coords - min_Z coords)%Z.
Proof.
  destruct axis_size as [_ Hsv]. rewrite grid_count_spec. intros Hi.
  pose proof (Z.mul_div_le (max_Z coords - min_Z coords) sv ltac:(lia)) as Hle.
  split; [nia|]. nia.
Qed.

(** No wrap-around occurs on coordinates of this size. *)
Lemma axis_grid :
  int64 (int64 (int64 (int64 (int64 (1 + max_Z coords) - min_Z coords) + sv) - 1) `div` sv)
  = grid_count coords subvol_size ∧
  (0 < grid_count coords subvol_size)%Z ∧
  ∀ i, (0 ≤ i < grid_count coords subvol_size)%Z →
    int64 (int64 (subvol_size * i) + int64 (min_Z coords * BLK_SIZE))
    = grid_origin coords subvol_size i.
Proof.
  destruct axis_size as [Hsize Hsv]. destruct axis_extent as (Hlo & Hmid & Hhi).
  assert (Hq : (0 ≤ (max_Z coords - min_Z coords) `div` sv ≤ max_Z coords - min_Z coords)%Z).
  { split; [apply Z.div_pos; lia|]. apply Z.div_le_upper_bound; [lia|]. nia. }
  split_and!.
  - rewrite (int64_small (1 + max_Z coords)) by lia.
    rewrite (int64_small (1 + max_Z coords - min_Z coords)) by lia.
    rewrite (int64_small (1 + max_Z coords - min_Z coords + sv)) by lia.
    rewrite (int64_small (1 + max_Z coords - min_Z coords + sv - 1)) by lia.
    replace (1 + max_Z coords - min_Z coords + sv - 1)%Z
      with (max_Z coords - min_Z coords + sv)%Z by lia.
    fold (grid_count coords subvol_size) in |- *.
    unfold grid_count. fold sv. rewrite int64_small; [done|].
    fold sv in Hq. pose proof grid_count_spec as Hg. unfold grid_count in Hg. fold sv in Hg.
    rewrite Hg. lia.
  - rewrite grid_count_spec. lia.
  - intros i Hi. pose proof (grid_index_bound i Hi) as Hb.
    assert (Hprod : (subvol_size * i = BLK_SIZE * (sv * i))%Z) by (rewrite Hsize at 1; lia).
    unfold BLK_SIZE in *.
    rewrite (int64_small (subvol_size * i)) by lia.
    rewrite (int64_small (min_Z coords * 32)) by lia.
    rewrite int64_small by lia. done.
Qed.

(** Every coordinate falls into exactly one cell of the grid. *)
Lemma axis_cover (c : Z) :
  c ∈ coords →
  ∃ i, (0 ≤ i < grid_count coords subvol_size)%Z ∧
    (grid_origin coords subvol_size i ≤ BLK_SIZE * c)%Z ∧
    (BLK_SIZE * c + BLK_SIZE ≤ grid_origin coords subvol_size i + subvol_size)%Z ∧
    ∀ i', (grid_origin coords subvol_size i' ≤ BLK_SIZE * c)%Z →
          (BLK_SIZE * c + BLK_SIZE ≤ grid_origin coords subvol_size i' + subvol_size)%Z →
          i' = i.
Proof.
  intros Hc. destruct axis_size as [Hsize Hsv].
  pose proof (min_Z_le coords c Hc) as Hmin. pose proof (max_Z_ge coords c Hc) as Hmax.
  exists ((c - min_Z coords) `div` sv)%Z.
  pose proof (Z.div_mod (c - min_Z coords) sv ltac:(lia)) as Hdm.
  pose proof (Z.mod_pos_bound (c - min_Z coords) sv ltac:(lia)) as Hmod.
  assert (Hq : (0 ≤ (c - min_Z coords) `div` sv)%Z) by (apply Z.div_pos; lia).
  unfold grid_origin, BLK_SIZE in *. split_and!.
  - done.
  - rewrite grid_count_spec.
    pose proof (Z.div_le_mono (c - min_Z coords) (max_Z coords - min_Z coords) sv
                  ltac:(lia) ltac:(lia)). lia.
  - nia.
  - nia.
  - intros i' H1 H2. apply Z.div_unique with (c - min_Z coords - sv * i')%Z; [|lia].
    left. nia.
Qed.

End axis.

Lemma elem_of_ndindex (n : Z * Z * Z) (i j k : Z) :
  (i, j, k) ∈ ndindex n ↔ (0 ≤ i < n.1.1 ∧ 0 ≤ j < n.1.2 ∧ 0 ≤ k < n.2)%Z.
Proof.
  unfold ndindex. rewrite list_elem_of_bind. split.
  - intros (i0 & (j0 & (k0 & [= -> -> ->]%list_elem_of_singleton & Hk)%list_elem_of_bind
                   & Hj)%list_elem_of_bind & Hi).
    apply elem_of_seqZ in Hi, Hj, Hk. lia.
  - intros (Hi & Hj & Hk). exists i. split; [|apply elem_of_seqZ; lia].
    apply list_elem_of_bind. exists j. split; [|apply elem_of_seqZ; lia].
    apply list_elem_of_bind. exists k. split; [by left | apply elem_of_seqZ; lia].
Qed.

Section grid_aligned.
Variable node_service_get_roi_partition : Z → list SubstackZYX.
Variables (roi_blockruns : list (Z * Z * Z * Z)) (subvol_size : Z).
Hypothesis roi_ne : get_roi roi_blockruns ≠ [].
Hypothesis roi_int32 : Forall int32_block (get_roi roi_blockruns).
Hypothesis size_pos : (0 < subvol_size < 2 ^ 31)%Z.
Hypothesis size_blocks : (subvol_size `mod` BLK_SIZE = 0)%Z.

Let zs := (λ b : Z * Z * Z, b.1.1) <$> get_roi roi_blockruns.
Let ys := (λ b : Z * Z * Z, b.1.2) <$> get_roi roi_blockruns.
Let xs := (λ b : Z * Z * Z, b.2) <$> get_roi roi_blockruns.

Lemma axes_ne : zs ≠ [] ∧ ys ≠ [] ∧ xs ≠ [].
Proof. unfold zs, ys, xs. by destruct (get_roi roi_blockruns). Qed.

Lemma axes_int32 :
  Forall (λ c, - 2 ^ 31 ≤ c < 2 ^ 31)%Z zs ∧ Forall (λ c, - 2 ^ 31 ≤ c < 2 ^ 31)%Z ys ∧
  Forall (λ c, - 2 ^ 31 ≤ c < 2 ^ 31)%Z xs.
Proof.
  unfold zs, ys, xs. rewrite !Forall_fmap.
  split_and!; (eapply Forall_impl; [exact roi_int32|]);
    intros [[z y] x] (Hz & Hy & Hx); done.
Qed.

(** The partition, free of wrap-around: one substack per cell of the
    grid anchored at the lowest block of the ROI. *)
Lemma get_roi_partition_grid :
  get_roi_partition node_service_get_roi_partition roi_blockruns subvol_size grid_aligned
  = Ok ((λ idx : Z * Z * Z,
           {| ss_size := subvol_size;
              ss_z := grid_origin zs subvol_size idx.1.1;
              ss_y := grid_origin ys subvol_size idx.1.2;
              ss_x := grid_origin xs subvol_size idx.2 |})
        <$> ndindex (grid_count zs subvol_size, grid_count ys subvol_size,
                     grid_count xs subvol_size)).
Proof.
  destruct axes_ne as (Nz & Ny & Nx). destruct axes_int32 as (Iz & Iy & Ix).
  destruct (axis_grid zs subvol_size Nz Iz size_pos size_blocks) as (Gz & Pz & Oz).
  destruct (axis_grid ys subvol_size Ny Iy size_pos size_blocks) as (Gy & Py & Oy).
  destruct (axis_grid xs subvol_size Nx Ix size_pos size_blocks) as (Gx & Px & Ox).
  unfold get_roi_partition, assert.
  rewrite (bool_decide_true (subvol_size `mod` BLK_SIZE = 0)%Z) by done.
  cbn [mbind result_bind].
  rewrite (bool_decide_false (get_roi roi_blockruns = [])) by done.
  fold zs ys xs. unfold map3, zip3. cbn [fst snd].
  rewrite Gz, Gy, Gx. rewrite bool_decide_false by lia. f_equal.
  apply list_fmap_ext. intros _ [[i j] k] Hin%list_elem_of_lookup_2.
  apply elem_of_ndindex in Hin as (Hi & Hj & Hk). cbn [fst snd] in *.
  by rewrite Oz, Oy, Ox.
Qed.

Lemma block_axes (b : Z * Z * Z) :
  b ∈ get_roi roi_blockruns → b.1.1 ∈ zs ∧ b.1.2 ∈ ys ∧ b.2 ∈ xs.
Proof.
  intros Hb. unfold zs, ys, xs. split_and!; apply list_elem_of_fmap; by exists b.
Qed.

End grid_aligned.

(** X17.  The grid-aligned partition of a non-empty ROI, for a substack
    size that is a positive multiple of the block size (block coordinates
    32-bit, as DVID's are): the call succeeds, every substack has the
    requested size, and every block of the ROI lies entirely inside one
    substack of the partition and inside no other. *)
Theorem grid_aligned_partition_covers_roi
    (node_service_get_roi_partition : Z → list SubstackZYX)
    (roi_blockruns : list (Z * Z * Z * Z)) (subvol_size : Z) :
  get_roi roi_blockruns ≠ [] →
  Forall int32_block (get_roi roi_blockruns) →
  (0 < subvol_size < 2 ^ 31)%Z →
  (subvol_size `mod` BLK_SIZE = 0)%Z →
  ∃ subvol_tuples,
    get_roi_partition node_service_get_roi_partition roi_blockruns subvol_size grid_aligned
      = Ok subvol_tuples ∧
    Forall (λ t, ss_size t = subvol_size) subvol_tuples ∧
    ∀ b, b ∈ get_roi roi_blockruns →
      ∃ t, t ∈ subvol_tuples ∧ block_inside t b ∧
           ∀ t', t' ∈ subvol_tuples → block_inside t' b → t' = t.
Proof.
  intros Hne H32 Hsize Hmod.
  rewrite (get_roi_partition_grid _ _ _ Hne H32 Hsize Hmod).
  eexists. split; [reflexivity|]. split.
  - apply Forall_fmap, Forall_forall. by intros [[i j] k] _.
  - intros [[z y] x] Hb. destruct (block_axes _ _ Hb) as (Hz & Hy & Hx). cbn [fst snd] in *.
    destruct (axis_cover _ _ Hsize Hmod z Hz) as (i & Hi & Hi1 & Hi2 & Hiu).
    destruct (axis_cover _ _ Hsize Hmod y Hy) as (j & Hj & Hj1 & Hj2 & Hju).
    destruct (axis_cover _ _ Hsize Hmod x Hx) as (k & Hk & Hk1 & Hk2 & Hku).
    eexists. split_and!.
    + apply list_elem_of_fmap. exists (i, j, k). split; [reflexivity|].
      by apply elem_of_ndindex.
    + unfold block_inside. cbn [ss_z ss_y ss_x ss_size fst snd]. done.
    + intros t' ([[i' j'] k'] & -> & _)%list_elem_of_fmap.
      unfold block_inside. cbn [ss_z ss_y ss_x ss_size fst snd].
      intros (A1 & A2 & B1 & B2 & C1 & C2).
      by rewrite (Hiu i' A1 A2), (Hju j' B1 B2), (Hku k' C1 C2).
Qed.

Lemma grid_aligned_partition_covers_roi_witness :
  ∃ subvol_tuples,
    get_roi_partition (λ _, []) [(0, 0, 0, 2); (1, 3, -1, 0)]%Z 64 grid_aligned
      = Ok subvol_tuples ∧
    Forall (λ t, ss_size t = 64%Z) subvol_tuples ∧
    ∀ b, b ∈ get_roi [(0, 0, 0, 2); (1, 3, -1, 0)]%Z →
      ∃ t, t ∈ subvol_tuples ∧ block_inside t b ∧
           ∀ t', t' ∈ subvol_tuples → block_inside t' b → t' = t.
Proof.
  apply (grid_aligned_partition_covers_roi (λ _, []) [(0, 0, 0, 2); (1, 3, -1, 0)]%Z 64).
  - vm_compute. discriminate.
  - apply Forall_forall. intros [[z y] x] (xf & xl & Hrun & Hx)%elem_of_get_roi.
    unfold int32_block. cbn [fst snd].
    apply elem_of_cons in Hrun as [[= -> -> -> ->]|Hrun%list_elem_of_singleton]; [lia|].
    injection Hrun as -> -> -> ->. lia.
  - lia.
  - reflexivity.
Defined.

(** X18.  What [get_roi_partition] refuses.  A substack size that is not
    a multiple of the block size trips the assertion, whatever the method.
    With the grid-aligned method a ROI without blocks, which is what a ROI
    made of empty runs comes to, is a [ValueError]: there is no lowest
    block to anchor the grid at. *)
Theorem get_roi_partition_errors
    (node_service_get_roi_partition : Z → list SubstackZYX)
    (roi_blockruns : list (Z * Z * Z * Z)) (subvol_size : Z) :
  ((subvol_size `mod` BLK_SIZE ≠ 0)%Z →
     ∀ method, ∃ msg,
       get_roi_partition node_service_get_roi_partition roi_blockruns subvol_size method
       = Raise (AssertionError msg)) ∧
  ((subvol_size `mod` BLK_SIZE = 0)%Z →
   Forall (λ run : Z * Z * Z * Z, run.2 < run.1.2)%Z roi_blockruns →
     ∃ msg,
       get_roi_partition node_service_get_roi_partition roi_blockruns subvol_size grid_aligned
       = Raise (ValueError msg)).
Proof.
  split.
  - intros Hmod method. unfold get_roi_partition, assert.
    rewrite (bool_decide_false (subvol_size `mod` BLK_SIZE = 0)%Z) by done. by eexists.
  - intros Hmod Hempty. unfold get_roi_partition, assert.
    rewrite (bool_decide_true (subvol_size `mod` BLK_SIZE = 0)%Z) by done.
    cbn [mbind result_bind].
    rewrite (bool_decide_true (get_roi roi_blockruns = [])); [by eexists|].
    destruct (get_roi roi_blockruns) as [|[[z y] x] l] eqn:E; [done|]. exfalso.
    assert (Hin : (z, y, x) ∈ get_roi roi_blockruns) by (rewrite E; by left).
    apply elem_of_get_roi in Hin as (xf & xl & Hrun & Hx).
    rewrite Forall_forall in Hempty. specialize (Hempty _ Hrun). cbn in Hempty. lia.
Qed.

Lemma get_roi_partition_errors_witness :
  (∃ msg, get_roi_partition (λ _, []) [(0, 0, 0, 2)]%Z 48 ask_dvid
          = Raise (AssertionError msg)) ∧
  (∃ msg, get_roi_partition (λ _, []) [(0, 0, 5, 2)]%Z 64 grid_aligned
          = Raise (ValueError msg)).
Proof.
  split.
  - apply (proj1 (get_roi_partition_errors (λ _, []) [(0, 0, 0, 2)]%Z 48)).
    vm_compute. discriminate.
  - apply (proj2 (get_roi_partition_errors (λ _, []) [(0, 0, 5, 2)]%Z 64)).
    + reflexivity.
    + repeat constructor.
Defined.


(** ** Reading with a border, writing without *)

Lemma length_bind_uniform {A B} (g : A → list B) (m : nat) (l : list A) :
  (∀ x, length (g x) = m) → length (l ≫= g) = (length l * m)%nat.
Proof.
  intros Hg. induction l as [|x l IH]; [done|].
  cbn [mbind list_bind length]. rewrite length_app, Hg.
  change (length (l ≫= g) = (length l * m)%nat) in IH.
  fold (mbind (M := list) g l). rewrite IH. lia.
Qed.

Lemma lookup_bind_uniform {A B} (g : A → list B) (m : nat) (l : list A) (i j : nat) :
  (∀ x, length (g x) = m) → (j < m)%nat →
  (l ≫= g) !! (i * m + j)%nat = l !! i ≫= λ x, g x !! j.
Proof.
  intros Hg Hj. revert i. induction l as [|x l IH]; intros i; [done|].
  cbn [mbind list_bind]. fold (mbind (M := list) g l). destruct i as [|i].
  - cbn [Nat.mul Nat.add]. rewrite lookup_app_l by (rewrite Hg; lia). done.
  - rewrite lookup_app_r by (rewrite Hg; lia). rewrite Hg.
    replace (S i * m + j - m)%nat with (i * m + j)%nat by lia. apply IH.
Qed.

Lemma index_in_bounds (nz ny nx z y x : nat) :
  (z < nz)%nat → (y < ny)%nat → (x < nx)%nat →
  ((z * ny + y) * nx + x < nz * ny * nx)%nat.
Proof.
  intros Hz Hy Hx.
  assert ((z * ny + y) * nx + x < (z * ny + y + 1) * nx)%nat by lia.
  assert ((z * ny + y + 1) * nx ≤ (z + 1) * ny * nx)%nat by (apply Nat.mul_le_mono_r; lia).
  assert ((z + 1) * ny * nx ≤ nz * ny * nx)%nat
    by (apply Nat.mul_le_mono_r, Nat.mul_le_mono_r; lia).
  lia.
Qed.

(** The elements of a slice. *)
Lemma slice3_lookup (a : ndarray) nz ny nx (zr yr xr : Z * Z) (z y x : nat) :
  shape a = (nz, ny, nx) →
  (z < length (slice_range nz zr.1 zr.2))%nat →
  (y < length (slice_range ny yr.1 yr.2))%nat →
  (x < length (slice_range nx xr.1 xr.2))%nat →
  data (slice3 a zr yr xr)
    !! ((z * length (slice_range ny yr.1 yr.2) + y) * length (slice_range nx xr.1 xr.2) + x)%nat
  = Some (nth (((slice_bound nz zr.1 + z) * ny + (slice_bound ny yr.1 + y)) * nx
               + (slice_bound nx xr.1 + x))%nat (data a) 0).
Proof.
  intros Hs Hz Hy Hx. unfold slice3. rewrite Hs. cbn [data].
  set (zs := slice_range nz zr.1 zr.2) in *.
  set (ys := slice_range ny yr.1 yr.2) in *.
  set (xs := slice_range nx xr.1 xr.2) in *.
  set (f := λ z y x : nat, [nth ((z * ny + y) * nx + x)%nat (data a) 0]).
  assert (Lx : ∀ z y, length (xs ≫= f z y) = length xs).
  { intros z0 y0. rewrite (length_bind_uniform _ 1) by done. lia. }
  assert (Ly : ∀ z, length (ys ≫= λ y, xs ≫= f z y) = (length ys * length xs)%nat).
  { intros z0. by rewrite (length_bind_uniform _ (length xs)) by apply Lx. }
  replace ((z * length ys + y) * length xs + x)%nat
    with (z * (length ys * length xs) + (y * length xs + x))%nat by lia.
  rewrite (lookup_bind_uniform _ (length ys * length xs)) by (try apply Ly; nia).
  unfold zs at 1, slice_range. rewrite lookup_seq_lt by (unfold zs, slice_range in Hz;
    by rewrite length_seq in Hz). cbn [mbind option_bind].
  rewrite (lookup_bind_uniform _ (length xs)) by (try apply Lx; lia).
  unfold ys at 1, slice_range. rewrite lookup_seq_lt by (unfold ys, slice_range in Hy;
    by rewrite length_seq in Hy). cbn [mbind option_bind].
  replace x with (x * 1 + 0)%nat at 1 by lia.
  rewrite (lookup_bind_uniform _ 1) by (done || lia).
  unfold xs at 1, slice_range. rewrite lookup_seq_lt by (unfold xs, slice_range in Hx;
    by rewrite length_seq in Hx). cbn [mbind option_bind]. done.
Qed.

Lemma length_slice3 (a : ndarray) (zr yr xr : Z * Z) :
  well_shaped (slice3 a zr yr xr) = true.
Proof.
  unfold well_shaped, array_size, slice3. destruct (shape a) as [[nz ny] nx].
  cbn [shape data]. apply bool_decide_eq_true.
  rewrite (length_bind_uniform _ (length (slice_range ny yr.1 yr.2)
                                  * length (slice_range nx xr.1 xr.2))).
  - lia.
  - intros z. rewrite (length_bind_uniform _ (length (slice_range nx xr.1 xr.2))); [done|].
    intros y. rewrite (length_bind_uniform _ 1) by done. lia.
Qed.

(** The crop the writer makes of a volume of the shape that was read. *)
Lemma writer_crops_the_box (label_name : string) (roi_name : option string)
    (mutate : bool) (resource_server : string) (key : N) (sv : Subvolume) (seg : ndarray) :
  (0 ≤ border sv)%Z → box_ordered (sv_box sv) →
  shape seg = full_shape sv → well_shaped seg = true →
  let call := foreach_write_labels3d_writer label_name roi_name mutate resource_server
                (key, (sv, seg)) in
  shape (put_volume call)
    = (Z.to_nat (z2 (sv_box sv) - z1 (sv_box sv)), Z.to_nat (y2 (sv_box sv) - y1 (sv_box sv)),
       Z.to_nat (x2 (sv_box sv) - x1 (sv_box sv))) ∧
  well_shaped (put_volume call) = true ∧
  put_offset call = (z1 (sv_box sv), y1 (sv_box sv), x1 (sv_box sv)) ∧
  (∀ z y x, (Z.of_nat z < z2 (sv_box sv) - z1 (sv_box sv))%Z →
            (Z.of_nat y < y2 (sv_box sv) - y1 (sv_box sv))%Z →
            (Z.of_nat x < x2 (sv_box sv) - x1 (sv_box sv))%Z →
     is_Some (voxel (put_volume call) z y x) ∧
     voxel (put_volume call) z y x
     = voxel seg (z + Z.to_nat (border sv)) (y + Z.to_nat (border sv))
                 (x + Z.to_nat (border sv))).
Proof.
  intros Hb (Hx & Hy & Hz) Hshape Hws call. unfold full_shape in Hshape.
  set (b := border sv) in *.
  assert (Lz : length (slice_range (Z.to_nat (z2 (sv_box sv) - z1 (sv_box sv) + 2 * b)) b
                         (z2 (sv_box sv) - z1 (sv_box sv) + b))
               = Z.to_nat (z2 (sv_box sv) - z1 (sv_box sv))).
  { rewrite length_slice_range by lia. lia. }
  assert (Ly : length (slice_range (Z.to_nat (y2 (sv_box sv) - y1 (sv_box sv) + 2 * b)) b
                         (y2 (sv_box sv) - y1 (sv_box sv) + b))
               = Z.to_nat (y2 (sv_box sv) - y1 (sv_box sv))).
  { rewrite length_slice_range by lia. lia. }
  assert (Lx : length (slice_range (Z.to_nat (x2 (sv_box sv) - x1 (sv_box sv) + 2 * b)) b
                         (x2 (sv_box sv) - x1 (sv_box sv) + b))
               = Z.to_nat (x2 (sv_box sv) - x1 (sv_box sv))).
  { rewrite length_slice_range by lia. lia. }
  assert (Hcs : shape (put_volume call)
                = (Z.to_nat (z2 (sv_box sv) - z1 (sv_box sv)),
                   Z.to_nat (y2 (sv_box sv) - y1 (sv_box sv)),
                   Z.to_nat (x2 (sv_box sv) - x1 (sv_box sv)))).
  { unfold call, foreach_write_labels3d_writer. cbn [put_volume]. fold b.
    rewrite (shape_slice3 _ _ _ _ _ _ _ Hshape). cbn [fst snd]. by rewrite Lz, Ly, Lx. }
  split_and!; [done | apply length_slice3 | done |].
  intros z y x Hz' Hy' Hx'.
  assert (Hv : voxel (put_volume call) z y x
               = voxel seg (z + Z.to_nat b) (y + Z.to_nat b) (x + Z.to_nat b)).
  { unfold voxel. rewrite Hcs, Hshape.
    rewrite !bool_decide_true by lia.
    unfold call, foreach_write_labels3d_writer. cbn [put_volume]. fold b.
    pose proof (slice3_lookup seg _ _ _ (b, (z2 (sv_box sv) - z1 (sv_box sv) + b)%Z)
                  (b, (y2 (sv_box sv) - y1 (sv_box sv) + b)%Z)
                  (b, (x2 (sv_box sv) - x1 (sv_box sv) + b)%Z) z y x Hshape) as Hl.
    cbn [fst snd] in Hl. rewrite Lz, Ly, Lx in Hl. rewrite Hl by lia.
    rewrite !slice_bound_inside by lia.
    rewrite nth_lookup.
    replace ((Z.to_nat b + z) * Z.to_nat (y2 (sv_box sv) - y1 (sv_box sv) + 2 * b)
             + (Z.to_nat b + y))%nat
      with ((z + Z.to_nat b) * Z.to_nat (y2 (sv_box sv) - y1 (sv_box sv) + 2 * b)
            + (y + Z.to_nat b))%nat by lia.
    replace (Z.to_nat b + x)%nat with (x + Z.to_nat b)%nat by lia.
    match goal with |- Some (default 0 (?l !! ?i)) = _ =>
      destruct (lookup_lt_is_Some_2 l i) as [v Hv] end.
    { unfold well_shaped, array_size in Hws. rewrite Hshape in Hws.
      apply bool_decide_eq_true in Hws. rewrite Hws. apply index_in_bounds; lia. }
    by rewrite Hv. }
  split; [|done]. rewrite Hv. unfold voxel. rewrite Hshape.
  rewrite bool_decide_true by lia. apply lookup_lt_is_Some_2.
  unfold well_shaped, array_size in Hws. rewrite Hshape in Hws.
  apply bool_decide_eq_true in Hws. rewrite Hws. apply index_in_bounds; lia.
Qed.

(** X19.  [map_labels64] reads the box of a subvolume grown by the border
    on every side; [foreach_write_labels3d] writes back only the box.  When
    the server returns a volume of the shape asked for (and no ROI mask is
    applied), the volume written has exactly the shape of the box, its
    voxel (z, y, x) is the voxel (z + border, y + border, x + border) of
    the volume read, and it is put at the corner of the box, which is the
    corner the read started from plus the border: every voxel goes back to
    the position it came from. *)
Theorem written_volume_is_the_box
    (get_labels3D : string → Z * Z * Z → Z * Z * Z → ndarray)
    (mask_roi : ndarray → Subvolume → Z → ndarray)
    (label_name out_name : string) (border_arg : Z) (roi_name : option string)
    (mutate : bool) (resource_server : string) (key : N) (sv : Subvolume) :
  (∀ name shp off,
     shape (get_labels3D name shp off) = (Z.to_nat shp.1.1, Z.to_nat shp.1.2, Z.to_nat shp.2)
     ∧ well_shaped (get_labels3D name shp off) = true) →
  (0 ≤ border sv)%Z → box_ordered (sv_box sv) →
  let seg := map_labels64_mapper get_labels3D mask_roi label_name border_arg EmptyString sv in
  let call := foreach_write_labels3d_writer out_name roi_name mutate resource_server
                (key, (sv, seg)) in
  seg = get_labels3D label_name
          ((z2 (sv_box sv) + 2 * border sv - z1 (sv_box sv))%Z,
           (y2 (sv_box sv) + 2 * border sv - y1 (sv_box sv))%Z,
           (x2 (sv_box sv) + 2 * border sv - x1 (sv_box sv))%Z)
          ((z1 (sv_box sv) - border sv)%Z, (y1 (sv_box sv) - border sv)%Z,
           (x1 (sv_box sv) - border sv)%Z) ∧
  shape (put_volume call)
    = (Z.to_nat (z2 (sv_box sv) - z1 (sv_box sv)), Z.to_nat (y2 (sv_box sv) - y1 (sv_box sv)),
       Z.to_nat (x2 (sv_box sv) - x1 (sv_box sv))) ∧
  well_shaped (put_volume call) = true ∧
  put_offset call = (z1 (sv_box sv), y1 (sv_box sv), x1 (sv_box sv)) ∧
  (∀ z y x, (Z.of_nat z < z2 (sv_box sv) - z1 (sv_box sv))%Z →
            (Z.of_nat y < y2 (sv_box sv) - y1 (sv_box sv))%Z →
            (Z.of_nat x < x2 (sv_box sv) - x1 (sv_box sv))%Z →
     is_Some (voxel (put_volume call) z y x) ∧
     voxel (put_volume call) z y x
     = voxel seg (z + Z.to_nat (border sv)) (y + Z.to_nat (border sv))
                 (x + Z.to_nat (border sv))).
Proof.
  intros Hget Hb Hbox seg call.
  assert (Hseg : seg = get_labels3D label_name
          ((z2 (sv_box sv) + 2 * border sv - z1 (sv_box sv))%Z,
           (y2 (sv_box sv) + 2 * border sv - y1 (sv_box sv))%Z,
           (x2 (sv_box sv) + 2 * border sv - x1 (sv_box sv))%Z)
          ((z1 (sv_box sv) - border sv)%Z, (y1 (sv_box sv) - border sv)%Z,
           (x1 (sv_box sv) - border sv)%Z)).
  { unfold seg, map_labels64_mapper. by rewrite bool_decide_false by (intros H; by apply H). }
  split; [exact Hseg|].
  apply writer_crops_the_box; [done | done | |].
  - rewrite Hseg. rewrite (proj1 (Hget _ _ _)). cbn [fst snd]. unfold full_shape.
    f_equal; [f_equal|]; f_equal; lia.
  - rewrite Hseg. apply Hget.
Qed.

Lemma written_volume_is_the_box_witness :
  let seg := map_labels64_mapper (uniform_labels3D 7) (λ a _ _, a) "segmentation" 1
               EmptyString svA in
  let call := foreach_write_labels3d_writer "labels" None false EmptyString
                (0, (svA, seg)) in
  shape (put_volume call) = (4, 4, 4)%nat ∧
  voxel (put_volume call) 0 0 3 = voxel seg 1 1 4.
Proof.
  pose proof (written_volume_is_the_box (uniform_labels3D 7) (λ a _ _, a)
                "segmentation" "labels" 1 None false EmptyString 0 svA) as H.
  destruct H as (_ & Hs & _ & _ & Hv).
  - intros name shp off. split; [reflexivity|].
    unfold well_shaped, array_size, uniform_labels3D. cbn [shape data].
    apply bool_decide_eq_true, length_replicate.
  - simpl. lia.
  - unfold box_ordered. simpl. lia.
  - split; [exact Hs|].
    apply (Hv 0%nat 0%nat 3%nat); simpl; lia.
Defined.


(** ** Writing graph elements *)

Lemma graph_elements_split {W} (element_pairs : list ((Z * Z) * W)) :
  ∀ vertices0 edges0,
  foldl (λ (st : list (Z * W) * list (Z * Z * W)) (element_pair : (Z * Z) * W),
           let '(edge, weight) := element_pair in
           let '(v1, v2) := edge in
           if bool_decide (v2 = -1)%Z
           then (st.1 ++ [(v1, weight)], st.2)
           else (st.1, st.2 ++ [(v1, v2, weight)]))
        (vertices0, edges0) element_pairs
  = (vertices0 ++ ((λ p : (Z * Z) * W, (p.1.1, p.2))
                   <$> filter (λ p : (Z * Z) * W, p.1.2 = (-1)%Z) element_pairs),
     edges0 ++ ((λ p : (Z * Z) * W, (p.1.1, p.1.2, p.2))
                <$> filter (λ p : (Z * Z) * W, p.1.2 ≠ (-1)%Z) element_pairs)).
Proof.
  induction element_pairs as [|[[v1 v2] w] l IH]; intros vs es; cbn [foldl].
  - by rewrite !filter_nil, !fmap_nil, !app_nil_r.
  - rewrite !filter_cons. cbn [fst snd]. case_bool_decide as Hv.
    + rewrite IH. cbn [fst snd]. rewrite decide_True by done.
      rewrite decide_False by (intros H; by apply H).
      rewrite fmap_cons. cbn [fst snd]. by rewrite <- app_assoc.
    + rewrite IH. cbn [fst snd]. rewrite decide_False by done.
      rewrite decide_True by done. rewrite fmap_cons. cbn [fst snd].
      by rewrite <- app_assoc.
Qed.

(** X20.  The writer of graph elements sends every element of a
    partition exactly once: the elements whose second node is -1 as
    vertices, in their order, in one [update_vertices] call, the others as
    edges in one [update_edges] call after it.  It never issues a call
    with an empty list, and for a partition that is [None] it issues no
    call at all. *)
Theorem graph_elements_written_once {W} (graph_name : string)
    (element_pairs : list ((Z * Z) * W)) :
  let vertices := (λ p : (Z * Z) * W, (p.1.1, p.2))
                  <$> filter (λ p : (Z * Z) * W, p.1.2 = (-1)%Z) element_pairs in
  let edges := (λ p : (Z * Z) * W, (p.1.1, p.1.2, p.2))
               <$> filter (λ p : (Z * Z) * W, p.1.2 ≠ (-1)%Z) element_pairs in
  let calls := foreachPartition_graph_elements_writer graph_name (Some element_pairs) in
  calls = (if decide (vertices = []) then [] else [update_vertices graph_name vertices])
          ++ (if decide (edges = []) then [] else [update_edges graph_name edges]) ∧
  Forall (λ c, call_size c ≠ 0%nat) calls ∧
  sum_list_with call_size calls = length element_pairs ∧
  foreachPartition_graph_elements_writer (W := W) graph_name None = [].
Proof.
  intros vertices edges calls.
  assert (Hcalls : calls
            = (if decide (vertices = []) then [] else [update_vertices graph_name vertices])
              ++ (if decide (edges = []) then [] else [update_edges graph_name edges])).
  { unfold calls, foreachPartition_graph_elements_writer.
    rewrite graph_elements_split. cbn [app]. fold vertices edges.
    f_equal.
    - destruct vertices; [done|]. rewrite bool_decide_true by (cbn; lia).
      by rewrite decide_False.
    - destruct edges; [done|]. rewrite bool_decide_true by (cbn; lia).
      by rewrite decide_False. }
  assert (Hlen : (length vertices + length edges = length element_pairs)%nat).
  { unfold vertices, edges. rewrite !length_fmap.
    clear. induction element_pairs as [|p l IH]; [done|].
    rewrite !filter_cons. destruct (decide (p.1.2 = (-1)%Z)) as [Hp|Hp].
    - rewrite decide_False by (intros H; by apply H). cbn [length]. lia.
    - rewrite decide_True by done. cbn [length]. lia. }
  split; [done|]. rewrite Hcalls. clear Hcalls. rewrite <- Hlen.
  destruct (decide (vertices = [])) as [Hv|Hv], (decide (edges = [])) as [He|He];
    rewrite ?Hv, ?He; cbn [app sum_list_with call_size length].
  - split_and!; [constructor | done | done].
  - split_and!; [|lia | done]. repeat constructor. cbn. by destruct edges.
  - split_and!; [|lia | done]. repeat constructor. cbn. by destruct vertices.
  - split_and!; [|lia | done].
    repeat constructor; cbn; [by destruct vertices | by destruct edges].
Qed.

(** ** The integration test driver *)

Lemma compare_loop_spec (debug1 debug2 : list string) :
  length debug1 = length debug2 →
  foldr (λ iter1 rest,
           if bool_decide (debug1 !! iter1 ≠ debug2 !! iter1) then false else rest)
        true (seq 0 (length debug1)) = true
  ↔ debug1 = debug2.
Proof.
  intros Hlen.
  assert (H : ∀ n k, foldr (λ iter1 rest,
                if bool_decide (debug1 !! iter1 ≠ debug2 !! iter1) then false else rest)
                true (seq k n) = true
              ↔ ∀ i, (k ≤ i < k + n)%nat → debug1 !! i = debug2 !! i).
  { induction n as [|n IH]; intros k; cbn [seq foldr].
    - split; [intros _ i Hi; lia | done].
    - case_bool_decide as Hk.
      + split; [done|]. intros H. exfalso. apply Hk, H. lia.
      + rewrite IH. split.
        * intros H i Hi. destruct (decide (i = k)) as [->|]; [done | apply H; lia].
        * intros H i Hi. apply H. lia. }
  rewrite H. split.
  - intros Heq. apply list_eq. intros i.
    destruct (decide (i < length debug1)%nat) as [Hi|Hi]; [apply Heq; lia|].
    rewrite !lookup_ge_None_2 by lia. done.
  - by intros ->.
Qed.

(** X21.  A test passes exactly when the job exited cleanly, the lines of
    its output that contain "DEBUG:" are, in number, order and content, the
    lines of the expected output that contain "DEBUG:", and the test's
    [checkoutput.py], if it has one, succeeded.  Lines without "DEBUG:" on
    either side have no influence. *)
Theorem run_test_passes_iff_debug_lines_match (job : option (list string))
    (correct_lines : list string) (checkoutput : option bool) :
  run_test job correct_lines checkoutput = true
  ↔ ∃ result_lines, job = Some result_lines ∧
      filter (λ line, string_find line "DEBUG:" ≠ (-1)%Z) result_lines
      = filter (λ line, string_find line "DEBUG:" ≠ (-1)%Z) correct_lines ∧
      checkoutput ≠ Some false.
Proof.
  unfold run_test. destruct job as [result_lines|].
  2: { split; [done | by intros (? & [=] & _)]. }
  set (debug1 := filter _ result_lines). set (debug2 := filter _ correct_lines).
  assert (Hcmp : (if bool_decide (length debug1 ≠ length debug2) then false
                  else foldr (λ iter1 rest,
                         if bool_decide (debug1 !! iter1 ≠ debug2 !! iter1) then false
                         else rest) true (seq 0 (length debug1))) = true
                 ↔ debug1 = debug2).
  { case_bool_decide as Hlen.
    - split; [done|]. intros Heq. by rewrite Heq in Hlen.
    - by apply compare_loop_spec. }
  split.
  - intros H. exists result_lines. split; [done|].
    destruct checkoutput as [[|]|]; [| done |]; (split; [by apply Hcmp | done]).
  - intros (rl & [= <-] & Heq & Hck).
    destruct checkoutput as [[|]|]; [| done |]; by apply Hcmp.
Qed.

Section run_tests_facts.
Variable run_one : string → string → bool.
Variables (selected : gset string) (stop_after_fail : bool).

(** What the loop has recorded after any number of tests. *)
Lemma run_tests_loop_inv (ts : list (string * string)) :
  let st := run_tests_loop run_one selected stop_after_fail ts in
  st.1.*1 `prefix_of` ts.*1 ∧
  (st.2 = false → st.1.*1 = ts.*1) ∧
  (stop_after_fail = false → st.2 = false) ∧
  (st.2 = true → ∃ pre name, st.1 = pre ++ [(name, Some false)]
                             ∧ ∀ n, (n, Some false) ∉ pre) ∧
  (stop_after_fail = true → st.2 = false → ∀ n, (n, Some false) ∉ st.1) ∧
  (∀ name r, (name, Some r) ∈ st.1 →
     name ∈ selected ∧ ∃ workflow_name, (name, workflow_name) ∈ ts
                                         ∧ r = run_one name workflow_name) ∧
  (∀ name, (name, None) ∈ st.1 → name ∉ selected).
Proof.
  induction ts as [|[test_name workflow_name] ts IH] using rev_ind.
  - cbn. split_and!; try done.
    + intros _ _ n ?%elem_of_nil. done.
    + intros ? ? ?%elem_of_nil. done.
    + intros ? ?%elem_of_nil. done.
  - unfold run_tests_loop in *. rewrite foldl_snoc. cbn zeta in *.
    set (st := foldl _ _ ts) in *.
    destruct IH as (Hpre & Hall & Hstop & Hbrk & Hclean & Hsome & Hnone).
    destruct (st.2) eqn:Ebrk.
    + (* the loop was left already *)
      split_and!.
      * rewrite fmap_app. by apply prefix_app_r.
      * by rewrite Ebrk.
      * intros Hs. rewrite Ebrk. by apply Hstop.
      * intros _. by apply Hbrk.
      * by rewrite Ebrk.
      * intros name' r Hin. destruct (Hsome _ _ Hin) as (? & wf & ? & ?).
        split; [done|]. exists wf. split; [|done]. apply elem_of_app. by left.
      * done.
    + specialize (Hall eq_refl). case_bool_decide as Hsel; cbn [fst snd].
      * split_and!.
        -- rewrite !fmap_app, Hall. done.
        -- intros _. rewrite !fmap_app, Hall. done.
        -- intros ->. by rewrite andb_false_r.
        -- intros [Hr Hs]%andb_true_iff. apply negb_true_iff in Hr.
           exists st.1, test_name. rewrite Hr. split; [done|]. by apply Hclean.
        -- intros Hs Hb n [Hin|[= -> Hr]%list_elem_of_singleton]%elem_of_app.
           ++ by apply (Hclean Hs eq_refl n).
           ++ rewrite <- Hr, Hs in Hb. done.
        -- intros name r [Hin|[= -> ->]%list_elem_of_singleton]%elem_of_app.
           ++ destruct (Hsome _ _ Hin) as (? & wf & ? & ?).
              split; [done|]. exists wf. split; [|done]. apply elem_of_app. by left.
           ++ split; [done|]. exists workflow_name. split; [|done].
              apply elem_of_app. right. by left.
        -- intros name [Hin|[=]%list_elem_of_singleton]%elem_of_app. by apply Hnone.
      * split_and!.
        -- rewrite !fmap_app, Hall. done.
        -- intros _. rewrite !fmap_app, Hall. done.
        -- done.
        -- done.
        -- intros Hs _ n [Hin|[=]%list_elem_of_singleton]%elem_of_app.
           by apply (Hclean Hs eq_refl n).
        -- intros name r [Hin|[=]%list_elem_of_singleton]%elem_of_app.
           destruct (Hsome _ _ Hin) as (? & wf & ? & ?).
           split; [done|]. exists wf. split; [|done]. apply elem_of_app. by left.
        -- intros name [Hin|[= ->]%list_elem_of_singleton]%elem_of_app;
             [by apply Hnone | done].
Qed.

(** With [stop_after_fail] a failure is the last thing recorded. *)
Lemma run_tests_loop_failure_last (ts : list (string * string)) i name :
  stop_after_fail = true →
  (run_tests_loop run_one selected stop_after_fail ts).1 !! i = Some (name, Some false) →
  S i = length (run_tests_loop run_one selected stop_after_fail ts).1.
Proof.
  intros Hs Hi.
  destruct (run_tests_loop_inv ts) as (_ & _ & _ & Hbrk & Hclean & _).
  destruct ((run_tests_loop run_one selected stop_after_fail ts).2) eqn:Eb.
  - destruct (Hbrk eq_refl) as (pre & n & Hst & Hpre). rewrite Hst in Hi |- *.
    rewrite length_app. cbn [length].
    apply lookup_app_Some in Hi as [Hi|[Hge Hi]].
    + exfalso. apply (Hpre name). by eapply list_elem_of_lookup_2.
    + apply list_lookup_singleton_Some in Hi as [Hi _]. lia.
  - exfalso. apply (Hclean Hs eq_refl name). by eapply list_elem_of_lookup_2.
Qed.

End run_tests_facts.

(** X22.  [run_tests] refuses a selection that names an unknown test.
    Otherwise it records outcomes for the tests in their fixed order: a
    test is run only if it is selected (with no selection: every test but
    "test_seg_multicut"), a test that is not selected is recorded as
    skipped, and the outcome recorded is the one [run_test] gave.  With
    [stop_after_fail] a failure is the last thing recorded, the tests after
    it getting no entry at all; without it every test gets an entry. *)
Theorem run_tests_outcomes (run_one : string → string → bool) (selected : list string)
    (stop_after_fail : bool) :
  ((∃ name, name ∈ selected ∧ name ∉ tests.*1) →
     ∃ msg, run_tests run_one selected stop_after_fail = Raise (AssertionError msg)) ∧
  ((∀ name, name ∈ selected → name ∈ tests.*1) →
     ∃ results, run_tests run_one selected stop_after_fail = Ok results ∧
       results.*1 `prefix_of` tests.*1 ∧
       (stop_after_fail = false → results.*1 = tests.*1) ∧
       (∀ name r, (name, Some r) ∈ results →
          (if decide (selected = []) then name ≠ "test_seg_multicut" else name ∈ selected) ∧
          ∃ workflow_name, (name, workflow_name) ∈ tests ∧ r = run_one name workflow_name) ∧
       (∀ name, (name, None) ∈ results →
          if decide (selected = []) then name = "test_seg_multicut" else name ∉ selected) ∧
       (stop_after_fail = true →
          ∀ i name, results !! i = Some (name, Some false) → S i = length results)).
Proof.
  unfold run_tests. generalize tests. intros ts.
  assert (Hempty : list_to_set selected = (∅ : gset string) ↔ selected = []).
  { split; [|by intros ->]. destruct selected as [|x l]; [done|].
    intros H. exfalso. assert (x ∈ (∅ : gset string)) by (rewrite <- H; set_solver).
    set_solver. }
  split.
  - intros (name & Hin & Hnot). rewrite bool_decide_false.
    2: { rewrite Hempty. intros ->. by apply elem_of_nil in Hin. }
    unfold assert. rewrite bool_decide_false; [by eexists|].
    intros Hsub. apply Hnot. specialize (Hsub name). rewrite !elem_of_list_to_set in Hsub.
    by apply Hsub.
  - intros Hknown. destruct (decide (selected = [])) as [->|Hne].
    + rewrite bool_decide_true by done. unfold assert.
      rewrite bool_decide_true by set_solver. cbn [mbind result_bind].
      eexists. split; [reflexivity|].
      destruct (run_tests_loop_inv run_one
                  (list_to_set ts.*1 ∖ {["test_seg_multicut"]}) stop_after_fail ts)
        as (Hpre & Hall & Hstop & _ & _ & Hsome & Hnone).
      split_and!.
      * done.
      * intros Hs. apply Hall. by apply Hstop.
      * intros name r Hin. destruct (Hsome _ _ Hin) as (Hsel & Hwf). split; [|done].
        set_solver.
      * intros name Hin. specialize (Hnone _ Hin).
        assert (Hname : name ∈ ts.*1).
        { destruct Hpre as [k Hk]. rewrite Hk. apply elem_of_app. left.
          apply list_elem_of_fmap. by exists (name, None). }
        destruct (decide (name = "test_seg_multicut")) as [|Hnm]; [done|].
        exfalso. apply Hnone. apply elem_of_difference. split; [by apply elem_of_list_to_set|].
        by apply not_elem_of_singleton.
      * intros Hs i name. by apply run_tests_loop_failure_last.
    + rewrite bool_decide_false by (by rewrite Hempty). unfold assert.
      rewrite bool_decide_true.
      2: { intros name. rewrite !elem_of_list_to_set. apply Hknown. }
      cbn [mbind result_bind]. eexists. split; [reflexivity|].
      destruct (run_tests_loop_inv run_one (list_to_set selected) stop_after_fail ts)
        as (Hpre & Hall & Hstop & _ & _ & Hsome & Hnone).
      split_and!.
      * done.
      * intros Hs. apply Hall. by apply Hstop.
      * intros name r Hin. destruct (Hsome _ _ Hin) as (Hsel & Hwf). split; [|done].
        by apply elem_of_list_to_set in Hsel.
      * intros name Hin. specialize (Hnone _ Hin). by rewrite elem_of_list_to_set in Hnone.
      * intros Hs i name. by apply run_tests_loop_failure_last.
Qed.


(** ** [_split_body_mappings] returns *)

Lemma dict_size_NoDup (l : list (N * N)) : NoDup l.*1 → size (dict l) = length l.
Proof.
  intros Hnd. by rewrite <- size_dom, dict_dom, size_list_to_set, length_fmap.
Qed.

Lemma dict_lookup_iff (l : list (N * N)) k v :
  NoDup l.*1 → dict l !! k = Some v ↔ (k, v) ∈ l.
Proof. intros Hnd. split; [apply dict_lookup_Some | by apply dict_lookup_NoDup]. Qed.

Lemma lookup_range start len j :
  (j < len)%nat → range start len !! j = Some (start + N.of_nat j).
Proof.
  intros Hj. unfold range. rewrite list_lookup_fmap, lookup_seq_lt by done. cbn. f_equal. lia.
Qed.

Lemma length_range start len : length (range start len) = len.
Proof. unfold range. by rewrite length_fmap, length_seq. Qed.

Lemma NoDup_range start len : NoDup (range start len).
Proof.
  unfold range. apply NoDup_fmap_2; [|apply NoDup_seq]. intros a b. lia.
Qed.

Lemma elem_of_zip_range (ids : list N) start len x y :
  (length ids ≤ len)%nat →
  (x, y) ∈ zip ids (range start len) ↔ ∃ j, ids !! j = Some x ∧ y = start + N.of_nat j.
Proof.
  intros Hlen. rewrite list_elem_of_lookup. split.
  - intros [j Hj]. exists j. rewrite lookup_zip_with in Hj.
    destruct (ids !! j) as [x'|] eqn:Ex; [|done]. cbn in Hj.
    rewrite lookup_range in Hj by (apply lookup_lt_Some in Ex; lia).
    cbn in Hj. by injection Hj as -> ->.
  - intros (j & Hj & ->). exists j. rewrite lookup_zip_with, Hj. cbn.
    rewrite lookup_range by (apply lookup_lt_Some in Hj; lia). done.
Qed.

Lemma omap_total_dom (f : N → option N) (m : gmap N N) :
  map_Forall (λ _ v, is_Some (f v)) m → dom (omap f m) = dom m.
Proof.
  intros Hall. apply set_eq. intros k. rewrite !elem_of_dom, lookup_omap.
  destruct (m !! k) as [v|] eqn:E; cbn.
  - split; [by eexists | intros _; by apply (Hall k v)].
  - split; intros [? ?]; done.
Qed.

(** Clearing entries of the boolean table leaves the others in place. *)
Lemma elem_of_foldl_set_false_keeps (mains : list (N * N)) : ∀ m e,
  e ∈ coo_entries m → e.1 ∉ mains →
  e ∈ coo_entries (foldl (λ m (rc : N * N), set_false rc.1 rc.2 m) m mains).
Proof.
  induction mains as [|[i s] mains IH]; intros m e He Hnot; cbn [foldl]; [done|].
  apply IH; [|intros ?; apply Hnot; by right].
  cbn. apply list_elem_of_fmap. exists e. split; [|done].
  rewrite bool_decide_false; [done|]. intros Heq. apply Hnot. rewrite Heq. by left.
Qed.

Lemma reverse_dict_size (d rev : gmap N N) : reverse_dict d = Ok rev → size rev = size d.
Proof.
  unfold reverse_dict, assert. case_bool_decide as Hsize; [|done].
  cbn [mbind result_bind]. by intros [= <-].
Qed.

Section split_body_total.
Variables labels_orig labels_split : ndarray.
Hypothesis Hlab : component_labelling labels_orig labels_split.
Hypothesis Hne : data labels_orig ≠ [].
Hypothesis H31o : Forall (λ n, n < 2 ^ 31) (data labels_orig).
Hypothesis H31s : Forall (λ n, n < 2 ^ 31) (data labels_split).
Hypothesis Hocc : ∀ c, 1 ≤ c →
  (N.to_nat c ≤ max_list_with N.to_nat (data labels_orig))%nat → c ∈ data labels_orig.

Let n := max_list_with N.to_nat (data labels_orig).
Let ms := max_list_with N.to_nat (data labels_split).
Let pairs : list (N * N) := zip (data labels_orig) (data labels_split).
Let tbl : coo_matrix :=
  sum_duplicates {| coo_shape := (S n, S ms);
                    coo_entries := (λ p : N * N, (p.1, p.2, 1)) <$> pairs |}.

Lemma split_table_Ok :
  contingency_table labels_orig labels_split true = Ok (Sparse tbl) ∧
  ∀ r c, table_get (Sparse tbl) r c = count_pairs (data labels_orig) (data labels_split) r c.
Proof.
  destruct Hlab as (Hlen & _).
  destruct (contingency_table_counts labels_orig labels_split true Hlen Hne H31o H31s)
    as (t & Ht & Hget).
  assert (H32 : ∀ l, Forall (λ n, n < 2 ^ 31) l → Forall (λ n, n < 2 ^ 32) l).
  { intros l Hl. eapply Forall_impl; [exact Hl|]. intros x. cbn. lia. }
  destruct (contingency_table_sparse_inv _ _ _ (H32 _ H31o) (H32 _ H31s) Ht)
    as (_ & _ & _ & _ & ->).
  done.
Qed.

Lemma pairs_bound c s : (c, s) ∈ pairs → (N.to_nat c ≤ n)%nat ∧ (N.to_nat s ≤ ms)%nat.
Proof.
  intros Hin. split.
  - apply elem_of_zip_l in Hin. by apply (max_list_with_ge N.to_nat).
  - apply elem_of_zip_r in Hin. by apply (max_list_with_ge N.to_nat).
Qed.

Lemma pairs_occurs c : (N.to_nat c ≤ n)%nat → c ≠ 0 → ∃ s, (c, s) ∈ pairs.
Proof.
  intros Hc Hnz. destruct Hlab as (Hlen & _).
  apply (elem_of_zip_pair (data labels_orig) (data labels_split) c Hlen).
  apply Hocc; [lia | done].
Qed.

Lemma split_main_exists :
  ∃ main, row_argmax (Sparse tbl) = Ok main ∧ length main = S n ∧
    (∀ r c, main !! r = Some c → lowest_argmax (Sparse tbl) (N.of_nat r) c) ∧
    (∀ r s, main !! r = Some s → (N.of_nat r, s) ∈ pairs ∨ (r = 0%nat ∧ s = 0)).
Proof.
  assert (Hcanon : canonical tbl).
  { apply sum_duplicates_canonical. cbn.
    apply Forall_forall. intros e ([a b] & -> & Hin)%list_elem_of_fmap. cbn.
    apply pairs_bound in Hin. lia. }
  destruct (sparse_row_argmax tbl Hcanon) as (main & Hmain & Hmlen & Hlow).
  exists main. split; [done|]. split; [done|]. split; [done|].
  apply sparse_row_argmax_stored in Hmain as [_ Hstored].
  - intros r s Hrs. destruct (Hstored _ _ Hrs) as [[d Hd]|[-> Hempty]].
    + left. by apply (table_entries_sound labels_orig labels_split (N.of_nat r, s, d)).
    + destruct (decide (r = 0%nat)) as [->|Hr0]; [by right|]. exfalso.
      apply lookup_lt_Some in Hrs. rewrite Hmlen in Hrs. cbn in Hrs.
      destruct (pairs_occurs (N.of_nat r)) as [s' Hs']; [lia | lia |].
      destruct (table_entries_complete labels_orig labels_split _ _ Hs') as [d Hd].
      by apply (Hempty s' d).
  - by destruct Hcanon.
  - apply Forall_forall. intros e He. by apply (table_entries_sound labels_orig labels_split).
Qed.

Section with_main.
Variable main : list N.
Hypothesis Hmlen : length main = S n.
Hypothesis MR : ∀ r s, main !! r = Some s → (N.of_nat r, s) ∈ pairs ∨ (r = 0%nat ∧ s = 0).

Lemma main_zero : main !! 0%nat = Some 0.
Proof.
  destruct (lookup_lt_is_Some_2 main 0) as [s Hs]; [lia|]. rewrite Hs. f_equal.
  destruct (MR _ _ Hs) as [Hin|[_ ?]]; [|done].
  by apply (labelling_zero labels_orig labels_split Hlab 0 s).
Qed.

Lemma main_pair r s : main !! r = Some s → r ≠ 0%nat → (N.of_nat r, s) ∈ pairs ∧ s ≠ 0.
Proof.
  intros Hs Hr. destruct (MR _ _ Hs) as [Hin|[? _]]; [|done]. split; [done|].
  intros ->. apply (labelling_zero labels_orig labels_split Hlab) in Hin. lia.
Qed.

Lemma main_inj r r' s : main !! r = Some s → main !! r' = Some s → r = r'.
Proof.
  intros Hr Hr'.
  destruct (decide (r = 0)%nat) as [->|Hnz], (decide (r' = 0)%nat) as [->|Hnz']; [done|..].
  - rewrite main_zero in Hr. injection Hr as <-. by destruct (main_pair _ _ Hr' Hnz').
  - rewrite main_zero in Hr'. injection Hr' as <-. by destruct (main_pair _ _ Hr Hnz).
  - destruct (main_pair _ _ Hr Hnz) as [H1 _], (main_pair _ _ Hr' Hnz') as [H2 _].
    pose proof (labelling_functional labels_orig labels_split Hlab _ _ _ H1 H2). lia.
Qed.

Let mp : list (N * N) := (λ orig, (default 0 (main !! orig), N.of_nat orig)) <$> seq 0 (S n).

Lemma split_main_pairs_Ok :
  mapM (λ orig, s ← of_option (main !! orig) IndexError; Ok (s, N.of_nat orig)) (seq 0 (S n))
  = Ok mp.
Proof.
  apply mapM_Ok_fmap. intros orig Ho%elem_of_seq.
  destruct (lookup_lt_is_Some_2 main orig) as [s Hs]; [lia|]. by rewrite Hs.
Qed.

Lemma elem_of_mp s y : (s, y) ∈ mp ↔ main !! N.to_nat y = Some s.
Proof.
  unfold mp. rewrite list_elem_of_fmap. split.
  - intros (orig & [= -> ->] & Ho%elem_of_seq). rewrite Nat2N.id.
    destruct (lookup_lt_is_Some_2 main orig) as [s Hs]; [lia|]. by rewrite Hs.
  - intros Hs. exists (N.to_nat y). rewrite Hs, N2Nat.id. split; [done|].
    apply elem_of_seq. apply lookup_lt_Some in Hs. lia.
Qed.

Lemma NoDup_mp : NoDup mp.*1.
Proof.
  unfold mp. rewrite <- list_fmap_compose. apply NoDup_fmap_2_strong; [|apply NoDup_seq].
  intros r r' Hr%elem_of_seq Hr'%elem_of_seq. cbn. intros Heq.
  destruct (lookup_lt_is_Some_2 main r) as [s Hs]; [lia|].
  destruct (lookup_lt_is_Some_2 main r') as [s' Hs']; [lia|].
  rewrite Hs, Hs' in Heq. cbn in Heq. subst. by eapply main_inj.
Qed.

Lemma mains_lookup s y : dict mp !! s = Some y ↔ main !! N.to_nat y = Some s.
Proof. rewrite dict_lookup_iff by apply NoDup_mp. apply elem_of_mp. Qed.

Let ids : list N :=
  unique (nonzero (foldl (λ m (rc : N * N), set_false rc.1 rc.2 m) (astype_bool (tocsr tbl))
                         (imap (λ i s, (N.of_nat i, s)) main))).*2.

Lemma ids_spec x : x ∈ ids ↔ ∃ r, (r, x) ∈ pairs ∧ main !! N.to_nat r ≠ Some x.
Proof.
  unfold ids. rewrite elem_of_unique. split.
  - apply (nonmain_ids_spec labels_orig labels_split (S n, S ms) main x).
  - intros (r & Hin & Hnot).
    destruct (csr_entries_complete labels_orig labels_split r x Hin) as (d & Hd & Hdnz).
    apply list_elem_of_fmap. exists (r, x). split; [done|].
    unfold nonzero. apply list_elem_of_fmap. exists (r, x, 1). split; [done|].
    apply list_elem_of_filter. split; [done|].
    apply elem_of_foldl_set_false_keeps.
    + cbn. apply list_elem_of_fmap. exists (r, x, d). split; [|done].
      cbn. by rewrite bool_decide_false.
    + cbn. intros [i Hi]%list_elem_of_lookup. rewrite list_lookup_imap in Hi.
      destruct (main !! i) as [s|] eqn:Es; [|done]. cbn in Hi. injection Hi as <- <-.
      apply Hnot. by rewrite Nat2N.id.
Qed.

Lemma ids_range x : x ∈ ids → x ≠ 0 ∧ (N.to_nat x ≤ ms)%nat.
Proof.
  intros (r & Hin & Hnot)%ids_spec. split; [|by apply pairs_bound in Hin as [_ ?]].
  intros ->. assert (r = 0) as -> by (by apply (labelling_zero labels_orig labels_split Hlab r 0)).
  apply Hnot. apply main_zero.
Qed.

Lemma ids_not_main x r : x ∈ ids → main !! r ≠ Some x.
Proof.
  intros Hx Hr. pose proof (ids_range _ Hx) as [Hnz _].
  apply ids_spec in Hx as (r' & Hin & Hnot).
  destruct (decide (r = 0%nat)) as [->|Hr0].
  - rewrite main_zero in Hr. by injection Hr.
  - destruct (main_pair _ _ Hr Hr0) as [H1 _].
    pose proof (labelling_functional labels_orig labels_split Hlab _ _ _ H1 Hin). subst r'.
    apply Hnot. by rewrite Nat2N.id.
Qed.

Lemma ids_count : (length ids + n ≤ ms)%nat.
Proof.
  set (mids := (λ r, default 0 (main !! r)) <$> seq 1 n).
  assert (Hnd : NoDup mids).
  { apply NoDup_fmap_2_strong; [|apply NoDup_seq].
    intros r r' Hr%elem_of_seq Hr'%elem_of_seq Heq.
    destruct (lookup_lt_is_Some_2 main r) as [s Hs]; [lia|].
    destruct (lookup_lt_is_Some_2 main r') as [s' Hs']; [lia|].
    rewrite Hs, Hs' in Heq. cbn in Heq. subst. by eapply main_inj. }
  assert (Hdisj : (list_to_set ids : gset N) ## list_to_set mids).
  { apply elem_of_disjoint. intros x Hx%elem_of_list_to_set Hm%elem_of_list_to_set.
    apply list_elem_of_fmap in Hm as (r & -> & Hr%elem_of_seq).
    destruct (lookup_lt_is_Some_2 main r) as [s Hs]; [lia|]. rewrite Hs in Hx. cbn in Hx.
    by apply (ids_not_main s r). }
  assert (Hsub : (list_to_set ids ∪ list_to_set mids : gset N) ⊆ list_to_set (range 1 ms)).
  { assert (Hr : ∀ x, x ≠ 0 → (N.to_nat x ≤ ms)%nat → x ∈ range 1 ms).
    { intros x Hnz Hle. unfold range. apply list_elem_of_fmap. exists (N.to_nat x).
      split; [lia|]. apply elem_of_seq. lia. }
    intros x [Hx|Hx]%elem_of_union; apply elem_of_list_to_set in Hx; apply elem_of_list_to_set.
    - apply ids_range in Hx as [Hnz Hle]. by apply Hr.
    - apply list_elem_of_fmap in Hx as (r & -> & Hrs%elem_of_seq).
      destruct (lookup_lt_is_Some_2 main r) as [s Hs]; [lia|]. rewrite Hs. cbn.
      destruct (main_pair _ _ Hs) as [Hin Hnz]; [lia|].
      apply pairs_bound in Hin as [_ Hle]. by apply Hr. }
  apply subseteq_size in Hsub. rewrite size_union in Hsub by done.
  rewrite !size_list_to_set in Hsub by (done || apply NoDup_unique || apply NoDup_range).
  unfold mids in Hsub. rewrite length_range, length_fmap, length_seq in Hsub. lia.
Qed.

Let nonmain : gmap N N := dict (zip ids (range (N.of_nat (1 + n)) (ms - n))).

Lemma NoDup_nonmain_keys : NoDup (zip ids (range (N.of_nat (1 + n)) (ms - n))).*1.
Proof.
  rewrite fst_zip by (rewrite length_range; pose proof ids_count; lia). apply NoDup_unique.
Qed.

Lemma nonmain_lookup x y :
  nonmain !! x = Some y ↔ ∃ j, ids !! j = Some x ∧ y = N.of_nat (S n + j).
Proof.
  unfold nonmain. rewrite dict_lookup_iff by apply NoDup_nonmain_keys.
  rewrite elem_of_zip_range by (pose proof ids_count; lia).
  split; intros (j & Hj & ->); exists j; (split; [done | lia]).
Qed.

Let s2nc : gmap N N := nonmain ∪ dict mp.

Lemma s2nc_lookup s y :
  s2nc !! s = Some y ↔
  (∃ j, ids !! j = Some s ∧ y = N.of_nat (S n + j)) ∨ main !! N.to_nat y = Some s.
Proof.
  unfold s2nc. rewrite lookup_union_Some_raw, nonmain_lookup, mains_lookup. split.
  - intros [?|[_ ?]]; auto.
  - intros [?|Hm]; [by left|]. right. split; [|done].
    destruct (nonmain !! s) as [y'|] eqn:E; [|done]. exfalso.
    apply nonmain_lookup in E as (j & Hj & _). apply list_elem_of_lookup_2 in Hj.
    by apply (ids_not_main s (N.to_nat y)).
Qed.

Lemma s2nc_injective : injective_dict s2nc.
Proof.
  intros s s' y [(j & Hj & ->)|Hm]%s2nc_lookup [(j' & Hj' & Heq)|Hm']%s2nc_lookup.
  - assert (j = j') by lia. subst. congruence.
  - apply lookup_lt_Some in Hm'. lia.
  - apply lookup_lt_Some in Hm. lia.
  - congruence.
Qed.

Lemma s2nc_dom s : is_Some (s2nc !! s) ↔ s = 0 ∨ ∃ c, (c, s) ∈ pairs.
Proof.
  split.
  - intros [y [(j & Hj & _)|Hm]%s2nc_lookup].
    + apply list_elem_of_lookup_2, ids_spec in Hj as (r & Hr & _). right. by exists r.
    + destruct (MR _ _ Hm) as [Hin|[_ ->]]; [right; by eexists | by left].
  - intros [->|[c Hc]].
    + exists 0. apply s2nc_lookup. right. apply main_zero.
    + destruct (decide (main !! N.to_nat c = Some s)) as [Hm|Hnm].
      * exists c. apply s2nc_lookup. by right.
      * assert (s ∈ ids) as [j Hj]%list_elem_of_lookup by (apply ids_spec; by exists c).
        eexists. apply s2nc_lookup. left. by exists j.
Qed.

Lemma s2nc_size : size s2nc = (S n + length ids)%nat.
Proof.
  unfold s2nc. rewrite map_size_disj_union.
  - unfold nonmain. rewrite !dict_size_NoDup by (apply NoDup_nonmain_keys || apply NoDup_mp).
    unfold mp. rewrite length_fmap, length_seq.
    rewrite <- (length_fmap fst (zip _ _)), fst_zip
      by (rewrite length_range; pose proof ids_count; lia). lia.
  - apply map_disjoint_spec. intros s y y' (j & Hj & _)%nonmain_lookup Hm%mains_lookup.
    apply list_elem_of_lookup_2 in Hj. by apply (ids_not_main s (N.to_nat y')).
Qed.

Lemma s2nc_values s y : s2nc !! s = Some y → (N.to_nat y ≤ n + length ids)%nat.
Proof.
  intros [(j & Hj & ->)|Hm]%s2nc_lookup.
  - apply lookup_lt_Some in Hj. lia.
  - apply lookup_lt_Some in Hm. lia.
Qed.

Lemma s2nc_onto y : (N.to_nat y ≤ n + length ids)%nat → ∃ s, s2nc !! s = Some y.
Proof.
  intros Hy. destruct (decide (N.to_nat y ≤ n)%nat) as [Hlow|Hhigh].
  - destruct (lookup_lt_is_Some_2 main (N.to_nat y)) as [s Hs]; [lia|].
    exists s. apply s2nc_lookup. by right.
  - destruct (lookup_lt_is_Some_2 ids (N.to_nat y - S n)) as [s Hs]; [lia|].
    exists s. apply s2nc_lookup. left. exists (N.to_nat y - S n)%nat. split; [done | lia].
Qed.

Let s2o : gmap N N := <[0 := 0]> (dict (prod_swap <$> nonzero (tocsr tbl))).

Lemma s2o_spec :
  (∀ c s, (c, s) ∈ pairs → s2o !! s = Some c) ∧
  (∀ s c, s2o !! s = Some c → (s = 0 ∧ c = 0) ∨ (c, s) ∈ pairs).
Proof. apply (split_to_orig_spec labels_orig labels_split Hlab (S n, S ms)). Qed.

Lemma s2o_dom s : is_Some (s2o !! s) ↔ s = 0 ∨ ∃ c, (c, s) ∈ pairs.
Proof.
  destruct s2o_spec as [S1 S2]. split.
  - intros [c [[-> _]|Hin]%S2]; [by left | right; by exists c].
  - intros [->|[c Hc]]; [|exists c; by apply S1].
    unfold s2o. rewrite lookup_insert_eq. by eexists.
Qed.

Lemma split_body_mappings_with_main :
  row_argmax (Sparse tbl) = Ok main →
  ∃ nc2o, _split_body_mappings labels_orig labels_split = Ok (s2nc, nc2o) ∧
    ∀ y c, nc2o !! y = Some c ↔ ∃ s, s2nc !! s = Some y ∧ s2o !! s = Some c.
Proof.
  intros Hmain. unfold _split_body_mappings.
  rewrite (proj1 split_table_Ok). cbn [mbind result_bind].
  assert (E1 : ((coo_shape tbl).1 - 1)%nat = n) by (cbn; lia).
  assert (E2 : ((coo_shape tbl).2 - 1)%nat = ms) by (cbn; lia).
  rewrite !E1, !E2. cbn [matrix_argmax]. rewrite Hmain. cbn [mbind result_bind].
  change (1 + n)%nat with (S n). rewrite split_main_pairs_Ok. cbn [mbind result_bind].
  fold ids. fold s2o.
  change (dict (zip ids (range (N.of_nat (S n)) (ms - n))) ∪ dict mp) with s2nc.
  assert (Hsize : size s2nc = size s2o).
  { rewrite <- !size_dom. f_equal. apply set_eq. intros s.
    by rewrite !elem_of_dom, s2nc_dom, s2o_dom. }
  unfold assert. rewrite (bool_decide_true (size s2nc = size s2o)) by done.
  cbn [mbind result_bind].
  destruct (reverse_dict_injective s2nc s2nc_injective) as [nc2s Hrev].
  rewrite Hrev. cbn [mbind result_bind compose_mappings foldM].
  pose proof (reverse_dict_spec _ _ Hrev) as R.
  assert (Hall : map_Forall (λ _ v, is_Some (s2o !! v)) nc2s).
  { intros y s Hy. apply R in Hy. apply s2o_dom, s2nc_dom. by eexists. }
  rewrite (compose2_Ok _ _ Hall). cbn [mbind result_bind].
  rewrite bool_decide_true.
  - eexists. split; [reflexivity|]. intros y c. rewrite lookup_omap. split.
    + destruct (nc2s !! y) as [s|] eqn:Es; [|done]. cbn. intros Hc.
      exists s. split; [by apply R | done].
    + intros (s & Hs & Hc). apply R in Hs. by rewrite Hs.
  - rewrite <- (size_dom (omap _ _)), (omap_total_dom _ _ Hall), size_dom.
    symmetry. by apply reverse_dict_size.
Qed.

Lemma split_body_mappings_main_facts :
  (∀ r s, main !! r = Some s → largest_piece labels_orig labels_split (N.of_nat r) s) →
  row_argmax (Sparse tbl) = Ok main →
  ∃ (s2nc' nc2o : gmap N N) (k : nat),
    _split_body_mappings labels_orig labels_split = Ok (s2nc', nc2o) ∧
    split_mappings_inv labels_orig labels_split main s2nc' nc2o k.
Proof.
  intros Hlarge Hmain.
  destruct (split_body_mappings_with_main Hmain) as (nc2o & HOk & Hnc2o).
  destruct s2o_spec as [S1 S2].
  exists s2nc, nc2o, (length ids). split; [done|]. split.
  - done.
  - done.
  - done.
  - apply s2nc_size.
  - apply s2nc_injective.
  - apply s2nc_values.
  - intros y [s Hs]%s2nc_onto.
    destruct (proj2 (s2o_dom s)) as [c Hc]; [apply s2nc_dom; by eexists|].
    exists c. apply Hnc2o. by exists s.
  - intros y c (s & Hs & Hc)%Hnc2o. split.
    + exists s. split; [done|]. destruct (S2 _ _ Hc) as [?|?]; [by right | by left].
    + intros Hy. apply s2nc_lookup in Hs as [(j & _ & ->)|Hm]; [lia|].
      destruct (MR _ _ Hm) as [Hys|[Hy0 ->]], (S2 _ _ Hc) as [[Hs0 ->]|Hcs].
      * subst s. rewrite N2Nat.id in Hys.
        by apply (labelling_zero labels_orig labels_split Hlab y 0).
      * rewrite N2Nat.id in Hys.
        by apply (labelling_functional labels_orig labels_split Hlab y c s).
      * lia.
      * assert (c = 0) as -> by (by apply (labelling_zero labels_orig labels_split Hlab c 0)).
        lia.
  - intros c s Hcs.
    destruct (proj2 (s2nc_dom s)) as [y Hy]; [right; by exists c|].
    exists y. split; [done|]. split; [apply Hnc2o; exists s; split; [done | by apply S1]|].
    split.
    + intros Hm. assert (s2nc !! s = Some c) as Hc by (apply s2nc_lookup; by right).
      congruence.
    + intros Hnm. apply s2nc_lookup in Hy as [(j & _ & ->)|Hm]; [lia|]. exfalso.
      destruct (MR _ _ Hm) as [Hys|[Hy0 ->]].
      * rewrite N2Nat.id in Hys.
        pose proof (labelling_functional labels_orig labels_split Hlab _ _ _ Hys Hcs). by subst.
      * assert (c = 0) as -> by (by apply (labelling_zero labels_orig labels_split Hlab c 0)).
        apply Hnm. apply main_zero.
  - apply s2nc_lookup. right. apply main_zero.
Qed.

End with_main.

Lemma split_body_mappings_section_total :
  ∃ (main : list N) (s2nc nc2o : gmap N N) (k : nat),
    _split_body_mappings labels_orig labels_split = Ok (s2nc, nc2o) ∧
    split_mappings_inv labels_orig labels_split main s2nc nc2o k.
Proof.
  destruct split_main_exists as (main & Hmain & Hmlen & Hlow & MR).
  destruct (split_body_mappings_main_facts main Hmlen MR) as (s2nc & nc2o & k & H);
    [|done|by exists main, s2nc, nc2o, k].
  intros r s Hrs. destruct (Hlow _ _ Hrs) as [H1 H2].
  destruct split_table_Ok as [_ Hget].
  split; [intros s' | intros s' Hs']; rewrite <- !Hget; [apply H1 | by apply H2].
Qed.

End split_body_total.

(** [_split_body_mappings] returns on a component labelling of a volume
    whose positive labels up to the largest all occur. *)
Lemma split_body_mappings_total (labels_orig labels_split : ndarray) :
  component_labelling labels_orig labels_split →
  data labels_orig ≠ [] →
  Forall (λ n, n < 2 ^ 31) (data labels_orig) →
  Forall (λ n, n < 2 ^ 31) (data labels_split) →
  (∀ c, 1 ≤ c → (N.to_nat c ≤ max_list_with N.to_nat (data labels_orig))%nat →
        c ∈ data labels_orig) →
  ∃ (main : list N) (s2nc nc2o : gmap N N) (k : nat),
    _split_body_mappings labels_orig labels_split = Ok (s2nc, nc2o) ∧
    split_mappings_inv labels_orig labels_split main s2nc nc2o k.
Proof. apply split_body_mappings_section_total. Qed.


(** ** [split_disconnected_bodies] returns *)

Lemma reverse_dict_Ok (d : gmap N N) :
  injective_dict d → reverse_dict d = Ok (dict (prod_swap <$> map_to_list d)).
Proof.
  intros [rev Hrev]%reverse_dict_injective. rewrite Hrev. f_equal.
  unfold reverse_dict, assert in Hrev. case_bool_decide; [|done].
  cbn [mbind result_bind] in Hrev. by injection Hrev.
Qed.

(** Renaming the labels of the first volume renames the rows of the
    overlap counts. *)
Lemma count_pairs_relabel (f : N → N) (l1 l2 : list N) x s :
  (∀ x', x' ∈ l1 → f x' = f x → x' = x) →
  count_pairs (f <$> l1) l2 (f x) s = count_pairs l1 l2 x s.
Proof.
  unfold count_pairs. intros Hinj. f_equal. revert l2.
  induction l1 as [|a l1 IH]; intros [|b l2]; try done.
  cbn [fmap list_fmap zip_with]. rewrite !filter_cons.
  destruct (decide ((f a, b) = (f x, s))) as [Heq|Hne],
           (decide ((a, b) = (x, s))) as [Heq'|Hne'].
  - cbn. f_equal. apply IH. intros x' Hx'. apply Hinj. by right.
  - exfalso. injection Heq as Hf ->. apply Hne'. f_equal. apply Hinj; [by left | done].
  - exfalso. injection Heq' as -> ->. done.
  - apply IH. intros x' Hx'. apply Hinj. by right.
Qed.

Lemma largest_piece_unique (a b : ndarray) x s s' :
  largest_piece a b x s → largest_piece a b x s' → s = s'.
Proof.
  intros [H1 H2] [H1' H2'].
  destruct (N.lt_trichotomy s s') as [Hlt|[Heq|Hgt]]; [|done|].
  - specialize (H2' _ Hlt). specialize (H1 s'). lia.
  - specialize (H2 _ Hgt). specialize (H1' s). lia.
Qed.

Section split_total.
Variable labelMultiArrayWithBackground : ndarray → ndarray.
Variables (labels_orig cons : ndarray) (maxc : N) (o2c : gmap N N).
Hypothesis Hrc : relabelConsecutive labels_orig = (cons, maxc, o2c).

Let split : ndarray := labelMultiArrayWithBackground cons.
Hypothesis Hshape : shape split = shape cons.
Hypothesis Hlab : component_labelling cons split.

Let n : nat := max_list_with N.to_nat (data cons).
Let max_orig : N := max_N (elements (dom o2c)).

Variables (main : list N) (s2nc nc2o : gmap N N) (k : nat).
Hypothesis Hmaps : _split_body_mappings cons split = Ok (s2nc, nc2o).
Hypothesis Hsmi : split_mappings_inv cons split main s2nc nc2o k.

Lemma relabel_facts :
  labelmap_inv (data labels_orig) o2c ∧ maxc = N.of_nat (size o2c) - 1 ∧
  shape cons = shape labels_orig ∧
  Forall2 (λ old new, o2c !! old = Some new) (data labels_orig) (data cons).
Proof. pose proof (relabelConsecutive_spec labels_orig) as H. by rewrite Hrc in H. Qed.

Lemma o2c_inv : labelmap_inv (data labels_orig) o2c.
Proof. apply relabel_facts. Qed.

Lemma o2c_le x c : o2c !! x = Some c → c ≤ maxc.
Proof.
  destruct relabel_facts as (Hinv & -> & _). intros Hx.
  pose proof (lm_bound _ _ Hinv _ _ Hx). lia.
Qed.

Lemma o2c_key x c : o2c !! x = Some c → x ≤ max_orig.
Proof. intros Hx. apply max_N_ge, elem_of_elements, elem_of_dom. by eexists. Qed.

Lemma o2c_total c : c ≤ maxc → ∃ x, o2c !! x = Some c.
Proof.
  destruct relabel_facts as (Hinv & -> & _). intros Hc.
  apply (lm_onto _ _ Hinv). pose proof (lm_bound _ _ Hinv _ _ (lm_zero _ _ Hinv)). lia.
Qed.

Lemma cons_elem i c :
  data cons !! i = Some c → ∃ x, data labels_orig !! i = Some x ∧ o2c !! x = Some c.
Proof.
  destruct relabel_facts as (_ & _ & _ & Hcons). intros Hc.
  destruct (Forall2_lookup_r _ _ _ _ _ Hcons Hc) as (x & Hx & Hxc). by exists x.
Qed.

Lemma orig_elem i x :
  data labels_orig !! i = Some x → ∃ c, data cons !! i = Some c ∧ o2c !! x = Some c.
Proof.
  destruct relabel_facts as (_ & _ & _ & Hcons). intros Hx.
  destruct (Forall2_lookup_l _ _ _ _ _ Hcons Hx) as (c & Hc & Hxc). by exists c.
Qed.

Lemma maxc_n : N.to_nat maxc = n.
Proof.
  pose proof (relabelConsecutive_occurs labels_orig) as Hocc. rewrite Hrc in Hocc.
  cbn [fst snd] in Hocc. unfold n. symmetry. apply Nat.le_antisymm.
  - apply max_list_with_le. intros c [i Hi]%list_elem_of_lookup.
    destruct (cons_elem _ _ Hi) as (x & _ & Hx). apply o2c_le in Hx. lia.
  - destruct (decide (maxc = 0)) as [->|Hnz]; [cbn; lia|].
    apply (max_list_with_ge N.to_nat). apply Hocc. lia.
Qed.

Let c2o : gmap N N := dict (prod_swap <$> map_to_list o2c).

Lemma c2o_Ok : reverse_dict o2c = Ok c2o.
Proof. apply reverse_dict_Ok. intros x y c. apply (lm_inj _ _ o2c_inv). Qed.

Lemma c2o_lookup c x : c2o !! c = Some x ↔ o2c !! x = Some c.
Proof. apply (reverse_dict_spec _ _ c2o_Ok). Qed.

Let fresh : gmap N N := dict (zip (range (1 + maxc) k) (range (1 + max_orig) k)).

Lemma fresh_lookup y v :
  fresh !! y = Some v ↔
  ∃ j, (j < k)%nat ∧ y = 1 + maxc + N.of_nat j ∧ v = 1 + max_orig + N.of_nat j.
Proof.
  unfold fresh. rewrite dict_lookup_iff.
  - rewrite elem_of_zip_range by (by rewrite length_range). split.
    + intros (j & Hj & ->). pose proof (lookup_lt_Some _ _ _ Hj) as Hlt.
      rewrite length_range in Hlt. rewrite lookup_range in Hj by done.
      injection Hj as <-. by exists j.
    + intros (j & Hj & -> & ->). exists j. by rewrite lookup_range.
  - rewrite fst_zip by (by rewrite !length_range). apply NoDup_range.
Qed.

Let cws : gmap N N := fresh ∪ c2o.

Lemma cws_lookup y v :
  cws !! y = Some v ↔
  (∃ j, (j < k)%nat ∧ y = 1 + maxc + N.of_nat j ∧ v = 1 + max_orig + N.of_nat j)
  ∨ o2c !! v = Some y.
Proof.
  unfold cws. rewrite lookup_union_Some_raw, fresh_lookup, c2o_lookup.
  split; [intros [?|[_ ?]]; auto|].
  intros [?|Ho]; [by left|]. right. split; [|done].
  destruct (fresh !! y) eqn:E; [|done].
  apply fresh_lookup in E as (j & _ & -> & _). apply o2c_le in Ho. lia.
Qed.

Lemma cws_injective : injective_dict cws.
Proof.
  intros y y' v [(j & Hj & -> & ->)|Ho]%cws_lookup [(j' & Hj' & -> & Hv)|Ho']%cws_lookup.
  - f_equal. lia.
  - apply o2c_key in Ho'. lia.
  - apply o2c_key in Ho. lia.
  - congruence.
Qed.

Lemma cws_dom y : is_Some (cws !! y) ↔ (N.to_nat y ≤ n + k)%nat.
Proof.
  pose proof maxc_n as Hn. split.
  - intros [v [(j & Hj & -> & _)|Ho]%cws_lookup]; [lia | apply o2c_le in Ho; lia].
  - intros Hy. destruct (decide (y ≤ maxc)) as [Hle|Hgt].
    + destruct (o2c_total y Hle) as [x Hx]. exists x. apply cws_lookup. by right.
    + exists (1 + max_orig + N.of_nat (N.to_nat y - S n)). apply cws_lookup. left.
      exists (N.to_nat y - S n)%nat. split_and!; [lia | lia | done].
Qed.

Let s2ows : gmap N N := omap (cws !!.) s2nc.

Lemma s2ows_Ok : compose_mappings [s2nc; cws] = Ok s2ows.
Proof.
  cbn [compose_mappings foldM]. rewrite compose2_Ok; [done|].
  intros s y Hs. apply cws_dom. by apply (smi_values _ _ _ _ _ _ Hsmi s).
Qed.

Lemma pair_at i x s :
  data labels_orig !! i = Some x → data split !! i = Some s →
  ∃ c, o2c !! x = Some c ∧ (c, s) ∈ zip (data cons) (data split).
Proof.
  intros Hx Hs. destruct (orig_elem _ _ Hx) as (c & Hc & Hxc). exists c. split; [done|].
  apply list_elem_of_lookup. exists i. rewrite lookup_zip_with, Hc. cbn. by rewrite Hs.
Qed.

Lemma pair_voxel c s :
  (c, s) ∈ zip (data cons) (data split) →
  ∃ i x, data labels_orig !! i = Some x ∧ data split !! i = Some s ∧ o2c !! x = Some c.
Proof.
  intros [i Hi]%list_elem_of_lookup. rewrite lookup_zip_with in Hi.
  destruct (data cons !! i) as [c'|] eqn:Ec; [|done]. cbn in Hi.
  destruct (data split !! i) as [s'|] eqn:Es; [|done]. injection Hi as -> ->.
  destruct (cons_elem _ _ Ec) as (x & Hx & Hxc). by exists i, x.
Qed.

(** The label a voxel gets: the id of its component, sent through the
    table of fresh labels. *)
Lemma new_label_at i x s :
  data labels_orig !! i = Some x → data split !! i = Some s →
  ∃ c y key, o2c !! x = Some c ∧ s2nc !! s = Some y ∧ nc2o !! y = Some c ∧
    cws !! y = Some key ∧ s2ows !! s = Some key ∧
    (main !! N.to_nat c = Some s → key = x) ∧
    (main !! N.to_nat c ≠ Some s → max_orig < key).
Proof.
  intros Hx Hs. destruct (pair_at _ _ _ Hx Hs) as (c & Hxc & Hin).
  destruct (smi_voxel _ _ _ _ _ _ Hsmi _ _ Hin) as (y & Hy & Hyc & Hmain & Hother).
  destruct (proj2 (cws_dom y)) as [key Hkey];
    [by apply (smi_values _ _ _ _ _ _ Hsmi s)|].
  exists c, y, key. split_and!; try done.
  - unfold s2ows. rewrite lookup_omap, Hy. done.
  - intros Hm. specialize (Hmain Hm). subst y.
    apply cws_lookup in Hkey as [(j & _ & -> & _)|Hkc].
    + apply o2c_le in Hxc. lia.
    + by apply (lm_inj _ _ o2c_inv key x c).
  - intros Hm. specialize (Hother Hm). fold n in Hother.
    apply cws_lookup in Hkey as [(j & _ & _ & ->)|Hkc]; [lia|].
    apply o2c_le in Hkc. pose proof maxc_n. lia.
Qed.

Let new : ndarray :=
  {| shape := shape split; data := (λ s, default 0 (s2ows !! s)) <$> data split |}.

Lemma length_split : length (data split) = length (data labels_orig).
Proof.
  destruct Hlab as [<- _]. destruct relabel_facts as (_ & _ & _ & Hcons).
  symmetry. by eapply Forall2_length.
Qed.

Lemma applyMapping_new : applyMapping split s2ows false (shape labels_orig) = Ok new.
Proof.
  unfold applyMapping. rewrite bool_decide_false.
  - rewrite (mapM_Ok_fmap _ (λ s, default 0 (s2ows !! s))); [done|].
    intros s [i Hs]%list_elem_of_lookup.
    destruct (lookup_lt_is_Some_2 (data labels_orig) i) as [x Hx].
    { rewrite <- length_split. by eapply lookup_lt_Some. }
    destruct (new_label_at _ _ _ Hx Hs) as (c & y & key & _ & _ & _ & _ & Hkey & _).
    by rewrite Hkey.
  - intros H. apply H. rewrite Hshape. apply relabel_facts.
Qed.

Lemma new_lookup i s key :
  data split !! i = Some s → data new !! i = Some key → s2ows !! s = Some key.
Proof.
  intros Hs. cbn. rewrite list_lookup_fmap, Hs. cbn. intros [= <-].
  destruct (lookup_lt_is_Some_2 (data labels_orig) i) as [x Hx].
  { rewrite <- length_split. by eapply lookup_lt_Some. }
  destruct (new_label_at _ _ _ Hx Hs) as (c & y & key & _ & _ & _ & _ & Hkey & _).
  by rewrite Hkey.
Qed.

Let ows2cws : gmap N N := dict (prod_swap <$> map_to_list cws).

Lemma ows2cws_Ok : reverse_dict cws = Ok ows2cws.
Proof. apply reverse_dict_Ok, cws_injective. Qed.

Lemma ows2cws_lookup key y : ows2cws !! key = Some y ↔ cws !! y = Some key.
Proof. apply (reverse_dict_spec _ _ ows2cws_Ok). Qed.

Let ows2orig : gmap N N := omap (c2o !!.) (omap (nc2o !!.) ows2cws).

Lemma ows2orig_Ok : compose_mappings [ows2cws; nc2o; c2o] = Ok ows2orig.
Proof.
  cbn [compose_mappings foldM]. rewrite compose2_Ok.
  - cbn [mbind result_bind]. rewrite compose2_Ok; [done|].
    intros key c. rewrite lookup_omap.
    destruct (ows2cws !! key) as [y|] eqn:Ey; [|done]. cbn. intros Hc.
    destruct (smi_back _ _ _ _ _ _ Hsmi _ _ Hc) as [(s & _ & [Hin|[_ ->]]) _].
    + apply elem_of_zip_l in Hin. apply list_elem_of_lookup in Hin as [i Hi].
      destruct (cons_elem _ _ Hi) as (x & _ & Hx). exists x. by apply c2o_lookup.
    + exists 0. apply c2o_lookup. apply (lm_zero _ _ o2c_inv).
  - intros key y Hy%ows2cws_lookup. apply (smi_dom _ _ _ _ _ _ Hsmi). apply cws_dom.
    by eexists.
Qed.

Lemma ows2orig_lookup key v :
  ows2orig !! key = Some v ↔
  ∃ y c, cws !! y = Some key ∧ nc2o !! y = Some c ∧ o2c !! v = Some c.
Proof.
  unfold ows2orig. rewrite !lookup_omap. split.
  - destruct (ows2cws !! key) as [y|] eqn:Ey; [|done]. cbn.
    destruct (nc2o !! y) as [c|] eqn:Ec; [|done]. cbn. intros Hv.
    exists y, c. split_and!; [by apply ows2cws_lookup | done | by apply c2o_lookup].
  - intros (y & c & Hy%ows2cws_lookup & Hc & Hv%c2o_lookup). rewrite Hy. cbn.
    rewrite Hc. done.
Qed.

Let new_to_orig : gmap N N :=
  filter (λ kv : N * N, kv.2 ∈ (list_to_set (map_to_list
            (filter (λ kv : N * N, max_orig < kv.1) ows2orig)).*2 : gset N)) ows2orig
  ∪ filter (λ kv : N * N, max_orig < kv.1) ows2orig.

Lemma new_to_orig_lookup key v :
  new_to_orig !! key = Some v ↔
  ows2orig !! key = Some v ∧ ∃ key', ows2orig !! key' = Some v ∧ max_orig < key'.
Proof.
  assert (Hsplit : ∀ v, v ∈ (list_to_set (map_to_list
                     (filter (λ kv : N * N, max_orig < kv.1) ows2orig)).*2 : gset N) ↔
            ∃ key', ows2orig !! key' = Some v ∧ max_orig < key').
  { intros v0. rewrite elem_of_list_to_set, list_elem_of_fmap. split.
    - intros ([key' v'] & -> & Hin).
      apply elem_of_map_to_list, map_lookup_filter_Some in Hin as [Hk' Hgt]. by exists key'.
    - intros (key' & Hk' & Hgt). exists (key', v0). split; [done|].
      by apply elem_of_map_to_list, map_lookup_filter_Some. }
  unfold new_to_orig. rewrite lookup_union_Some_raw, !map_lookup_filter_Some. cbn [fst snd].
  rewrite Hsplit. split.
  - intros [[Hk Hs]|[_ [Hk Hgt]]]; [done|]. split; [done|]. by exists key.
  - intros [Hk Hs]. by left.
Qed.

Lemma split_disconnected_bodies_Ok :
  split_disconnected_bodies labelMultiArrayWithBackground labels_orig = Ok (new, new_to_orig).
Proof.
  unfold split_disconnected_bodies. rewrite Hrc. cbn beta iota.
  rewrite c2o_Ok. cbn [mbind result_bind]. fold split. rewrite Hmaps.
  cbn [mbind result_bind]. rewrite (smi_size _ _ _ _ _ _ Hsmi). fold n. rewrite maxc_n.
  replace (S n + k - n - 1)%nat with k by lia.
  fold max_orig. fold fresh. fold cws.
  rewrite s2ows_Ok. cbn [mbind result_bind].
  rewrite applyMapping_new. cbn [mbind result_bind].
  rewrite ows2cws_Ok. cbn [mbind result_bind].
  rewrite ows2orig_Ok. cbn [mbind result_bind]. done.
Qed.

Lemma cons_is_fmap : data cons = (λ old, default 0 (o2c !! old)) <$> data labels_orig.
Proof.
  destruct relabel_facts as (_ & _ & _ & Hcons). symmetry.
  apply fmap_eq_of_lookup; [by eapply Forall2_length|].
  intros i x c Hx Hc. destruct (orig_elem _ _ Hx) as (c' & Hc' & Hxc). rewrite Hxc. cbn.
  congruence.
Qed.

(** The component kept for a segment is its largest piece. *)
Lemma main_largest i x s c :
  data labels_orig !! i = Some x → o2c !! x = Some c →
  main !! N.to_nat c = Some s ↔ largest_piece labels_orig split x s.
Proof.
  intros Hx Hxc.
  assert (Heq : ∀ s', count_pairs (data cons) (data split) c s'
                      = count_pairs (data labels_orig) (data split) x s').
  { intros s'. rewrite cons_is_fmap.
    replace c with ((λ old, default 0 (o2c !! old)) x) by (by rewrite Hxc).
    apply (count_pairs_relabel (λ old, default 0 (o2c !! old))).
    intros x' [j Hj]%list_elem_of_lookup. destruct (orig_elem _ _ Hj) as (c' & _ & Hc').
    rewrite Hc', Hxc. cbn. intros ->. by apply (lm_inj _ _ o2c_inv x' x c). }
  assert (Hlp : ∀ s', largest_piece cons split c s' ↔ largest_piece labels_orig split x s').
  { intros s'. unfold largest_piece. by setoid_rewrite Heq. }
  split.
  - intros Hm. apply Hlp. pose proof (smi_main_largest _ _ _ _ _ _ Hsmi _ _ Hm) as H.
    by rewrite N2Nat.id in H.
  - intros Hl. destruct (lookup_lt_is_Some_2 main (N.to_nat c)) as [s' Hs'].
    { rewrite (smi_main_length _ _ _ _ _ _ Hsmi). fold n. apply o2c_le in Hxc.
      pose proof maxc_n. lia. }
    rewrite Hs'. f_equal. pose proof (smi_main_largest _ _ _ _ _ _ Hsmi _ _ Hs') as H.
    rewrite N2Nat.id in H. apply Hlp in H.
    by apply (largest_piece_unique labels_orig split x).
Qed.

Lemma split_new_label i x s key :
  data labels_orig !! i = Some x → data split !! i = Some s → data new !! i = Some key →
  ows2orig !! key = Some x ∧
  (main !! N.to_nat (default 0 (o2c !! x)) = Some s → key = x) ∧
  (main !! N.to_nat (default 0 (o2c !! x)) ≠ Some s → max_orig < key).
Proof.
  intros Hx Hs Hk. apply (new_lookup _ _ _ Hs) in Hk.
  destruct (new_label_at _ _ _ Hx Hs)
    as (c & y & key' & Hxc & Hy & Hyc & Hcws & Hkey' & Hmain & Hother).
  rewrite Hk in Hkey'. injection Hkey' as <-. rewrite Hxc. cbn.
  split; [|done]. apply ows2orig_lookup. by exists y, c.
Qed.

Lemma split_new_components i j si sj ki kj :
  data split !! i = Some si → data split !! j = Some sj →
  data new !! i = Some ki → data new !! j = Some kj →
  ki = kj ↔ si = sj.
Proof.
  intros Hsi Hsj Hki Hkj.
  apply (new_lookup _ _ _ Hsi) in Hki. apply (new_lookup _ _ _ Hsj) in Hkj.
  split; [|intros ->; congruence].
  unfold s2ows in Hki, Hkj. rewrite lookup_omap in Hki, Hkj.
  destruct (s2nc !! si) as [yi|] eqn:Ei; [|done].
  destruct (s2nc !! sj) as [yj|] eqn:Ej; [|done]. cbn in Hki, Hkj.
  intros ->. assert (yi = yj) as -> by (by apply (cws_injective yi yj kj)).
  by apply (smi_injective _ _ _ _ _ _ Hsmi si sj yj).
Qed.

Lemma new_at i : (i < length (data labels_orig))%nat → ∃ s key,
  data split !! i = Some s ∧ data new !! i = Some key.
Proof.
  intros Hi. destruct (lookup_lt_is_Some_2 (data split) i) as [s Hs];
    [by rewrite length_split|].
  exists s, (default 0 (s2ows !! s)). split; [done|].
  cbn. by rewrite list_lookup_fmap, Hs.
Qed.

Lemma new_background i key :
  data labels_orig !! i = Some 0 → data new !! i = Some key → key = 0.
Proof.
  intros Hx Hk. destruct (new_at i) as (s & key' & Hs & Hk'); [by eapply lookup_lt_Some|].
  destruct (pair_at _ _ _ Hx Hs) as (c & Hc & Hin).
  rewrite (lm_zero _ _ o2c_inv) in Hc. injection Hc as <-.
  assert (s = 0) as -> by (by apply (labelling_zero cons split Hlab 0 s)).
  apply (new_lookup _ _ _ Hs) in Hk. unfold s2ows in Hk.
  rewrite lookup_omap, (smi_zero _ _ _ _ _ _ Hsmi) in Hk. cbn in Hk.
  apply cws_lookup in Hk as [(j & _ & ? & _)|Hk]; [lia|].
  by apply (lm_inj _ _ o2c_inv key 0 0); [|apply (lm_zero _ _ o2c_inv)].
Qed.

Lemma ows2orig_voxel key v :
  ows2orig !! key = Some v →
  (key = 0 ∧ v = 0) ∨ ∃ i, data new !! i = Some key ∧ data labels_orig !! i = Some v.
Proof.
  intros (y & c & Hy & Hc & Hv)%ows2orig_lookup.
  destruct (smi_back _ _ _ _ _ _ Hsmi _ _ Hc) as [(s & Hs & [Hin|[-> ->]]) _].
  - right. destruct (pair_voxel _ _ Hin) as (i & x & Hx & Hsi & Hxc).
    assert (x = v) as -> by (by apply (lm_inj _ _ o2c_inv x v c)).
    exists i. split; [|done]. cbn. rewrite list_lookup_fmap, Hsi. cbn.
    unfold s2ows. rewrite lookup_omap, Hs. cbn. by rewrite Hy.
  - left. rewrite (smi_zero _ _ _ _ _ _ Hsmi) in Hs. injection Hs as <-. split.
    + apply cws_lookup in Hy as [(j & _ & ? & _)|Hk]; [lia|].
      by apply (lm_inj _ _ o2c_inv key 0 0); [|apply (lm_zero _ _ o2c_inv)].
    + by apply (lm_inj _ _ o2c_inv v 0 0); [|apply (lm_zero _ _ o2c_inv)].
Qed.

Lemma split_mapping key v :
  new_to_orig !! key = Some v ↔
  (∃ i, data new !! i = Some key ∧ data labels_orig !! i = Some v) ∧
  (∃ j kj, data labels_orig !! j = Some v ∧ data new !! j = Some kj ∧ kj ≠ v).
Proof.
  rewrite new_to_orig_lookup. split.
  - intros (Hk & key' & Hk' & Hgt).
    assert (Hj : ∃ j, data new !! j = Some key' ∧ data labels_orig !! j = Some v).
    { destruct (ows2orig_voxel _ _ Hk') as [[-> _]|Hj]; [lia | done]. }
    destruct Hj as (j & Hnj & Hoj). split.
    + destruct (ows2orig_voxel _ _ Hk) as [[-> ->]|Hi]; [|done].
      pose proof (new_background _ _ Hoj Hnj). lia.
    + exists j, key'. split_and!; [done..|].
      destruct (orig_elem _ _ Hoj) as (c & _ & Hc). apply o2c_key in Hc. lia.
  - intros [(i & Hni & Hoi) (j & kj & Hoj & Hnj & Hne)].
    destruct (new_at i) as (si & ki & Hsi & Hki); [by eapply lookup_lt_Some|].
    destruct (new_at j) as (sj & kj' & Hsj & Hkj); [by eapply lookup_lt_Some|].
    destruct (split_new_label _ _ _ _ Hoi Hsi Hni) as (Hk & _).
    destruct (split_new_label _ _ _ _ Hoj Hsj Hnj) as (Hk' & Hmain & Hother).
    split; [done|]. exists kj. split; [done|]. apply Hother. intros Hm. by apply Hne, Hmain.
Qed.

(** Everything at once, with the intermediate dicts hidden. *)
Lemma split_section_summary :
  ∃ labels_new new_to_orig',
    split_disconnected_bodies labelMultiArrayWithBackground labels_orig
      = Ok (labels_new, new_to_orig') ∧
    shape labels_new = shape labels_orig ∧
    length (data labels_new) = length (data labels_orig) ∧
    (∀ i x s key, data labels_orig !! i = Some x → data split !! i = Some s →
       data labels_new !! i = Some key →
       (largest_piece labels_orig split x s → key = x) ∧
       (¬ largest_piece labels_orig split x s → ∀ x', x' ∈ data labels_orig → x' < key)) ∧
    (∀ i j si sj ki kj, data split !! i = Some si → data split !! j = Some sj →
       data labels_new !! i = Some ki → data labels_new !! j = Some kj →
       ki = kj ↔ si = sj) ∧
    (∀ key v, new_to_orig' !! key = Some v ↔
       (∃ i, data labels_new !! i = Some key ∧ data labels_orig !! i = Some v) ∧
       (∃ j kj, data labels_orig !! j = Some v ∧ data labels_new !! j = Some kj ∧ kj ≠ v)).
Proof.
  exists new, new_to_orig. split; [apply split_disconnected_bodies_Ok|].
  split; [cbn; rewrite Hshape; apply relabel_facts|].
  split; [cbn; by rewrite length_fmap, length_split|]. split_and!.
  - intros i x s key Hx Hs Hk.
    destruct (split_new_label _ _ _ _ Hx Hs Hk) as (_ & Hmain & Hother).
    destruct (orig_elem _ _ Hx) as (c & _ & Hc). rewrite Hc in Hmain, Hother.
    cbn in Hmain, Hother. split.
    + intros Hl. apply Hmain. by apply (main_largest i x s c).
    + intros Hnl x' [j Hj]%list_elem_of_lookup.
      destruct (orig_elem _ _ Hj) as (c' & _ & Hc'). apply o2c_key in Hc'.
      assert (max_orig < key); [|lia].
      apply Hother. intros Hm. apply Hnl. by apply (main_largest i x s c).
  - apply split_new_components.
  - apply split_mapping.
Qed.

End split_total.

Lemma relabelConsecutive_bound (labels : ndarray) c :
  c ∈ data (relabelConsecutive labels).1.1 → (N.to_nat c ≤ length (data labels))%nat.
Proof.
  pose proof (relabelConsecutive_spec labels) as H.
  unfold relabelConsecutive in *. cbn [fst snd] in *.
  destruct H as (Hinv & _ & _ & Hall).
  change (foldl _ {[0 := 0]} (data labels)) with (foldl labelmap_step {[0 := 0]} (data labels)) in *.
  pose proof (labelmap_size_le (data labels) {[0 := 0]}) as Hsize.
  rewrite map_size_singleton in Hsize.
  intros [i Hi]%list_elem_of_lookup.
  destruct (Forall2_lookup_r _ _ _ _ _ Hall Hi) as (x & _ & Hx).
  pose proof (lm_bound _ _ Hinv _ _ Hx). lia.
Qed.

(** [split_disconnected_bodies] returns on every non-empty volume of
    fewer than 2^31 voxels that vigra labels as assumed, and what it
    returns is described voxel by voxel. *)
Lemma split_disconnected_bodies_total (labelMultiArrayWithBackground : ndarray → ndarray)
    (labels_orig : ndarray) :
  data labels_orig ≠ [] →
  N.of_nat (length (data labels_orig)) < 2 ^ 31 →
  labelling_contract labelMultiArrayWithBackground labels_orig →
  ∃ labels_new new_to_orig,
    split_disconnected_bodies labelMultiArrayWithBackground labels_orig
      = Ok (labels_new, new_to_orig) ∧
    shape labels_new = shape labels_orig ∧
    length (data labels_new) = length (data labels_orig) ∧
    (∀ i x s key, data labels_orig !! i = Some x →
       data (labelMultiArrayWithBackground (relabelConsecutive labels_orig).1.1) !! i = Some s →
       data labels_new !! i = Some key →
       (largest_piece labels_orig
          (labelMultiArrayWithBackground (relabelConsecutive labels_orig).1.1) x s → key = x) ∧
       (¬ largest_piece labels_orig
            (labelMultiArrayWithBackground (relabelConsecutive labels_orig).1.1) x s →
        ∀ x', x' ∈ data labels_orig → x' < key)) ∧
    (∀ i j si sj ki kj,
       data (labelMultiArrayWithBackground (relabelConsecutive labels_orig).1.1) !! i = Some si →
       data (labelMultiArrayWithBackground (relabelConsecutive labels_orig).1.1) !! j = Some sj →
       data labels_new !! i = Some ki → data labels_new !! j = Some kj →
       ki = kj ↔ si = sj) ∧
    (∀ key v, new_to_orig !! key = Some v ↔
       (∃ i, data labels_new !! i = Some key ∧ data labels_orig !! i = Some v) ∧
       (∃ j kj, data labels_orig !! j = Some v ∧ data labels_new !! j = Some kj ∧ kj ≠ v)).
Proof.
  intros Hne Hlen (Hshape & H31s & Hlab).
  pose proof (relabelConsecutive_bound labels_orig) as Hbound.
  pose proof (relabelConsecutive_occurs labels_orig) as Hocc.
  pose proof (relabelConsecutive_spec labels_orig) as Hspec.
  destruct (relabelConsecutive labels_orig) as [[cons maxc] o2c] eqn:Hrc.
  cbn [fst snd] in *. destruct Hspec as (Hinv & Hmaxc & Hsh & Hcons).
  destruct (split_body_mappings_total cons (labelMultiArrayWithBackground cons))
    as (main & s2nc & nc2o & k & Hmaps & Hsmi).
  - done.
  - intros Hnil. apply Hne. apply Forall2_length in Hcons. rewrite Hnil in Hcons.
    by destruct (data labels_orig).
  - apply Forall_forall. intros c Hc%Hbound. lia.
  - done.
  - intros c Hc Hcm. apply Hocc. split; [done|].
    rewrite <- (maxc_n labels_orig cons maxc o2c Hrc) in Hcm. lia.
  - apply (split_section_summary labelMultiArrayWithBackground labels_orig cons maxc o2c
             Hrc Hshape Hlab main s2nc nc2o k Hmaps Hsmi).
Qed.


(** ** What split-body relabeling returns *)



(** X24.  In the volume [split_disconnected_bodies] returns, a voxel keeps
    its label when its component is the largest piece of its segment (the
    lowest-numbered one among equally large pieces); every other voxel
    gets a label above all labels of the input. *)
Theorem split_keeps_largest_piece
    (labelMultiArrayWithBackground : ndarray → ndarray)
    (labels_orig labels_new : ndarray) (new_to_orig : gmap N N) :
  data labels_orig ≠ [] →
  N.of_nat (length (data labels_orig)) < 2 ^ 31 →
  labelling_contract labelMultiArrayWithBackground labels_orig →
  split_disconnected_bodies labelMultiArrayWithBackground labels_orig
    = Ok (labels_new, new_to_orig) →
  ∀ i x s key,
    data labels_orig !! i = Some x →
    data (labelMultiArrayWithBackground (relabelConsecutive labels_orig).1.1) !! i = Some s →
    data labels_new !! i = Some key →
    (largest_piece labels_orig
       (labelMultiArrayWithBackground (relabelConsecutive labels_orig).1.1) x s → key = x) ∧
    (¬ largest_piece labels_orig
         (labelMultiArrayWithBackground (relabelConsecutive labels_orig).1.1) x s →
     ∀ x', x' ∈ data labels_orig → x' < key).
Proof.
  intros Hne Hlen Hc HOk.
  destruct (split_disconnected_bodies_total _ _ Hne Hlen Hc)
    as (labels_new' & new_to_orig' & HOk' & _ & _ & Hvox & _).
  rewrite HOk in HOk'. injection HOk' as <- <-. exact Hvox.
Qed.

Lemma split_keeps_largest_piece_witness :
  (largest_piece three_pieces
     (connected_components (relabelConsecutive three_pieces).1.1) 3 2 → 9 = 3) ∧
  (¬ largest_piece three_pieces
       (connected_components (relabelConsecutive three_pieces).1.1) 3 2 →
   ∀ x', x' ∈ data three_pieces → x' < 9).
Proof.
  apply (split_keeps_largest_piece connected_components three_pieces three_pieces_result
           {[10 := 3; 9 := 3; 3 := 3]}) with (i := 3%nat).
  - done.
  - reflexivity.
  - unfold labelling_contract. split_and!; apply (bool_decide_unpack _); by vm_compute.
  - vm_compute. reflexivity.
  - reflexivity.
  - vm_compute. reflexivity.
  - reflexivity.
Defined.

(** X25.  The segments of the returned volume are the components: two
    voxels get the same label exactly when vigra put them in the same
    component. *)
Theorem split_segments_are_components
    (labelMultiArrayWithBackground : ndarray → ndarray)
    (labels_orig labels_new : ndarray) (new_to_orig : gmap N N) :
  data labels_orig ≠ [] →
  N.of_nat (length (data labels_orig)) < 2 ^ 31 →
  labelling_contract labelMultiArrayWithBackground labels_orig →
  split_disconnected_bodies labelMultiArrayWithBackground labels_orig
    = Ok (labels_new, new_to_orig) →
  ∀ i j si sj ki kj,
    data (labelMultiArrayWithBackground (relabelConsecutive labels_orig).1.1) !! i = Some si →
    data (labelMultiArrayWithBackground (relabelConsecutive labels_orig).1.1) !! j = Some sj →
    data labels_new !! i = Some ki → data labels_new !! j = Some kj →
    ki = kj ↔ si = sj.
Proof.
  intros Hne Hlen Hc HOk.
  destruct (split_disconnected_bodies_total _ _ Hne Hlen Hc)
    as (labels_new' & new_to_orig' & HOk' & _ & _ & _ & Hcomp & _).
  rewrite HOk in HOk'. injection HOk' as <- <-. exact Hcomp.
Qed.

Lemma split_segments_are_components_witness : (3 : N) = 9 ↔ (1 : N) = 2.
Proof.
  apply (split_segments_are_components connected_components three_pieces three_pieces_result
           {[10 := 3; 9 := 3; 3 := 3]}) with (i := 0%nat) (j := 3%nat).
  - done.
  - reflexivity.
  - unfold labelling_contract. split_and!; apply (bool_decide_unpack _); by vm_compute.
  - vm_compute. reflexivity.
  - vm_compute. reflexivity.
  - vm_compute. reflexivity.
  - reflexivity.
  - reflexivity.
Defined.

(** X26.  The mapping [split_disconnected_bodies] returns holds exactly
    the pairs (label in the returned volume, label in the input) of the
    voxels of the segments that were split, that is of the segments with
    a voxel whose label changed; the pair of the piece that kept its
    label is among them. *)
Theorem split_mapping_entries
    (labelMultiArrayWithBackground : ndarray → ndarray)
    (labels_orig labels_new : ndarray) (new_to_orig : gmap N N) :
  data labels_orig ≠ [] →
  N.of_nat (length (data labels_orig)) < 2 ^ 31 →
  labelling_contract labelMultiArrayWithBackground labels_orig →
  split_disconnected_bodies labelMultiArrayWithBackground labels_orig
    = Ok (labels_new, new_to_orig) →
  ∀ key v, new_to_orig !! key = Some v ↔
    (∃ i, data labels_new !! i = Some key ∧ data labels_orig !! i = Some v) ∧
    (∃ j kj, data labels_orig !! j = Some v ∧ data labels_new !! j = Some kj ∧ kj ≠ v).
Proof.
  intros Hne Hlen Hc HOk.
  destruct (split_disconnected_bodies_total _ _ Hne Hlen Hc)
    as (labels_new' & new_to_orig' & HOk' & _ & _ & _ & _ & Hmap).
  rewrite HOk in HOk'. injection HOk' as <- <-. exact Hmap.
Qed.

Lemma split_mapping_entries_witness :
  ({[10 := 3; 9 := 3; 3 := 3]} : gmap N N) !! 10 = Some 3 ↔
  (∃ i, data three_pieces_result !! i = Some 10 ∧ data three_pieces !! i = Some 3) ∧
  (∃ j kj, data three_pieces !! j = Some 3 ∧ data three_pieces_result !! j = Some kj
           ∧ kj ≠ 3).
Proof.
  apply (split_mapping_entries connected_components three_pieces three_pieces_result
           {[10 := 3; 9 := 3; 3 := 3]}).
  - done.
  - reflexivity.
  - unfold labelling_contract. split_and!; apply (bool_decide_unpack _); by vm_compute.
  - vm_compute. reflexivity.
Defined.


(** ** Reading precomputed segmentations *)

(** The characters of a formatted integer are digits and the sign. *)
Lemma pretty_N_char_digit x :
  pretty_N_char x ∈ list_ascii_of_string "0123456789".
Proof.
  unfold pretty_N_char. repeat case_match; cbn; repeat (first [by left | right]).
Qed.

Lemma pretty_N_go_chars x : ∀ s c,
  c ∈ list_ascii_of_string (pretty_N_go x s) →
  c ∈ list_ascii_of_string "0123456789" ∨ c ∈ list_ascii_of_string s.
Proof.
  induction (N.lt_wf_0 x) as [x _ IH]. intros s c.
  destruct (decide (x = 0)) as [->|Hx].
  - rewrite pretty_N_go_0. by right.
  - rewrite pretty_N_go_step by lia. intros Hc.
    apply IH in Hc as [Hc|Hc]; [by left | | apply N.div_lt; lia].
    cbn in Hc. apply elem_of_cons in Hc as [->|Hc]; [left; apply pretty_N_char_digit | by right].
Qed.

Lemma pretty_Z_chars (z : Z) c :
  c ∈ list_ascii_of_string (pretty z) → c ∈ list_ascii_of_string "-0123456789".
Proof.
  assert (Hd : ∀ c, c ∈ list_ascii_of_string "0123456789" →
                    c ∈ list_ascii_of_string "-0123456789") by (intros c' H; cbn in *; by right).
  assert (HN : ∀ p c, c ∈ list_ascii_of_string (pretty (N.pos p)) →
                      c ∈ list_ascii_of_string "0123456789").
  { intros p c'. unfold pretty, pretty_N. rewrite decide_False by done.
    intros [?|Hc]%pretty_N_go_chars; [done|]. cbn in Hc. by apply elem_of_nil in Hc. }
  destruct z as [|p|p]; unfold pretty, pretty_Z.
  - cbn. rewrite list_elem_of_singleton. intros ->. right. by left.
  - intros Hc. apply Hd. by apply (HN p).
  - cbn. intros [->|Hc]%elem_of_cons; [by left|]. apply Hd. by apply (HN p).
Qed.

Lemma pretty_Z_nonempty (z : Z) : pretty z ≠ EmptyString.
Proof.
  assert (HN : ∀ x s, s ≠ EmptyString → pretty_N_go x s ≠ EmptyString).
  { intros x. induction (N.lt_wf_0 x) as [x _ IH]. intros s Hs.
    destruct (decide (x = 0)) as [->|Hx]; [by rewrite pretty_N_go_0|].
    rewrite pretty_N_go_step by lia. apply IH; [apply N.div_lt; lia | done]. }
  destruct z as [|p|p]; unfold pretty, pretty_Z; [done| |done].
  unfold pretty, pretty_positive, pretty, pretty_N. rewrite decide_False by done.
  rewrite pretty_N_go_step by lia. by apply HN.
Qed.

(** Two strings cut at a separator that occurs in neither first part. *)
Lemma append_separator_inj (sep : ascii) (s1 s2 t1 t2 : string) :
  sep ∉ list_ascii_of_string s1 → sep ∉ list_ascii_of_string s2 →
  s1 +:+ String sep t1 = s2 +:+ String sep t2 → s1 = s2 ∧ t1 = t2.
Proof.
  revert s2. induction s1 as [|a s1 IH]; intros [|b s2] H1 H2; cbn.
  - by intros [= ->].
  - intros [= <- _]. exfalso. apply H2. cbn. by left.
  - intros [= -> _]. exfalso. apply H1. cbn. by left.
  - intros [= -> Heq]. destruct (IH s2) as [-> ->]; [| |done|done].
    + intros ?. apply H1. cbn. by right.
    + intros ?. apply H2. cbn. by right.
Qed.

Lemma filename_inj (sv sv' : Subvolume) :
  filename sv = filename sv' →
  z1 (sv_box sv) = z1 (sv_box sv') ∧ y1 (sv_box sv) = y1 (sv_box sv') ∧
  x1 (sv_box sv) = x1 (sv_box sv').
Proof.
  assert (Hsep : ∀ (c : ascii) (z : Z), c ∉ list_ascii_of_string "-0123456789" →
                   c ∉ list_ascii_of_string (pretty z)).
  { intros c z Hc Hin. by apply Hc, (pretty_Z_chars z). }
  assert (Hu : "_"%char ∉ list_ascii_of_string "-0123456789").
  { cbn. rewrite !elem_of_cons, elem_of_nil. intros H. by repeat destruct H as [H|H]. }
  assert (Hp : "."%char ∉ list_ascii_of_string "-0123456789").
  { cbn. rewrite !elem_of_cons, elem_of_nil. intros H. by repeat destruct H as [H|H]. }
  unfold filename. intros H.
  apply append_separator_inj in H as [Hz H]; [|by apply Hsep..].
  apply append_separator_inj in H as [Hy H]; [|by apply Hsep..].
  apply (append_separator_inj "." _ _ "h5" "h5") in H as [Hx _]; [|by apply Hsep..].
  split_and!; by apply (inj pretty).
Qed.

Lemma filename_not_absolute (sv : Subvolume) : String.prefix "/" (filename sv) = false.
Proof.
  unfold filename. pose proof (pretty_Z_nonempty (z1 (sv_box sv))) as Hne.
  pose proof (pretty_Z_chars (z1 (sv_box sv))) as Hc.
  destruct (pretty (z1 (sv_box sv))) as [|a s]; [done|].
  match goal with |- String.prefix _ (_ +:+ ?t) = _ => generalize t end. intros t.
  change (String.prefix "/" (String a (s +:+ t)) = false). cbn [String.prefix].
  destruct (Ascii.ascii_dec "/" a) as [<-|]; [|done]. exfalso.
  specialize (Hc "/"%char ltac:(cbn; by left)). cbn in Hc.
  rewrite !elem_of_cons, elem_of_nil in Hc. by repeat destruct Hc as [Hc|Hc].
Qed.

(** X27.  [read_subvolume] names the file of a block after the corner
    (z1, y1, x1) of its box: under one segmentation path two subvolumes
    are read from the same file exactly when their boxes start at the same
    corner, so no two blocks of a partition share a file. *)
Theorem block_files_are_distinct (segmentation_path : string) (sv sv' : Subvolume) :
  filepath segmentation_path sv = filepath segmentation_path sv' ↔
  z1 (sv_box sv) = z1 (sv_box sv') ∧ y1 (sv_box sv) = y1 (sv_box sv') ∧
  x1 (sv_box sv) = x1 (sv_box sv').
Proof.
  split.
  - unfold filepath, os_path_join. rewrite !filename_not_absolute.
    destruct (_ || _); intros H; apply filename_inj.
    + by apply (inj (String.app segmentation_path)) in H.
    + apply (inj (String.app segmentation_path)) in H. by injection H.
  - intros (Hz & Hy & Hx). unfold filepath, filename. by rewrite Hz, Hy, Hx.
Qed.

Section read_subvolume_facts.
Variable h5py_File : string → option (string → option ndarray).

Lemma max_N_bound (l : list N) b : max_N l ≤ b → Forall (λ x, x ≤ b) l.
Proof.
  intros H. apply Forall_forall. intros x Hx%max_N_ge. lia.
Qed.

(** X28.  [read_subvolume] never changes a label.  Whatever it returns
    is a [uint32] array: the stored dataset as it is when the file of the
    block can be opened, a block of zeros of the default shape when it
    cannot.  It returns the dataset whenever that is not empty and holds
    no label beyond [uint32]; a label beyond [uint32] trips the assertion
    instead of being truncated. *)
Theorem read_subvolume_keeps_labels (segmentation_path h5_dataset_key : string)
    (default_shape : nat * nat * nat) (subvolume : Subvolume) :
  (∀ seg,
     read_subvolume h5py_File segmentation_path h5_dataset_key default_shape subvolume
       = Ok seg →
     Forall (λ l, l < 2 ^ 32) (data seg) ∧
     match h5py_File (filepath segmentation_path subvolume) with
     | None => seg = zeros default_shape
     | Some h5_f => h5_f h5_dataset_key = Some seg
     end) ∧
  (∀ h5_f seg,
     h5py_File (filepath segmentation_path subvolume) = Some h5_f →
     h5_f h5_dataset_key = Some seg → data seg ≠ [] →
     (Forall (λ l, l < 2 ^ 32) (data seg) →
      read_subvolume h5py_File segmentation_path h5_dataset_key default_shape subvolume
        = Ok seg) ∧
     (¬ Forall (λ l, l < 2 ^ 32) (data seg) →
      ∃ msg, read_subvolume h5py_File segmentation_path h5_dataset_key default_shape
               subvolume = Raise (AssertionError msg))).
Proof.
  assert (Hmax : ∀ l : list N, max_N l ≤ 2 ^ 32 - 1 ↔ Forall (λ l, l < 2 ^ 32) l).
  { intros l. split.
    - intros H%max_N_bound. eapply Forall_impl; [exact H|]. intros x. cbn. lia.
    - intros H. induction H as [|a d Ha _ IH]; cbn; [lia|]. unfold max_N in IH. lia. }
  assert (Hid : ∀ seg, Forall (λ l, l < 2 ^ 32) (data seg) →
                       array_map (λ l, l `mod` 2 ^ 32) seg = seg).
  { intros [sh d] Hall. unfold array_map. cbn in *. f_equal.
    rewrite <- (list_fmap_id d) at 2. apply list_fmap_ext.
    intros i l Hl. cbn. apply N.mod_small.
    rewrite Forall_forall in Hall. apply Hall. by eapply list_elem_of_lookup_2. }
  unfold read_subvolume. split.
  - intros seg'. destruct (h5py_File _) as [h5_f|].
    + destruct (h5_f h5_dataset_key) as [seg|]; [|done]. cbn [of_option mbind result_bind].
      case_bool_decide as Hne; [done|]. unfold assert.
      case_bool_decide as Hall; [|done]. cbn [mbind result_bind].
      apply Hmax in Hall. rewrite (Hid _ Hall). by intros [= <-].
    + intros [= <-]. split; [|done]. cbn. apply Forall_forall.
      intros l [-> _]%elem_of_replicate. done.
  - intros h5_f seg -> Hseg Hne. rewrite Hseg. cbn [of_option mbind result_bind].
    rewrite bool_decide_false by done. unfold assert. split.
    + intros Hall. rewrite bool_decide_true by (by apply Hmax). cbn [mbind result_bind].
      by rewrite (Hid _ Hall).
    + intros Hnot. rewrite bool_decide_false by (by rewrite Hmax). by eexists.
Qed.

End read_subvolume_facts.

